(** * easyterm.commandlineopt: the command-line option parser

    A shallow embedding of [command_line_options] and [match_any_word]
    (src/easyterm/commandlineopt.py) with the properties of the parser
    stated and proved over it.

    Conventions of the embedding.
    - Python [str] values are Rocq strings, one [ascii] per code point
      (code points 0..255).
    - Python dicts keyed by strings are insertion-ordered association
      lists ([dict]); [dset] is [d[k] = v], [dget] is the raw lookup and
      [getitem] is [CommandLineOptions.__getitem__] (absent key: [None]).
    - Python [list] objects live in a store of list objects addressed by
      locations; a value of type list is a reference [VList l].
    - The structures owned by the caller ([default_opt], [synonyms],
      [positional_keys], [tolerated_regexp]) and [sys.argv] are cells of
      the program state [Store]; the function reads and updates them
      there, so that aliasing with the caller is explicit.
    - [int(s)], [float(s)], [str(x)] and [re.compile(w).search(s)] belong
      to the Python runtime, not to this repository: they are the fields
      of the class [PyRuntime]. *)

From Stdlib Require Import ZArith Ascii String List Bool Lia.
From Stdlib Require Import DecimalString DecimalZ DecimalPos DecimalFacts.
From stdpp Require Import base option list strings gmap.
From stdpp Require Import sorting.

Open Scope string_scope.
Open Scope list_scope.
Open Scope nat_scope.

(** ** Python strings *)

(** [c.isspace()] for a code point below 256. *)
Definition is_whitespace (c : ascii) : bool :=
  let n := nat_of_ascii c in
  ((9 <=? n) && (n <=? 13)) || ((28 <=? n) && (n <=? 32))
  || (n =? 133) || (n =? 160).

(** [c in string.ascii_uppercase + string.ascii_lowercase]. *)
Definition accepted_option_char (c : ascii) : bool :=
  let n := nat_of_ascii c in
  ((65 <=? n) && (n <=? 90)) || ((97 <=? n) && (n <=? 122)).

(** [len(s.split())]: the number of maximal runs of non-whitespace
    characters; [in_word] tells whether the previous character was part
    of such a run. *)
Fixpoint split_count (in_word : bool) (s : string) : nat :=
  match s with
  | EmptyString => 0
  | String c s' =>
      if is_whitespace c then split_count false s'
      else if in_word then split_count true s'
      else S (split_count true s')
  end.

Definition startswith_dash (s : string) : bool :=
  match s with
  | String "-" _ => true
  | _ => false
  end.

(** [s.lstrip('-')]. *)
Fixpoint lstrip_dash (s : string) : string :=
  match s with
  | String "-" s' => lstrip_dash s'
  | _ => s
  end.

(** The test of lines 183-184 and 235-236:
    [bit.startswith('-') and len(bit.split())==1 and len(bit)>1 and
     bit[1] in CommandLineOptions.accepted_option_chars]. *)
Definition is_option_key (bit : string) : bool :=
  startswith_dash bit
  && (split_count false bit =? 1)
  && (1 <? String.length bit)
  && match String.get 1 bit with
     | Some c => accepted_option_char c
     | None => false
     end.

(** [[i for i, bit in enumerate(arglist) if ...]], counting from [i]. *)
Fixpoint option_indices_from (i : nat) (arglist : list string) : list nat :=
  match arglist with
  | [] => []
  | bit :: rest =>
      if is_option_key bit then i :: option_indices_from (S i) rest
      else option_indices_from (S i) rest
  end.

Definition opt_key_indices (arglist : list string) : list nat :=
  option_indices_from 0 arglist.

(** ** Python lists of tokens *)

(** [l[a:b]] for [0 <= a]; [b = None] is an omitted upper bound. *)
Definition slice {A} (l : list A) (a : nat) (b : option nat) : list A :=
  match b with
  | Some b => take (b - a) (drop a l)
  | None => drop a l
  end.

(** [l.insert(i, x)]: an index past the end appends. *)
Definition list_insert_at {A} (i : nat) (x : A) (l : list A) : list A :=
  take i l ++ x :: drop i l.

(** ** Python dicts with string keys *)

Definition dict (V : Type) : Type := list (string * V).

Fixpoint dget {V} (k : string) (d : dict V) : option V :=
  match d with
  | [] => None
  | (k', v) :: d' => if String.eqb k' k then Some v else dget k d'
  end.

(** [k in d]. *)
Definition dmem {V} (k : string) (d : dict V) : bool :=
  match dget k d with
  | Some _ => true
  | None => false
  end.

(** [d[k] = v]: an existing key keeps its position. *)
Fixpoint dset {V} (k : string) (v : V) (d : dict V) : dict V :=
  match d with
  | [] => [(k, v)]
  | (k', v') :: d' =>
      if String.eqb k' k then (k', v) :: d' else (k', v') :: dset k v d'
  end.

Definition dkeys {V} (d : dict V) : list string := map fst d.

(** [dict(items)]: a new dict holding the items in order. *)
Definition dict_copy {V} (d : dict V) : dict V :=
  fold_left (fun acc kv => dset (fst kv) (snd kv) acc) d [].

(** ** Errors and outcomes *)

Inductive pytype : Type :=
| TNone | TBool | TInt | TFloat | TList | TStr.

Definition pytype_eqb (a b : pytype) : bool :=
  match a, b with
  | TNone, TNone | TBool, TBool | TInt, TInt
  | TFloat, TFloat | TList, TList | TStr, TStr => true
  | _, _ => false
  end.

(** The [CommandLineError]s of the function, one constructor per
    [raise], carrying what its message is formatted from. *)
Inductive command_line_error : Type :=
| BadValueType (t : pytype) (opt_key : string)
| BadListDefault (opt_key : string)
| AbsentPositionalKeys (pks : list string)
| BeforeOrAfter
| ExtraArgument (args : list string)
| UnexpectedOption (opt_key : string)
| NoArgument (t : pytype) (opt_key : string)
| BadBoolean (opt_key : string) (arg : string)
| WrongType (opt_key : string) (arg : string).

(** Exceptions that leave the function. [DanglingRef] is not a Python
    exception: it marks a reference to no list object, which no Python
    state contains. *)
Inductive exn : Type :=
| CommandLineError (e : command_line_error)
| NameError (name : string)
| TypeError
| IndexError
| SystemExit
| DanglingRef.

Inductive result (A : Type) : Type :=
| Ok (a : A)
| Raise (e : exn).
Arguments Ok {A} a.
Arguments Raise {A} e.

(** The calls of [warnings.warn]. *)
Inductive warning : Type :=
| IgnoringExtraArgument (args : list string)
| AcceptingUnexpectedOption (opt_key : string).

(** State and exceptions: a computation maps a state to a result and
    the state it leaves, also when it raises. *)
Definition M (S A : Type) : Type := S -> result A * S.

Definition ret {S A} (a : A) : M S A := fun s => (Ok a, s).

Definition raise {S A} (e : exn) : M S A := fun s => (Raise e, s).

Definition bind {S A B} (c : M S A) (k : A -> M S B) : M S B :=
  fun s =>
    match c s with
    | (Ok a, s') => k a s'
    | (Raise e, s') => (Raise e, s')
    end.

Definition lift {S A} (r : result A) : M S A := fun s => (r, s).

Definition gets {S A} (f : S -> A) : M S A := fun s => (Ok (f s), s).

Definition modify {S} (f : S -> S) : M S unit := fun s => (Ok tt, f s).

Notation "'let*' x := c1 'in' c2" := (bind c1 (fun x => c2))
  (at level 10, x pattern, c1 at level 100, c2 at level 200).
Notation "c1 ;;; c2" := (bind c1 (fun _ => c2))
  (at level 100, c2 at level 200, right associativity).

(** [l[i]] on a Python list: [IndexError] out of range. *)
Definition index {A} (l : list A) (i : nat) : result A :=
  match l !! i with
  | Some x => Ok x
  | None => Raise IndexError
  end.

(** ** The Python runtime *)

Class PyRuntime : Type := {
  (** the values of type [float] and their truth value *)
  pyfloat : Type;
  float_truthy : pyfloat -> bool;
  (** [int(s)] and [float(s)]; [None] is [ValueError] *)
  int_of_str : string -> option Z;
  float_of_str : string -> option pyfloat;
  (** [str(z)] and [str(x)] for an int and a float *)
  str_of_int : Z -> string;
  str_of_float : pyfloat -> string;
  (** valid patterns of module [re], and
      [re.compile(w, flags).search(s) is not None] *)
  regexp : Type;
  re_search : forall (ignore_case : bool), regexp -> string -> bool
}.

(** ** Values, list objects and the program state *)

Section Model.
Context `{rt : PyRuntime}.

Definition loc : Type := positive.

(** The values a schema or a result can hold. [VNone] is Python's
    [None], the value of [getitem] at an absent key; its type stands for
    every type outside [accepted_option_types]. *)
Inductive value : Type :=
| VNone
| VBool (b : bool)
| VInt (z : Z)
| VFloat (f : pyfloat)
| VStr (s : string)
| VList (l : loc).

(** [type(v)]. *)
Definition type_of (v : value) : pytype :=
  match v with
  | VNone => TNone
  | VBool _ => TBool
  | VInt _ => TInt
  | VFloat _ => TFloat
  | VStr _ => TStr
  | VList _ => TList
  end.

(** [t in CommandLineOptions.accepted_option_types]. *)
Definition accepted_option_type (t : pytype) : bool :=
  match t with
  | TNone => false
  | _ => true
  end.

(** [CommandLineOptions.__getitem__]. *)
Definition getitem (d : dict value) (name : string) : value :=
  match dget name d with
  | Some v => v
  | None => VNone
  end.

(** What [write] of module [colorprint] is called with. *)
Inductive output : Type :=
| OutText (msg : string)
| OutOptions (opt : dict value).

Record Store : Type := mkStore {
  (** the caller's objects *)
  default_opt_obj : dict value;
  synonyms_obj : dict string;
  positional_keys_obj : list string;
  tolerated_regexp_obj : list regexp;
  (** [sys.argv] *)
  sys_argv : list string;
  (** the list objects *)
  lists : gmap loc (list value);
  (** the calls of [warnings.warn] and of [write], oldest first *)
  warned : list warning;
  written : list output
}.

Definition set_synonyms (f : dict string -> dict string) (s : Store) : Store :=
  mkStore (default_opt_obj s) (f (synonyms_obj s)) (positional_keys_obj s)
          (tolerated_regexp_obj s) (sys_argv s) (lists s) (warned s)
          (written s).

Definition set_lists (f : gmap loc (list value) -> gmap loc (list value))
    (s : Store) : Store :=
  mkStore (default_opt_obj s) (synonyms_obj s) (positional_keys_obj s)
          (tolerated_regexp_obj s) (sys_argv s) (f (lists s)) (warned s)
          (written s).

Definition add_warning (w : warning) (s : Store) : Store :=
  mkStore (default_opt_obj s) (synonyms_obj s) (positional_keys_obj s)
          (tolerated_regexp_obj s) (sys_argv s) (lists s) (warned s ++ [w])
          (written s).

Definition add_output (o : output) (s : Store) : Store :=
  mkStore (default_opt_obj s) (synonyms_obj s) (positional_keys_obj s)
          (tolerated_regexp_obj s) (sys_argv s) (lists s) (warned s)
          (written s ++ [o]).

(** [warnings.warn(w)] and [write(o)]. *)
Definition warn (w : warning) : M Store unit := modify (add_warning w).
Definition write (o : output) : M Store unit := modify (add_output o).

(** A new list object holding [xs]. *)
Definition new_list (xs : list value) : M Store loc :=
  fun s =>
    let l := fresh (dom (lists s)) in
    (Ok l, set_lists (insert l xs) s).

(** The elements of the list object at [l]. *)
Definition read_list (l : loc) : M Store (list value) :=
  fun s =>
    match lists s !! l with
    | Some xs => (Ok xs, s)
    | None => (Raise DanglingRef, s)
    end.

(** [copy.copy(v)]: a list is copied to a new list object with the same
    elements, a value of an immutable type is returned as it is. *)
Definition copy (v : value) : M Store value :=
  match v with
  | VList l => let* xs := read_list l in let* l' := new_list xs in ret (VList l')
  | _ => ret v
  end.

(** [bool(v)]. *)
Definition truthy (v : value) : M Store bool :=
  match v with
  | VNone => ret false
  | VBool b => ret b
  | VInt z => ret (negb (z =? 0)%Z)
  | VFloat f => ret (float_truthy f)
  | VStr s => ret (negb (String.eqb s ""))
  | VList l => let* xs := read_list l in ret (negb (length xs =? 0))
  end.

Definition is_str (v : value) : bool :=
  match v with
  | VStr _ => true
  | _ => false
  end.

(** ** [match_any_word], as called with [is_pattern=True] *)

Definition match_any_word (main_string : string) (word_list : list regexp)
    (ignore_case : bool) : bool :=
  existsb (fun w => re_search ignore_case w main_string) word_list.

(** ** [command_line_options], block by block *)

(** Lines 156-159: the local copy of the schema with the builtin keys. *)
Definition add_builtin (builtin_opt : string) (default_opt : dict value)
  : dict value :=
  if negb (dmem builtin_opt default_opt)
  then dset builtin_opt (VBool false) default_opt
  else default_opt.

Definition with_builtins (default_opt : dict value) : dict value :=
  add_builtin "print_opt" (add_builtin "h" (dict_copy default_opt)).

(** Lines 166-175: the loop over the items of [default_opt]. *)
Fixpoint check_default_opt (items : dict value) : M Store unit :=
  match items with
  | [] => ret tt
  | (opt_key, v) :: rest =>
      let expected_type := type_of v in
      if negb (accepted_option_type expected_type)
      then raise (CommandLineError (BadValueType expected_type opt_key))
      else
        (match v with
         | VList l =>
             let* xs := read_list l in
             if existsb (fun x => negb (is_str x)) xs
             then raise (CommandLineError (BadListDefault opt_key))
             else ret tt
         | _ => ret tt
         end) ;;;
        check_default_opt rest
  end.

(** Lines 176-178. *)
Definition check_positional_keys (default_opt : dict value)
    (positional_keys : list string) : M Store unit :=
  let absent :=
    List.filter (fun pk => negb (dmem pk default_opt)) positional_keys in
  if 0 <? length absent
  then raise (CommandLineError (AbsentPositionalKeys absent))
  else ret tt.

(** Lines 186-211: where the positional arguments are. [placement] is
    the variable [positionals] when it is not [None]. *)
Inductive placement : Type :=
| PBefore
| PAfter.

(** Lines 188-191: [(from_here, up_to)] of the arguments provided before
    the explicit options, or with no options. *)
Definition positionals_before (arglist : list string) (oki : list nat)
  : option (nat * option nat) :=
  if 0 <? length arglist
  then match oki with
       | [] => Some (0, None)
       | first :: _ => if negb (first =? 0) then Some (0, Some first) else None
       end
  else None.

(** The type the schema gives the key of the last option, read without
    the synonyms (line 196 and the lookups of lines 199 and 204). *)
Definition last_key_type (default_opt : dict value) (last_bit : string)
  : pytype :=
  type_of (getitem default_opt (lstrip_dash last_bit)).

(** The test of lines 197-199. *)
Definition positionals_after (default_opt : dict value)
    (arglist : list string) (last_ki : nat) (last_bit : string) : bool :=
  (last_ki <? length arglist - 2)
  && negb (pytype_eqb (last_key_type default_opt last_bit) TList).

(** Lines 204-210: [from_here] of the arguments provided after the
    explicit options. *)
Definition after_from_here (default_opt : dict value)
    (arglist : list string) (last_ki : nat) (last_bit : string) : nat :=
  if pytype_eqb (last_key_type default_opt last_bit) TBool
  then
    if (last_ki + 1 <? length arglist)
       && match arglist !! (last_ki + 1) with
          | Some a => String.eqb a "0" || String.eqb a "1"
          | None => false
          end
    then last_ki + 2
    else last_ki + 1
  else last_ki + 2.

Definition find_positionals (default_opt : dict value)
    (arglist : list string) (oki : list nat)
  : result (option (placement * nat * option nat)) :=
  let before :=
    match positionals_before arglist oki with
    | Some (from_here, up_to) => Some (PBefore, from_here, up_to)
    | None => None
    end in
  if (0 <? length arglist) && (0 <? length oki)
  then
    match last oki with
    | None => Ok before
    | Some last_ki =>
        match index arglist last_ki with
        | Raise e => Raise e
        | Ok last_bit =>
            if positionals_after default_opt arglist last_ki last_bit
            then
              match before with
              | Some _ => Raise (CommandLineError BeforeOrAfter)
              | None =>
                  Ok (Some (PAfter,
                            after_from_here default_opt arglist last_ki
                                            last_bit,
                            None))
              end
            else Ok before
        end
    end
  else Ok before.

(** Lines 219-229: the loop over [enumerate(arglist[from_here:up_to])],
    at index [i] with [values] left; the result is [insert_these]. *)
Fixpoint positional_loop (default_opt : dict value) (tolerate_extra : bool)
    (positional_keys : list string) (arglist : list string)
    (from_here : nat) (up_to : option nat)
    (i : nat) (values : list string) (insert_these : list (nat * string))
  : M Store (list (nat * string)) :=
  match values with
  | [] => ret insert_these
  | _ :: values' =>
      if length positional_keys <? i + 1
      then
        if tolerate_extra
        then
          warn (IgnoringExtraArgument (slice arglist (from_here + 1) up_to)) ;;;
          ret insert_these
        else
          raise (CommandLineError
                   (ExtraArgument (slice arglist (from_here + i) up_to)))
      else
        let* key := lift (index positional_keys i) in
        let insert_these := insert_these ++ [(from_here + i, key)] in
        if pytype_eqb (type_of (getitem default_opt key)) TList
        then ret insert_these
        else positional_loop default_opt tolerate_extra positional_keys
               arglist from_here up_to (S i) values' insert_these
  end.

(** Lines 231-232: [arglist.insert(i, f"-{key_opt}")] over
    [insert_these[::-1]]. *)
Definition insert_keys (insert_these : list (nat * string))
    (arglist : list string) : list string :=
  fold_left (fun al ik => list_insert_at (fst ik) ("-" +:+ snd ik) al)
            (rev insert_these) arglist.

(** Lines 216-236: the positional keys made explicit in [arglist]. *)
Definition insert_positionals (default_opt : dict value)
    (tolerate_extra : bool) (positional_keys : list string)
    (arglist : list string) (from_here : nat) (up_to : option nat)
  : M Store (list string) :=
  let* insert_these :=
    positional_loop default_opt tolerate_extra positional_keys arglist
      from_here up_to 0 (slice arglist from_here up_to) [] in
  ret (insert_keys insert_these arglist).

(** Lines 243-250: the arguments between the argument of the previous
    option and the option at [i]; [previous] is [None] when [ni = 0] and
    otherwise holds [opt_key_indices[ni-1]] and the [opt_key] left by the
    previous iteration. *)
Definition check_gap (default_opt : dict value) (tolerate_extra : bool)
    (arglist : list string) (previous : option (nat * string)) (i : nat)
  : M Store unit :=
  match previous with
  | Some (previous_ki, previous_key) =>
      if (previous_ki + 1 <? i - 1)
         && negb (pytype_eqb (type_of (getitem default_opt previous_key)) TList)
      then
        if tolerate_extra
        then warn (IgnoringExtraArgument
                     (slice arglist (previous_ki + 2) (Some i)))
        else raise (CommandLineError
                      (ExtraArgument
                         (slice arglist (previous_ki + 2) (Some i))))
      else ret tt
  | None => ret tt
  end.

(** Lines 253-255. *)
Definition resolve_key (synonyms : dict string) (bit : string) : string :=
  let opt_key := lstrip_dash bit in
  match dget opt_key synonyms with
  | Some k => k
  | None => opt_key
  end.

(** Lines 258-269: [expected_type], [None] for a tolerated key that is
    not in [default_opt]. *)
Definition expected_type_of (default_opt : dict value)
    (tolerate_extra : bool) (tolerated_regexp : list regexp)
    (warning_extra : bool) (opt_key : string) : M Store (option pytype) :=
  if negb (dmem opt_key default_opt)
  then
    if tolerate_extra
       || ((0 <? length tolerated_regexp)
           && match_any_word opt_key tolerated_regexp false)
    then
      (if warning_extra
       then warn (AcceptingUnexpectedOption opt_key)
       else ret tt) ;;;
      ret None
    else raise (CommandLineError (UnexpectedOption opt_key))
  else ret (Some (type_of (getitem default_opt opt_key))).

(** The test of lines 276-277: the option is provided without argument.
    [len(arglist)-1==i] is written [len(arglist) == i+1]. *)
Definition no_argument (arglist : list string) (i : nat)
    (next_ki : option nat) : bool :=
  match next_ki with
  | Some n => n =? i + 1
  | None => length arglist =? i + 1
  end.

(** Lines 274-301: the value of the option at [i]. *)
Definition option_value (arglist : list string) (i : nat)
    (next_ki : option nat) (expected_type : option pytype)
    (opt_key : string) : M Store value :=
  if negb (match expected_type with Some TList => true | _ => false end)
  then
    if no_argument arglist i next_ki
    then
      match expected_type with
      | Some TBool | None => ret (VBool true)
      | Some t => raise (CommandLineError (NoArgument t opt_key))
      end
    else
      let expected_type :=
        match expected_type with
        | None => TStr
        | Some t => t
        end in
      let* arg := lift (index arglist (i + 1)) in
      match expected_type with
      | TBool =>
          if String.eqb arg "1" then ret (VBool true)
          else if String.eqb arg "0" then ret (VBool false)
          else raise (CommandLineError (BadBoolean opt_key arg))
      | TInt =>
          match int_of_str arg with
          | Some z => ret (VInt z)
          | None => raise (CommandLineError (WrongType opt_key arg))
          end
      | TFloat =>
          match float_of_str arg with
          | Some f => ret (VFloat f)
          | None => raise (CommandLineError (WrongType opt_key arg))
          end
      | TStr => ret (VStr arg)
      | TNone => raise TypeError
      | TList =>
          let* l := new_list (map (fun c => VStr (String c ""))
                                  (list_ascii_of_string arg)) in
          ret (VList l)
      end
  else
    let stop :=
      match next_ki with
      | Some n => n
      | None => length arglist
      end in
    let* l := new_list (map VStr (slice arglist (i + 1) (Some stop))) in
    ret (VList l).

(** Lines 252-301: the key and the value of the option at [i];
    [next_ki] is [None] for the last option key. *)
Definition read_option (default_opt : dict value) (synonyms : dict string)
    (tolerate_extra : bool) (tolerated_regexp : list regexp)
    (warning_extra : bool) (arglist : list string) (i : nat)
    (next_ki : option nat) : M Store (string * value) :=
  let* bit := lift (index arglist i) in
  let opt_key := resolve_key synonyms bit in
  let* expected_type :=
    expected_type_of default_opt tolerate_extra tolerated_regexp
      warning_extra opt_key in
  let* value := option_value arglist i next_ki expected_type opt_key in
  ret (opt_key, value).

(** Lines 241-302: the loop over [enumerate(opt_key_indices)], with
    [indices] left; line 302 is the [dset]. *)
Fixpoint main_loop (default_opt : dict value) (synonyms : dict string)
    (tolerate_extra : bool) (tolerated_regexp : list regexp)
    (warning_extra : bool) (arglist : list string)
    (previous : option (nat * string)) (indices : list nat)
    (opt : dict value) : M Store (dict value) :=
  match indices with
  | [] => ret opt
  | i :: rest =>
      check_gap default_opt tolerate_extra arglist previous i ;;;
      let* kv :=
        read_option default_opt synonyms tolerate_extra tolerated_regexp
          warning_extra arglist i (head rest) in
      main_loop default_opt synonyms tolerate_extra tolerated_regexp
        warning_extra arglist (Some (i, fst kv)) rest
        (dset (fst kv) (snd kv) opt)
  end.

(** Lines 305-307: the loop over the items of [default_opt]. *)
Fixpoint fill_defaults (items : dict value) (opt : dict value)
  : M Store (dict value) :=
  match items with
  | [] => ret opt
  | (opt_key, v) :: rest =>
      if negb (dmem opt_key opt)
      then let* v' := copy v in fill_defaults rest (dset opt_key v' opt)
      else fill_defaults rest opt
  end.

(** Lines 156-307: everything up to the filled-in [opt]. *)
Definition parse_command_line (tolerate_extra warning_extra : bool)
  : M Store (dict value) :=
  let* caller_default_opt := gets default_opt_obj in
  let default_opt := with_builtins caller_default_opt in
  let opt : dict value := [] in
  let* argv := gets sys_argv in
  let arglist := drop 1 argv in
  modify (set_synonyms (dset "help" "h")) ;;;
  let* synonyms := gets synonyms_obj in
  check_default_opt default_opt ;;;
  let* positional_keys := gets positional_keys_obj in
  check_positional_keys default_opt positional_keys ;;;
  let oki := opt_key_indices arglist in
  let* positionals := lift (find_positionals default_opt arglist oki) in
  let* arglist :=
    match positionals with
    | Some (_, from_here, up_to) =>
        insert_positionals default_opt tolerate_extra positional_keys
          arglist from_here up_to
    | None => ret arglist
    end in
  let oki := opt_key_indices arglist in
  let* tolerated_regexp := gets tolerated_regexp_obj in
  let* opt :=
    main_loop default_opt synonyms tolerate_extra tolerated_regexp
      warning_extra arglist None oki opt in
  fill_defaults default_opt opt.

(** [v in d] for a dict [d] with string keys: a list is unhashable. *)
Definition in_string_dict (v : value) (d : dict string) : result bool :=
  match v with
  | VStr s => Ok (dmem s d)
  | VList _ => Raise TypeError
  | _ => Ok false
  end.

(** Lines 309-321. The name [advanced] of line 313 is bound nowhere. *)
Definition help_and_print (help_msg : string)
    (advanced_help_msg : dict string) (opt : dict value)
  : M Store (dict value) :=
  let* h := truthy (getitem opt "h") in
  (if h
   then
     write (OutText help_msg) ;;;
     if 0 <? length advanced_help_msg
     then
       let* found := lift (in_string_dict (getitem opt "h") advanced_help_msg) in
       if found then raise (NameError "advanced") else ret tt
     else ret tt
   else ret tt) ;;;
  let* p := truthy (getitem opt "print_opt") in
  (if p then write (OutOptions opt) else ret tt) ;;;
  let* h := (if dmem "h" opt then truthy (getitem opt "h") else ret false) in
  if h then raise SystemExit else ret opt.

Definition command_line_options (help_msg : string)
    (tolerate_extra warning_extra : bool) (advanced_help_msg : dict string)
  : M Store (dict value) :=
  let* opt := parse_command_line tolerate_extra warning_extra in
  help_and_print help_msg advanced_help_msg opt.

End Model.


(** * The other functions of the module

    [match_any_word] with all its parameters, and
    [CommandLineOptions.__repr__]. What they ask of the Python runtime
    beyond [PyRuntime] is the class [PyText]. *)

Class PyText `{rt : PyRuntime} : Type := {
  (** [re.compile(w, flags)]: the pattern that [w] writes; [None] is
      [re.error] *)
  re_compile : forall (ignore_case : bool), string -> option regexp;
  (** [s.lower()] *)
  str_lower : string -> string;
  (** [str(v)] for a value of a mapping, the list objects being read in
      the store *)
  str_value : gmap loc (list value) -> value -> string
}.

Section OtherFunctions.
Context `{rt : PyRuntime} `{txt : !PyText}.

(** ** [match_any_word] *)

(** [s.startswith(w)]. *)
Fixpoint startswith (w s : string) : bool :=
  match w, s with
  | EmptyString, _ => true
  | String a w', String b s' => Ascii.eqb a b && startswith w' s'
  | String _ _, EmptyString => false
  end.

(** [w in s] for two strings: [w] starts at some position of [s]. *)
Fixpoint contains (w s : string) : bool :=
  startswith w s
  || match s with
     | EmptyString => false
     | String _ s' => contains w s'
     end.

(** What a call of [match_any_word] ends with: the boolean it returns,
    or the [re.error] of [re.compile] for the word [w]. *)
Inductive match_outcome : Type :=
| Returned (b : bool)
| PatternError (w : string).

(** [match_any_word(main_string, word_list, is_pattern, ignore_case)]
    (lines 323-334); the definition [match_any_word] above is this one
    for words that are valid patterns, with [is_pattern=True]. *)
Fixpoint match_any_word_full (main_string : string)
    (word_list : list string) (is_pattern ignore_case : bool)
  : match_outcome :=
  match word_list with
  | [] => Returned false
  | w :: word_list' =>
      if is_pattern
      then
        match re_compile ignore_case w with
        | None => PatternError w
        | Some pattern =>
            if re_search ignore_case pattern main_string
            then Returned true
            else match_any_word_full main_string word_list' is_pattern
                   ignore_case
        end
      else
        if ignore_case
        then
          if contains (str_lower w) (str_lower main_string)
          then Returned true
          else match_any_word_full main_string word_list' is_pattern
                 ignore_case
        else
          if contains w main_string
          then Returned true
          else match_any_word_full main_string word_list' is_pattern
                 ignore_case
  end.

(** ** [CommandLineOptions.__repr__] *)

(** [type(v).__name__]. *)
Definition type_name (t : pytype) : string :=
  match t with
  | TNone => "NoneType"
  | TBool => "bool"
  | TInt => "int"
  | TFloat => "float"
  | TList => "list"
  | TStr => "str"
  end.

Fixpoint spaces (n : nat) : string :=
  match n with
  | 0 => ""
  | S n' => String " " (spaces n')
  end.

(** [f"{s:<{width}}"] for a string [s]: [s] padded with spaces on the
    right up to [width] characters, and left as it is when it is
    longer. *)
Definition ljust (width : nat) (s : string) : string :=
  s +:+ spaces (width - String.length s).

(** [max([len(k) for k in self])]; [None] is the [ValueError] of [max]
    on an empty list. *)
Definition max_charlen (keys : list string) : option nat :=
  match keys with
  | [] => None
  | _ :: _ => Some (max_list (map String.length keys))
  end.

(** The order of [sorted] on strings: code point by code point, a
    proper prefix first. *)
Definition key_le (a b : string) : Prop := String.leb a b = true.

#[global] Instance key_le_dec a b : Decision (key_le a b) :=
  bool_eq_dec (String.leb a b) true.

(** [sorted(self.keys())]. *)
Definition sorted_keys (keys : list string) : list string :=
  merge_sort key_le keys.

Definition newline : string := String "010" "".

(** One line of the representation:
    [f"{k:<{max_charlen}} : {type(self[k]).__name__:<5} = {self[k]}"]. *)
Definition repr_line (h : gmap loc (list value)) (d : dict value)
    (max_charlen : nat) (k : string) : string :=
  ljust max_charlen k +:+ " : "
  +:+ ljust 5 (type_name (type_of (getitem d k))) +:+ " = "
  +:+ str_value h (getitem d k).

(** [CommandLineOptions.__repr__] (lines 22-24), the list objects being
    those of [h]; [None] is the [ValueError] of line 23. *)
Definition CommandLineOptions_repr (h : gmap loc (list value))
    (d : dict value) : option string :=
  match max_charlen (dkeys d) with
  | None => None
  | Some w =>
      Some (String.concat newline
              (map (repr_line h d w) (sorted_keys (dkeys d))))
  end.

End OtherFunctions.

(** * The call with the words of [tolerated_regexp]

    The caller passes [tolerated_regexp] as a list of words, which
    [match_any_word] compiles one at a time (lines 326-329): a word that
    is not a valid pattern raises [re.error] when the loop reaches it.
    This part embeds the call with that exception. The blocks that do
    not look at the words are those of [command_line_options] above. *)

(** What leaves the call: an exception of the blocks above, or the
    [re.error] of [re.compile] for the word [w]. *)
Inductive raised : Type :=
| Exn (e : exn)
| ReError (w : string).

Inductive outcome (A : Type) : Type :=
| Returns (a : A)
| Raises (e : raised).
Arguments Returns {A} a.
Arguments Raises {A} e.

Definition MW (S A : Type) : Type := S -> outcome A * S.

Definition ret_w {S A} (a : A) : MW S A := fun s => (Returns a, s).

Definition raise_w {S A} (e : raised) : MW S A := fun s => (Raises e, s).

Definition bind_w {S A B} (c : MW S A) (k : A -> MW S B) : MW S B :=
  fun s =>
    match c s with
    | (Returns a, s') => k a s'
    | (Raises e, s') => (Raises e, s')
    end.

(** A block of the embedding above, run as it is. *)
Definition of_block {S A} (c : M S A) : MW S A :=
  fun s =>
    match c s with
    | (Ok a, s') => (Returns a, s')
    | (Raise e, s') => (Raises (Exn e), s')
    end.

Notation "'let+' x := c1 'in' c2" := (bind_w c1 (fun x => c2))
  (at level 10, x pattern, c1 at level 100, c2 at level 200).
Notation "c1 ;;+ c2" := (bind_w c1 (fun _ => c2))
  (at level 100, c2 at level 200, right associativity).

Section WordsModel.
Context `{rt0 : PyRuntime} `{txt : !PyText}.

(** The runtime [rt0] with the words themselves for patterns, so that
    the cell [tolerated_regexp_obj] of a state holds the list of strings
    that the caller passes. Its [re_search] is [re.compile(w).search(s)]
    for a word that compiles; the call below does not use it: it
    compiles the words in [match_any_word_full]. *)
Definition word_runtime : PyRuntime := {|
  pyfloat := pyfloat (PyRuntime := rt0);
  float_truthy := float_truthy (PyRuntime := rt0);
  int_of_str := int_of_str (PyRuntime := rt0);
  float_of_str := float_of_str (PyRuntime := rt0);
  str_of_int := str_of_int (PyRuntime := rt0);
  str_of_float := str_of_float (PyRuntime := rt0);
  regexp := string;
  re_search := fun ignore_case w s =>
    match re_compile (rt := rt0) ignore_case w with
    | Some p => re_search (PyRuntime := rt0) ignore_case p s
    | None => false
    end
|}.

Abbreviation WStore := (Store (rt := word_runtime)).
Abbreviation WValue := (value (rt := word_runtime)).

(** The test of lines 259-261:
    [tolerate_extra or (len(tolerated_regexp)>0 and
     match_any_word(opt_key, tolerated_regexp, ignore_case=False))]. *)
Definition tolerated (tolerate_extra : bool) (tolerated_regexp : list string)
    (opt_key : string) : MW WStore bool :=
  if tolerate_extra then ret_w true
  else
    if 0 <? length tolerated_regexp
    then
      match match_any_word_full (rt := rt0) opt_key tolerated_regexp true
              false with
      | Returned b => ret_w b
      | PatternError w => raise_w (ReError w)
      end
    else ret_w false.

(** Lines 258-269. *)
Definition expected_type_of_words (default_opt : dict WValue)
    (tolerate_extra : bool) (tolerated_regexp : list string)
    (warning_extra : bool) (opt_key : string) : MW WStore (option pytype) :=
  if negb (dmem opt_key default_opt)
  then
    let+ accepted := tolerated tolerate_extra tolerated_regexp opt_key in
    if accepted
    then
      of_block
        ((if warning_extra
          then warn (rt := word_runtime) (AcceptingUnexpectedOption opt_key)
          else ret tt) ;;;
         ret None)
    else raise_w (Exn (CommandLineError (UnexpectedOption opt_key)))
  else ret_w (Some (type_of (getitem default_opt opt_key))).

(** Lines 252-301. *)
Definition read_option_words (default_opt : dict WValue)
    (synonyms : dict string) (tolerate_extra : bool)
    (tolerated_regexp : list string) (warning_extra : bool)
    (arglist : list string) (i : nat) (next_ki : option nat)
  : MW WStore (string * WValue) :=
  let+ bit := of_block (lift (index arglist i)) in
  let opt_key := resolve_key synonyms bit in
  let+ expected_type :=
    expected_type_of_words default_opt tolerate_extra tolerated_regexp
      warning_extra opt_key in
  let+ value :=
    of_block (option_value (rt := word_runtime) arglist i next_ki
                expected_type opt_key) in
  ret_w (opt_key, value).

(** Lines 241-302. *)
Fixpoint main_loop_words (default_opt : dict WValue) (synonyms : dict string)
    (tolerate_extra : bool) (tolerated_regexp : list string)
    (warning_extra : bool) (arglist : list string)
    (previous : option (nat * string)) (indices : list nat)
    (opt : dict WValue) : MW WStore (dict WValue) :=
  match indices with
  | [] => ret_w opt
  | i :: rest =>
      of_block (check_gap (rt := word_runtime) default_opt tolerate_extra
                  arglist previous i) ;;+
      let+ kv :=
        read_option_words default_opt synonyms tolerate_extra
          tolerated_regexp warning_extra arglist i (head rest) in
      main_loop_words default_opt synonyms tolerate_extra tolerated_regexp
        warning_extra arglist (Some (i, fst kv)) rest
        (dset (fst kv) (snd kv) opt)
  end.

(** Lines 156-307. *)
Definition parse_command_line_words (tolerate_extra warning_extra : bool)
  : MW WStore (dict WValue) :=
  let+ caller_default_opt := of_block (gets default_opt_obj) in
  let default_opt := with_builtins caller_default_opt in
  let opt : dict WValue := [] in
  let+ argv := of_block (gets sys_argv) in
  let arglist := drop 1 argv in
  of_block (modify (set_synonyms (dset "help" "h"))) ;;+
  let+ synonyms := of_block (gets synonyms_obj) in
  of_block (check_default_opt default_opt) ;;+
  let+ positional_keys := of_block (gets positional_keys_obj) in
  of_block (check_positional_keys default_opt positional_keys) ;;+
  let oki := opt_key_indices arglist in
  let+ positionals :=
    of_block (lift (find_positionals default_opt arglist oki)) in
  let+ arglist :=
    of_block
      (match positionals with
       | Some (_, from_here, up_to) =>
           insert_positionals default_opt tolerate_extra positional_keys
             arglist from_here up_to
       | None => ret arglist
       end) in
  let oki := opt_key_indices arglist in
  let+ tolerated_regexp :=
    of_block (gets (tolerated_regexp_obj (rt := word_runtime))) in
  let+ opt :=
    main_loop_words default_opt synonyms tolerate_extra tolerated_regexp
      warning_extra arglist None oki opt in
  of_block (fill_defaults default_opt opt).

(** Lines 156-321, [re.error] included. *)
Definition command_line_options_words (help_msg : string)
    (tolerate_extra warning_extra : bool) (advanced_help_msg : dict string)
  : MW WStore (dict WValue) :=
  let+ opt := parse_command_line_words tolerate_extra warning_extra in
  of_block (help_and_print help_msg advanced_help_msg opt).

(** The words that can end the call with [re.error]: those of
    [tolerated_regexp] that are not valid patterns, and only without
    [tolerate_extra], which spares the call of [match_any_word]. *)
Definition raising_word (tolerate_extra : bool)
    (tolerated_regexp : list string) (w : string) : Prop :=
  w ∈ tolerated_regexp
  /\ re_compile (rt := rt0) false w = None
  /\ tolerate_extra = false.

(** [cw] does what the block [c] does, or ends with [re.error] for a
    word that satisfies [bad]. *)
Definition agrees (bad : string -> Prop) {A} (cw : MW WStore A)
    (c : M WStore A) : Prop :=
  forall s,
    cw s = of_block c s
    \/ exists w s', bad w /\ cw s = (Raises (ReError w), s').

End WordsModel.
(** ** A runtime for closed examples

    [int] in base ten for code points below 256: surrounding
    whitespace, an optional sign, digits with single underscores between
    them, and at most 4300 digits (the default of
    [sys.int_max_str_digits]). The schemas of the examples hold no float
    and the calls pass no pattern, so that [float] and [re] are never
    called: both types are empty. *)

Definition digit_of (c : ascii) : option Z :=
  let n := nat_of_ascii c in
  if (48 <=? n) && (n <=? 57) then Some (Z.of_nat (n - 48)) else None.

Fixpoint parse_digits (acc : Z) (after_digit : bool) (s : string)
  : option Z :=
  match s with
  | EmptyString => if after_digit then Some acc else None
  | String c s' =>
      match digit_of c with
      | Some d => parse_digits (10 * acc + d) true s'
      | None =>
          if Ascii.eqb c "_" && after_digit
          then parse_digits acc false s'
          else None
      end
  end.

(** The characters that [int] skips around the literal: the ASCII
    whitespace and, of the other code points below 256, the spaces
    U+0085 and U+00A0; U+001C to U+001F are not skipped. *)
Definition int_whitespace (c : ascii) : bool :=
  let n := nat_of_ascii c in
  ((9 <=? n) && (n <=? 13)) || (n =? 32) || (n =? 133) || (n =? 160).

Fixpoint lstrip_whitespace (s : string) : string :=
  match s with
  | String c s' => if int_whitespace c then lstrip_whitespace s' else s
  | EmptyString => s
  end.

Definition strip_whitespace (s : string) : string :=
  String.rev (lstrip_whitespace (String.rev (lstrip_whitespace s))).

Definition count_digits (s : string) : nat :=
  length (List.filter (fun c => match digit_of c with
                                | Some _ => true
                                | None => false
                                end)
                      (list_ascii_of_string s)).

(** The digits of a literal, its sign removed. *)
Definition limited_digits (ds : string) : option Z :=
  if 4300 <? count_digits ds then None else parse_digits 0 false ds.

Definition decimal_int (s : string) : option Z :=
  match strip_whitespace s with
  | String "-" ds => option_map Z.opp (limited_digits ds)
  | String "+" ds => limited_digits ds
  | ds => limited_digits ds
  end.

(** [str(z)] for an [int]. *)
Definition decimal_of_int (z : Z) : string :=
  NilZero.string_of_int (Z.to_int z).

Definition basic_runtime : PyRuntime := {|
  pyfloat := Empty_set;
  float_truthy := fun _ => false;
  int_of_str := decimal_int;
  float_of_str := fun _ => None;
  str_of_int := decimal_of_int;
  str_of_float := fun f => match f with end;
  regexp := Empty_set;
  re_search := fun _ _ _ => false
|}.

(** ** The text of that runtime

    [str.lower] and [str] for code points below 256. No word is a valid
    pattern, the type of the patterns being empty: the examples call
    [re.compile] on words that Python rejects. *)

(** [c.lower()]: the letters A-Z and the capital letters of Latin-1. *)
Definition lower_char (c : ascii) : ascii :=
  let n := nat_of_ascii c in
  if ((65 <=? n) && (n <=? 90))
     || ((192 <=? n) && (n <=? 214))
     || ((216 <=? n) && (n <=? 222))
  then ascii_of_nat (n + 32)
  else c.

Fixpoint lower (s : string) : string :=
  match s with
  | EmptyString => EmptyString
  | String c s' => String (lower_char c) (lower s')
  end.

Definition backslash : ascii := ascii_of_nat 92.
Definition single_quote : ascii := ascii_of_nat 39.
Definition double_quote : ascii := ascii_of_nat 34.

Definition hex_digit (n : nat) : ascii :=
  nth n (list_ascii_of_string "0123456789abcdef") "0"%char.

(** [chr(n).isprintable()] below 256. *)
Definition printable (n : nat) : bool :=
  ((32 <=? n) && (n <=? 126)) || ((161 <=? n) && negb (n =? 173)).

(** One character of [repr(s)] between the quotes [quote]. *)
Definition repr_char (quote c : ascii) : string :=
  let n := nat_of_ascii c in
  if Ascii.eqb c quote || Ascii.eqb c backslash
  then String backslash (String c "")
  else if n =? 9 then String backslash "t"
  else if n =? 10 then String backslash "n"
  else if n =? 13 then String backslash "r"
  else if printable n then String c ""
  else String backslash
         (String "x" (String (hex_digit (n / 16))
                             (String (hex_digit (n mod 16)) ""))).

(** [repr(s)]: double quotes when [s] holds a single quote and no
    double quote, single quotes otherwise. *)
Definition repr_str (s : string) : string :=
  let chars := list_ascii_of_string s in
  let quote :=
    if existsb (Ascii.eqb single_quote) chars
       && negb (existsb (Ascii.eqb double_quote) chars)
    then double_quote
    else single_quote in
  String quote (String.concat "" (map (repr_char quote) chars))
  +:+ String quote "".

Section BasicText.
#[local] Existing Instance basic_runtime.

(** [repr(v)], the list objects read in [h]; a list that is being
    printed is written [[...]]. [fuel] bounds the depth. *)
Fixpoint repr_value (fuel : nat) (h : gmap loc (list value))
    (printing : list loc) (v : value) : string :=
  match v with
  | VNone => "None"
  | VBool b => if b then "True" else "False"
  | VInt z => decimal_of_int z
  | VFloat f => match f with end
  | VStr s => repr_str s
  | VList l =>
      match fuel with
      | 0 => "[...]"
      | S fuel' =>
          if bool_decide (l ∈ printing) then "[...]"
          else
            "[" +:+ String.concat ", "
                      (map (repr_value fuel' h (l :: printing))
                           (default [] (h !! l)))
            +:+ "]"
      end
  end.

(** [str(v)]. *)
Definition basic_str_value (h : gmap loc (list value)) (v : value)
  : string :=
  match v with
  | VStr s => s
  | _ => repr_value (S (size (dom h))) h [] v
  end.

Definition basic_text : PyText := {|
  re_compile := fun _ _ => None;
  str_lower := lower;
  str_value := basic_str_value
|}.

End BasicText.

(** The runtime of the examples of the call with words. *)
Definition basic_word_runtime : PyRuntime :=
  word_runtime (rt0 := basic_runtime) (txt := basic_text).


(** * What the properties are stated with *)

Section Conditions.
Context `{rt : PyRuntime}.

(** The locals [default_opt], [synonyms] (after line 163) and [arglist]
    (line 162) of a call made in state [s]. *)
Definition schema_of (s : Store) : dict value :=
  with_builtins (default_opt_obj s).

Definition synonyms_of (s : Store) : dict string :=
  dset "help" "h" (synonyms_obj s).

Definition tokens_of (s : Store) : list string := drop 1 (sys_argv s).

(** The state in which everything after line 163 runs. *)
Definition entered (s : Store) : Store := set_synonyms (dset "help" "h") s.

(** A valid schema: every default has an accepted type, a list default
    holds strings only, every positional key is a key of the schema. *)
Definition valid_default (h : gmap loc (list value)) (v : value) : bool :=
  match v with
  | VNone => false
  | VList l =>
      match h !! l with
      | Some xs => forallb is_str xs
      | None => false
      end
  | _ => true
  end.

Definition valid_schema (s : Store) : bool :=
  forallb (fun kv => valid_default (lists s) (snd kv)) (default_opt_obj s)
  && forallb (fun pk => dmem pk (schema_of s)) (positional_keys_obj s).

(** The two positional regions of a token sequence, as lines 188-211
    delimit them. *)
Definition before_region (arglist : list string) : list string :=
  match positionals_before arglist (opt_key_indices arglist) with
  | Some (from_here, up_to) => slice arglist from_here up_to
  | None => []
  end.

(** Where the region after the last option starts, when there is one. *)
Definition after_start (default_opt : dict value) (arglist : list string)
  : option nat :=
  match last (opt_key_indices arglist) with
  | Some last_ki =>
      match arglist !! last_ki with
      | Some last_bit =>
          if positionals_after default_opt arglist last_ki last_bit
          then Some (after_from_here default_opt arglist last_ki last_bit)
          else None
      | None => None
      end
  | None => None
  end.

Definition after_region (default_opt : dict value) (arglist : list string)
  : list string :=
  match after_start default_opt arglist with
  | Some from_here => drop from_here arglist
  | None => []
  end.

(** The tokens of a positional region with the positional keys made
    explicit: each token gets the next key written before it as an
    option, and the first key of type list takes what follows. Tokens
    past the last key are left as they are. *)
Fixpoint with_positional_keys (default_opt : dict value)
    (positional_keys : list string) (tokens : list string) : list string :=
  match tokens, positional_keys with
  | value :: tokens', key :: keys' =>
      ("-" +:+ key) :: value ::
      (if pytype_eqb (type_of (getitem default_opt key)) TList
       then tokens'
       else with_positional_keys default_opt keys' tokens')
  | _, _ => tokens
  end.

(** A token of a positional region is in excess: the positional keys
    run out before the tokens do, no key of type list having taken the
    rest (line 220). *)
Fixpoint positional_excess (default_opt : dict value)
    (positional_keys : list string) (tokens : list string)
    {struct tokens} : bool :=
  match tokens, positional_keys with
  | [], _ => false
  | _ :: _, [] => true
  | _ :: tokens', key :: keys' =>
      if pytype_eqb (type_of (getitem default_opt key)) TList
      then false
      else positional_excess default_opt keys' tokens'
  end.

(** What [positional_loop] appends to [insert_these] from index [i] on
    when the keys do not run out. *)
Fixpoint planned_insertions (default_opt : dict value)
    (positional_keys : list string) (from_here i : nat)
    (values : list string) : list (nat * string) :=
  match values with
  | [] => []
  | _ :: values' =>
      match positional_keys !! i with
      | Some key =>
          (from_here + i, key) ::
          (if pytype_eqb (type_of (getitem default_opt key)) TList
           then []
           else planned_insertions default_opt positional_keys from_here
                  (S i) values')
      | None => []
      end
  end.

(** The index after the tokens that an option at [ki] whose type is
    not list consumes, when the next option key is at [next_ki]: the
    option key alone when its argument is omitted (lines 276-280),
    otherwise the option key and its argument. *)
Definition consumed_end (arglist : list string) (ki next_ki : nat) : nat :=
  if no_argument arglist ki (Some next_ki) then ki + 1 else ki + 2.

(** ** The conditions of a clean command line *)

(** The positional region the parser takes, as [(from_here, up_to)]. *)
Definition positional_region (default_opt : dict value)
    (arglist : list string) : option (nat * option nat) :=
  match after_start default_opt arglist with
  | Some from_here => Some (from_here, None)
  | None => positionals_before arglist (opt_key_indices arglist)
  end.

Definition positional_tokens (default_opt : dict value)
    (arglist : list string) : list string :=
  match positional_region default_opt arglist with
  | Some (from_here, up_to) => slice arglist from_here up_to
  | None => []
  end.

(** [arglist] as the main pass reads it when no positional token is in
    excess: the positional tokens with their keys before them. *)
Definition explicit_arglist (default_opt : dict value)
    (positional_keys : list string) (arglist : list string) : list string :=
  match positional_region default_opt arglist with
  | Some (from_here, up_to) =>
      take from_here arglist
      ++ with_positional_keys default_opt positional_keys
           (slice arglist from_here up_to)
      ++ drop (length (slice arglist from_here up_to))
              (drop from_here arglist)
  | None => arglist
  end.

Definition main_tokens (s : Store) : list string :=
  explicit_arglist (schema_of s) (positional_keys_obj s) (tokens_of s).

(** An option of the main pass: its index, its key after the synonyms,
    the index of the next option key, and the index and key of the
    previous option. *)
Record occurrence : Type := mkOccurrence {
  occ_previous : option (nat * string);
  occ_index : nat;
  occ_key : string;
  occ_next : option nat
}.

Fixpoint occurrences (synonyms : dict string) (arglist : list string)
    (previous : option (nat * string)) (indices : list nat)
  : list occurrence :=
  match indices with
  | [] => []
  | i :: rest =>
      let opt_key := resolve_key synonyms (arglist !!! i) in
      mkOccurrence previous i opt_key (head rest)
      :: occurrences synonyms arglist (Some (i, opt_key)) rest
  end.

Definition options_of (s : Store) : list occurrence :=
  occurrences (synonyms_of s) (main_tokens s) None
              (opt_key_indices (main_tokens s)).

Definition occ_type (default_opt : dict value) (o : occurrence) : pytype :=
  type_of (getitem default_opt (occ_key o)).

(** The key of the option is a key of the schema. *)
Definition known_key (default_opt : dict value) (o : occurrence) : bool :=
  dmem (occ_key o) default_opt.

(** An option of type int, float or str has an argument. *)
Definition argument_given (default_opt : dict value)
    (arglist : list string) (o : occurrence) : bool :=
  match occ_type default_opt o with
  | TInt | TFloat | TStr =>
      negb (no_argument arglist (occ_index o) (occ_next o))
  | _ => true
  end.

(** The argument of the option, when there is one, casts to the type of
    the option: "0" or "1" for a boolean, a literal accepted by [int] or
    [float] for a number. *)
Definition argument_casts (default_opt : dict value)
    (arglist : list string) (o : occurrence) : bool :=
  if no_argument arglist (occ_index o) (occ_next o) then true
  else
    match arglist !! (occ_index o + 1) with
    | Some a =>
        match occ_type default_opt o with
        | TBool => String.eqb a "1" || String.eqb a "0"
        | TInt => match int_of_str a with Some _ => true | None => false end
        | TFloat => match float_of_str a with Some _ => true | None => false end
        | _ => true
        end
    | None => true
    end.

(** Tokens lie between what the previous option consumes and this
    option. *)
Definition gap_before (default_opt : dict value) (arglist : list string)
    (o : occurrence) : bool :=
  match occ_previous o with
  | Some (previous_ki, previous_key) =>
      (consumed_end arglist previous_ki (occ_index o) <? occ_index o)
      && negb (pytype_eqb (type_of (getitem default_opt previous_key)) TList)
  | None => false
  end.

Definition nonempty {A} (l : list A) : bool :=
  match l with
  | [] => false
  | _ :: _ => true
  end.

Definition no_unknown_keys (s : Store) : bool :=
  forallb (known_key (schema_of s)) (options_of s).

Definition no_missing_argument (s : Store) : bool :=
  forallb (argument_given (schema_of s) (main_tokens s)) (options_of s).

Definition values_cast (s : Store) : bool :=
  forallb (argument_casts (schema_of s) (main_tokens s)) (options_of s).

(** No token in excess: positional tokens on one side of the options
    only, a positional key for each of them, and none between the
    argument of an option and the next option. *)
Definition no_extra_tokens (s : Store) : bool :=
  negb (nonempty (before_region (tokens_of s))
        && nonempty (after_region (schema_of s) (tokens_of s)))
  && negb (positional_excess (schema_of s) (positional_keys_obj s)
             (positional_tokens (schema_of s) (tokens_of s)))
  && forallb (fun o => negb (gap_before (schema_of s) (main_tokens s) o))
             (options_of s).

(** [not bool(v)], with the lists read in [h]. *)
Definition falsy (h : gmap loc (list value)) (v : value) : bool :=
  match v with
  | VNone => true
  | VBool b => negb b
  | VInt z => (z =? 0)%Z
  | VFloat f => negb (float_truthy f)
  | VStr s => String.eqb s ""
  | VList l =>
      match h !! l with
      | Some [] => true
      | _ => false
      end
  end.

(** The help flag is not set: no option resolves to [h], and the default
    of [h] is false. *)
Definition help_not_set (s : Store) : bool :=
  forallb (fun o => negb (String.eqb (occ_key o) "h")) (options_of s)
  && falsy (lists s) (getitem (schema_of s) "h").

(** [k] is not given on the command line. *)
Definition not_given (s : Store) (k : string) : Prop :=
  forall o, o ∈ options_of s -> occ_key o <> k.

(** Equality of two values and of two mappings, a list being equal to a
    list with the same elements ([==] in Python). *)
Definition same_value (h : gmap loc (list value)) (v1 v2 : value) : Prop :=
  match v1, v2 with
  | VList l1, VList l2 => exists xs, h !! l1 = Some xs /\ h !! l2 = Some xs
  | VList _, _ | _, VList _ => False
  | _, _ => v1 = v2
  end.

Definition equal_mappings (h : gmap loc (list value))
    (opt1 opt2 : dict value) : Prop :=
  dkeys opt1 = dkeys opt2
  /\ forall k,
      match dget k opt1, dget k opt2 with
      | Some v1, Some v2 => same_value h v1 v2
      | None, None => True
      | _, _ => False
      end.

(** ** The result of a clean command line, as contents *)

(** A value with the list it refers to read from the store. *)
Inductive content : Type :=
| CVal (v : value)
| CList (xs : list value).

Definition content_of (h : gmap loc (list value)) (v : value) : content :=
  match v with
  | VList l => CList (default [] (h !! l))
  | _ => CVal v
  end.

Definition view (h : gmap loc (list value)) (opt : dict value)
  : dict content :=
  map (fun kv => (fst kv, content_of h (snd kv))) opt.

(** What lines 274-301 compute for an option of type [t] that passes the
    conditions above ([TNone] is a key that is not in the schema). *)
Definition parsed_value (t : pytype) (arglist : list string) (i : nat)
    (next_ki : option nat) : content :=
  match t with
  | TList =>
      CList (map VStr
               (slice arglist (i + 1)
                  (Some (match next_ki with
                         | Some n => n
                         | None => length arglist
                         end))))
  | _ =>
      if no_argument arglist i next_ki then CVal (VBool true)
      else
        let a := default "" (arglist !! (i + 1)) in
        match t with
        | TBool => CVal (VBool (String.eqb a "1"))
        | TInt =>
            CVal (match int_of_str a with Some z => VInt z | None => VNone end)
        | TFloat =>
            CVal (match float_of_str a with
                  | Some f => VFloat f
                  | None => VNone
                  end)
        | _ => CVal (VStr a)
        end
  end.

Fixpoint parsed_options (default_opt : dict value) (synonyms : dict string)
    (arglist : list string) (indices : list nat) (acc : dict content)
  : dict content :=
  match indices with
  | [] => acc
  | i :: rest =>
      let opt_key := resolve_key synonyms (arglist !!! i) in
      parsed_options default_opt synonyms arglist rest
        (dset opt_key
           (parsed_value (type_of (getitem default_opt opt_key)) arglist i
              (head rest))
           acc)
  end.

Fixpoint filled (h : gmap loc (list value)) (items : dict value)
    (acc : dict content) : dict content :=
  match items with
  | [] => acc
  | (opt_key, v) :: rest =>
      if negb (dmem opt_key acc)
      then filled h rest (dset opt_key (content_of h v) acc)
      else filled h rest acc
  end.

Definition expected_result (s : Store) : dict content :=
  filled (lists s) (schema_of s)
    (parsed_options (schema_of s) (synonyms_of s) (main_tokens s)
       (opt_key_indices (main_tokens s)) []).

(** The lists of [opt] are list objects of [s] that [s0] does not
    have. *)
Definition new_lists (s0 s : Store) (opt : dict value) : Prop :=
  forall k l, (k, VList l) ∈ opt ->
    lists s0 !! l = None /\ is_Some (lists s !! l).

(** [indices] increase from [lo] on and stay below [hi]. *)
Fixpoint chain (hi lo : nat) (indices : list nat) : Prop :=
  match indices with
  | [] => True
  | i :: rest => lo <= i < hi /\ chain hi (S i) rest
  end.

(** ** The canonical command line of an assignment *)

Definition scalar_type (t : pytype) : bool :=
  match t with
  | TBool | TInt | TFloat | TStr => true
  | _ => false
  end.

(** The literal token of a scalar value: "1" and "0" for the booleans,
    [str] for the numbers, a string as it is. *)
Definition literal (v : value) : string :=
  match v with
  | VBool true => "1"
  | VBool false => "0"
  | VInt z => str_of_int z
  | VFloat f => str_of_float f
  | VStr s => s
  | _ => ""
  end.

(** [-k1 v1 -k2 v2 ...]. *)
Definition canonical_tokens (assignment : dict value) : list string :=
  flat_map (fun kv => ["-" +:+ fst kv; literal (snd kv)]) assignment.

(** The literal of [v] is not read as an option key, and casts back to
    [v]. *)
Definition reads_back (v : value) : Prop :=
  is_option_key (literal v) = false
  /\ match v with
     | VBool _ | VStr _ => True
     | VInt z => int_of_str (literal v) = Some z
     | VFloat f => float_of_str (literal v) = Some f
     | _ => False
     end.

(** [n, n+2, ...], [m] indices. *)
Fixpoint option_positions (n m : nat) : list nat :=
  match m with
  | 0 => []
  | S m' => n :: option_positions (S (S n)) m'
  end.

(** An entry of an assignment that the canonical command line can
    carry: [k] is a key of the schema [d] with a default of the type of
    [v], a scalar type; [-k] is an option key; [k] is not a synonym; and
    the literal of [v] reads back. *)
Definition carried (d : dict value) (synonyms : dict string)
    (k : string) (v : value) : Prop :=
  (exists v0, dget k d = Some v0 /\ type_of v0 = type_of v)
  /\ scalar_type (type_of v) = true
  /\ is_option_key ("-" +:+ k) = true
  /\ dget k synonyms = None
  /\ reads_back v.

(** ** Predicates on blocks and states *)

(** ** What a call leaves of the state it found

    [extends s s']: the caller's objects and [sys.argv] are the same in
    [s'] as in [s], and every list object of [s] is in [s'] with the same
    elements. *)
Definition extends (s s' : Store) : Prop :=
  default_opt_obj s' = default_opt_obj s
  /\ synonyms_obj s' = synonyms_obj s
  /\ positional_keys_obj s' = positional_keys_obj s
  /\ tolerated_regexp_obj s' = tolerated_regexp_obj s
  /\ sys_argv s' = sys_argv s
  /\ (forall l xs, lists s !! l = Some xs -> lists s' !! l = Some xs).

(** A block that leaves the state it found extended. *)
Definition preserving {A} (c : M Store A) : Prop :=
  forall s, extends s (snd (c s)).

(** Every exception that the block raises satisfies [P]. *)
Definition raises_only {A} (P : exn -> Prop) (c : M Store A) : Prop :=
  forall s e s', c s = (Raise e, s') -> P e.

(** Not the [NameError] of line 313. *)
Definition not_line_313 (e : exn) : Prop := e <> NameError "advanced".

(** [k] is bound to a boolean, or not bound. *)
Definition boolean_or_absent (k : string) (opt : dict value) : Prop :=
  match dget k opt with
  | Some v => exists b, v = VBool b
  | None => True
  end.

(** [s'] presents a call with the inputs of the call entered from [s]. *)
Definition same_inputs (s s' : Store) : Prop :=
  schema_of s' = schema_of s
  /\ synonyms_of s' = synonyms_of s
  /\ tokens_of s' = tokens_of s
  /\ positional_keys_obj s' = positional_keys_obj s
  /\ (forall l xs, lists s !! l = Some xs -> lists s' !! l = Some xs).

End Conditions.

(** ** Data of the closed instances *)

Section ExampleData.
#[local] Existing Instance basic_runtime.

(** A state of the caller: the four objects passed to the call, the
    tokens after the program name, and the list objects. *)
Definition caller_state (default_opt : dict value) (synonyms : dict string)
    (positional_keys : list string) (tokens : list string)
    (list_objects : gmap loc (list value)) : Store :=
  mkStore default_opt synonyms positional_keys [] ("script.py" :: tokens)
          list_objects [] [].

(** The schema of the third example of the docstring, with an integer
    default for [k]. *)
Definition io_schema : dict value :=
  [("i", VStr ""); ("o", VStr ""); ("s", VStr ""); ("k", VInt 5)].

(** A schema with a boolean key and a list key, the list default being
    the list object at location 1. *)
Definition flag_schema : dict value :=
  [("flag", VBool false); ("files", VList 1%positive); ("k", VInt 0)].

Definition flag_lists : gmap loc (list value) :=
  {[ 1%positive := [VStr "default.txt"] ]}.

End ExampleData.

(** * What the further properties are stated with *)

Section MoreConditions.
Context `{rt : PyRuntime}.

(** Every list default of the caller's schema is a list object of [s]. *)
Definition live_defaults (s : Store) : bool :=
  forallb (fun kv => match snd kv with
                     | VList l =>
                         match lists s !! l with
                         | Some _ => true
                         | None => false
                         end
                     | _ => true
                     end)
          (default_opt_obj s).

(** The error of lines 169-175 for the key [opt_key] whose default [v]
    is not valid: line 173 for a list, line 169 otherwise. *)
Definition default_error (opt_key : string) (v : value)
  : command_line_error :=
  match v with
  | VList _ => BadListDefault opt_key
  | _ => BadValueType (type_of v) opt_key
  end.

(** [[pk for pk in positional_keys if not pk in default_opt]]
    (lines 176 and 178). *)
Definition absent_keys (default_opt : dict value)
    (positional_keys : list string) : list string :=
  List.filter (fun pk => negb (dmem pk default_opt)) positional_keys.

(** Lines 166-307 with the objects of the caller read from [s]: what
    [parse_command_line] runs in the state [entered s]. *)
Definition parse_blocks (tolerate_extra warning_extra : bool) (s : Store)
  : M Store (dict value) :=
  let default_opt := schema_of s in
  let positional_keys := positional_keys_obj s in
  let arglist := tokens_of s in
  check_default_opt default_opt ;;;
  check_positional_keys default_opt positional_keys ;;;
  let* positionals :=
    lift (find_positionals default_opt arglist (opt_key_indices arglist)) in
  let* arglist :=
    match positionals with
    | Some (_, from_here, up_to) =>
        insert_positionals default_opt tolerate_extra positional_keys
          arglist from_here up_to
    | None => ret arglist
    end in
  let* opt :=
    main_loop default_opt (synonyms_of s) tolerate_extra
      (tolerated_regexp_obj s) warning_extra arglist None
      (opt_key_indices arglist) [] in
  fill_defaults default_opt opt.

(** What a block adds to a log of the state ([warned] or [written]):
    entries that satisfy [P], after those that were there. *)
Definition adds {X A} (log : Store -> list X) (P : X -> Prop)
    (c : M Store A) : Prop :=
  forall s, exists xs, log (snd (c s)) = log s ++ xs /\ Forall P xs.

(** The warnings that a call can give: an extra argument is ignored only
    under [tolerate_extra]; an unexpected option is announced only under
    [warning_extra], for a key that is not in the schema and that
    [tolerate_extra] or a pattern of [tolerated_regexp] lets through. *)
Definition expected_warning (default_opt : dict value)
    (tolerate_extra : bool) (tolerated_regexp : list regexp)
    (warning_extra : bool) (w : warning) : Prop :=
  match w with
  | IgnoringExtraArgument _ => tolerate_extra = true
  | AcceptingUnexpectedOption opt_key =>
      warning_extra = true
      /\ dmem opt_key default_opt = false
      /\ (tolerate_extra = true
          \/ match_any_word opt_key tolerated_regexp false = true)
  end.

(** The exceptions of lines 313 and 319, which come after every other
    raise of the function. *)
Definition raised_at_the_end (e : exn) : bool :=
  match e with
  | NameError _ | SystemExit => true
  | _ => false
  end.

(** What a call has written when it ends with [r]: nothing before an
    error of the command line; the help message, first, before line 313
    or 319 is reached; the options, last, when [print_opt] is set. *)
Definition written_by (help_msg : string) (r : result (dict value))
    (outs : list output) : Prop :=
  match r with
  | Ok opt => outs = [] \/ outs = [OutOptions opt]
  | Raise (CommandLineError _) => outs = []
  | Raise (NameError _) => outs = [OutText help_msg]
  | Raise SystemExit =>
      outs = [OutText help_msg]
      \/ exists opt, outs = [OutText help_msg; OutOptions opt]
  | Raise _ => outs = [] \/ outs = [OutText help_msg]
  end.

(** The errors of the checks of the schema (lines 169-177); the other
    errors are those of the command line. *)
Definition schema_error (c : command_line_error) : bool :=
  match c with
  | BadValueType _ _ | BadListDefault _ | AbsentPositionalKeys _ => true
  | _ => false
  end.

(** The values of [opt] have the types of the schema: a key of the
    schema is bound to a value of the type of its default, any other key
    to a boolean or to a string. *)
Definition typed_by (default_opt opt : dict value) : Prop :=
  forall k v, dget k opt = Some v ->
    match dget k default_opt with
    | Some v0 => type_of v = type_of v0
    | None => type_of v = TBool \/ type_of v = TStr
    end.

(** Every list of [opt] is a list object of [s] that holds strings
    only, and that [s0] does not have. *)
Definition string_lists (s0 s : Store) (opt : dict value) : Prop :=
  forall k l, dget k opt = Some (VList l) ->
    lists s0 !! l = None
    /\ exists xs, lists s !! l = Some xs /\ forallb is_str xs = true.

(** The type that the schema gives [h]. *)
Definition help_type (s : Store) : pytype :=
  type_of (getitem (schema_of s) "h").

(** Every character of [s] satisfies [p]. *)
Fixpoint string_forall (p : ascii -> bool) (s : string) : bool :=
  match s with
  | EmptyString => true
  | String c s' => p c && string_forall p s'
  end.

End MoreConditions.

(** ** More data of the closed instances *)

Section MoreExampleData.
#[local] Existing Instance basic_runtime.

(** A list default that holds a value that is not a string. *)
Definition mixed_lists : gmap loc (list value) :=
  {[ 1%positive := [VStr "a"; VInt 3] ]}.

(** [positional_keys='io'], the default of the parameter, as the keys
    that iterating over it gives. *)
Definition default_positional_keys : list string := ["i"; "o"].

End MoreExampleData.

(** * The options of the call, one at a time *)

Section OptionConditions.
Context `{rt : PyRuntime}.

(** The positional arguments lie on one side of the options only, and
    there is a positional key for each of them: the call reaches the
    main pass, which reads [main_tokens]. *)
Definition positionals_fit (s : Store) : bool :=
  negb (nonempty (before_region (tokens_of s))
        && nonempty (after_region (schema_of s) (tokens_of s)))
  && negb (positional_excess (schema_of s) (positional_keys_obj s)
             (positional_tokens (schema_of s) (tokens_of s))).

(** The option is read without error: its key is a key of the schema,
    its argument is there when its type asks for one, and casts. *)
Definition readable (default_opt : dict value) (arglist : list string)
    (o : occurrence) : bool :=
  known_key default_opt o
  && argument_given default_opt arglist o
  && argument_casts default_opt arglist o.

(** [arglist[opt_key_indices[ni-1]+2:i]] (lines 247 and 250) for the
    option [o]. *)
Definition gap_tokens (arglist : list string) (o : occurrence)
  : list string :=
  match occ_previous o with
  | Some (previous_ki, _) =>
      slice arglist (previous_ki + 2) (Some (occ_index o))
  | None => []
  end.

(** The warnings of line 246 for the options [occs], in their order. *)
Definition gap_warnings (default_opt : dict value) (arglist : list string)
    (occs : list occurrence) : list warning :=
  flat_map (fun o =>
              if gap_before default_opt arglist o
              then [IgnoringExtraArgument (gap_tokens arglist o)]
              else [])
           occs.

End OptionConditions.

Section OptionExampleData.
#[local] Existing Instance basic_runtime.

(** The schema of the third example of the docstring with a boolean
    key. *)
Definition io_flag_schema : dict value :=
  io_schema ++ [("flag", VBool false)].

End OptionExampleData.

Section WordExampleData.
#[local] Existing Instance basic_word_runtime.

(** A state of the caller, [tolerated_regexp] being a list of words. *)
Definition caller_state_words (default_opt : dict value)
    (synonyms : dict string) (positional_keys : list string)
    (tolerated_regexp : list string) (tokens : list string)
    (list_objects : gmap loc (list value)) : Store :=
  mkStore default_opt synonyms positional_keys tolerated_regexp
          ("script.py" :: tokens) list_objects [] [].

End WordExampleData.
(** * Properties *)

Section Theory.
Context `{rt : PyRuntime}.

(** ** The monad *)

Lemma bind_ok {S A B} (c : M S A) (k : A -> M S B) s a s' :
  c s = (Ok a, s') -> bind c k s = k a s'.
Proof. unfold bind. intros ->. reflexivity. Qed.

Lemma bind_raise {S A B} (c : M S A) (k : A -> M S B) s e s' :
  c s = (Raise e, s') -> bind c k s = (Raise e, s').
Proof. unfold bind. intros ->. reflexivity. Qed.

Lemma bind_inv_ok {S A B} (c : M S A) (k : A -> M S B) s b s2 :
  bind c k s = (Ok b, s2) ->
  exists a s1, c s = (Ok a, s1) /\ k a s1 = (Ok b, s2).
Proof.
  unfold bind. destruct (c s) as [[a|e] s1]; intros E.
  - exists a, s1. split; [reflexivity | exact E].
  - discriminate E.
Qed.

(** ** What a call leaves of the state it found *)

Lemma extends_refl s : extends s s.
Proof. unfold extends. tauto. Qed.

Lemma extends_trans s1 s2 s3 : extends s1 s2 -> extends s2 s3 -> extends s1 s3.
Proof.
  unfold extends.
  intros (A1 & A2 & A3 & A4 & A5 & A6) (B1 & B2 & B3 & B4 & B5 & B6).
  repeat split; try congruence. auto.
Qed.

Lemma preserving_ret {A} (a : A) : preserving (ret a).
Proof. intros s. apply extends_refl. Qed.

Lemma preserving_raise {A} e : preserving (@raise Store A e).
Proof. intros s. apply extends_refl. Qed.

Lemma preserving_lift {A} (r : result A) : preserving (lift r).
Proof. intros s. apply extends_refl. Qed.

Lemma preserving_gets {A} (f : Store -> A) : preserving (gets f).
Proof. intros s. apply extends_refl. Qed.

Lemma preserving_bind {A B} (c : M Store A) (k : A -> M Store B) :
  preserving c -> (forall a, preserving (k a)) -> preserving (bind c k).
Proof.
  intros Hc Hk s. unfold bind. specialize (Hc s).
  destruct (c s) as [[a|e] s1]; simpl in *.
  - eapply extends_trans; [exact Hc | apply Hk].
  - exact Hc.
Qed.

Lemma preserving_warn w : preserving (warn w).
Proof. intros s. unfold extends. simpl. tauto. Qed.

Lemma preserving_write o : preserving (write o).
Proof. intros s. unfold extends. simpl. tauto. Qed.

Lemma fresh_list_unused (s : Store) : lists s !! fresh (dom (lists s)) = None.
Proof. apply not_elem_of_dom. apply is_fresh. Qed.

Lemma preserving_new_list xs : preserving (new_list xs).
Proof.
  intros s. unfold extends. simpl. repeat split; try reflexivity.
  intros l ys Hl. rewrite lookup_insert_ne; [exact Hl |].
  intros <-. rewrite fresh_list_unused in Hl. discriminate Hl.
Qed.

Lemma preserving_read_list l : preserving (read_list l).
Proof.
  intros s. unfold read_list. destruct (lists s !! l); apply extends_refl.
Qed.

Create HintDb frame.

#[local] Hint Resolve preserving_ret preserving_raise preserving_lift
  preserving_gets preserving_warn preserving_write preserving_new_list
  preserving_read_list : frame.


Ltac frame_step :=
  match goal with
  | |- preserving (bind _ _) => apply preserving_bind; [| intros ?]
  | |- preserving (if ?b then _ else _) => destruct b
  | |- preserving (match ?x with _ => _ end) => destruct x
  | |- preserving _ => solve [auto with frame]
  end.

Ltac frame := repeat frame_step.

Lemma preserving_copy v : preserving (copy v).
Proof. unfold copy. frame. Qed.

Lemma preserving_truthy v : preserving (truthy v).
Proof. unfold truthy. frame. Qed.

Lemma preserving_check_default_opt items : preserving (check_default_opt items).
Proof. induction items as [|[k v] rest IH]; simpl; frame. Qed.

Lemma preserving_check_positional_keys d pks :
  preserving (check_positional_keys d pks).
Proof. unfold check_positional_keys. frame. Qed.

Lemma preserving_positional_loop d tol pks al from_here up_to values :
  forall i acc,
    preserving (positional_loop d tol pks al from_here up_to i values acc).
Proof. induction values as [|v values IH]; intros i acc; simpl; frame. Qed.

#[local] Hint Resolve preserving_copy preserving_truthy
  preserving_check_default_opt preserving_check_positional_keys
  preserving_positional_loop : frame.

Lemma preserving_insert_positionals d tol pks al from_here up_to :
  preserving (insert_positionals d tol pks al from_here up_to).
Proof. unfold insert_positionals. frame. Qed.

Lemma preserving_check_gap d tol al previous i :
  preserving (check_gap d tol al previous i).
Proof. unfold check_gap. frame. Qed.

Lemma preserving_expected_type_of d tol regs we k :
  preserving (expected_type_of d tol regs we k).
Proof. unfold expected_type_of. frame. Qed.

Lemma preserving_option_value al i next_ki t k :
  preserving (option_value al i next_ki t k).
Proof. unfold option_value. frame. Qed.

#[local] Hint Resolve preserving_insert_positionals preserving_check_gap
  preserving_expected_type_of preserving_option_value : frame.

Lemma preserving_read_option d syn tol regs we al i next_ki :
  preserving (read_option d syn tol regs we al i next_ki).
Proof. unfold read_option. frame. Qed.

#[local] Hint Resolve preserving_read_option : frame.

Lemma preserving_main_loop d syn tol regs we al indices :
  forall previous opt,
    preserving (main_loop d syn tol regs we al previous indices opt).
Proof.
  induction indices as [|i rest IH]; intros previous opt; simpl; frame.
Qed.

Lemma preserving_fill_defaults items :
  forall opt, preserving (fill_defaults items opt).
Proof. induction items as [|[k v] rest IH]; intros opt; simpl; frame. Qed.

Lemma preserving_help_and_print help adv opt :
  preserving (help_and_print help adv opt).
Proof. unfold help_and_print. frame. Qed.

#[local] Hint Resolve preserving_main_loop preserving_fill_defaults
  preserving_help_and_print : frame.

Lemma bind_gets {S A B} (f : S -> A) (k : A -> M S B) s :
  bind (gets f) k s = k (f s) s.
Proof. reflexivity. Qed.

Lemma bind_modify {S B} (f : S -> S) (k : unit -> M S B) s :
  bind (modify f) k s = k tt (f s).
Proof. reflexivity. Qed.

Lemma bind_ret {S A B} (a : A) (k : A -> M S B) s :
  bind (ret a) k s = k a s.
Proof. reflexivity. Qed.

Lemma bind_lift_ok {S A B} (a : A) (k : A -> M S B) s :
  bind (lift (Ok a)) k s = k a s.
Proof. reflexivity. Qed.

(** The only update of a caller's object is line 163. *)
Lemma parse_command_line_frame tol we s :
  extends (set_synonyms (dset "help" "h") s)
          (snd (parse_command_line tol we s)).
Proof.
  unfold parse_command_line.
  rewrite !bind_gets, bind_modify.
  match goal with
  | |- extends ?s1 (snd (?c ?s1)) => enough (preserving c) as Hp by apply Hp
  end.
  frame.
Qed.

Lemma command_line_options_frame help tol we adv s :
  extends (set_synonyms (dset "help" "h") s)
          (snd (command_line_options help tol we adv s)).
Proof.
  unfold command_line_options, bind.
  pose proof (parse_command_line_frame tol we s) as Hp.
  destruct (parse_command_line tol we s) as [[opt|e] s1]; simpl in *.
  - eapply extends_trans; [exact Hp | apply preserving_help_and_print].
  - exact Hp.
Qed.

(** ** Dicts *)

Lemma dget_dset_eq {V} k (v : V) d : dget k (dset k v d) = Some v.
Proof.
  induction d as [|[k' v'] d IH]; simpl.
  - rewrite String.eqb_refl. reflexivity.
  - destruct (String.eqb k' k) eqn:E; simpl; rewrite E; auto.
Qed.

Lemma dget_dset_ne {V} k k' (v : V) d :
  k <> k' -> dget k' (dset k v d) = dget k' d.
Proof.
  intros Hne. induction d as [|[k0 v0] d IH]; simpl.
  - destruct (String.eqb k k') eqn:E; [|reflexivity].
    apply String.eqb_eq in E. contradiction.
  - destruct (String.eqb k0 k) eqn:E; simpl.
    + apply String.eqb_eq in E. subst k0.
      destruct (String.eqb k k') eqn:E'; [|reflexivity].
      apply String.eqb_eq in E'. contradiction.
    + destruct (String.eqb k0 k'); auto.
Qed.

Lemma dget_dset {V} k k' (v : V) d :
  dget k' (dset k v d) = if String.eqb k k' then Some v else dget k' d.
Proof.
  destruct (String.eqb k k') eqn:E.
  - apply String.eqb_eq in E. subst. apply dget_dset_eq.
  - apply String.eqb_neq in E. apply dget_dset_ne. exact E.
Qed.

Lemma dmem_dset {V} k k' (v : V) d :
  dmem k' (dset k v d) = String.eqb k k' || dmem k' d.
Proof.
  unfold dmem. rewrite dget_dset. destruct (String.eqb k k'); reflexivity.
Qed.

Lemma dget_elem_of {V} k (v : V) d : dget k d = Some v -> (k, v) ∈ d.
Proof.
  induction d as [|[k' v'] d IH]; simpl; [discriminate|].
  destruct (String.eqb k' k) eqn:E.
  - apply String.eqb_eq in E. intros [= ->]. subst. left.
  - intros H. right. auto.
Qed.

Lemma dmem_keys {V} k (d : dict V) : dmem k d = true <-> k ∈ dkeys d.
Proof.
  unfold dmem, dkeys. induction d as [|[k' v'] d IH]; simpl.
  - split; [discriminate | intros H; inversion H].
  - destruct (String.eqb k' k) eqn:E.
    + apply String.eqb_eq in E. subst. split; [left | reflexivity].
    + apply String.eqb_neq in E. rewrite IH. rewrite elem_of_cons.
      split; [auto | intros [?|?]]; [congruence | assumption].
Qed.

Lemma dkeys_dset {V} k (v : V) d :
  dkeys (dset k v d) = if dmem k d then dkeys d else dkeys d ++ [k].
Proof.
  unfold dmem, dkeys. induction d as [|[k' v'] d IH]; simpl; [reflexivity|].
  destruct (String.eqb k' k) eqn:E; simpl; [reflexivity|].
  rewrite IH. destruct (dget k d); reflexivity.
Qed.

Lemma NoDup_dkeys_dset {V} k (v : V) d :
  NoDup (dkeys d) -> NoDup (dkeys (dset k v d)).
Proof.
  intros Hd. rewrite dkeys_dset. destruct (dmem k d) eqn:E; [exact Hd|].
  apply NoDup_app. repeat split.
  - exact Hd.
  - intros x Hx Hk. apply list_elem_of_singleton in Hk. subst x.
    apply dmem_keys in Hx. congruence.
  - apply NoDup_singleton.
Qed.

(** ** The option keys of a token sequence *)

Lemma option_indices_from_spec al : forall n j,
  j ∈ option_indices_from n al <->
  exists bit, n <= j /\ al !! (j - n) = Some bit /\ is_option_key bit = true.
Proof.
  induction al as [|b al IH]; intros n j; simpl.
  - split; [intros H; inversion H | intros (bit & _ & H & _); discriminate H].
  - assert (Hrest : j ∈ option_indices_from (S n) al <->
              exists bit, n < j /\ (b :: al) !! (j - n) = Some bit
                          /\ is_option_key bit = true).
    { rewrite IH. split; intros (bit & Hle & Hl & Hk); exists bit.
      - split; [lia|]. split; [|exact Hk].
        replace (j - n) with (S (j - S n)) by lia. exact Hl.
      - split; [lia|]. split; [|exact Hk].
        replace (j - n) with (S (j - S n)) in Hl by lia. exact Hl. }
    destruct (is_option_key b) eqn:Eb.
    + rewrite elem_of_cons, Hrest. split.
      * intros [->|(bit & Hlt & Hl & Hk)].
        -- exists b. rewrite Nat.sub_diag. auto.
        -- exists bit. split; [lia | auto].
      * intros (bit & Hle & Hl & Hk).
        destruct (decide (j = n)) as [->|Hne]; [left; reflexivity|].
        right. exists bit. split; [lia | auto].
    + rewrite Hrest. split.
      * intros (bit & Hlt & Hl & Hk). exists bit. split; [lia | auto].
      * intros (bit & Hle & Hl & Hk).
        destruct (decide (j = n)) as [->|Hne].
        -- rewrite Nat.sub_diag in Hl. simpl in Hl. congruence.
        -- exists bit. split; [lia | auto].
Qed.

Lemma opt_key_indices_spec al j :
  j ∈ opt_key_indices al <->
  exists bit, al !! j = Some bit /\ is_option_key bit = true.
Proof.
  unfold opt_key_indices. rewrite option_indices_from_spec.
  rewrite Nat.sub_0_r. split.
  - intros (bit & _ & H). exists bit. exact H.
  - intros (bit & H). exists bit. split; [lia | exact H].
Qed.

Lemma index_ok {A} (l : list A) i x : l !! i = Some x -> index l i = Ok x.
Proof. unfold index. intros ->. reflexivity. Qed.

#[local] Arguments Nat.eqb : simpl never.
#[local] Arguments Nat.ltb : simpl never.
#[local] Arguments Nat.leb : simpl never.

Lemma option_indices_from_split al : forall n pre i rest,
  option_indices_from n al = pre ++ i :: rest ->
  exists al1 b al2,
    al = al1 ++ b :: al2 /\ i = n + length al1 /\ is_option_key b = true
    /\ rest = option_indices_from (S i) al2.
Proof.
  induction al as [|b al IH]; intros n pre i rest H; simpl in H.
  - destruct pre; discriminate H.
  - destruct (is_option_key b) eqn:Eb.
    + destruct pre as [|p pre]; simpl in H.
      * injection H as <- <-. exists [], b, al. simpl.
        rewrite Nat.add_0_r. auto.
      * injection H as _ H. apply IH in H as (al1 & b' & al2 & -> & -> & Hb & ->).
        exists (b :: al1), b', al2. simpl.
        replace (n + S (length al1)) with (S n + length al1) by lia. auto.
    + apply IH in H as (al1 & b' & al2 & -> & -> & Hb & ->).
      exists (b :: al1), b', al2. simpl.
      replace (n + S (length al1)) with (S n + length al1) by lia. auto.
Qed.

Lemma head_option_indices_from n al m :
  head (option_indices_from n al) = Some m -> n <= m.
Proof.
  intros H. apply head_Some_elem_of in H.
  apply option_indices_from_spec in H as (bit & Hle & _). exact Hle.
Qed.

(** The option at [i] has no argument exactly when [i] is the last
    token or the next token is an option key. *)
Lemma no_argument_spec al pre i rest :
  opt_key_indices al = pre ++ i :: rest ->
  no_argument al i (head rest)
  = match al !! (i + 1) with
    | None => true
    | Some b => is_option_key b
    end.
Proof.
  intros H. apply option_indices_from_split in H
    as (al1 & b0 & al2 & -> & -> & Hb0 & ->). simpl.
  assert ((al1 ++ b0 :: al2) !! (length al1 + 1) = al2 !! 0) as ->.
  { rewrite lookup_app_r by lia.
    replace (length al1 + 1 - length al1) with 1 by lia. reflexivity. }
  unfold no_argument. rewrite length_app. simpl.
  destruct al2 as [|b al3]; simpl.
  - apply Nat.eqb_eq. lia.
  - destruct (is_option_key b) eqn:Eb; simpl.
    + apply Nat.eqb_eq. lia.
    + destruct (head (option_indices_from (S (S (length al1))) al3))
        as [m|] eqn:Em.
      * apply head_option_indices_from in Em. apply Nat.eqb_neq. lia.
      * apply Nat.eqb_neq. lia.
Qed.

Lemma head_option_indices_next n al m :
  head (option_indices_from n al) = Some m ->
  n <= m
  /\ (exists b, al !! (m - n) = Some b /\ is_option_key b = true)
  /\ forall j b, n <= j < m -> al !! (j - n) = Some b ->
               is_option_key b = false.
Proof.
  revert n. induction al as [|b0 al IH]; intros n H; simpl in H.
  - discriminate H.
  - destruct (is_option_key b0) eqn:Eb.
    + simpl in H. injection H as <-. split; [lia|]. split.
      * exists b0. rewrite Nat.sub_diag. auto.
      * intros j b Hj. lia.
    + apply IH in H as (Hle & (b & Hb & Hk) & Hbetween).
      split; [lia|]. split.
      * exists b. replace (m - n) with (S (m - S n)) by lia. auto.
      * intros j b' Hj Hl.
        destruct (decide (j = n)) as [->|Hne].
        -- rewrite Nat.sub_diag in Hl. simpl in Hl. congruence.
        -- apply (Hbetween j); [lia|].
           replace (j - n) with (S (j - S n)) in Hl by lia. exact Hl.
Qed.

Lemma head_option_indices_none n al :
  head (option_indices_from n al) = None ->
  forall j b, al !! j = Some b -> is_option_key b = false.
Proof.
  intros H j b Hl. destruct (is_option_key b) eqn:Eb; [|reflexivity].
  assert (n + j ∈ option_indices_from n al) as Hin.
  { apply option_indices_from_spec. exists b. split; [lia|].
    replace (n + j - n) with j by lia. auto. }
  destruct (option_indices_from n al); [inversion Hin | discriminate H].
Qed.

(** In the list of option keys, the entry after [i] is the next option
    key of the token sequence. *)
Lemma next_option_key al pre i rest :
  opt_key_indices al = pre ++ i :: rest ->
  match head rest with
  | Some next_ki =>
      i < next_ki
      /\ (exists b, al !! next_ki = Some b /\ is_option_key b = true)
      /\ forall j b, i < j < next_ki -> al !! j = Some b ->
                   is_option_key b = false
  | None =>
      forall j b, i < j -> al !! j = Some b -> is_option_key b = false
  end.
Proof.
  intros H. apply option_indices_from_split in H
    as (al1 & b0 & al2 & -> & -> & Hb0 & ->). simpl.
  assert (Hshift : forall j, length al1 < j ->
            (al1 ++ b0 :: al2) !! j = al2 !! (j - S (length al1))).
  { intros j Hj. rewrite lookup_app_r by lia.
    replace (j - length al1) with (S (j - S (length al1))) by lia.
    reflexivity. }
  destruct (head (option_indices_from (S (length al1)) al2)) as [m|] eqn:Em.
  - apply head_option_indices_next in Em as (Hle & (b & Hb & Hk) & Hbetween).
    split; [lia|]. split.
    + exists b. rewrite Hshift by lia. auto.
    + intros j b' Hj Hl. rewrite Hshift in Hl by lia.
      apply (Hbetween j); [lia | exact Hl].
  - intros j b Hj Hl. rewrite Hshift in Hl by lia.
    eapply head_option_indices_none; eauto.
Qed.

(** ** Validation (lines 166-178) *)

Lemma forallb_dset {V} (f : V -> bool) k v (d : dict V) :
  forallb (fun kv => f (snd kv)) d = true -> f v = true ->
  forallb (fun kv => f (snd kv)) (dset k v d) = true.
Proof.
  intros Hd Hv. induction d as [|[k' v'] d IH]; simpl in *.
  - rewrite Hv. reflexivity.
  - apply andb_true_iff in Hd as [H1 H2].
    destruct (String.eqb k' k); simpl.
    + rewrite Hv, H2. reflexivity.
    + rewrite H1, IH; auto.
Qed.

Lemma forallb_dict_copy {V} (f : V -> bool) (d : dict V) :
  forallb (fun kv => f (snd kv)) d = true ->
  forallb (fun kv => f (snd kv)) (dict_copy d) = true.
Proof.
  unfold dict_copy.
  enough (forall acc, forallb (fun kv => f (snd kv)) acc = true ->
            forallb (fun kv => f (snd kv)) d = true ->
            forallb (fun kv => f (snd kv))
              (fold_left (fun acc kv => dset (fst kv) (snd kv) acc) d acc)
            = true) as H by (intros; apply H; auto).
  induction d as [|[k v] d IH]; intros acc Hacc Hd; simpl in *; [exact Hacc|].
  apply andb_true_iff in Hd as [H1 H2].
  apply IH; [|exact H2]. apply forallb_dset; assumption.
Qed.

Lemma forallb_with_builtins (f : value -> bool) (d : dict value) :
  f (VBool false) = true ->
  forallb (fun kv => f (snd kv)) d = true ->
  forallb (fun kv => f (snd kv)) (with_builtins d) = true.
Proof.
  intros Hf Hd. unfold with_builtins, add_builtin.
  pose proof (forallb_dict_copy f d Hd) as Hc.
  destruct (negb (dmem "h" (dict_copy d)));
    destruct (negb (dmem "print_opt" _)); auto using forallb_dset.
Qed.

Lemma check_default_opt_ok items s :
  forallb (fun kv => valid_default (lists s) (snd kv)) items = true ->
  check_default_opt items s = (Ok tt, s).
Proof.
  induction items as [|[k v] items IH]; simpl; intros H; [reflexivity|].
  apply andb_true_iff in H as [Hv Hrest].
  destruct v as [| b | z | f | x | l]; simpl in *; try discriminate Hv;
    try (apply IH; exact Hrest).
  unfold bind, read_list.
  destruct (lists s !! l) as [xs|] eqn:El; [|discriminate Hv].
  assert (existsb (fun x => negb (is_str x)) xs = false) as ->.
  { clear -Hv. induction xs as [|x xs IHx]; simpl in *; [reflexivity|].
    apply andb_true_iff in Hv as [-> Hx]. simpl. auto. }
  simpl. apply IH. exact Hrest.
Qed.

Lemma check_positional_keys_ok d pks s :
  forallb (fun pk => dmem pk d) pks = true ->
  check_positional_keys d pks s = (Ok tt, s).
Proof.
  intros H. unfold check_positional_keys.
  assert (List.filter (fun pk => negb (dmem pk d)) pks = []) as ->.
  { induction pks as [|pk pks IH]; simpl in *; [reflexivity|].
    apply andb_true_iff in H as [-> H]. simpl. auto. }
  reflexivity.
Qed.

(** Under a valid schema the call reaches line 182 in the state
    [entered s]. *)
Lemma parse_command_line_validated tol we s :
  valid_schema s = true ->
  parse_command_line tol we s =
  (let default_opt := schema_of s in
   let arglist := tokens_of s in
   let positional_keys := positional_keys_obj s in
   let* positionals :=
     lift (find_positionals default_opt arglist (opt_key_indices arglist)) in
   let* arglist :=
     match positionals with
     | Some (_, from_here, up_to) =>
         insert_positionals default_opt tol positional_keys
           arglist from_here up_to
     | None => ret arglist
     end in
   let* tolerated_regexp := gets tolerated_regexp_obj in
   let* opt :=
     main_loop default_opt (synonyms_of s) tol tolerated_regexp
       we arglist None (opt_key_indices arglist) [] in
   fill_defaults default_opt opt) (entered s).
Proof.
  intros Hv. unfold valid_schema in Hv. apply andb_true_iff in Hv as [Hd Hp].
  unfold parse_command_line.
  rewrite !bind_gets, bind_modify, bind_gets.
  erewrite bind_ok; cycle 1.
  { apply check_default_opt_ok. apply forallb_with_builtins; [reflexivity|].
    exact Hd. }
  rewrite bind_gets.
  erewrite bind_ok; cycle 1.
  { apply check_positional_keys_ok. exact Hp. }
  reflexivity.
Qed.

(** ** The positional regions (lines 186-211) *)

Lemma find_positionals_spec d al :
  find_positionals d al (opt_key_indices al) =
  match after_start d al with
  | Some from_here =>
      match positionals_before al (opt_key_indices al) with
      | Some _ => Raise (CommandLineError BeforeOrAfter)
      | None => Ok (Some (PAfter, from_here, None))
      end
  | None =>
      Ok match positionals_before al (opt_key_indices al) with
         | Some (from_here, up_to) => Some (PBefore, from_here, up_to)
         | None => None
         end
  end.
Proof.
  unfold find_positionals, after_start.
  destruct (last (opt_key_indices al)) as [last_ki|] eqn:El.
  - pose proof (last_Some_elem_of _ _ El) as Hin.
    apply opt_key_indices_spec in Hin as (bit & Hbit & _).
    rewrite Hbit, (index_ok _ _ _ Hbit).
    assert ((0 <? length al) = true) as ->.
    { apply Nat.ltb_lt. apply lookup_lt_Some in Hbit. lia. }
    assert ((0 <? length (opt_key_indices al)) = true) as ->.
    { apply Nat.ltb_lt. destruct (opt_key_indices al); [discriminate El|].
      simpl. lia. }
    simpl.
    destruct (positionals_after d al last_ki bit);
      destruct (positionals_before al (opt_key_indices al)) as [[? ?]|];
      reflexivity.
  - apply last_None in El. rewrite El. simpl.
    rewrite andb_false_r. reflexivity.
Qed.

Lemma after_region_start d al :
  after_region d al <> [] -> exists from_here, after_start d al = Some from_here.
Proof.
  unfold after_region. destruct (after_start d al) as [n|]; [eauto | tauto].
Qed.

Lemma before_region_positionals al :
  before_region al <> [] ->
  exists r, positionals_before al (opt_key_indices al) = Some r.
Proof.
  unfold before_region.
  destruct (positionals_before al (opt_key_indices al)) as [r|]; [eauto | tauto].
Qed.

(** The region after the last option, when there is one, is not empty. *)
Lemma after_start_lt d al from_here :
  after_start d al = Some from_here -> from_here < length al.
Proof.
  unfold after_start, positionals_after, after_from_here.
  destruct (last (opt_key_indices al)) as [last_ki|]; [|discriminate].
  destruct (al !! last_ki) as [bit|]; [|discriminate].
  destruct (last_ki <? length al - 2) eqn:E; simpl; [|discriminate].
  apply Nat.ltb_lt in E.
  destruct (negb _); [|discriminate].
  intros [= <-].
  destruct (pytype_eqb _ TBool); [destruct (_ && _)|]; lia.
Qed.

(** ** The positional keys made explicit (lines 216-236) *)

Lemma drop_cons_inv {A} (l : list A) i x xs :
  drop i l = x :: xs -> l !! i = Some x /\ drop (S i) l = xs.
Proof.
  intros H.
  assert (l !! i = Some x) as Hx.
  { rewrite <- (Nat.add_0_r i), <- lookup_drop, H. reflexivity. }
  split; [exact Hx|]. rewrite (drop_S _ _ _ Hx) in H. congruence.
Qed.

Lemma positional_excess_length d keys tokens :
  length tokens <= length keys -> positional_excess d keys tokens = false.
Proof.
  revert keys. induction tokens as [|t tokens IH]; intros keys H; simpl;
    [reflexivity|].
  destruct keys as [|key keys]; simpl in H; [lia|].
  destruct (pytype_eqb _ TList); [reflexivity|]. apply IH. lia.
Qed.

Lemma positional_loop_enough d tol pks al from_here up_to values :
  forall i acc s,
    positional_excess d (drop i pks) values = false ->
    positional_loop d tol pks al from_here up_to i values acc s
    = (Ok (acc ++ planned_insertions d pks from_here i values), s).
Proof.
  induction values as [|v values IH]; intros i acc s Hex; simpl in *.
  - rewrite app_nil_r. reflexivity.
  - destruct (drop i pks) as [|key keys] eqn:Ed; [discriminate Hex|].
    apply drop_cons_inv in Ed as [Ek Ed]. subst keys.
    assert ((length pks <? i + 1) = false) as ->.
    { apply Nat.ltb_ge. apply lookup_lt_Some in Ek. lia. }
    rewrite Ek, (index_ok _ _ _ Ek), bind_lift_ok.
    destruct (pytype_eqb _ TList).
    + reflexivity.
    + rewrite IH by exact Hex. rewrite <- app_assoc. reflexivity.
Qed.

Lemma insert_keys_cons ik l al :
  insert_keys (ik :: l) al
  = list_insert_at (fst ik) ("-" +:+ snd ik) (insert_keys l al).
Proof.
  unfold insert_keys. simpl. rewrite fold_left_app. reflexivity.
Qed.

Lemma list_insert_at_app {A} (x : A) pre post :
  list_insert_at (length pre) x (pre ++ post) = pre ++ x :: post.
Proof.
  unfold list_insert_at.
  rewrite take_app_length, drop_app_length. reflexivity.
Qed.

Lemma insert_keys_planned d pks from_here post values :
  forall i pre,
    length pre = from_here + i ->
    positional_excess d (drop i pks) values = false ->
    insert_keys (planned_insertions d pks from_here i values)
                (pre ++ values ++ post)
    = pre ++ with_positional_keys d (drop i pks) values ++ post.
Proof.
  induction values as [|v values IH]; intros i pre Hpre Hex; simpl in *.
  - destruct (drop i pks); reflexivity.
  - destruct (drop i pks) as [|key keys] eqn:Ed; [discriminate Hex|].
    apply drop_cons_inv in Ed as [Ek Ed]. subst keys.
    rewrite Ek, insert_keys_cons. simpl.
    destruct (pytype_eqb _ TList).
    + unfold insert_keys. simpl. rewrite <- Hpre.
      apply list_insert_at_app.
    + specialize (IH (S i) (pre ++ [v])).
      rewrite <- !app_assoc in IH. simpl in IH.
      rewrite IH; [| rewrite length_app; simpl; lia | exact Hex].
      rewrite <- Hpre. apply list_insert_at_app.
Qed.

(** With a positional key for each token of the region, the tokens of
    the region get the keys written before them and the rest of
    [arglist] stays as it is. *)
Lemma insert_positionals_enough d tol pks al from_here up_to s :
  from_here <= length al ->
  positional_excess d pks (slice al from_here up_to) = false ->
  insert_positionals d tol pks al from_here up_to s
  = (Ok (take from_here al
         ++ with_positional_keys d pks (slice al from_here up_to)
         ++ drop (length (slice al from_here up_to)) (drop from_here al)),
     s).
Proof.
  intros Hfrom Hex. unfold insert_positionals.
  erewrite bind_ok; cycle 1.
  { apply positional_loop_enough. rewrite drop_0. exact Hex. }
  unfold ret. f_equal. f_equal. simpl.
  set (values := slice al from_here up_to) in *.
  assert (al = take from_here al ++ values
               ++ drop (length values) (drop from_here al)) as Hal.
  { rewrite <- (take_drop from_here al) at 1. f_equal.
    rewrite <- (take_drop (length values) (drop from_here al)) at 1.
    f_equal. subst values. unfold slice. destruct up_to as [u|].
    - rewrite length_take, <- take_take.
      rewrite (take_ge (drop from_here al)); [reflexivity | lia].
    - rewrite take_ge; [reflexivity | lia]. }
  rewrite Hal at 1.
  rewrite (insert_keys_planned d pks from_here _ values 0
             (take from_here al)).
  - rewrite drop_0. reflexivity.
  - rewrite length_take. lia.
  - rewrite drop_0. exact Hex.
Qed.

Lemma pytype_eqb_eq a b : pytype_eqb a b = true <-> a = b.
Proof. destruct a, b; simpl; split; congruence. Qed.

Lemma pytype_eqb_neq a b : pytype_eqb a b = false <-> a <> b.
Proof. destruct a, b; simpl; split; congruence. Qed.

Lemma after_start_unfold d al last_ki last_bit :
  last (opt_key_indices al) = Some last_ki ->
  al !! last_ki = Some last_bit ->
  after_start d al =
  if positionals_after d al last_ki last_bit
  then Some (after_from_here d al last_ki last_bit)
  else None.
Proof. unfold after_start. intros -> ->. reflexivity. Qed.

Lemma before_region_nil al :
  opt_key_indices al <> [] ->
  before_region al = [] ->
  positionals_before al (opt_key_indices al) = None.
Proof.
  unfold before_region, positionals_before. intros Hne.
  destruct (0 <? length al); [|reflexivity].
  destruct (opt_key_indices al) as [|first rest] eqn:E; [congruence|].
  destruct (first =? 0) eqn:E0; simpl; [reflexivity|].
  apply Nat.eqb_neq in E0.
  assert (first ∈ opt_key_indices al) as Hin by (rewrite E; left).
  apply opt_key_indices_spec in Hin as (bit & Hbit & _).
  apply lookup_lt_Some in Hbit.
  unfold slice. rewrite drop_0, Nat.sub_0_r.
  destruct al as [|a al]; [simpl in Hbit; lia|].
  destruct first; [congruence | discriminate].
Qed.

(** C2 (amended). When the last option key of the token sequence names
    a key of the schema: the region after it exists exactly when at
    least two tokens follow the option key itself and its type is not
    list. It then starts at [last_ki + 1] for a boolean key whose next
    token is neither "0" nor "1" (argument omitted), at [last_ki + 2] for
    a boolean key with an explicit "0" or "1" and for any other type; it
    runs to the end and is not empty. Without a region before the first
    option key it is the region the parser takes, and when the
    positional keys do not run out, each token gets the next positional
    key inserted before it, in order (a key of type list takes what
    follows it). *)
Theorem after_region_rule d al last_ki last_bit :
  last (opt_key_indices al) = Some last_ki ->
  al !! last_ki = Some last_bit ->
  dmem (lstrip_dash last_bit) d = true ->
  ((exists from_here, after_start d al = Some from_here) <->
   last_ki + 2 < length al /\ last_key_type d last_bit <> TList)
  /\ forall from_here,
      after_start d al = Some from_here ->
      (last_key_type d last_bit = TBool ->
       (forall a, al !! (last_ki + 1) = Some a -> a <> "0" /\ a <> "1") ->
       from_here = last_ki + 1)
      /\ (last_key_type d last_bit = TBool ->
          (al !! (last_ki + 1) = Some "0" \/ al !! (last_ki + 1) = Some "1") ->
          from_here = last_ki + 2)
      /\ (last_key_type d last_bit <> TBool -> from_here = last_ki + 2)
      /\ after_region d al = drop from_here al
      /\ after_region d al <> []
      /\ (before_region al = [] ->
          find_positionals d al (opt_key_indices al)
          = Ok (Some (PAfter, from_here, None)))
      /\ forall tol pks s,
          positional_excess d pks (after_region d al) = false ->
          insert_positionals d tol pks al from_here None s
          = (Ok (take from_here al
                 ++ with_positional_keys d pks (after_region d al)), s).
Proof.
  intros Hlast Hbit _.
  pose proof (after_start_unfold d al _ _ Hlast Hbit) as Hstart.
  split.
  - rewrite Hstart. unfold positionals_after.
    destruct (last_ki <? length al - 2) eqn:E1;
      [apply Nat.ltb_lt in E1 | apply Nat.ltb_ge in E1];
      destruct (pytype_eqb (last_key_type d last_bit) TList) eqn:E2;
      [apply pytype_eqb_eq in E2 | apply pytype_eqb_neq in E2
       | apply pytype_eqb_eq in E2 | apply pytype_eqb_neq in E2];
      simpl; split;
      try (intros [? [=]]); try (intros [? ?]); eauto; try lia; try tauto.
    split; [lia | assumption].
  - intros from_here Hfrom.
    assert (after_region d al = drop from_here al) as Hregion.
    { unfold after_region. rewrite Hfrom. reflexivity. }
    pose proof (after_start_lt _ _ _ Hfrom) as Hlt.
    rewrite Hstart in Hfrom.
    destruct (positionals_after d al last_ki last_bit); [|discriminate].
    injection Hfrom as <-. unfold after_from_here in *.
    repeat split.
    + intros Hb Hnext. rewrite Hb in *. simpl in *.
      destruct (al !! (last_ki + 1)) as [a|] eqn:Ea.
      * destruct (Hnext a eq_refl) as [H0 H1].
        apply String.eqb_neq in H0, H1. rewrite H0, H1.
        rewrite andb_false_r. reflexivity.
      * rewrite andb_false_r. reflexivity.
    + intros Hb Hnext. rewrite Hb in *. simpl in *.
      assert ((last_ki + 1 <? length al) = true) as ->.
      { apply Nat.ltb_lt.
        destruct Hnext as [H|H]; apply lookup_lt_Some in H; exact H. }
      destruct Hnext as [-> | ->]; reflexivity.
    + intros Hb. apply pytype_eqb_neq in Hb. rewrite Hb. reflexivity.
    + exact Hregion.
    + rewrite Hregion. intros Hnil.
      apply (f_equal length) in Hnil. rewrite length_drop in Hnil.
      simpl in Hnil. lia.
    + intros Hbefore. rewrite find_positionals_spec.
      rewrite (after_start_unfold d al _ _ Hlast Hbit).
      assert (opt_key_indices al <> []) as Hne.
      { intros E. rewrite E in Hlast. discriminate Hlast. }
      rewrite (before_region_nil _ Hne Hbefore).
      destruct (positionals_after d al last_ki last_bit) eqn:Ea.
      * reflexivity.
      * exfalso. unfold after_region, after_start in Hregion.
        rewrite Hlast, Hbit, Ea in Hregion.
        apply (f_equal length) in Hregion. rewrite length_drop in Hregion.
        simpl in Hregion. lia.
    + intros tol pks s Hex. rewrite Hregion in *.
      rewrite insert_positionals_enough; [| lia | exact Hex].
      unfold slice. rewrite drop_all, app_nil_r. reflexivity.
Qed.

(** C3. When the region before the first option key and the region
    after the last option and its argument are both non-empty, a call
    with a valid schema raises the error "positional arguments before OR
    after other options, not both" (line 201); it leaves the state in
    which it was raised, with no mapping returned and nothing written. *)
Theorem positionals_before_and_after_fatal help tol we adv s :
  valid_schema s = true ->
  before_region (tokens_of s) <> [] ->
  after_region (schema_of s) (tokens_of s) <> [] ->
  command_line_options help tol we adv s
  = (Raise (CommandLineError BeforeOrAfter), entered s).
Proof.
  intros Hv Hb Ha.
  unfold command_line_options. apply bind_raise.
  rewrite (parse_command_line_validated _ _ _ Hv). cbv zeta.
  apply bind_raise. unfold lift. f_equal.
  rewrite find_positionals_spec.
  apply after_region_start in Ha as [from_here ->].
  apply before_region_positionals in Hb as [r ->].
  reflexivity.
Qed.

(** ** One option of the main pass (lines 252-301) *)

Lemma getitem_dget d k v : dget k d = Some v -> getitem d k = v.
Proof. unfold getitem. intros ->. reflexivity. Qed.

Lemma dget_dmem {V} k (v : V) d : dget k d = Some v -> dmem k d = true.
Proof. unfold dmem. intros ->. reflexivity. Qed.

Lemma read_option_known d syn tol regs we al i next_ki bit v s :
  al !! i = Some bit ->
  dget (resolve_key syn bit) d = Some v ->
  read_option d syn tol regs we al i next_ki s
  = bind (option_value al i next_ki (Some (type_of v)) (resolve_key syn bit))
         (fun value => ret (resolve_key syn bit, value)) s.
Proof.
  intros Hbit Hk. unfold read_option.
  rewrite (index_ok _ _ _ Hbit), bind_lift_ok.
  unfold expected_type_of. rewrite (dget_dmem _ _ _ Hk). simpl.
  rewrite bind_ret, (getitem_dget _ _ _ Hk). reflexivity.
Qed.

Lemma read_option_unknown d syn tol regs we al i next_ki bit s :
  al !! i = Some bit ->
  dmem (resolve_key syn bit) d = false ->
  read_option d syn tol regs we al i next_ki s
  = if tol || ((0 <? length regs)
               && match_any_word (resolve_key syn bit) regs false)
    then
      bind (option_value al i next_ki None (resolve_key syn bit))
           (fun value => ret (resolve_key syn bit, value))
           (if we
            then add_warning (AcceptingUnexpectedOption (resolve_key syn bit)) s
            else s)
    else (Raise (CommandLineError (UnexpectedOption (resolve_key syn bit))), s).
Proof.
  intros Hbit Hk. unfold read_option.
  rewrite (index_ok _ _ _ Hbit), bind_lift_ok.
  unfold expected_type_of. rewrite Hk. simpl.
  destruct (tol || _); [|reflexivity].
  destruct we; reflexivity.
Qed.

Lemma match_any_word_spec k regs ignore_case :
  match_any_word k regs ignore_case = true
  <-> exists w, w ∈ regs /\ re_search ignore_case w k = true.
Proof.
  unfold match_any_word. induction regs as [|w regs IH]; simpl.
  - split; [discriminate | intros (w & Hw & _); inversion Hw].
  - rewrite orb_true_iff, IH. split.
    + intros [H|(w' & Hw' & H)]; [exists w | exists w']; split; auto.
      * left.
      * right. exact Hw'.
    + intros (w' & Hw' & H). apply elem_of_cons in Hw' as [->|Hw'].
      * left. exact H.
      * right. exists w'. auto.
Qed.

(** What lines 252-298 give for an option at [i] of a token sequence
    [al] whose key resolves to a boolean key [k] of the schema: followed
    by another option key or by the end of [al] the value True; followed
    by the token "1" True, by "0" False; followed by any other token the
    type error of line 293. For a key of type int, float or str, an
    option with no argument after it raises the error of line 282. *)
Lemma boolean_option_read d syn tol regs we al pre i rest bit k s :
  opt_key_indices al = pre ++ i :: rest ->
  al !! i = Some bit ->
  resolve_key syn bit = k ->
  (forall b0, dget k d = Some (VBool b0) ->
     ((al !! (i + 1) = None
       \/ exists b, al !! (i + 1) = Some b /\ is_option_key b = true) ->
      read_option d syn tol regs we al i (head rest) s
      = (Ok (k, VBool true), s))
     /\ (al !! (i + 1) = Some "1" ->
         read_option d syn tol regs we al i (head rest) s
         = (Ok (k, VBool true), s))
     /\ (al !! (i + 1) = Some "0" ->
         read_option d syn tol regs we al i (head rest) s
         = (Ok (k, VBool false), s))
     /\ (forall a, al !! (i + 1) = Some a -> is_option_key a = false ->
                   a <> "1" -> a <> "0" ->
         read_option d syn tol regs we al i (head rest) s
         = (Raise (CommandLineError (BadBoolean k a)), s)))
  /\ (forall v, dget k d = Some v ->
       type_of v = TInt \/ type_of v = TFloat \/ type_of v = TStr ->
       (al !! (i + 1) = None
        \/ exists b, al !! (i + 1) = Some b /\ is_option_key b = true) ->
       read_option d syn tol regs we al i (head rest) s
       = (Raise (CommandLineError (NoArgument (type_of v) k)), s)).
Proof.
  intros Hidx Hbit <-.
  pose proof (no_argument_spec _ _ _ _ Hidx) as Hno.
  assert (Hyes : forall a, al !! (i + 1) = Some a -> is_option_key a = false ->
            no_argument al i (head rest) = false).
  { intros a Ha Hk. rewrite Hno, Ha. exact Hk. }
  assert (Hnone : al !! (i + 1) = None
                  \/ (exists b, al !! (i + 1) = Some b
                                /\ is_option_key b = true) ->
                  no_argument al i (head rest) = true).
  { intros [Hn|(b & Hb & Hk)]; rewrite Hno.
    - rewrite Hn. reflexivity.
    - rewrite Hb. exact Hk. }
  split.
  - intros b0 Hk. rewrite (read_option_known _ _ _ _ _ _ _ _ _ _ _ Hbit Hk).
    unfold option_value, bind. simpl. repeat split.
    + intros H. rewrite (Hnone H). reflexivity.
    + intros Ha. rewrite (Hyes _ Ha eq_refl).
      unfold lift. rewrite (index_ok _ _ _ Ha). reflexivity.
    + intros Ha. rewrite (Hyes _ Ha eq_refl).
      unfold lift. rewrite (index_ok _ _ _ Ha). reflexivity.
    + intros a Ha Hk' H1 H0. rewrite (Hyes _ Ha Hk').
      unfold lift. rewrite (index_ok _ _ _ Ha).
      apply String.eqb_neq in H1, H0. rewrite H1, H0. reflexivity.
  - intros v Hk Ht H. rewrite (read_option_known _ _ _ _ _ _ _ _ _ _ _ Hbit Hk).
    unfold option_value, bind. rewrite (Hnone H).
    destruct Ht as [-> | [-> | ->]]; reflexivity.
Qed.

Lemma slice_length {A} (l : list A) a b :
  b <= length l -> length (slice l a (Some b)) = b - a.
Proof. intros H. unfold slice. rewrite length_take, length_drop. lia. Qed.

Lemma slice_lookup {A} (l : list A) a b j :
  a <= j < b -> slice l a (Some b) !! (j - a) = l !! j.
Proof.
  intros H. unfold slice. rewrite lookup_take_lt by lia.
  rewrite lookup_drop. f_equal. lia.
Qed.


Lemma read_option_key d syn tol regs we al i next_ki bit kv s s' :
  al !! i = Some bit ->
  read_option d syn tol regs we al i next_ki s = (Ok kv, s') ->
  fst kv = resolve_key syn bit.
Proof.
  intros Hbit. unfold read_option.
  rewrite (index_ok _ _ _ Hbit), bind_lift_ok. intros H.
  apply bind_inv_ok in H as (t & s1 & _ & H).
  apply bind_inv_ok in H as (v & s2 & _ & H).
  injection H as <- _. reflexivity.
Qed.

Lemma read_option_index d syn tol regs we al i next_ki kv s s' :
  read_option d syn tol regs we al i next_ki s = (Ok kv, s') ->
  exists bit, al !! i = Some bit.
Proof.
  unfold read_option, index, lift, bind.
  destruct (al !! i) as [bit|]; [eauto | discriminate].
Qed.

Lemma main_loop_keeps_keys d syn tol regs we al indices :
  forall previous opt s opt' s',
    main_loop d syn tol regs we al previous indices opt s = (Ok opt', s') ->
    forall k, dmem k opt = true -> dmem k opt' = true.
Proof.
  induction indices as [|i rest IH]; intros previous opt s opt' s' H k Hk;
    simpl in H.
  - injection H as <- _. exact Hk.
  - apply bind_inv_ok in H as (u & s1 & _ & H).
    apply bind_inv_ok in H as (kv & s2 & _ & H).
    eapply IH; [exact H|]. rewrite dmem_dset, Hk. apply orb_true_r.
Qed.

Lemma fill_defaults_keeps_keys items :
  forall opt s opt' s',
    fill_defaults items opt s = (Ok opt', s') ->
    forall k, dmem k opt = true -> dmem k opt' = true.
Proof.
  induction items as [|[k0 v0] items IH]; intros opt s opt' s' H k Hk;
    simpl in H.
  - injection H as <- _. exact Hk.
  - destruct (negb (dmem k0 opt)).
    + apply bind_inv_ok in H as (v' & s1 & _ & H).
      eapply IH; [exact H|]. rewrite dmem_dset, Hk. apply orb_true_r.
    + eapply IH; eauto.
Qed.

(** C7. In the main pass, for an option at [i] whose key resolves to a
    key [k] that is not in the schema: when [tolerate_extra] is set or
    [k] matches one of [tolerated_regexp], a warning is emitted unless
    [warning_extra] is off, and the option gets the value True when no
    argument follows it and otherwise its argument as a string; when the
    main pass and the filling of the defaults then complete, [k] is a key
    of the result. Otherwise the error "Unexpected command line option"
    is raised (line 267). *)
Theorem unknown_option_policy d syn (tol : bool) (regs : list regexp)
    (we : bool) al pre i rest bit k (s : Store) :
  opt_key_indices al = pre ++ i :: rest ->
  al !! i = Some bit ->
  resolve_key syn bit = k ->
  dmem k d = false ->
  (tol = true \/ (exists w, w ∈ regs /\ re_search false w k = true) ->
   let s' := if we then add_warning (AcceptingUnexpectedOption k) s else s in
   ((al !! (i + 1) = None
     \/ exists b, al !! (i + 1) = Some b /\ is_option_key b = true) ->
    read_option d syn tol regs we al i (head rest) s
    = (Ok (k, VBool true), s'))
   /\ (forall a, al !! (i + 1) = Some a -> is_option_key a = false ->
       read_option d syn tol regs we al i (head rest) s
       = (Ok (k, VStr a), s'))
   /\ (forall previous opt s0 opt1 s1,
         main_loop d syn tol regs we al previous (i :: rest) opt s0
         = (Ok opt1, s1) ->
         dmem k opt1 = true
         /\ forall opt2 s2,
             fill_defaults d opt1 s1 = (Ok opt2, s2) -> dmem k opt2 = true))
  /\ (tol = false -> (forall w, w ∈ regs -> re_search false w k = false) ->
      read_option d syn tol regs we al i (head rest) s
      = (Raise (CommandLineError (UnexpectedOption k)), s)).
Proof.
  intros Hidx Hbit <- Hk.
  pose proof (no_argument_spec _ _ _ _ Hidx) as Hno.
  rewrite (read_option_unknown _ _ _ _ _ _ _ _ _ _ Hbit Hk).
  split.
  - intros Htol.
    assert (tol || ((0 <? length regs)
                    && match_any_word (resolve_key syn bit) regs false)
            = true) as ->.
    { destruct Htol as [-> | Hw]; [reflexivity|].
      apply orb_true_iff. right. apply andb_true_iff. split.
      - destruct Hw as (w & Hw & _). apply Nat.ltb_lt.
        destruct regs; [inversion Hw | simpl; lia].
      - apply match_any_word_spec. exact Hw. }
    intros s'. split; [|split].
    + intros H. unfold option_value, bind. simpl.
      rewrite Hno.
      destruct H as [-> | (b & -> & ->)]; reflexivity.
    + intros a Ha Hka. unfold option_value, bind. simpl.
      rewrite Hno, Ha, Hka. unfold lift. rewrite (index_ok _ _ _ Ha).
      reflexivity.
    + intros previous opt s0 opt1 s1 H. simpl in H.
      apply bind_inv_ok in H as (u & sa & _ & H).
      apply bind_inv_ok in H as (kv & sb & Hread & H).
      pose proof (read_option_key _ _ _ _ _ _ _ _ _ _ _ _ Hbit Hread) as Hkey.
      assert (dmem (resolve_key syn bit) opt1 = true) as Hin.
      { eapply main_loop_keeps_keys; [exact H|].
        rewrite dmem_dset, Hkey, String.eqb_refl. reflexivity. }
      split; [exact Hin|]. intros opt2 s2 Hfill.
      eapply fill_defaults_keeps_keys; eauto.
  - intros -> Hnone.
    assert (match_any_word (resolve_key syn bit) regs false = false) as ->.
    { destruct (match_any_word _ regs false) eqn:E; [|reflexivity].
      apply match_any_word_spec in E as (w & Hw & Hs).
      rewrite (Hnone w Hw) in Hs. discriminate Hs. }
    rewrite andb_false_r. reflexivity.
Qed.

(** ** Extra arguments between two options (lines 243-250) *)

Lemma consumed_end_lt al previous_ki i :
  consumed_end al previous_ki i < i <-> previous_ki + 2 < i.
Proof.
  unfold consumed_end, no_argument.
  destruct (i =? previous_ki + 1) eqn:E;
    [apply Nat.eqb_eq in E | apply Nat.eqb_neq in E]; lia.
Qed.

Lemma check_gap_extra d tol al previous_ki previous_key i s :
  type_of (getitem d previous_key) <> TList ->
  previous_ki + 2 < i ->
  check_gap d tol al (Some (previous_ki, previous_key)) i s
  = if tol
    then (Ok tt,
          add_warning
            (IgnoringExtraArgument (slice al (previous_ki + 2) (Some i))) s)
    else (Raise (CommandLineError
                   (ExtraArgument (slice al (previous_ki + 2) (Some i)))),
          s).
Proof.
  intros Ht Hgap. unfold check_gap.
  assert ((previous_ki + 1 <? i - 1) = true) as ->
    by (apply Nat.ltb_lt; lia).
  apply pytype_eqb_neq in Ht. rewrite Ht. simpl.
  destruct tol; reflexivity.
Qed.

(** ** Which exceptions a block can raise *)

Lemma raises_only_ret {A} P (a : A) : raises_only P (ret a).
Proof. intros s e s' H. discriminate H. Qed.

Lemma raises_only_gets {A} P (f : Store -> A) : raises_only P (gets f).
Proof. intros s e s' H. discriminate H. Qed.

Lemma raises_only_modify P f : raises_only P (modify f).
Proof. intros s e s' H. discriminate H. Qed.

Lemma raises_only_raise {A} (P : exn -> Prop) e :
  P e -> raises_only P (@raise Store A e).
Proof. intros HP s e' s' [= <- _]. exact HP. Qed.

Lemma raises_only_lift {A} (P : exn -> Prop) (r : result A) :
  (forall e, r = Raise e -> P e) -> raises_only P (lift r).
Proof. intros Hr s e s' H. injection H as H _. apply Hr. exact H. Qed.

Lemma raises_only_bind {A B} P (c : M Store A) (k : A -> M Store B) :
  raises_only P c -> (forall a, raises_only P (k a)) ->
  raises_only P (bind c k).
Proof.
  intros Hc Hk s e s'. unfold bind.
  destruct (c s) as [[a|e0] s1] eqn:E.
  - apply Hk.
  - intros [= <- _]. eapply Hc. exact E.
Qed.

Lemma raises_only_new_list P xs : raises_only P (new_list xs).
Proof. intros s e s' H. discriminate H. Qed.

Lemma raises_only_read_list (P : exn -> Prop) l :
  P DanglingRef -> raises_only P (read_list l).
Proof.
  intros HP s e s'. unfold read_list.
  destruct (lists s !! l); [discriminate|]. intros [= <- _]. exact HP.
Qed.

Lemma raises_only_index {A} (P : exn -> Prop) (l : list A) i :
  P IndexError -> raises_only P (lift (index l i)).
Proof.
  intros HP. apply raises_only_lift. unfold index.
  destruct (l !! i); [discriminate|]. intros e [= <-]. exact HP.
Qed.

Create HintDb raises.

#[local] Hint Resolve raises_only_ret raises_only_gets raises_only_modify
  raises_only_new_list : raises.
#[local] Hint Extern 1 (raises_only _ (raise _)) =>
  apply raises_only_raise; discriminate : raises.
#[local] Hint Extern 1 (raises_only _ (read_list _)) =>
  apply raises_only_read_list; discriminate : raises.
#[local] Hint Extern 1 (raises_only _ (lift (index _ _))) =>
  apply raises_only_index; discriminate : raises.
#[local] Hint Extern 1 (raises_only _ (warn _)) =>
  apply raises_only_modify : raises.
#[local] Hint Extern 1 (raises_only _ (write _)) =>
  apply raises_only_modify : raises.

Ltac raises_step :=
  match goal with
  | |- raises_only _ (bind _ _) => apply raises_only_bind; [| intros ?]
  | |- raises_only _ (if ?b then _ else _) => destruct b
  | |- raises_only _ (match ?x with _ => _ end) => destruct x
  | |- raises_only _ _ => solve [auto with raises]
  end.

Ltac raises := unfold not_line_313; repeat raises_step.

Lemma find_positionals_raises d al oki e :
  find_positionals d al oki = Raise e -> not_line_313 e.
Proof.
  unfold find_positionals, index, not_line_313.
  destruct (_ && _); [|discriminate].
  destruct (last oki) as [last_ki|]; [|discriminate].
  destruct (al !! last_ki) as [bit|]; [|intros [= <-]; discriminate].
  destruct (positionals_after d al last_ki bit); [|discriminate].
  destruct (positionals_before al oki) as [[? ?]|]; [|discriminate].
  intros [= <-]. discriminate.
Qed.

Lemma check_default_opt_raises items :
  raises_only not_line_313 (check_default_opt items).
Proof. induction items as [|[k v] items IH]; simpl; raises. Qed.

Lemma positional_loop_raises d tol pks al from_here up_to values :
  forall i acc,
    raises_only not_line_313
      (positional_loop d tol pks al from_here up_to i values acc).
Proof. induction values as [|v values IH]; intros i acc; simpl; raises. Qed.

#[local] Hint Resolve check_default_opt_raises positional_loop_raises : raises.

Lemma read_option_raises d syn tol regs we al i next_ki :
  raises_only not_line_313 (read_option d syn tol regs we al i next_ki).
Proof.
  unfold read_option, expected_type_of, option_value. raises.
Qed.

#[local] Hint Resolve read_option_raises : raises.

Lemma main_loop_raises d syn tol regs we al indices :
  forall previous opt,
    raises_only not_line_313
      (main_loop d syn tol regs we al previous indices opt).
Proof.
  induction indices as [|i rest IH]; intros previous opt; cbn [main_loop].
  - raises.
  - unfold check_gap. raises.
Qed.

Lemma fill_defaults_raises items :
  forall opt, raises_only not_line_313 (fill_defaults items opt).
Proof.
  induction items as [|[k v] items IH]; intros opt; simpl; [raises|].
  unfold copy. raises.
Qed.

#[local] Hint Resolve main_loop_raises fill_defaults_raises : raises.

Lemma parse_command_line_raises tol we :
  raises_only not_line_313 (parse_command_line tol we).
Proof.
  unfold parse_command_line, check_positional_keys, insert_positionals.
  raises.
  apply raises_only_lift. apply find_positionals_raises.
Qed.

(** ** The local schema (lines 156-159) *)

Lemma dget_fold_dset {V} k (d : dict V) : forall acc,
  dmem k (fold_left (fun acc kv => dset (fst kv) (snd kv) acc) d acc)
  = dmem k acc || dmem k d.
Proof.
  induction d as [|[k0 v0] d IH]; intros acc; simpl.
  - rewrite orb_false_r. reflexivity.
  - rewrite IH, dmem_dset. unfold dmem at 4. simpl.
    destruct (String.eqb k0 k); simpl.
    + rewrite orb_true_r. reflexivity.
    + reflexivity.
Qed.

Lemma dmem_dict_copy {V} k (d : dict V) : dmem k (dict_copy d) = dmem k d.
Proof. unfold dict_copy. rewrite dget_fold_dset. reflexivity. Qed.

Lemma NoDup_dkeys_dict_copy {V} (d : dict V) : NoDup (dkeys (dict_copy d)).
Proof.
  unfold dict_copy.
  enough (forall acc, NoDup (dkeys acc) ->
            NoDup (dkeys (fold_left (fun acc kv => dset (fst kv) (snd kv) acc)
                            d acc))) as H by (apply H; constructor).
  induction d as [|[k v] d IH]; intros acc Hacc; simpl; [exact Hacc|].
  apply IH. apply NoDup_dkeys_dset. exact Hacc.
Qed.

Lemma NoDup_dkeys_with_builtins d : NoDup (dkeys (with_builtins d)).
Proof.
  unfold with_builtins, add_builtin.
  pose proof (NoDup_dkeys_dict_copy d).
  destruct (negb (dmem "h" (dict_copy d)));
    destruct (negb (dmem "print_opt" _)); auto using NoDup_dkeys_dset.
Qed.

Lemma NoDup_dkeys_schema_of s : NoDup (dkeys (schema_of s)).
Proof. apply NoDup_dkeys_with_builtins. Qed.

Lemma dget_NoDup {V} k (v : V) d :
  NoDup (dkeys d) -> (k, v) ∈ d -> dget k d = Some v.
Proof.
  induction d as [|[k0 v0] d IH]; intros Hnd Hin; [inversion Hin|].
  simpl in *. apply NoDup_cons in Hnd as [Hk0 Hnd].
  apply elem_of_cons in Hin as [[= <- <-]|Hin].
  - rewrite String.eqb_refl. reflexivity.
  - destruct (String.eqb k0 k) eqn:E.
    + apply String.eqb_eq in E. subst k0. exfalso. apply Hk0.
      unfold dkeys. apply list_elem_of_fmap. exists (k, v). auto.
    + auto.
Qed.

Lemma builtin_h_default s :
  dmem "h" (default_opt_obj s) = false ->
  dget "h" (schema_of s) = Some (VBool false).
Proof.
  intros Hh. unfold schema_of, with_builtins, add_builtin.
  rewrite dmem_dict_copy, Hh. simpl.
  destruct (negb (dmem "print_opt" _)).
  - rewrite dget_dset_ne by discriminate. apply dget_dset_eq.
  - apply dget_dset_eq.
Qed.

(** ** The value of a boolean key *)

Lemma option_value_boolean al i next_ki k v s s' :
  option_value al i next_ki (Some TBool) k s = (Ok v, s') ->
  exists b, v = VBool b.
Proof.
  unfold option_value. simpl.
  destruct (no_argument al i next_ki).
  - intros [= <- _]. eauto.
  - unfold bind, lift, index. destruct (al !! (i + 1)) as [a|]; [|discriminate].
    destruct (String.eqb a "1"); [intros [= <- _]; eauto|].
    destruct (String.eqb a "0"); [intros [= <- _]; eauto|].
    discriminate.
Qed.

Lemma read_option_boolean d syn tol regs we al i next_ki kv b0 s s' :
  dget (fst kv) d = Some (VBool b0) ->
  read_option d syn tol regs we al i next_ki s = (Ok kv, s') ->
  exists b, snd kv = VBool b.
Proof.
  intros Hk Hread.
  destruct (read_option_index _ _ _ _ _ _ _ _ _ _ _ Hread) as [bit Hbit].
  pose proof (read_option_key _ _ _ _ _ _ _ _ _ _ _ _ Hbit Hread) as Hkey.
  rewrite Hkey in Hk.
  rewrite (read_option_known _ _ _ _ _ _ _ _ _ _ _ Hbit Hk) in Hread.
  apply bind_inv_ok in Hread as (v & s1 & Hv & Hret).
  injection Hret as <- _. simpl.
  eapply option_value_boolean. exact Hv.
Qed.

Lemma boolean_or_absent_dset k k' v opt :
  boolean_or_absent k opt ->
  (k' = k -> exists b, v = VBool b) ->
  boolean_or_absent k (dset k' v opt).
Proof.
  unfold boolean_or_absent. intros Hopt Hv. rewrite dget_dset.
  destruct (String.eqb k' k) eqn:E; [|exact Hopt].
  apply String.eqb_eq in E. auto.
Qed.

Lemma main_loop_boolean d syn tol regs we al k b0 indices :
  dget k d = Some (VBool b0) ->
  forall previous opt s opt' s',
    boolean_or_absent k opt ->
    main_loop d syn tol regs we al previous indices opt s = (Ok opt', s') ->
    boolean_or_absent k opt'.
Proof.
  intros Hk. induction indices as [|i rest IH];
    intros previous opt s opt' s' Hopt H; cbn [main_loop] in H.
  - injection H as <- _. exact Hopt.
  - apply bind_inv_ok in H as (u & s1 & _ & H).
    apply bind_inv_ok in H as (kv & s2 & Hread & H).
    eapply IH; [|exact H].
    apply boolean_or_absent_dset; [exact Hopt|].
    intros Hkey. eapply read_option_boolean; [|exact Hread].
    rewrite Hkey. exact Hk.
Qed.

Lemma fill_defaults_boolean k items :
  (forall v, (k, v) ∈ items -> exists b, v = VBool b) ->
  forall opt s opt' s',
    boolean_or_absent k opt ->
    fill_defaults items opt s = (Ok opt', s') ->
    boolean_or_absent k opt'.
Proof.
  induction items as [|[k0 v0] items IH]; intros Hitems opt s opt' s' Hopt H;
    simpl in H.
  - injection H as <- _. exact Hopt.
  - assert (Hrest : forall v, (k, v) ∈ items -> exists b, v = VBool b).
    { intros v Hv. apply Hitems. right. exact Hv. }
    destruct (negb (dmem k0 opt)).
    + apply bind_inv_ok in H as (v' & s1 & Hcopy & H).
      eapply IH; [exact Hrest | | exact H].
      apply boolean_or_absent_dset; [exact Hopt|].
      intros ->. destruct (Hitems v0) as [b ->]; [left|].
      injection Hcopy as <- _. eauto.
    + eapply IH; eauto.
Qed.

Lemma fill_defaults_covers items :
  forall opt s opt' s',
    fill_defaults items opt s = (Ok opt', s') ->
    forall k, k ∈ dkeys items -> dmem k opt' = true.
Proof.
  induction items as [|[k0 v0] items IH]; intros opt s opt' s' H k Hk;
    simpl in *.
  - inversion Hk.
  - apply elem_of_cons in Hk as [->|Hk].
    + destruct (negb (dmem k0 opt)) eqn:E.
      * apply bind_inv_ok in H as (v' & s1 & _ & H).
        eapply fill_defaults_keeps_keys; [exact H|].
        rewrite dmem_dset, String.eqb_refl. reflexivity.
      * eapply fill_defaults_keeps_keys; [exact H|].
        apply negb_false_iff in E. exact E.
    + destruct (negb (dmem k0 opt)).
      * apply bind_inv_ok in H as (v' & s1 & _ & H). eapply IH; eauto.
      * eapply IH; eauto.
Qed.

Lemma parse_command_line_inv tol we s opt s1 :
  parse_command_line tol we s = (Ok opt, s1) ->
  exists al regs opt0 s2 s3,
    main_loop (schema_of s) (synonyms_of s) tol regs we al None
      (opt_key_indices al) [] s2 = (Ok opt0, s3)
    /\ fill_defaults (schema_of s) opt0 s3 = (Ok opt, s1).
Proof.
  unfold parse_command_line.
  rewrite !bind_gets, bind_modify, bind_gets. intros H.
  apply bind_inv_ok in H as (u1 & sa & _ & H).
  rewrite bind_gets in H.
  apply bind_inv_ok in H as (u2 & sb & _ & H).
  apply bind_inv_ok in H as (pos & sc & _ & H).
  apply bind_inv_ok in H as (al & sd & _ & H).
  rewrite bind_gets in H.
  apply bind_inv_ok in H as (opt0 & se & Hmain & H).
  exists al, (tolerated_regexp_obj sd), opt0, sd, se. split; assumption.
Qed.

Lemma raises_only_bind_lift_ok {A B} P (a : A) (k : A -> M Store B) :
  raises_only P (k a) -> raises_only P (bind (lift (Ok a)) k).
Proof. intros H s e s'. rewrite bind_lift_ok. apply H. Qed.

Lemma raises_only_truthy v : raises_only not_line_313 (truthy v).
Proof. unfold truthy. raises. Qed.

#[local] Hint Resolve raises_only_truthy : raises.

Lemma help_and_print_boolean_raises help adv opt b :
  dget "h" opt = Some (VBool b) ->
  raises_only not_line_313 (help_and_print help adv opt).
Proof.
  intros Hh. unfold help_and_print.
  rewrite (getitem_dget _ _ _ Hh). simpl.
  apply raises_only_bind; [raises|intros h].
  apply raises_only_bind; [|intros u; raises].
  destruct h; [|raises].
  apply raises_only_bind; [raises|intros u].
  destruct (0 <? length adv); [|raises].
  apply raises_only_bind_lift_ok. raises.
Qed.

(** C10. When the caller's schema does not define [h], so that [h] keeps
    the builtin default False: the mapping that reaches line 310 binds
    [h] to a boolean; the call never raises the [NameError] of line 313,
    the only statement of the advanced-help branch; and an option that
    resolves to [h] and is followed by an argument other than "0" and
    "1", as in [-h map], raises the type error of line 293. *)
Theorem builtin_help_is_boolean help (tol we : bool) adv (s : Store) :
  dmem "h" (default_opt_obj s) = false ->
  (forall opt s1,
     parse_command_line tol we s = (Ok opt, s1) ->
     exists b, dget "h" opt = Some (VBool b))
  /\ (forall e s1,
        command_line_options help tol we adv s = (Raise e, s1) ->
        e <> NameError "advanced")
  /\ (forall (regs : list regexp) al i next_ki bit a (s' : Store),
        al !! i = Some bit ->
        resolve_key (synonyms_of s) bit = "h" ->
        no_argument al i next_ki = false ->
        al !! (i + 1) = Some a ->
        a <> "1" -> a <> "0" ->
        read_option (schema_of s) (synonyms_of s) tol regs we al i next_ki s'
        = (Raise (CommandLineError (BadBoolean "h" a)), s')).
Proof.
  intros Hh. pose proof (builtin_h_default _ Hh) as Hd.
  assert (Hparse : forall opt s1,
            parse_command_line tol we s = (Ok opt, s1) ->
            exists b, dget "h" opt = Some (VBool b)).
  { intros opt s1 H.
    apply parse_command_line_inv in H
      as (al & regs & opt0 & s2 & s3 & Hmain & Hfill).
    assert (boolean_or_absent "h" opt0) as H0.
    { eapply main_loop_boolean; [exact Hd | | exact Hmain]. exact I. }
    assert (boolean_or_absent "h" opt) as H1.
    { eapply fill_defaults_boolean; [| exact H0 | exact Hfill].
      intros v Hv.
      apply (dget_NoDup _ _ _ (NoDup_dkeys_schema_of s)) in Hv.
      rewrite Hd in Hv. injection Hv as <-. eauto. }
    assert (dmem "h" opt = true) as H2.
    { eapply fill_defaults_covers; [exact Hfill|].
      apply dmem_keys. eapply dget_dmem. exact Hd. }
    unfold boolean_or_absent, dmem in *.
    destruct (dget "h" opt) as [v|]; [|discriminate H2].
    destruct H1 as [b ->]. eauto. }
  split; [exact Hparse|]. split.
  - intros e s1. unfold command_line_options, bind.
    destruct (parse_command_line tol we s) as [[opt|e0] s0] eqn:E.
    + destruct (Hparse _ _ eq_refl) as [b Hb].
      apply (help_and_print_boolean_raises help adv _ _ Hb).
    + intros [= <- _]. eapply parse_command_line_raises. exact E.
  - intros regs al i next_ki bit a s' Hbit Hkey Hno Ha H1 H0.
    rewrite <- Hkey in Hd.
    rewrite (read_option_known _ _ _ _ _ _ _ _ _ _ _ Hbit Hd), Hkey.
    unfold option_value, bind. simpl. rewrite Hno.
    unfold lift. rewrite (index_ok _ _ _ Ha).
    apply String.eqb_neq in H1, H0. rewrite H1, H0. reflexivity.
Qed.

(** ** Results read through the store *)

Lemma view_dset h k v opt :
  view h (dset k v opt) = dset k (content_of h v) (view h opt).
Proof.
  unfold view. induction opt as [|[k0 v0] opt IH]; simpl; [reflexivity|].
  destruct (String.eqb k0 k); simpl; [reflexivity|]. rewrite IH. reflexivity.
Qed.

Lemma dget_view h k opt :
  dget k (view h opt) = option_map (content_of h) (dget k opt).
Proof.
  unfold view. induction opt as [|[k0 v0] opt IH]; simpl; [reflexivity|].
  destruct (String.eqb k0 k); [reflexivity | exact IH].
Qed.

Lemma dmem_view h k opt : dmem k (view h opt) = dmem k opt.
Proof. unfold dmem. rewrite dget_view. destruct (dget k opt); reflexivity. Qed.

Lemma dkeys_view h opt : dkeys (view h opt) = dkeys opt.
Proof.
  unfold dkeys, view. rewrite map_map. reflexivity.
Qed.

Lemma elem_of_dset {V} k (v : V) k' v' d :
  (k', v') ∈ dset k v d -> (k', v') ∈ d \/ v' = v.
Proof.
  induction d as [|[k0 v0] d IH]; simpl.
  - intros H. apply list_elem_of_singleton in H. injection H as _ ->. auto.
  - destruct (String.eqb k0 k).
    + intros H. apply elem_of_cons in H as [[= _ ->]|H]; [auto|].
      left. right. exact H.
    + intros H. apply elem_of_cons in H as [->|H]; [left; left|].
      destruct (IH H); [left; right|]; auto.
Qed.

Lemma view_extends (h h' : gmap loc (list value)) opt :
  (forall k l, (k, VList l) ∈ opt -> is_Some (h !! l)) ->
  (forall l xs, h !! l = Some xs -> h' !! l = Some xs) ->
  view h' opt = view h opt.
Proof.
  intros Hopt Hsub. unfold view.
  induction opt as [|[k v] opt IH]; simpl; [reflexivity|].
  rewrite IH by (intros k' l Hin; apply (Hopt k'); right; exact Hin).
  f_equal. f_equal. destruct v; try reflexivity. simpl.
  destruct (Hopt k l) as [xs Hxs]; [left|].
  rewrite Hxs, (Hsub _ _ Hxs). reflexivity.
Qed.

Lemma new_lists_nil s0 s : new_lists s0 s [].
Proof. intros k l H. inversion H. Qed.

Lemma new_lists_dset s0 s k v opt :
  new_lists s0 s opt ->
  (forall l, v = VList l -> lists s0 !! l = None /\ is_Some (lists s !! l)) ->
  new_lists s0 s (dset k v opt).
Proof.
  intros Hopt Hv k' l Hin. apply elem_of_dset in Hin as [Hin | Hin].
  - eapply Hopt. exact Hin.
  - apply Hv. symmetry. exact Hin.
Qed.

Lemma new_lists_extends s0 s s' opt :
  new_lists s0 s opt -> extends s s' -> new_lists s0 s' opt.
Proof.
  intros Hopt (_ & _ & _ & _ & _ & Hsub) k l Hin.
  destruct (Hopt k l Hin) as [H0 [xs Hxs]]. split; [exact H0|].
  exists xs. apply Hsub. exact Hxs.
Qed.

Lemma view_new_lists s0 s s' opt :
  new_lists s0 s opt -> extends s s' ->
  view (lists s') opt = view (lists s) opt.
Proof.
  intros Hopt (_ & _ & _ & _ & _ & Hsub). apply view_extends; [|exact Hsub].
  intros k l Hin. apply (Hopt k l Hin).
Qed.

(** ** The indices of the option keys, in order *)

Lemma chain_weaken hi lo lo' indices :
  lo' <= lo -> chain hi lo indices -> chain hi lo' indices.
Proof.
  destruct indices as [|i rest]; simpl; [tauto|].
  intros Hle [Hi Hrest]. split; [lia | exact Hrest].
Qed.

Lemma chain_option_indices_from l : forall n,
  chain (n + length l) n (option_indices_from n l).
Proof.
  induction l as [|b l IH]; intros n; simpl; [exact I|].
  specialize (IH (S n)).
  replace (S n + length l) with (n + S (length l)) in IH by lia.
  destruct (is_option_key b).
  - simpl. split; [lia | exact IH].
  - eapply chain_weaken; [|exact IH]. lia.
Qed.

Lemma chain_opt_key_indices al : chain (length al) 0 (opt_key_indices al).
Proof. apply (chain_option_indices_from al 0). Qed.

Lemma chain_head hi lo i rest :
  chain hi lo (i :: rest) ->
  i < hi /\ match head rest with
            | Some n => i < n < hi
            | None => True
            end.
Proof.
  simpl. intros [Hi Hrest]. split; [lia|].
  destruct rest as [|n rest]; simpl in *; [exact I | lia].
Qed.

(** ** The main pass over a clean command line *)

Lemma check_gap_none d tol al previous i next_ki k s :
  gap_before d al (mkOccurrence previous i k next_ki) = false ->
  check_gap d tol al previous i s = (Ok tt, s).
Proof.
  unfold gap_before, check_gap. simpl.
  destruct previous as [[previous_ki previous_key]|]; [|reflexivity].
  intros H.
  assert ((previous_ki + 1 <? i - 1)
          = (consumed_end al previous_ki i <? i)) as ->.
  { destruct (consumed_end al previous_ki i <? i) eqn:E.
    - apply Nat.ltb_lt in E. apply consumed_end_lt in E.
      apply Nat.ltb_lt. lia.
    - apply Nat.ltb_ge in E. apply Nat.ltb_ge.
      pose proof (consumed_end_lt al previous_ki i). lia. }
  rewrite H. reflexivity.
Qed.

Lemma argument_present al i next_ki :
  i < length al ->
  match next_ki with
  | Some n => i < n < length al
  | None => True
  end ->
  no_argument al i next_ki = false ->
  exists a, al !! (i + 1) = Some a.
Proof.
  intros Hi Hnext Hno. apply lookup_lt_is_Some. unfold no_argument in Hno.
  destruct next_ki as [n|]; apply Nat.eqb_neq in Hno; lia.
Qed.

Ltac scalar_result :=
  split; [reflexivity|]; split; [apply extends_refl|];
  split; [reflexivity|]; split; [intros ? [=] | split; reflexivity].

Lemma read_option_clean d syn tol regs we al previous i next_ki bit s :
  al !! i = Some bit ->
  match next_ki with
  | Some n => i < n < length al
  | None => True
  end ->
  let k := resolve_key syn bit in
  let o := mkOccurrence previous i k next_ki in
  accepted_option_type (type_of (getitem d k)) = true ->
  known_key d o = true ->
  argument_given d al o = true ->
  argument_casts d al o = true ->
  exists v s',
    read_option d syn tol regs we al i next_ki s = (Ok (k, v), s')
    /\ extends s s'
    /\ content_of (lists s') v = parsed_value (type_of (getitem d k)) al i next_ki
    /\ (forall l, v = VList l -> lists s !! l = None /\ is_Some (lists s' !! l))
    /\ warned s' = warned s /\ written s' = written s.
Proof.
  intros Hbit Hnext k o Hacc Hknown Hgiven Hcasts.
  unfold known_key, dmem in Hknown. simpl in Hknown.
  destruct (dget k d) as [v0|] eqn:Hk; [|discriminate Hknown].
  rewrite (read_option_known _ _ _ _ _ _ _ _ _ _ _ Hbit Hk).
  unfold argument_given, argument_casts, occ_type in *. simpl in *.
  rewrite (getitem_dget _ _ _ Hk) in *.
  assert (Hi : i < length al) by (apply lookup_lt_Some in Hbit; exact Hbit).
  pose proof (argument_present al i next_ki Hi Hnext) as Harg.
  unfold option_value, parsed_value, bind.
  destruct (type_of v0) eqn:Et; simpl in *; try discriminate Hacc.
  - (* bool *)
    destruct (no_argument al i next_ki) eqn:Hno.
    + exists (VBool true), s. scalar_result.
    + destruct (Harg eq_refl) as [a Ha]. rewrite Ha in *. simpl.
      unfold lift. rewrite (index_ok _ _ _ Ha).
      destruct (String.eqb a "1") eqn:E1.
      * exists (VBool true), s. scalar_result.
      * simpl in Hcasts. rewrite Hcasts.
        exists (VBool false), s. scalar_result.
  - (* int *)
    apply negb_true_iff in Hgiven. rewrite Hgiven in *.
    destruct (Harg eq_refl) as [a Ha]. rewrite Ha in *. simpl.
    unfold lift. rewrite (index_ok _ _ _ Ha).
    destruct (int_of_str a) as [z|]; [|discriminate Hcasts].
    exists (VInt z), s. scalar_result.
  - (* float *)
    apply negb_true_iff in Hgiven. rewrite Hgiven in *.
    destruct (Harg eq_refl) as [a Ha]. rewrite Ha in *. simpl.
    unfold lift. rewrite (index_ok _ _ _ Ha).
    destruct (float_of_str a) as [f|]; [|discriminate Hcasts].
    exists (VFloat f), s. scalar_result.
  - (* list *)
    eexists _, _. split; [reflexivity|]. split; [apply preserving_new_list|].
    simpl. rewrite lookup_insert_eq. simpl.
    split; [reflexivity|]. split; [|split; reflexivity].
    intros l' [= <-]. split; [apply fresh_list_unused|].
    rewrite lookup_insert_eq. eauto.
  - (* str *)
    apply negb_true_iff in Hgiven. rewrite Hgiven in *.
    destruct (Harg eq_refl) as [a Ha]. rewrite Ha in *. simpl.
    unfold lift. rewrite (index_ok _ _ _ Ha).
    exists (VStr a), s. scalar_result.
Qed.

Lemma extends_unused s0 s l :
  extends s0 s -> lists s !! l = None -> lists s0 !! l = None.
Proof.
  intros (_ & _ & _ & _ & _ & Hsub) Hl.
  destruct (lists s0 !! l) as [xs|] eqn:E; [|reflexivity].
  apply Hsub in E. congruence.
Qed.

Lemma main_loop_clean d syn tol regs we al s0 :
  (forall k v, dget k d = Some v -> accepted_option_type (type_of v) = true) ->
  forall indices lo previous opt s,
    chain (length al) lo indices ->
    forallb (known_key d) (occurrences syn al previous indices) = true ->
    forallb (argument_given d al) (occurrences syn al previous indices)
    = true ->
    forallb (argument_casts d al) (occurrences syn al previous indices)
    = true ->
    forallb (fun o => negb (gap_before d al o))
            (occurrences syn al previous indices) = true ->
    extends s0 s ->
    new_lists s0 s opt ->
    exists opt' s',
      main_loop d syn tol regs we al previous indices opt s = (Ok opt', s')
      /\ extends s s'
      /\ new_lists s0 s' opt'
      /\ view (lists s') opt'
         = parsed_options d syn al indices (view (lists s) opt)
      /\ warned s' = warned s /\ written s' = written s.
Proof.
  intros Hd. induction indices as [|i rest IH];
    intros lo previous opt s Hchain Hknown Hgiven Hcasts Hgap Hext Hnew.
  - exists opt, s. split; [reflexivity|]. split; [apply extends_refl|].
    split; [exact Hnew|]. split; [reflexivity|]. split; reflexivity.
  - cbn [occurrences forallb] in Hknown, Hgiven, Hcasts, Hgap.
    apply andb_true_iff in Hknown as [Hk1 Hk2].
    apply andb_true_iff in Hgiven as [Hg1 Hg2].
    apply andb_true_iff in Hcasts as [Hc1 Hc2].
    apply andb_true_iff in Hgap as [Hp1 Hp2].
    apply negb_true_iff in Hp1.
    pose proof (chain_head _ _ _ _ Hchain) as [Hi Hnext].
    destruct (lookup_lt_is_Some_2 al i Hi) as [bit Hbit].
    rewrite (list_lookup_total_correct _ _ _ Hbit) in *.
    set (k := resolve_key syn bit) in *.
    assert (accepted_option_type (type_of (getitem d k)) = true) as Hacc.
    { unfold known_key, dmem in Hk1. simpl in Hk1.
      destruct (dget k d) as [v0|] eqn:E; [|discriminate Hk1].
      rewrite (getitem_dget _ _ _ E). eapply Hd. exact E. }
    destruct (read_option_clean d syn tol regs we al previous i (head rest)
                bit s Hbit Hnext Hacc Hk1 Hg1 Hc1)
      as (v & s1 & Hread & Hext1 & Hcontent & Hfresh & Hw1 & Hwr1).
    cbn [main_loop]. unfold bind at 1.
    rewrite (check_gap_none _ _ _ _ _ _ _ _ Hp1).
    unfold bind at 1. rewrite Hread. cbn [fst snd].
    destruct Hchain as [_ Hchain].
    destruct (IH (S i) (Some (i, k)) (dset k v opt) s1 Hchain Hk2 Hg2 Hc2 Hp2)
      as (opt' & s' & Hmain & Hext' & Hnew' & Hview & Hw & Hwr).
    + eapply extends_trans; eassumption.
    + apply new_lists_dset.
      * eapply new_lists_extends; eassumption.
      * intros l Hl. destruct (Hfresh l Hl) as [Hnone Hsome].
        split; [|exact Hsome]. eapply extends_unused; eassumption.
    + exists opt', s'. split; [exact Hmain|].
      split; [eapply extends_trans; eassumption|].
      split; [exact Hnew'|].
      split; [|split; congruence].
      rewrite Hview, view_dset, Hcontent.
      rewrite (view_new_lists _ _ _ _ Hnew Hext1).
      cbn [parsed_options]. rewrite (list_lookup_total_correct _ _ _ Hbit).
      reflexivity.
Qed.

(** ** The defaults filled in (lines 305-307) *)

Lemma fill_defaults_clean s0 items :
  forallb (fun kv => valid_default (lists s0) (snd kv)) items = true ->
  forall opt s,
    extends s0 s ->
    new_lists s0 s opt ->
    exists opt' s',
      fill_defaults items opt s = (Ok opt', s')
      /\ extends s s'
      /\ new_lists s0 s' opt'
      /\ view (lists s') opt' = filled (lists s0) items (view (lists s) opt)
      /\ warned s' = warned s /\ written s' = written s.
Proof.
  induction items as [|[k v] items IH]; intros Hvalid opt s Hext Hnew;
    simpl in *.
  - exists opt, s. split; [reflexivity|]. split; [apply extends_refl|].
    split; [exact Hnew|]. split; [reflexivity|]. split; reflexivity.
  - apply andb_true_iff in Hvalid as [Hv Hvalid].
    rewrite dmem_view. destruct (negb (dmem k opt)); [|apply IH; assumption].
    assert (exists v' s1,
              copy v s = (Ok v', s1) /\ extends s s1
              /\ content_of (lists s1) v' = content_of (lists s0) v
              /\ (forall l, v' = VList l ->
                   lists s !! l = None /\ is_Some (lists s1 !! l))
              /\ warned s1 = warned s /\ written s1 = written s)
      as (v' & s1 & Hcopy & Hext1 & Hcontent & Hfresh & Hw1 & Hwr1).
    { destruct v as [| b | z | f | x | l]; simpl in Hv; try discriminate Hv;
        try (eexists _, s; scalar_result).
      destruct (lists s0 !! l) as [xs|] eqn:El; [|discriminate Hv].
      assert (lists s !! l = Some xs) as Hl.
      { destruct Hext as (_ & _ & _ & _ & _ & Hsub). apply Hsub. exact El. }
      unfold copy, bind, read_list. rewrite Hl.
      eexists _, _. split; [reflexivity|].
      split; [apply preserving_new_list|].
      simpl. rewrite lookup_insert_eq, El. simpl.
      split; [reflexivity|]. split; [|split; reflexivity].
      intros l' [= <-]. split; [apply fresh_list_unused|].
      rewrite lookup_insert_eq. eauto. }
    unfold bind at 1. rewrite Hcopy.
    destruct (IH Hvalid (dset k v' opt) s1) as
      (opt' & s' & Hfill & Hext' & Hnew' & Hview & Hw & Hwr).
    + eapply extends_trans; eassumption.
    + apply new_lists_dset.
      * eapply new_lists_extends; eassumption.
      * intros l Hl. destruct (Hfresh l Hl) as [Hnone Hsome].
        split; [|exact Hsome]. eapply extends_unused; eassumption.
    + exists opt', s'. split; [exact Hfill|].
      split; [eapply extends_trans; eassumption|].
      split; [exact Hnew'|]. split; [|split; congruence].
      rewrite Hview, view_dset, Hcontent.
      rewrite (view_new_lists _ _ _ _ Hnew Hext1). reflexivity.
Qed.

(** ** The expected result *)

Lemma dget_parsed_options d syn al indices k : forall previous acc,
  (forall o, o ∈ occurrences syn al previous indices -> occ_key o <> k) ->
  dget k (parsed_options d syn al indices acc) = dget k acc.
Proof.
  induction indices as [|i rest IH]; intros previous acc Hk; simpl in *.
  - reflexivity.
  - rewrite (IH (Some (i, resolve_key syn (al !!! i)))).
    + apply dget_dset_ne.
      apply (Hk (mkOccurrence previous i (resolve_key syn (al !!! i))
                   (head rest))). left.
    + intros o Ho. apply Hk. right. exact Ho.
Qed.

Lemma NoDup_parsed_options d syn al indices : forall acc,
  NoDup (dkeys acc) -> NoDup (dkeys (parsed_options d syn al indices acc)).
Proof.
  induction indices as [|i rest IH]; intros acc Hacc; simpl; [exact Hacc|].
  apply IH. apply NoDup_dkeys_dset. exact Hacc.
Qed.

Lemma dmem_parsed_options d syn al indices k : forall previous acc,
  dmem k (parsed_options d syn al indices acc) = true ->
  dmem k acc = true
  \/ exists o, o ∈ occurrences syn al previous indices /\ occ_key o = k.
Proof.
  induction indices as [|i rest IH]; intros previous acc H; simpl in *.
  - left. exact H.
  - apply (IH (Some (i, resolve_key syn (al !!! i)))) in H as [H|(o & Ho & Hk)].
    + rewrite dmem_dset in H. apply orb_true_iff in H as [H|H].
      * right. exists (mkOccurrence previous i (resolve_key syn (al !!! i))
                         (head rest)).
        split; [left|]. simpl. apply String.eqb_eq. exact H.
      * left. exact H.
    + right. exists o. split; [right; exact Ho | exact Hk].
Qed.

Lemma NoDup_filled h items : forall acc,
  NoDup (dkeys acc) -> NoDup (dkeys (filled h items acc)).
Proof.
  induction items as [|[k v] items IH]; intros acc Hacc; simpl; [exact Hacc|].
  destruct (negb (dmem k acc)); apply IH; [|exact Hacc].
  apply NoDup_dkeys_dset. exact Hacc.
Qed.

Lemma dmem_cons {V} k k0 (v0 : V) d :
  dmem k ((k0, v0) :: d) = String.eqb k0 k || dmem k d.
Proof. unfold dmem. simpl. destruct (String.eqb k0 k); reflexivity. Qed.

Lemma dmem_filled h items k : forall acc,
  dmem k (filled h items acc) = dmem k acc || dmem k items.
Proof.
  induction items as [|[k0 v0] items IH]; intros acc.
  - simpl. rewrite orb_false_r. reflexivity.
  - rewrite dmem_cons. cbn [filled].
    destruct (dmem k0 acc) eqn:E0; cbn [negb]; rewrite IH.
    + destruct (String.eqb k0 k) eqn:E; [|reflexivity].
      apply String.eqb_eq in E. subst k0. rewrite E0. reflexivity.
    + rewrite dmem_dset. destruct (String.eqb k0 k); simpl.
      * rewrite orb_true_r. reflexivity.
      * reflexivity.
Qed.

Lemma dget_filled_kept h items k c : forall acc,
  dget k acc = Some c -> dget k (filled h items acc) = Some c.
Proof.
  induction items as [|[k0 v0] items IH]; intros acc Hk; simpl; [exact Hk|].
  destruct (negb (dmem k0 acc)) eqn:E; apply IH; [|exact Hk].
  rewrite dget_dset. destruct (String.eqb k0 k) eqn:E0; [|exact Hk].
  apply String.eqb_eq in E0. subst k0. apply negb_true_iff in E.
  unfold dmem in E. rewrite Hk in E. discriminate E.
Qed.

Lemma dget_filled_default h items k v : forall acc,
  NoDup (dkeys items) ->
  dget k items = Some v ->
  dget k acc = None ->
  dget k (filled h items acc) = Some (content_of h v).
Proof.
  induction items as [|[k0 v0] items IH]; intros acc Hnd Hk Hacc;
    simpl in *; [discriminate Hk|].
  apply NoDup_cons in Hnd as [Hk0 Hnd].
  destruct (String.eqb k0 k) eqn:E0.
  - apply String.eqb_eq in E0. subst k0. injection Hk as <-.
    unfold dmem. rewrite Hacc. simpl.
    apply dget_filled_kept. apply dget_dset_eq.
  - apply String.eqb_neq in E0.
    destruct (negb (dmem k0 acc)); apply IH; auto.
    rewrite dget_dset_ne by exact E0. exact Hacc.
Qed.

(** ** The whole parse of a clean command line *)

Lemma nonempty_before_region al r :
  positionals_before al (opt_key_indices al) = Some r ->
  nonempty (before_region al) = true.
Proof.
  unfold before_region. intros H. rewrite H.
  unfold positionals_before in H.
  destruct (0 <? length al) eqn:E0; [|discriminate H].
  apply Nat.ltb_lt in E0.
  destruct (opt_key_indices al) as [|first rest] eqn:E.
  - injection H as <-. unfold slice. rewrite drop_0.
    destruct al; [simpl in E0; lia | reflexivity].
  - destruct (first =? 0) eqn:Ef; simpl in H; [discriminate H|].
    injection H as <-. apply Nat.eqb_neq in Ef.
    unfold slice. rewrite drop_0, Nat.sub_0_r.
    destruct al; [simpl in E0; lia|].
    destruct first; [congruence | reflexivity].
Qed.

Lemma nonempty_after_region d al from_here :
  after_start d al = Some from_here -> nonempty (after_region d al) = true.
Proof.
  intros H. pose proof (after_start_lt _ _ _ H) as Hlt.
  unfold after_region. rewrite H.
  destruct (drop from_here al) eqn:E; [|reflexivity].
  apply (f_equal length) in E. rewrite length_drop in E. simpl in E. lia.
Qed.

Lemma find_positionals_clean d al :
  negb (nonempty (before_region al) && nonempty (after_region d al)) = true ->
  exists pos,
    find_positionals d al (opt_key_indices al) = Ok pos
    /\ positional_region d al
       = match pos with
         | Some (_, from_here, up_to) => Some (from_here, up_to)
         | None => None
         end.
Proof.
  intros H. rewrite find_positionals_spec. unfold positional_region.
  destruct (after_start d al) as [from_here|] eqn:Ea.
  - destruct (positionals_before al (opt_key_indices al)) as [r|] eqn:Eb.
    + rewrite (nonempty_before_region _ _ Eb) in H.
      rewrite (nonempty_after_region _ _ _ Ea) in H. discriminate H.
    + eexists. split; reflexivity.
  - destruct (positionals_before al (opt_key_indices al)) as [[f u]|];
      eexists; split; reflexivity.
Qed.

Lemma positional_region_le d al from_here up_to :
  positional_region d al = Some (from_here, up_to) -> from_here <= length al.
Proof.
  unfold positional_region.
  destruct (after_start d al) as [n|] eqn:Ea.
  - intros [= <- _]. apply after_start_lt in Ea. lia.
  - unfold positionals_before. destruct (0 <? length al); [|discriminate].
    destruct (opt_key_indices al) as [|first rest].
    + intros [= <- _]. lia.
    + destruct (negb (first =? 0)); [|discriminate]. intros [= <- _]. lia.
Qed.

Lemma valid_default_accepted h v :
  valid_default h v = true -> accepted_option_type (type_of v) = true.
Proof. destruct v; simpl; auto. Qed.

Lemma forallb_elem_of {A} (f : A -> bool) l x :
  forallb f l = true -> x ∈ l -> f x = true.
Proof.
  induction l as [|y l IH]; simpl; intros H Hx; [inversion Hx|].
  apply andb_true_iff in H as [H1 H2].
  apply elem_of_cons in Hx as [->|Hx]; auto.
Qed.

Lemma valid_schema_defaults s :
  valid_schema s = true ->
  forallb (fun kv => valid_default (lists s) (snd kv)) (schema_of s) = true.
Proof.
  unfold valid_schema. intros H. apply andb_true_iff in H as [H _].
  apply forallb_with_builtins; [reflexivity | exact H].
Qed.

Lemma valid_schema_accepted s k v :
  valid_schema s = true ->
  dget k (schema_of s) = Some v ->
  accepted_option_type (type_of v) = true.
Proof.
  intros Hv Hk. apply (valid_default_accepted (lists s)).
  apply (forallb_elem_of _ _ (k, v) (valid_schema_defaults _ Hv)).
  apply dget_elem_of. exact Hk.
Qed.

Lemma parse_clean tol we s :
  valid_schema s = true ->
  no_unknown_keys s = true ->
  no_missing_argument s = true ->
  values_cast s = true ->
  no_extra_tokens s = true ->
  exists opt s1,
    parse_command_line tol we s = (Ok opt, s1)
    /\ extends (entered s) s1
    /\ new_lists s s1 opt
    /\ view (lists s1) opt = expected_result s
    /\ warned s1 = warned s /\ written s1 = written s.
Proof.
  intros Hvalid Hknown Hgiven Hcasts Hextra.
  unfold no_extra_tokens in Hextra.
  apply andb_true_iff in Hextra as [Hextra Hgap].
  apply andb_true_iff in Hextra as [Hsides Hcount].
  apply negb_true_iff in Hcount.
  rewrite (parse_command_line_validated _ _ _ Hvalid). cbv zeta.
  destruct (find_positionals_clean _ _ Hsides) as (pos & Hpos & Hregion).
  rewrite Hpos, bind_lift_ok.
  assert (exists al,
            (match pos with
             | Some (_, from_here, up_to) =>
                 insert_positionals (schema_of s) tol (positional_keys_obj s)
                   (tokens_of s) from_here up_to
             | None => ret (tokens_of s)
             end) (entered s) = (Ok al, entered s)
            /\ al = main_tokens s) as (al & Hal & Heq).
  { unfold main_tokens, explicit_arglist.
    unfold positional_tokens in Hcount. rewrite Hregion in *.
    destruct pos as [[[tag from_here] up_to]|].
    - eexists. split; [|reflexivity].
      apply insert_positionals_enough; [|exact Hcount].
      eapply positional_region_le. exact Hregion.
    - eexists. split; reflexivity. }
  erewrite bind_ok by exact Hal. subst al.
  rewrite bind_gets.
  destruct (main_loop_clean (schema_of s) (synonyms_of s) tol
              (tolerated_regexp_obj (entered s)) we (main_tokens s)
              (entered s)
              (fun k v => valid_schema_accepted s k v Hvalid)
              (opt_key_indices (main_tokens s)) 0 None [] (entered s)
              (chain_opt_key_indices _) Hknown Hgiven Hcasts Hgap
              (extends_refl _) (new_lists_nil _ _))
    as (opt0 & s2 & Hmain & Hext2 & Hnew2 & Hview2 & Hw2 & Hwr2).
  erewrite bind_ok by exact Hmain.
  destruct (fill_defaults_clean (entered s) (schema_of s)
              (valid_schema_defaults _ Hvalid) opt0 s2 Hext2 Hnew2)
    as (opt & s1 & Hfill & Hext1 & Hnew1 & Hview1 & Hw1 & Hwr1).
  exists opt, s1. split; [exact Hfill|].
  split; [eapply extends_trans; eassumption|].
  split; [exact Hnew1|].
  split; [|split; simpl in *; congruence].
  rewrite Hview1, Hview2. reflexivity.
Qed.

(** ** Truth values (lines 310-319) *)

Lemma truthy_falsy v s :
  falsy (lists s) v = true -> truthy v s = (Ok false, s).
Proof.
  destruct v as [| b | z | f | x | l]; simpl; intros H;
    try (unfold ret; rewrite ?H; reflexivity).
  - apply negb_true_iff in H. rewrite H. reflexivity.
  - apply negb_true_iff in H. rewrite H. reflexivity.
  - unfold bind, read_list.
    destruct (lists s !! l) as [[|y ys]|]; try discriminate H. reflexivity.
Qed.

Lemma truthy_valid v s :
  (forall l, v = VList l -> is_Some (lists s !! l)) ->
  exists b, truthy v s = (Ok b, s).
Proof.
  intros Hv. destruct v as [| b | z | f | x | l]; simpl;
    try (eexists; reflexivity).
  destruct (Hv l eq_refl) as [xs Hxs].
  unfold bind, read_list. rewrite Hxs. eexists. reflexivity.
Qed.

Lemma falsy_content h v h' v' :
  content_of h v = content_of h' v' ->
  (forall l, v = VList l -> is_Some (h !! l)) ->
  (forall l, v' = VList l -> is_Some (h' !! l)) ->
  falsy h v = falsy h' v'.
Proof.
  intros Hc Hv Hv'.
  destruct v as [| b | z | f | x | l]; destruct v' as [| b' | z' | f' | x' | l'];
    simpl in Hc; try discriminate Hc; try (injection Hc as <-); try reflexivity.
  destruct (Hv l eq_refl) as [xs Hxs]. destruct (Hv' l' eq_refl) as [xs' Hxs'].
  simpl. rewrite Hxs, Hxs' in *. simpl in Hc. injection Hc as <-. reflexivity.
Qed.

(** ** A call with a clean command line *)

Lemma dmem_add_builtin b k d :
  dmem k (add_builtin b d) = String.eqb b k || dmem k d.
Proof.
  unfold add_builtin. destruct (dmem b d) eqn:E; simpl.
  - destruct (String.eqb b k) eqn:Ek; [|reflexivity].
    apply String.eqb_eq in Ek. subst. rewrite E. reflexivity.
  - apply dmem_dset.
Qed.

Lemma schema_has_h s : dmem "h" (schema_of s) = true.
Proof.
  unfold schema_of, with_builtins. rewrite !dmem_add_builtin. reflexivity.
Qed.

Lemma schema_has_print_opt s : dmem "print_opt" (schema_of s) = true.
Proof.
  unfold schema_of, with_builtins. rewrite !dmem_add_builtin. reflexivity.
Qed.

Lemma valid_schema_list s k l :
  valid_schema s = true ->
  dget k (schema_of s) = Some (VList l) ->
  exists xs, lists s !! l = Some xs.
Proof.
  intros Hv Hk.
  pose proof (forallb_elem_of _ _ (k, VList l) (valid_schema_defaults _ Hv)
                (dget_elem_of _ _ _ Hk)) as H.
  simpl in H. destruct (lists s !! l) as [xs|]; [eauto | discriminate H].
Qed.

Lemma dget_expected_default s k v :
  dget k (schema_of s) = Some v ->
  not_given s k ->
  dget k (expected_result s) = Some (content_of (lists s) v).
Proof.
  intros Hk Hng. unfold expected_result.
  apply dget_filled_default.
  - apply NoDup_dkeys_schema_of.
  - exact Hk.
  - rewrite (dget_parsed_options _ _ _ _ _ None); [reflexivity|].
    exact Hng.
Qed.

Lemma new_lists_dget s0 s opt k l :
  new_lists s0 s opt -> dget k opt = Some (VList l) ->
  lists s0 !! l = None /\ is_Some (lists s !! l).
Proof. intros Hnew Hk. apply (Hnew k). apply dget_elem_of. exact Hk. Qed.

Lemma dget_of_view h opt k c :
  dget k (view h opt) = Some c ->
  exists v, dget k opt = Some v /\ content_of h v = c.
Proof.
  rewrite dget_view. destruct (dget k opt) as [v|]; simpl; [|discriminate].
  intros [= <-]. eauto.
Qed.

Lemma help_not_set_not_given s :
  help_not_set s = true -> not_given s "h".
Proof.
  unfold help_not_set. intros H. apply andb_true_iff in H as [H _].
  intros o Ho Hk.
  pose proof (forallb_elem_of _ _ o H Ho) as Hb. simpl in Hb.
  rewrite Hk in Hb. discriminate Hb.
Qed.

(** The last block of the call (lines 309-321) when [h] is false. *)
Lemma help_and_print_clean help adv opt vh s :
  dget "h" opt = Some vh ->
  falsy (lists s) vh = true ->
  (forall k l, dget k opt = Some (VList l) -> is_Some (lists s !! l)) ->
  exists s',
    help_and_print help adv opt s = (Ok opt, s')
    /\ extends s s' /\ lists s' = lists s.
Proof.
  intros Hoh Hfalse Hvalid.
  assert (exists p, truthy (getitem opt "print_opt") s = (Ok p, s)) as [p Hp].
  { apply truthy_valid. intros l Hl. unfold getitem in Hl.
    destruct (dget "print_opt" opt) as [vp|] eqn:Evp; [|discriminate Hl].
    subst vp. eapply Hvalid. exact Evp. }
  exists (if p then add_output (OutOptions opt) s else s). split.
  - unfold help_and_print.
    rewrite (getitem_dget _ _ _ Hoh).
    erewrite bind_ok by (apply truthy_falsy; exact Hfalse).
    cbv beta iota. rewrite bind_ret.
    erewrite bind_ok by exact Hp.
    rewrite (dget_dmem _ _ _ Hoh).
    destruct p; cbv beta iota.
    + unfold write. rewrite bind_modify.
      erewrite bind_ok
        by (apply (truthy_falsy vh (add_output (OutOptions opt) s));
            exact Hfalse).
      reflexivity.
    + rewrite bind_ret.
      erewrite bind_ok by (apply truthy_falsy; exact Hfalse).
      reflexivity.
  - destruct p; split; try reflexivity;
      [apply preserving_write | apply extends_refl].
Qed.

Lemma call_clean help tol we adv s :
  valid_schema s = true ->
  no_unknown_keys s = true ->
  no_missing_argument s = true ->
  values_cast s = true ->
  no_extra_tokens s = true ->
  help_not_set s = true ->
  exists opt s1,
    command_line_options help tol we adv s = (Ok opt, s1)
    /\ extends (entered s) s1
    /\ new_lists s s1 opt
    /\ view (lists s1) opt = expected_result s.
Proof.
  intros Hvalid Hknown Hgiven Hcasts Hextra Hhelp.
  destruct (parse_clean tol we s Hvalid Hknown Hgiven Hcasts Hextra)
    as (opt & s1 & Hparse & Hext & Hnew & Hview & _ & _).
  (* the value of h *)
  pose proof (schema_has_h s) as Hh. unfold dmem in Hh.
  destruct (dget "h" (schema_of s)) as [vh|] eqn:Evh; [|discriminate Hh].
  pose proof (dget_expected_default s "h" vh Evh
                (help_not_set_not_given _ Hhelp)) as Heh.
  rewrite <- Hview in Heh.
  apply dget_of_view in Heh as (vh' & Hoh & Hch).
  assert (falsy (lists s1) vh' = true) as Hfalse.
  { unfold help_not_set in Hhelp. apply andb_true_iff in Hhelp as [_ Hf].
    rewrite (getitem_dget _ _ _ Evh) in Hf. rewrite <- Hf.
    apply falsy_content; [exact Hch | |].
    - intros l ->. apply (new_lists_dget _ _ _ _ _ Hnew Hoh).
    - intros l ->. destruct (valid_schema_list _ _ _ Hvalid Evh) as [xs Hxs].
      eauto. }
  destruct (help_and_print_clean help adv opt vh' s1 Hoh Hfalse)
    as (s1' & Hprint & Hext' & Hlists).
  { intros k l Hk. apply (new_lists_dget _ _ _ _ _ Hnew Hk). }
  exists opt, s1'. split.
  - unfold command_line_options. erewrite bind_ok by exact Hparse.
    exact Hprint.
  - split; [eapply extends_trans; eassumption|]. split.
    + eapply new_lists_extends; eassumption.
    + rewrite Hlists. exact Hview.
Qed.

(** ** A second call *)

Lemma dset_idem {V} k (v : V) d : dset k v (dset k v d) = dset k v d.
Proof.
  induction d as [|[k0 v0] d IH]; simpl.
  - rewrite String.eqb_refl. reflexivity.
  - destruct (String.eqb k0 k) eqn:E; simpl; rewrite E; [reflexivity|].
    rewrite IH. reflexivity.
Qed.

Lemma extends_same_inputs s s' : extends (entered s) s' -> same_inputs s s'.
Proof.
  intros (H1 & H2 & H3 & H4 & H5 & H6). simpl in *.
  unfold same_inputs, schema_of, synonyms_of, tokens_of.
  rewrite H1, H2, H3, H5, dset_idem. repeat split. exact H6.
Qed.

Lemma same_inputs_main_tokens s s' :
  same_inputs s s' -> main_tokens s' = main_tokens s.
Proof.
  intros (H1 & H2 & H3 & H4 & H5). unfold main_tokens.
  rewrite H1, H3, H4. reflexivity.
Qed.

Lemma same_inputs_options_of s s' :
  same_inputs s s' -> options_of s' = options_of s.
Proof.
  intros H. unfold options_of. rewrite (same_inputs_main_tokens _ _ H).
  destruct H as (H1 & H2 & H3 & H4 & H5). rewrite H2. reflexivity.
Qed.

Lemma valid_default_extends (h h' : gmap loc (list value)) v :
  (forall l xs, h !! l = Some xs -> h' !! l = Some xs) ->
  valid_default h v = true -> valid_default h' v = true.
Proof.
  intros Hsub. destruct v; simpl; auto.
  destruct (h !! l) as [xs|] eqn:E; [|discriminate].
  rewrite (Hsub _ _ E). auto.
Qed.

Lemma same_inputs_valid_schema s s' :
  same_inputs s s' -> default_opt_obj s' = default_opt_obj s ->
  valid_schema s = true -> valid_schema s' = true.
Proof.
  intros (H1 & H2 & H3 & H4 & H5) Hd. unfold valid_schema.
  rewrite H1, H4, Hd. intros H. apply andb_true_iff in H as [Ha Hb].
  apply andb_true_iff. split; [|exact Hb].
  clear -Ha H5. induction (default_opt_obj s) as [|[k v] d IH]; simpl in *;
    [reflexivity|].
  apply andb_true_iff in Ha as [Hv Ha].
  rewrite (valid_default_extends _ _ _ H5 Hv). simpl. auto.
Qed.

Lemma content_of_valid_extends (h h' : gmap loc (list value)) v :
  (forall l xs, h !! l = Some xs -> h' !! l = Some xs) ->
  valid_default h v = true -> content_of h' v = content_of h v.
Proof.
  intros Hsub. destruct v; simpl; auto.
  destruct (h !! l) as [xs|] eqn:E; [|discriminate].
  rewrite (Hsub _ _ E). reflexivity.
Qed.

Lemma filled_valid_extends (h h' : gmap loc (list value)) items :
  (forall l xs, h !! l = Some xs -> h' !! l = Some xs) ->
  forallb (fun kv => valid_default h (snd kv)) items = true ->
  forall acc, filled h' items acc = filled h items acc.
Proof.
  intros Hsub. induction items as [|[k v] items IH]; intros Hv acc; simpl in *.
  - reflexivity.
  - apply andb_true_iff in Hv as [Hv Hitems].
    rewrite (content_of_valid_extends _ _ _ Hsub Hv).
    destruct (negb (dmem k acc)); apply IH; exact Hitems.
Qed.

Lemma same_inputs_expected_result s s' :
  same_inputs s s' -> valid_schema s = true ->
  expected_result s' = expected_result s.
Proof.
  intros H Hvalid. unfold expected_result.
  rewrite (same_inputs_main_tokens _ _ H).
  destruct H as (H1 & H2 & H3 & H4 & H5). rewrite H1, H2.
  apply filled_valid_extends; [exact H5|].
  apply valid_schema_defaults. exact Hvalid.
Qed.

Lemma same_inputs_help_not_set s s' :
  same_inputs s s' -> valid_schema s = true ->
  help_not_set s = true -> help_not_set s' = true.
Proof.
  intros H Hvalid. unfold help_not_set.
  rewrite (same_inputs_options_of _ _ H).
  destruct H as (H1 & H2 & H3 & H4 & H5). rewrite H1.
  intros Hn. apply andb_true_iff in Hn as [Ha Hb].
  apply andb_true_iff. split; [exact Ha|].
  destruct (getitem (schema_of s) "h") eqn:E; simpl in *; auto.
  destruct (lists s !! l) as [xs|] eqn:El; [|discriminate Hb].
  rewrite (H5 _ _ El). exact Hb.
Qed.

Lemma same_value_of_content h v1 v2 :
  content_of h v1 = content_of h v2 ->
  (forall l, v1 = VList l -> is_Some (h !! l)) ->
  (forall l, v2 = VList l -> is_Some (h !! l)) ->
  same_value h v1 v2.
Proof.
  intros Hc H1 H2.
  destruct v1 as [| b | z | f | x | l]; destruct v2 as [| b' | z' | f' | x' | l'];
    simpl in *; try discriminate Hc; try (injection Hc as <-); try reflexivity.
  destruct (H1 l eq_refl) as [xs Hxs]. destruct (H2 l' eq_refl) as [xs' Hxs'].
  rewrite Hxs, Hxs' in Hc. simpl in Hc. injection Hc as <-. eauto.
Qed.

Lemma equal_mappings_of_view h opt1 opt2 :
  view h opt1 = view h opt2 ->
  (forall k l, dget k opt1 = Some (VList l) -> is_Some (h !! l)) ->
  (forall k l, dget k opt2 = Some (VList l) -> is_Some (h !! l)) ->
  equal_mappings h opt1 opt2.
Proof.
  intros Hv H1 H2. split.
  - rewrite <- (dkeys_view h opt1), <- (dkeys_view h opt2), Hv. reflexivity.
  - intros k. pose proof (dget_view h k opt1) as E1.
    pose proof (dget_view h k opt2) as E2. rewrite Hv in E1.
    rewrite E1 in E2.
    destruct (dget k opt1) as [v1|] eqn:D1;
      destruct (dget k opt2) as [v2|] eqn:D2; simpl in E2;
      try discriminate E2; [|exact I].
    injection E2 as E2. apply same_value_of_content; [exact E2 | |].
    + intros l ->. eapply H1. exact D1.
    + intros l ->. eapply H2. exact D2.
Qed.

Lemma same_inputs_conditions s s' :
  same_inputs s s' ->
  no_unknown_keys s' = no_unknown_keys s
  /\ no_missing_argument s' = no_missing_argument s
  /\ values_cast s' = values_cast s
  /\ no_extra_tokens s' = no_extra_tokens s.
Proof.
  intros H.
  unfold no_unknown_keys, no_missing_argument, values_cast, no_extra_tokens.
  rewrite (same_inputs_options_of _ _ H), (same_inputs_main_tokens _ _ H).
  destruct H as (H1 & H2 & H3 & H4 & H5). rewrite H1, H3, H4.
  repeat split.
Qed.

(** C1. For a valid schema and a command line with no unknown key, no
    missing argument, no token in excess and only values that cast, the
    help flag not being set, [command_line_options] returns a mapping.
    Its keys are the keys of the schema with the builtin keys [h] and
    [print_opt], each once. A key that is not given on the command line
    is bound to its default, a list default to a new list object with
    the same elements. Every list of the mapping is a list object that
    did not exist before the call, so that assigning to it changes no
    list that existed before, the lists of the schema and of earlier
    results among them. A second call on the same schema and tokens
    returns an equal mapping, whose lists are again new. *)
Theorem clean_command_line_parses help (tol we : bool) adv (s : Store) :
  valid_schema s = true ->
  no_unknown_keys s = true ->
  no_missing_argument s = true ->
  values_cast s = true ->
  no_extra_tokens s = true ->
  help_not_set s = true ->
  exists opt s1,
    command_line_options help tol we adv s = (Ok opt, s1)
    /\ NoDup (dkeys opt)
    /\ (forall k, k ∈ dkeys opt <-> k ∈ dkeys (schema_of s))
    /\ "h" ∈ dkeys opt /\ "print_opt" ∈ dkeys opt
    /\ (forall k v,
          dget k (schema_of s) = Some v -> not_given s k ->
          match v with
          | VList l =>
              exists l' xs,
                dget k opt = Some (VList l') /\ l' <> l
                /\ lists s !! l = Some xs /\ lists s1 !! l' = Some xs
          | _ => dget k opt = Some v
          end)
    /\ (forall k l',
          dget k opt = Some (VList l') ->
          lists s !! l' = None /\ is_Some (lists s1 !! l')
          /\ forall ys l xs,
               lists s !! l = Some xs ->
               (<[l' := ys]> (lists s1)) !! l = Some xs)
    /\ exists opt2 s2,
         command_line_options help tol we adv s1 = (Ok opt2, s2)
         /\ equal_mappings (lists s2) opt opt2
         /\ forall k1 l1 k2 l2,
              dget k1 opt = Some (VList l1) ->
              dget k2 opt2 = Some (VList l2) -> l1 <> l2.
Proof.
  intros Hvalid Hknown Hgiven Hcasts Hextra Hhelp.
  destruct (call_clean help tol we adv s Hvalid Hknown Hgiven Hcasts Hextra
              Hhelp) as (opt & s1 & Hcall & Hext & Hnew & Hview).
  pose proof (extends_same_inputs _ _ Hext) as Hsame.
  assert (Hsub : forall l xs, lists s !! l = Some xs -> lists s1 !! l = Some xs).
  { destruct Hsame as (_ & _ & _ & _ & H). exact H. }
  assert (Hkeys : forall k, dmem k opt = dmem k (schema_of s)).
  { intros k. rewrite <- (dmem_view (lists s1)), Hview.
    unfold expected_result. rewrite dmem_filled.
    destruct (dmem k (parsed_options _ _ _ _ _)) eqn:E; [|reflexivity].
    apply (dmem_parsed_options _ _ _ _ _ None) in E
      as [E | (o & Ho & <-)]; [discriminate E|].
    simpl. symmetry.
    apply (forallb_elem_of _ _ o Hknown Ho). }
  exists opt, s1. split; [exact Hcall|].
  split; [|split; [|split; [|split; [|split; [|split]]]]].
  - rewrite <- (dkeys_view (lists s1)), Hview. unfold expected_result.
    apply NoDup_filled, NoDup_parsed_options. constructor.
  - intros k. rewrite <- !dmem_keys, Hkeys. reflexivity.
  - apply dmem_keys. rewrite Hkeys. apply schema_has_h.
  - apply dmem_keys. rewrite Hkeys. apply schema_has_print_opt.
  - intros k v Hk Hng.
    pose proof (dget_expected_default s k v Hk Hng) as He.
    rewrite <- Hview in He. apply dget_of_view in He as (v' & Hv' & Hc).
    destruct v as [| b | z | f | x | l];
      try (destruct v'; simpl in Hc; try discriminate Hc; congruence).
    destruct (valid_schema_list _ _ _ Hvalid Hk) as [xs Hxs].
    destruct v' as [| b | z | f | x | l']; simpl in Hc; try discriminate Hc.
    destruct (new_lists_dget _ _ _ _ _ Hnew Hv') as [Hnone [ys Hys]].
    rewrite Hxs, Hys in Hc. simpl in Hc. injection Hc as ->.
    exists l', xs. repeat split; auto. intros ->. congruence.
  - intros k l' Hk.
    destruct (new_lists_dget _ _ _ _ _ Hnew Hk) as [Hnone Hsome].
    split; [exact Hnone|]. split; [exact Hsome|].
    intros ys l xs Hl. rewrite lookup_insert_ne by (intros ->; congruence).
    apply Hsub. exact Hl.
  - assert (default_opt_obj s1 = default_opt_obj s) as Hd.
    { destruct Hext as (H & _). exact H. }
    destruct (same_inputs_conditions _ _ Hsame) as (C1 & C2 & C3 & C4).
    destruct (call_clean help tol we adv s1) as
      (opt2 & s2 & Hcall2 & Hext2 & Hnew2 & Hview2).
    + apply (same_inputs_valid_schema _ _ Hsame Hd Hvalid).
    + rewrite C1. exact Hknown.
    + rewrite C2. exact Hgiven.
    + rewrite C3. exact Hcasts.
    + rewrite C4. exact Hextra.
    + apply (same_inputs_help_not_set _ _ Hsame Hvalid Hhelp).
    + exists opt2, s2. split; [exact Hcall2|].
      assert (Hsub2 : forall l xs,
                lists s1 !! l = Some xs -> lists s2 !! l = Some xs).
      { destruct Hext2 as (_ & _ & _ & _ & _ & H). exact H. }
      split.
      * apply equal_mappings_of_view.
        -- rewrite Hview2, (same_inputs_expected_result _ _ Hsame Hvalid).
           rewrite <- Hview. apply view_extends; [|exact Hsub2].
           intros k l Hin. apply (Hnew k l Hin).
        -- intros k l Hk.
           destruct (new_lists_dget _ _ _ _ _ Hnew Hk) as [_ [xs Hxs]].
           exists xs. apply Hsub2. exact Hxs.
        -- intros k l Hk. apply (new_lists_dget _ _ _ _ _ Hnew2 Hk).
      * intros k1 l1 k2 l2 H1 H2 ->.
        destruct (new_lists_dget _ _ _ _ _ Hnew H1) as [_ [xs Hxs]].
        destruct (new_lists_dget _ _ _ _ _ Hnew2 H2) as [Hnone _].
        congruence.
Qed.

(** ** The canonical command line *)

Lemma lstrip_dash_other c s :
  c <> "-"%char -> lstrip_dash (String c s) = String c s.
Proof.
  intros Hc. destruct c as [[] [] [] [] [] [] [] []];
    try reflexivity; contradiction Hc; reflexivity.
Qed.

Lemma lstrip_option_key k :
  is_option_key ("-" +:+ k) = true -> lstrip_dash ("-" +:+ k) = k.
Proof.
  unfold is_option_key. simpl.
  destruct k as [|c k]; [rewrite !andb_false_r; discriminate|].
  intros H. apply andb_true_iff in H as [_ H].
  apply lstrip_dash_other. intros ->. discriminate H.
Qed.

Lemma option_indices_canonical asg : forall n,
  (forall k v, (k, v) ∈ asg ->
     is_option_key ("-" +:+ k) = true /\ is_option_key (literal v) = false) ->
  option_indices_from n (canonical_tokens asg)
  = option_positions n (length asg).
Proof.
  induction asg as [|[k v] asg IH]; intros n H; simpl; [reflexivity|].
  destruct (H k v) as [Hk Hv]; [left|].
  change (String "-" k) with ("-" +:+ k). rewrite Hk, Hv.
  f_equal. apply IH. intros k' v' Hin. apply H. right. exact Hin.
Qed.

Lemma length_canonical_tokens asg :
  length (canonical_tokens asg) = 2 * length asg.
Proof. induction asg as [|[k v] asg IH]; simpl; [reflexivity | lia]. Qed.

Lemma option_positions_bound n m x :
  x ∈ option_positions n m -> n <= x /\ x + 2 <= n + 2 * m.
Proof.
  revert n. induction m as [|m IH]; intros n H; simpl in H; [inversion H|].
  apply elem_of_cons in H as [->|H]; [lia|]. apply IH in H. lia.
Qed.

Lemma last_option_positions m : forall n,
  last (option_positions n (S m)) = Some (n + 2 * m).
Proof.
  induction m as [|m IH]; intros n.
  - simpl. f_equal. lia.
  - change (option_positions n (S (S m)))
      with (n :: option_positions (S (S n)) (S m)).
    rewrite last_cons, IH. f_equal. lia.
Qed.

Lemma head_option_positions n m :
  head (option_positions n m)
  = match m with 0 => None | S _ => Some n end.
Proof. destruct m; reflexivity. Qed.

Lemma find_positionals_canonical d asg :
  (forall k v, (k, v) ∈ asg ->
     is_option_key ("-" +:+ k) = true /\ is_option_key (literal v) = false) ->
  find_positionals d (canonical_tokens asg)
    (opt_key_indices (canonical_tokens asg)) = Ok None.
Proof.
  intros H. rewrite find_positionals_spec.
  assert (opt_key_indices (canonical_tokens asg)
          = option_positions 0 (length asg)) as Hidx
    by (apply option_indices_canonical; exact H).
  assert (after_start d (canonical_tokens asg) = None) as ->.
  { unfold after_start. rewrite Hidx.
    destruct (length asg) as [|m] eqn:Em; [reflexivity|].
    rewrite last_option_positions.
    destruct (canonical_tokens asg !! (0 + 2 * m)); [|reflexivity].
    unfold positionals_after. rewrite length_canonical_tokens, Em.
    assert ((0 + 2 * m <? 2 * S m - 2) = false) as ->
      by (apply Nat.ltb_ge; lia).
    reflexivity. }
  unfold positionals_before. rewrite Hidx, length_canonical_tokens.
  destruct asg as [|kv asg]; reflexivity.
Qed.

Lemma canonical_tokens_cons k v asg :
  canonical_tokens ((k, v) :: asg)
  = ("-" +:+ k) :: literal v :: canonical_tokens asg.
Proof. reflexivity. Qed.

Lemma option_value_carried al i next_ki k v s :
  scalar_type (type_of v) = true ->
  reads_back v ->
  no_argument al i next_ki = false ->
  al !! (i + 1) = Some (literal v) ->
  option_value al i next_ki (Some (type_of v)) k s = (Ok v, s).
Proof.
  intros Hs [_ Hr] Hno Ha. unfold option_value, bind, lift.
  destruct v as [| b | z | f | x | l]; simpl in *; try discriminate Hs;
    rewrite Hno, (index_ok _ _ _ Ha).
  - destruct b; reflexivity.
  - rewrite Hr. reflexivity.
  - rewrite Hr. reflexivity.
  - reflexivity.
Qed.

Lemma main_loop_canonical d syn tol regs we : forall asg pre previous opt s,
  (forall k v, (k, v) ∈ asg -> carried d syn k v) ->
  match previous with
  | Some (previous_ki, _) => previous_ki + 2 = length pre
  | None => True
  end ->
  main_loop d syn tol regs we (pre ++ canonical_tokens asg) previous
    (option_positions (length pre) (length asg)) opt s
  = (Ok (fold_left (fun acc kv => dset (fst kv) (snd kv) acc) asg opt), s).
Proof.
  induction asg as [|[k v] asg IH]; intros pre previous opt s Hasg Hprev.
  - reflexivity.
  - destruct (Hasg k v) as ((v0 & Hk & Ht) & Hscalar & Hkey & Hsyn & Hback);
      [left|].
    rewrite canonical_tokens_cons.
    set (al := pre ++ ("-" +:+ k) :: literal v :: canonical_tokens asg).
    cbn [length option_positions main_loop fold_left fst snd].
    assert (check_gap d tol al previous (length pre) s = (Ok tt, s)) as Hgap.
    { unfold check_gap. destruct previous as [[p pk]|]; [|reflexivity].
      assert ((p + 1 <? length pre - 1) = false) as ->
        by (apply Nat.ltb_ge; lia).
      reflexivity. }
    unfold bind at 1. rewrite Hgap.
    assert (al !! length pre = Some ("-" +:+ k)) as Hbit.
    { subst al. rewrite lookup_app_r by lia. rewrite Nat.sub_diag.
      reflexivity. }
    assert (al !! (length pre + 1) = Some (literal v)) as Harg.
    { subst al. rewrite lookup_app_r by lia.
      replace (length pre + 1 - length pre) with 1 by lia. reflexivity. }
    assert (resolve_key syn ("-" +:+ k) = k) as Hres.
    { unfold resolve_key. rewrite (lstrip_option_key _ Hkey), Hsyn.
      reflexivity. }
    assert (no_argument al (length pre)
              (head (option_positions (S (S (length pre))) (length asg)))
            = false) as Hno.
    { unfold no_argument. rewrite head_option_positions.
      destruct (length asg) eqn:El; apply Nat.eqb_neq; [|lia].
      subst al. rewrite length_app. simpl. lia. }
    assert (read_option d syn tol regs we al (length pre)
              (head (option_positions (S (S (length pre))) (length asg))) s
            = (Ok (k, v), s)) as Hread.
    { rewrite <- Hres in Hk.
      rewrite (read_option_known _ _ _ _ _ _ _ _ _ _ _ Hbit Hk), Hres, Ht.
      unfold bind.
      rewrite (option_value_carried _ _ _ _ _ _ Hscalar Hback Hno Harg).
      reflexivity. }
    unfold bind at 1. rewrite Hread. cbn [fst snd].
    specialize (IH (pre ++ ["-" +:+ k; literal v]) (Some (length pre, k))
                  (dset k v opt) s).
    rewrite <- app_assoc in IH. simpl app in IH.
    rewrite length_app in IH. simpl length in IH.
    replace (length pre + 2) with (S (S (length pre))) in IH by lia.
    apply IH.
    + intros k' v' Hin. apply Hasg. right. exact Hin.
    + lia.
Qed.

Lemma dset_absent {V} k (v : V) d :
  dget k d = None -> dset k v d = d ++ [(k, v)].
Proof.
  induction d as [|[k0 v0] d IH]; simpl; [reflexivity|].
  destruct (String.eqb k0 k); [discriminate|]. intros H. rewrite IH by exact H.
  reflexivity.
Qed.

Lemma dget_absent {V} k (d : dict V) : k ∉ dkeys d -> dget k d = None.
Proof.
  intros H. destruct (dget k d) as [v|] eqn:E; [|reflexivity].
  exfalso. apply H. apply dmem_keys. eapply dget_dmem. exact E.
Qed.

Lemma dict_copy_NoDup {V} (d : dict V) : NoDup (dkeys d) -> dict_copy d = d.
Proof.
  unfold dict_copy. intros Hd.
  assert (H : forall acc, NoDup (dkeys (acc ++ d)) ->
            fold_left (fun acc kv => dset (fst kv) (snd kv) acc) d acc
            = acc ++ d).
  { clear Hd. induction d as [|[k v] d IH]; intros acc Hnd; simpl.
    - rewrite app_nil_r. reflexivity.
    - rewrite dset_absent.
      + rewrite IH; rewrite <- app_assoc; [reflexivity | exact Hnd].
      + apply dget_absent. unfold dkeys in *. rewrite map_app in Hnd.
        apply NoDup_app in Hnd as (_ & Hdisj & _).
        intros Hin. apply (Hdisj k Hin). left. }
  apply (H [] Hd).
Qed.

Lemma dget_add_builtin b k v d :
  dget k d = Some v -> dget k (add_builtin b d) = Some v.
Proof.
  intros Hk. unfold add_builtin. destruct (dmem b d) eqn:E; simpl; [exact Hk|].
  rewrite dget_dset_ne; [exact Hk|]. intros ->.
  unfold dmem in E. rewrite Hk in E. discriminate E.
Qed.

Lemma dget_with_builtins d k v :
  NoDup (dkeys d) -> dget k d = Some v -> dget k (with_builtins d) = Some v.
Proof.
  intros Hnd Hk. unfold with_builtins.
  rewrite (dict_copy_NoDup _ Hnd). apply dget_add_builtin, dget_add_builtin.
  exact Hk.
Qed.

Lemma dget_fold_dset_NoDup {V} k (d : dict V) : forall acc,
  NoDup (dkeys d) ->
  dget k (fold_left (fun acc kv => dset (fst kv) (snd kv) acc) d acc)
  = match dget k d with
    | Some v => Some v
    | None => dget k acc
    end.
Proof.
  induction d as [|[k0 v0] d IH]; intros acc Hnd; simpl in *; [reflexivity|].
  apply NoDup_cons in Hnd as [Hk0 Hnd]. rewrite (IH _ Hnd).
  destruct (String.eqb k0 k) eqn:E.
  - apply String.eqb_eq in E. subst k0.
    rewrite (dget_absent _ _ Hk0). apply dget_dset_eq.
  - apply String.eqb_neq in E. rewrite (dget_dset_ne _ _ _ _ E). reflexivity.
Qed.

Lemma elem_of_fold_dset {V} (d : dict V) k v : forall acc,
  (k, v) ∈ fold_left (fun acc kv => dset (fst kv) (snd kv) acc) d acc ->
  (k, v) ∈ acc \/ exists k', (k', v) ∈ d.
Proof.
  induction d as [|[k0 v0] d IH]; intros acc H; simpl in *; [auto|].
  apply IH in H as [H|(k' & H)].
  - apply elem_of_dset in H as [H| ->]; [auto|].
    right. exists k0. left.
  - right. exists k'. right. exact H.
Qed.

Lemma fill_defaults_keeps_values items :
  forall opt s opt' s',
    fill_defaults items opt s = (Ok opt', s') ->
    forall k v, dget k opt = Some v -> dget k opt' = Some v.
Proof.
  induction items as [|[k0 v0] items IH]; intros opt s opt' s' H k v Hk;
    simpl in H.
  - injection H as <- _. exact Hk.
  - destruct (negb (dmem k0 opt)) eqn:E.
    + apply bind_inv_ok in H as (v' & s1 & _ & H).
      eapply IH; [exact H|]. rewrite dget_dset_ne; [exact Hk|].
      intros ->. apply negb_true_iff in E. unfold dmem in E.
      rewrite Hk in E. discriminate E.
    + eapply IH; eauto.
Qed.

Lemma falsy_scalar (h h' : gmap loc (list value)) v :
  scalar_type (type_of v) = true -> falsy h v = falsy h' v.
Proof. destruct v; simpl; try discriminate; reflexivity. Qed.

Lemma content_of_scalar h v v' :
  scalar_type (type_of v) = true -> content_of h v' = CVal v -> v' = v.
Proof.
  intros _. destruct v'; simpl; try discriminate; intros [= <-]; reflexivity.
Qed.

Lemma scalar_valid_default h v :
  scalar_type (type_of v) = true -> valid_default h v = true.
Proof. destruct v; simpl; auto; discriminate. Qed.

Lemma forallb_impl {A} (f g : A -> bool) l :
  (forall x, f x = true -> g x = true) ->
  forallb f l = true -> forallb g l = true.
Proof.
  intros Hfg. induction l as [|x l IH]; simpl; [reflexivity|].
  intros H. apply andb_true_iff in H as [H1 H2].
  rewrite (Hfg _ H1), (IH H2). reflexivity.
Qed.

(** C6 (amended). For a schema with scalar defaults only and an
    assignment of values of the types of the schema to keys of the
    schema, where every [-k] is an option key and no [k] a synonym, every
    literal reads back (it is not itself read as an option key, and
    [int] and [float] invert [str] on it), and the value of [h] is false:
    parsing [-k1 v1 -k2 v2 ...] returns a mapping that binds every
    assigned key to its assigned value. *)
Theorem canonical_command_line_round_trip help (tol we : bool) adv
    (s : Store) (asg : dict value) :
  NoDup (dkeys (default_opt_obj s)) ->
  forallb (fun kv => scalar_type (type_of (snd kv))) (default_opt_obj s)
  = true ->
  forallb (fun pk => dmem pk (schema_of s)) (positional_keys_obj s) = true ->
  tokens_of s = canonical_tokens asg ->
  NoDup (dkeys asg) ->
  (forall k v, (k, v) ∈ asg ->
     carried (default_opt_obj s) (synonyms_of s) k v) ->
  falsy ∅ (match dget "h" asg with
           | Some v => v
           | None => getitem (schema_of s) "h"
           end) = true ->
  exists opt s1,
    command_line_options help tol we adv s = (Ok opt, s1)
    /\ forall k v, dget k asg = Some v -> dget k opt = Some v.
Proof.
  intros Hnd Hscalar Hpos Htokens Hasg Hcarried Hhelp.
  assert (Hscalar' : forallb (fun kv => scalar_type (type_of (snd kv)))
                       (schema_of s) = true).
  { apply (forallb_with_builtins (fun v => scalar_type (type_of v)));
      [reflexivity | exact Hscalar]. }
  assert (Hvalid : valid_schema s = true).
  { unfold valid_schema. rewrite Hpos, andb_true_r.
    revert Hscalar. apply forallb_impl. intros [k v]. simpl.
    apply scalar_valid_default. }
  assert (Hcarried' : forall k v, (k, v) ∈ asg ->
            carried (schema_of s) (synonyms_of s) k v).
  { intros k v Hin.
    destruct (Hcarried k v Hin) as ((v0 & Hk & Ht) & Hrest).
    split; [|exact Hrest]. exists v0. split; [|exact Ht].
    apply dget_with_builtins; assumption. }
  assert (Hkeys : forall k v, (k, v) ∈ asg ->
            is_option_key ("-" +:+ k) = true
            /\ is_option_key (literal v) = false).
  { intros k v Hin.
    destruct (Hcarried k v Hin) as (_ & _ & Hk & _ & Hv & _). auto. }
  set (opt0 := fold_left (fun acc kv => dset (fst kv) (snd kv) acc) asg
                 ([] : dict value)).
  assert (Hopt0 : forall k v, (k, v) ∈ opt0 -> scalar_type (type_of v) = true).
  { intros k v Hin. apply elem_of_fold_dset in Hin as [Hin|(k' & Hin)];
      [inversion Hin|].
    destruct (Hcarried k' v Hin) as (_ & Hs & _). exact Hs. }
  (* the parse *)
  destruct (fill_defaults_clean (entered s) (schema_of s)
              (valid_schema_defaults _ Hvalid) opt0 (entered s)
              (extends_refl _))
    as (opt & s1 & Hfill & Hext1 & Hnew1 & Hview1 & _ & _).
  { intros k l Hin. apply Hopt0 in Hin. discriminate Hin. }
  assert (Hparse : parse_command_line tol we s = (Ok opt, s1)).
  { rewrite (parse_command_line_validated _ _ _ Hvalid). cbv zeta.
    rewrite Htokens, (find_positionals_canonical _ _ Hkeys), bind_lift_ok.
    rewrite bind_ret, bind_gets.
    pose proof (main_loop_canonical (schema_of s) (synonyms_of s) tol
                  (tolerated_regexp_obj (entered s)) we asg [] None []
                  (entered s) Hcarried' I) as Hmain.
    simpl app in Hmain. simpl length in Hmain at 1.
    unfold opt_key_indices.
    rewrite (option_indices_canonical _ _ Hkeys).
    erewrite bind_ok by exact Hmain. exact Hfill. }
  (* the value of h *)
  assert (Hassigned : forall k v, dget k asg = Some v -> dget k opt = Some v).
  { intros k v Hk. eapply fill_defaults_keeps_values; [exact Hfill|].
    unfold opt0. rewrite (dget_fold_dset_NoDup _ _ _ Hasg), Hk. reflexivity. }
  assert (exists vh, dget "h" opt = Some vh /\ falsy (lists s1) vh = true)
    as (vh & Hoh & Hfalse).
  { destruct (dget "h" asg) as [v|] eqn:Eh.
    - exists v. split; [apply Hassigned; exact Eh|].
      rewrite <- Hhelp. apply falsy_scalar.
      destruct (Hcarried "h" v (dget_elem_of _ _ _ Eh)) as (_ & Hs & _).
      exact Hs.
    - pose proof (schema_has_h s) as Hh. unfold dmem in Hh.
      destruct (dget "h" (schema_of s)) as [v0|] eqn:Ev0; [|discriminate Hh].
      rewrite (getitem_dget _ _ _ Ev0) in Hhelp.
      pose proof (forallb_elem_of _ _ ("h", v0) Hscalar'
                    (dget_elem_of _ _ _ Ev0)) as Hs0. simpl in Hs0.
      assert (dget "h" (view (lists s1) opt)
              = Some (content_of (lists (entered s)) v0)) as Hc.
      { rewrite Hview1. apply dget_filled_default.
        - apply NoDup_dkeys_schema_of.
        - exact Ev0.
        - rewrite dget_view. unfold opt0.
          rewrite (dget_fold_dset_NoDup _ _ _ Hasg), Eh. reflexivity. }
      apply dget_of_view in Hc as (vh & Hoh & Hc).
      assert (content_of (lists (entered s)) v0 = CVal v0) as Hcv
        by (destruct v0; simpl in *; try reflexivity; discriminate Hs0).
      rewrite Hcv in Hc. apply (content_of_scalar _ _ _ Hs0) in Hc. subst vh.
      exists v0. split; [exact Hoh|].
      rewrite <- Hhelp. apply falsy_scalar. exact Hs0. }
  destruct (help_and_print_clean help adv opt vh s1 Hoh Hfalse)
    as (s1' & Hprint & _).
  { intros k l Hk. apply (new_lists_dget _ _ _ _ _ Hnew1 Hk). }
  exists opt, s1'. split; [|exact Hassigned].
  unfold command_line_options. erewrite bind_ok by exact Hparse.
  exact Hprint.
Qed.

(** C9 (amended). Whatever the call does, it leaves the caller's schema
    dict, positional-key list and tolerated-regexp list, [sys.argv] and
    every existing list object as they were; the caller's synonym dict
    is updated in place with [help -> h] (line 163) and not changed
    otherwise. *)
Theorem caller_objects_after_call help (tol we : bool) adv (s : Store) :
  let s' := snd (command_line_options help tol we adv s) in
  default_opt_obj s' = default_opt_obj s
  /\ positional_keys_obj s' = positional_keys_obj s
  /\ tolerated_regexp_obj s' = tolerated_regexp_obj s
  /\ sys_argv s' = sys_argv s
  /\ (forall l xs, lists s !! l = Some xs -> lists s' !! l = Some xs)
  /\ synonyms_obj s' = dset "help" "h" (synonyms_obj s).
Proof.
  intros s'.
  destruct (command_line_options_frame help tol we adv s)
    as (H1 & H2 & H3 & H4 & H5 & H6).
  simpl in *. repeat split; assumption.
Qed.


(** * Further properties of [command_line_options] *)

(** ** The checks of the schema (lines 166-178) *)

Lemma check_default_opt_app pre rest s :
  forallb (fun kv => valid_default (lists s) (snd kv)) pre = true ->
  check_default_opt (pre ++ rest) s = check_default_opt rest s.
Proof.
  induction pre as [|[k v] pre IH]; simpl; intros H; [reflexivity|].
  apply andb_true_iff in H as [Hv Hpre].
  destruct v as [| b | z | f | x | l]; simpl in *; try discriminate Hv;
    try (apply IH; exact Hpre).
  unfold bind, read_list.
  destruct (lists s !! l) as [xs|] eqn:El; [|discriminate Hv].
  assert (existsb (fun x => negb (is_str x)) xs = false) as ->.
  { clear -Hv. induction xs as [|x xs IHx]; simpl in *; [reflexivity|].
    apply andb_true_iff in Hv as [-> Hx]. simpl. auto. }
  simpl. apply IH. exact Hpre.
Qed.

Lemma existsb_negb_forallb {A} (f : A -> bool) xs :
  forallb f xs = false -> existsb (fun x => negb (f x)) xs = true.
Proof.
  induction xs as [|x xs IH]; simpl; [discriminate|].
  destruct (f x); simpl; auto.
Qed.

Lemma check_default_opt_invalid k v rest s :
  valid_default (lists s) v = false ->
  (forall l, v = VList l -> is_Some (lists s !! l)) ->
  check_default_opt ((k, v) :: rest) s
  = (Raise (CommandLineError (default_error k v)), s).
Proof.
  intros Hv Hlive.
  destruct v as [| b | z | f | x | l]; simpl in *; try discriminate Hv.
  - reflexivity.
  - destruct (Hlive l eq_refl) as [xs Hxs].
    unfold bind, read_list. rewrite Hxs in *.
    rewrite (existsb_negb_forallb _ _ Hv). reflexivity.
Qed.

Lemma parse_invalid_default tol we s pre k v post :
  schema_of s = pre ++ (k, v) :: post ->
  forallb (fun kv => valid_default (lists s) (snd kv)) pre = true ->
  valid_default (lists s) v = false ->
  (forall l, v = VList l -> is_Some (lists s !! l)) ->
  parse_command_line tol we s
  = (Raise (CommandLineError (default_error k v)), entered s).
Proof.
  intros Hs Hpre Hv Hlive.
  unfold parse_command_line.
  rewrite !bind_gets, bind_modify, bind_gets.
  apply bind_raise.
  change (with_builtins (default_opt_obj s)) with (schema_of s).
  rewrite Hs, check_default_opt_app by exact Hpre.
  apply check_default_opt_invalid; assumption.
Qed.

(** X1. The first key of the schema whose default is not valid is
    reported, whatever the command line: a default of a type that is not
    accepted by the error of line 169, a list default that holds a value
    that is not a string by the error of line 173. Nothing has been read
    from the command line, warned or written by then. *)
Theorem invalid_default_rejected help (tol we : bool) adv (s : Store)
    pre k v post :
  schema_of s = pre ++ (k, v) :: post ->
  forallb (fun kv => valid_default (lists s) (snd kv)) pre = true ->
  valid_default (lists s) v = false ->
  (forall l, v = VList l -> is_Some (lists s !! l)) ->
  command_line_options help tol we adv s
  = (Raise (CommandLineError (default_error k v)), entered s).
Proof.
  intros Hs Hpre Hv Hlive. unfold command_line_options.
  apply bind_raise. eapply parse_invalid_default; eassumption.
Qed.

Lemma parse_absent_positional_keys tol we s :
  forallb (fun kv => valid_default (lists s) (snd kv)) (schema_of s) = true ->
  absent_keys (schema_of s) (positional_keys_obj s) <> [] ->
  parse_command_line tol we s
  = (Raise (CommandLineError
              (AbsentPositionalKeys
                 (absent_keys (schema_of s) (positional_keys_obj s)))),
     entered s).
Proof.
  intros Hd Habsent.
  unfold parse_command_line.
  rewrite !bind_gets, bind_modify, bind_gets.
  erewrite bind_ok; cycle 1.
  { apply check_default_opt_ok. exact Hd. }
  rewrite bind_gets. apply bind_raise.
  unfold check_positional_keys.
  change (List.filter _ _)
    with (absent_keys (schema_of s) (positional_keys_obj s)).
  destruct (absent_keys (schema_of s) (positional_keys_obj s));
    [contradiction|reflexivity].
Qed.

(** X2. With valid defaults, positional keys that are not keys of the
    schema are reported, all of them and in their order, by the error of
    line 177, whatever the command line. *)
Theorem absent_positional_keys_rejected help (tol we : bool) adv
    (s : Store) :
  forallb (fun kv => valid_default (lists s) (snd kv)) (schema_of s) = true ->
  absent_keys (schema_of s) (positional_keys_obj s) <> [] ->
  command_line_options help tol we adv s
  = (Raise (CommandLineError
              (AbsentPositionalKeys
                 (absent_keys (schema_of s) (positional_keys_obj s)))),
     entered s).
Proof.
  intros Hd Habsent. unfold command_line_options.
  apply bind_raise. apply parse_absent_positional_keys; assumption.
Qed.

(** ** The blocks after line 163 *)

Lemma check_default_opt_state items s : snd (check_default_opt items s) = s.
Proof.
  induction items as [|[k v] items IH]; simpl; [reflexivity|].
  destruct (negb _); [reflexivity|].
  destruct v as [| b | z | f | x | l]; simpl; try apply IH.
  unfold bind, read_list.
  destruct (lists s !! l) as [xs|]; [|reflexivity].
  destruct (existsb _ xs); simpl; [reflexivity | apply IH].
Qed.

Lemma check_positional_keys_state d pks s :
  snd (check_positional_keys d pks s) = s.
Proof. unfold check_positional_keys. destruct (0 <? _); reflexivity. Qed.

Lemma bind_ext_on {S A B} (c : M S A) (k k' : A -> M S B) s :
  (forall a s1, c s = (Ok a, s1) -> k a s1 = k' a s1) ->
  bind c k s = bind c k' s.
Proof. intros H. unfold bind. destruct (c s) as [[a|e] s1]; auto. Qed.

(** [parse_command_line] reads the objects of the caller where the
    source does, between the blocks; no block changes them, so that they
    can be read once, from the state of the call. *)
Lemma parse_command_line_blocks tol we s :
  parse_command_line tol we s = parse_blocks tol we s (entered s).
Proof.
  unfold parse_command_line, parse_blocks.
  rewrite !bind_gets, bind_modify, bind_gets.
  change (set_synonyms (dset "help" "h") s) with (entered s).
  change (with_builtins (default_opt_obj s)) with (schema_of s).
  change (synonyms_obj (entered s)) with (synonyms_of s).
  change (drop 1 (sys_argv s)) with (tokens_of s).
  apply bind_ext_on. intros u1 s1 H1.
  pose proof (check_default_opt_state (schema_of s) (entered s)) as E1.
  rewrite H1 in E1. simpl in E1. subst s1. rewrite bind_gets.
  change (positional_keys_obj (entered s)) with (positional_keys_obj s).
  apply bind_ext_on. intros u2 s2 H2.
  pose proof (check_positional_keys_state (schema_of s)
                (positional_keys_obj s) (entered s)) as E2.
  rewrite H2 in E2. simpl in E2. subst s2.
  apply bind_ext_on. intros pos s3 H3.
  assert (s3 = entered s) as -> by (unfold lift in H3; congruence).
  apply bind_ext_on. intros al s4 H4.
  rewrite bind_gets.
  assert (Hpre : preserving
            match pos with
            | Some (_, from_here, up_to) =>
                insert_positionals (schema_of s) tol (positional_keys_obj s)
                  (tokens_of s) from_here up_to
            | None => ret (tokens_of s)
            end) by frame.
  specialize (Hpre (entered s)). rewrite H4 in Hpre.
  destruct Hpre as (_ & _ & _ & Hregs & _). simpl in Hregs.
  rewrite Hregs. reflexivity.
Qed.

Lemma command_line_options_blocks help tol we adv s :
  command_line_options help tol we adv s
  = bind (parse_blocks tol we s) (help_and_print help adv) (entered s).
Proof.
  unfold command_line_options, bind. rewrite parse_command_line_blocks.
  reflexivity.
Qed.

(** ** What a block adds to the warnings and to the output *)

Lemma adds_keep {X A} (log : Store -> list X) P (c : M Store A) :
  (forall s, log (snd (c s)) = log s) -> adds log P c.
Proof.
  intros H s. exists []. rewrite app_nil_r. split; [apply H | constructor].
Qed.

Lemma adds_bind {X A B} (log : Store -> list X) P (c : M Store A)
    (k : A -> M Store B) :
  adds log P c -> (forall a, adds log P (k a)) -> adds log P (bind c k).
Proof.
  intros Hc Hk s. unfold bind. destruct (Hc s) as (xs & Hxs & HP).
  destruct (c s) as [[a|e] s1]; simpl in *.
  - destruct (Hk a s1) as (ys & Hys & HQ). exists (xs ++ ys).
    rewrite Hys, Hxs, app_assoc. split; [reflexivity|].
    apply Forall_app. auto.
  - exists xs. auto.
Qed.

Lemma adds_read_list {X} (log : Store -> list X) P l :
  adds log P (read_list l).
Proof.
  apply adds_keep. intros s. unfold read_list.
  destruct (lists s !! l); reflexivity.
Qed.

Lemma adds_warn (P : warning -> Prop) w : P w -> adds warned P (warn w).
Proof.
  intros Hw s. exists [w]. split; [reflexivity|]. constructor; [exact Hw|].
  constructor.
Qed.

Lemma adds_write (P : output -> Prop) o : P o -> adds written P (write o).
Proof.
  intros Ho s. exists [o]. split; [reflexivity|]. constructor; [exact Ho|].
  constructor.
Qed.

Lemma adds_weaken {X A} (log : Store -> list X) (P Q : X -> Prop)
    (c : M Store A) :
  (forall x, P x -> Q x) -> adds log P c -> adds log Q c.
Proof.
  intros HPQ Hc s. destruct (Hc s) as (xs & Hxs & HP). exists xs.
  split; [exact Hxs|]. eapply Forall_impl; eauto.
Qed.

Create HintDb adds.

Ltac adds_step tac :=
  match goal with
  | |- adds _ _ (bind _ _) => apply adds_bind; [| intros ?]
  | |- adds _ _ (if ?b then _ else _) => destruct b eqn:?
  | |- adds _ _ (match ?x with _ => _ end) => destruct x eqn:?
  | |- adds warned _ (warn _) => apply adds_warn; tac
  | |- adds written _ (write _) => apply adds_write; tac
  | |- adds _ _ (read_list _) => apply adds_read_list
  | |- adds _ _ _ =>
      solve [apply adds_keep; intros ?; reflexivity | auto with adds]
  end.

Ltac adds_with tac := repeat adds_step tac.

(** No block before line 310 writes. *)
Lemma parse_blocks_silent tol we s0 :
  adds written (fun _ => False) (parse_blocks tol we s0).
Proof.
  assert (Hcd : forall items,
            adds written (fun _ : output => False) (check_default_opt items)).
  { induction items as [|[k v] items IH]; simpl; adds_with idtac. }
  assert (Hpl : forall d t pks al f u values i acc,
            adds written (fun _ : output => False)
              (positional_loop d t pks al f u i values acc)).
  { induction values as [|v values IH]; intros i acc; simpl;
      adds_with idtac. }
  assert (Hml : forall d syn t regs w al indices previous opt,
            adds written (fun _ : output => False)
              (main_loop d syn t regs w al previous indices opt)).
  { induction indices as [|i rest IH]; intros previous opt; simpl;
      [adds_with idtac|].
    unfold check_gap, read_option, expected_type_of, option_value.
    adds_with idtac. }
  assert (Hfd : forall items opt,
            adds written (fun _ : output => False) (fill_defaults items opt)).
  { induction items as [|[k v] items IH]; intros opt; simpl;
      unfold copy; adds_with idtac. }
  unfold parse_blocks, check_positional_keys, insert_positionals.
  adds_with idtac; auto.
Qed.

Lemma expected_type_of_warnings d (tol : bool) (regs : list regexp)
    (we : bool) k :
  adds warned (expected_warning d tol regs we)
    (expected_type_of d tol regs we k).
Proof.
  unfold expected_type_of.
  destruct (negb (dmem k d)) eqn:Ek; [|adds_with idtac].
  destruct (tol || _) eqn:Et; [|adds_with idtac].
  apply adds_bind; [|intros u; adds_with idtac].
  destruct we; [|adds_with idtac].
  apply adds_warn. simpl. split; [reflexivity|].
  split; [apply negb_true_iff; exact Ek|].
  apply orb_true_iff in Et as [->|Et]; [left; reflexivity|].
  apply andb_true_iff in Et as [_ Et]. right. exact Et.
Qed.

Lemma help_and_print_warnings (P : warning -> Prop) help adv opt :
  adds warned P (help_and_print help adv opt).
Proof. unfold help_and_print, truthy. adds_with idtac. Qed.

(** The warnings of the blocks before line 310. *)
Lemma parse_blocks_warnings (tol we : bool) (s0 : Store) :
  adds warned
    (expected_warning (schema_of s0) tol (tolerated_regexp_obj s0) we)
    (parse_blocks tol we s0).
Proof.
  set (P := expected_warning (schema_of s0) tol (tolerated_regexp_obj s0) we).
  assert (Hcd : forall items, adds warned P (check_default_opt items)).
  { induction items as [|[k v] items IH]; simpl; adds_with idtac. }
  assert (Hpl : forall pks al f u values i acc,
            adds warned P
              (positional_loop (schema_of s0) tol pks al f u i values acc)).
  { induction values as [|v values IH]; intros i acc; simpl;
      adds_with ltac:(reflexivity). }
  pose proof (expected_type_of_warnings (schema_of s0) tol
                (tolerated_regexp_obj s0) we) as Het. fold P in Het.
  assert (Hml : forall syn al indices previous opt,
            adds warned P
              (main_loop (schema_of s0) syn tol (tolerated_regexp_obj s0) we
                 al previous indices opt)).
  { induction indices as [|i rest IH]; intros previous opt; simpl;
      [adds_with idtac|].
    unfold check_gap, read_option, option_value.
    adds_with ltac:(reflexivity). }
  assert (Hfd : forall items opt, adds warned P (fill_defaults items opt)).
  { induction items as [|[k v] items IH]; intros opt; simpl;
      unfold copy; adds_with idtac. }
  unfold parse_blocks, check_positional_keys, insert_positionals.
  adds_with idtac; auto.
Qed.

Lemma Forall_never_nil {A} (P : A -> Prop) xs :
  Forall P xs -> (forall x, ~ P x) -> xs = [].
Proof.
  intros H Hn. destruct H as [|x xs Hx _]; [reflexivity|].
  destruct (Hn x Hx).
Qed.

(** X3. The warnings of a call. Whatever the inputs, the call adds to
    the warnings given before it only warnings of two kinds: "ignoring
    extra argument", given only under [tolerate_extra]; and "accepting
    unexpected command line option" for a key, given only under
    [warning_extra], for a key that is not in the schema and that
    [tolerate_extra] or a pattern of [tolerated_regexp] lets through. In
    particular a call without [tolerate_extra] warns nothing when
    [tolerated_regexp] is empty or [warning_extra] is off. *)
Theorem warnings_of_a_call help (tol we : bool) adv (s : Store) :
  exists ws,
    warned (snd (command_line_options help tol we adv s)) = warned s ++ ws
    /\ Forall (expected_warning (schema_of s) tol (tolerated_regexp_obj s) we)
              ws
    /\ (tol = false -> tolerated_regexp_obj s = [] -> ws = [])
    /\ (tol = false -> we = false -> ws = []).
Proof.
  assert (adds warned
            (expected_warning (schema_of s) tol (tolerated_regexp_obj s) we)
            (bind (parse_blocks tol we s) (help_and_print help adv))) as H.
  { apply adds_bind; [apply parse_blocks_warnings|].
    intros opt. apply help_and_print_warnings. }
  destruct (H (entered s)) as (ws & Hws & HP).
  exists ws. rewrite command_line_options_blocks. split; [exact Hws|].
  split; [exact HP|]. split.
  - intros -> Hregs. rewrite Hregs in HP.
    apply (Forall_never_nil _ _ HP). intros [a|k]; simpl.
    + discriminate.
    + intros (_ & _ & [Ht|Hm]); discriminate.
  - intros -> ->. apply (Forall_never_nil _ _ HP). intros [a|k]; simpl.
    + discriminate.
    + intros (Hw & _). discriminate.
Qed.

(** ** The kinds of exceptions of a block *)

Ltac kinds_step tac :=
  match goal with
  | |- raises_only _ (bind _ _) => apply raises_only_bind; [| intros ?]
  | |- raises_only _ (if ?b then _ else _) => destruct b eqn:?
  | |- raises_only _ (match ?x with _ => _ end) => destruct x eqn:?
  | |- raises_only _ (raise _) => apply raises_only_raise; tac
  | |- raises_only _ (read_list _) => apply raises_only_read_list; tac
  | |- raises_only _ (lift (index _ _)) => apply raises_only_index; tac
  | |- raises_only _ (warn _) => apply raises_only_modify
  | |- raises_only _ (write _) => apply raises_only_modify
  | |- raises_only _ (ret _) => apply raises_only_ret
  | |- raises_only _ (gets _) => apply raises_only_gets
  | |- raises_only _ (new_list _) => apply raises_only_new_list
  | |- raises_only _ _ => solve [auto]
  end.

Ltac kinds_with tac := repeat kinds_step tac.

Lemma find_positionals_error d al oki e :
  find_positionals d al oki = Raise e ->
  e = CommandLineError BeforeOrAfter \/ e = IndexError.
Proof.
  unfold find_positionals, index.
  destruct (_ && _); [|discriminate].
  destruct (last oki) as [last_ki|]; [|discriminate].
  destruct (al !! last_ki) as [bit|]; [|intros [= <-]; auto].
  destruct (positionals_after d al last_ki bit); [|discriminate].
  destruct (positionals_before al oki) as [[? ?]|]; [|discriminate].
  intros [= <-]. auto.
Qed.

(** The exceptions of lines 313 and 319 are raised by no earlier
    block. *)
Lemma parse_blocks_raises tol we s0 :
  raises_only (fun e => raised_at_the_end e = false) (parse_blocks tol we s0).
Proof.
  set (P := fun e => raised_at_the_end e = false).
  assert (Hcd : forall items, raises_only P (check_default_opt items)).
  { induction items as [|[k v] items IH]; simpl; kinds_with ltac:(exact eq_refl). }
  assert (Hpl : forall d t pks al f u values i acc,
            raises_only P (positional_loop d t pks al f u i values acc)).
  { induction values as [|v values IH]; intros i acc; simpl;
      kinds_with ltac:(exact eq_refl). }
  assert (Hml : forall d syn t regs w al indices previous opt,
            raises_only P (main_loop d syn t regs w al previous indices opt)).
  { induction indices as [|i rest IH]; intros previous opt; cbn [main_loop];
      [kinds_with ltac:(exact eq_refl)|].
    unfold check_gap, read_option, expected_type_of, option_value.
    kinds_with ltac:(exact eq_refl). }
  assert (Hfd : forall items opt, raises_only P (fill_defaults items opt)).
  { induction items as [|[k v] items IH]; intros opt; simpl;
      unfold copy; kinds_with ltac:(exact eq_refl). }
  unfold parse_blocks, check_positional_keys, insert_positionals.
  kinds_with ltac:(exact eq_refl).
  apply raises_only_lift. intros e He.
  apply find_positionals_error in He as [->| ->]; reflexivity.
Qed.

(** ** Lines 309-321 *)

(** [bool(v)] reads the list objects only, and changes nothing. *)
Lemma truthy_eval v s :
  exists r,
    (forall s', lists s' = lists s -> truthy v s' = (r, s'))
    /\ (r = Raise DanglingRef \/ exists b, r = Ok b).
Proof.
  destruct v as [| b | z | f | x | l]; simpl;
    try (eexists; split; [intros s' _; reflexivity | right; eauto]).
  unfold bind, read_list. destruct (lists s !! l) as [xs|] eqn:El.
  - exists (Ok (negb (length xs =? 0))). split; [|right; eauto].
    intros s' ->. rewrite El. reflexivity.
  - exists (Raise DanglingRef). split; [|left; reflexivity].
    intros s' ->. rewrite El. reflexivity.
Qed.

Lemma in_string_dict_error v d e : in_string_dict v d = Raise e -> e = TypeError.
Proof. destruct v; simpl; congruence. Qed.

Lemma help_and_print_outputs help adv opt s :
  exists outs,
    written (snd (help_and_print help adv opt s)) = written s ++ outs
    /\ written_by help (fst (help_and_print help adv opt s)) outs.
Proof.
  destruct (truthy_eval (getitem opt "h") s) as (rh & Hh & Hrh).
  destruct (truthy_eval (getitem opt "print_opt") s) as (rp & Hp & Hrp).
  assert (Hfinal : forall s' h,
            lists s' = lists s -> rh = Ok h ->
            (if dmem "h" opt then truthy (getitem opt "h") else ret false) s'
            = (Ok h, s')).
  { intros s' h Hs' ->. unfold dmem, getitem in *.
    destruct (dget "h" opt) as [vh|]; [apply Hh; exact Hs'|].
    specialize (Hh s eq_refl). simpl in Hh. unfold ret in *. congruence. }
  set (tail :=
         let* p := truthy (getitem opt "print_opt") in
         (if p then write (OutOptions opt) else ret tt) ;;;
         let* h := (if dmem "h" opt then truthy (getitem opt "h")
                    else ret false) in
         if h then raise SystemExit else ret opt).
  assert (Htail : forall s1 h,
            lists s1 = lists s -> rh = Ok h ->
            exists outs,
              written (snd (tail s1)) = written s1 ++ outs
              /\ (outs = [] \/ outs = [OutOptions opt])
              /\ ((fst (tail s1) = Raise DanglingRef /\ outs = [])
                  \/ fst (tail s1)
                     = if h then Raise SystemExit else Ok opt)).
  { intros s1 h Hs1 Hrh1. unfold tail, bind. rewrite (Hp s1 Hs1).
    destruct rp as [p|ep].
    2:{ exists []. rewrite app_nil_r. split; [reflexivity|].
        split; [left; reflexivity|].
        destruct Hrp as [[= ->]|[b [=]]]. left. split; reflexivity. }
    destruct p.
    - pose proof (Hfinal (add_output (OutOptions opt) s1) h Hs1 Hrh1) as E.
      unfold write, modify, ret in E |- *. cbv beta iota. rewrite E.
      exists [OutOptions opt]. split; [destruct h; reflexivity|].
      split; [right; reflexivity|]. right. destruct h; reflexivity.
    - pose proof (Hfinal s1 h Hs1 Hrh1) as E.
      unfold ret in E |- *. cbv beta iota. rewrite E.
      exists []. rewrite app_nil_r. split; [destruct h; reflexivity|].
      split; [left; reflexivity|]. right. destruct h; reflexivity. }
  unfold help_and_print. fold tail. unfold bind.
  rewrite (Hh s eq_refl).
  destruct rh as [h|eh].
  2:{ exists []. rewrite app_nil_r. split; [reflexivity|].
      destruct Hrh as [[= ->]|[b [=]]]. left. reflexivity. }
  destruct h.
  - (* the help message is written *)
    destruct (Htail (add_output (OutText help) s) true eq_refl eq_refl)
      as (outs & Hw & Houts & Hr).
    assert (Hcont :
      exists outs0,
        written (snd (tail (add_output (OutText help) s)))
        = written s ++ outs0
        /\ written_by help (fst (tail (add_output (OutText help) s))) outs0).
    { exists (OutText help :: outs). split.
      - rewrite Hw. simpl. rewrite <- app_assoc. reflexivity.
      - destruct Hr as [[-> ->]| ->]; simpl.
        + right. reflexivity.
        + destruct Houts as [-> | ->]; eauto. }
    unfold bind, write, modify, ret, lift. cbv beta iota.
    destruct (0 <? length adv); [|exact Hcont].
    destruct (in_string_dict (getitem opt "h") adv) as [found|e] eqn:Ein.
    + destruct found; [|exact Hcont].
      exists [OutText help]. split; reflexivity.
    + apply in_string_dict_error in Ein. subst e.
      exists [OutText help]. split; [reflexivity|]. right. reflexivity.
  - (* no help message *)
    destruct (Htail s false eq_refl eq_refl) as (outs & Hw & Houts & Hr).
    unfold bind, ret. cbv beta iota.
    exists outs. split; [exact Hw|].
    destruct Hr as [[-> ->]| ->]; simpl.
    + left. reflexivity.
    + exact Houts.
Qed.

(** X4. What a call writes, by its outcome. A call that returns has
    written nothing, or the mapping it returns when [print_opt] is set;
    a call that ends with an error of the command line has written
    nothing; a call that exits (line 319) has written the help message
    first, then the options when [print_opt] is set; the [NameError] of
    line 313 comes after the help message. No call writes an advanced
    help message. *)
Theorem outputs_of_a_call help (tol we : bool) adv (s : Store) :
  exists outs,
    written (snd (command_line_options help tol we adv s))
    = written s ++ outs
    /\ written_by help (fst (command_line_options help tol we adv s)) outs.
Proof.
  rewrite command_line_options_blocks. unfold bind.
  destruct (parse_blocks_silent tol we s (entered s)) as (xs & Hxs & HF).
  assert (xs = []) as -> by (apply (Forall_never_nil _ _ HF); auto).
  rewrite app_nil_r in Hxs.
  pose proof (parse_blocks_raises tol we s (entered s)) as Hraise.
  destruct (parse_blocks tol we s (entered s)) as [[opt|e] s1].
  - destruct (help_and_print_outputs help adv opt s1) as (outs & Hw & Hb).
    exists outs. simpl in Hxs. rewrite Hw, Hxs. split; [reflexivity|exact Hb].
  - exists []. rewrite app_nil_r. split; [exact Hxs|].
    specialize (Hraise e s1 eq_refl).
    destruct e; simpl in *; try discriminate Hraise; auto.
Qed.

(** ** The value of an option (lines 274-301), for every run *)

Lemma forallb_is_str_map (xs : list string) :
  forallb is_str (map VStr xs) = true.
Proof. induction xs as [|x xs IH]; simpl; auto. Qed.

Lemma new_list_result xs s l s' :
  new_list xs s = (Ok l, s') ->
  lists s !! l = None /\ lists s' !! l = Some xs
  /\ s' = set_lists (insert l xs) s.
Proof.
  unfold new_list. intros [= <- <-]. split; [apply fresh_list_unused|].
  split; [|reflexivity]. simpl. apply lookup_insert_eq.
Qed.

Ltac scalar_value :=
  intros [= <- <-]; split; [auto|discriminate].

Ltac with_argument al i :=
  unfold bind, lift, index;
  destruct (al !! (i + 1)) as [?a|]; [|intros [=]].

Lemma option_value_ok al i next_ki t k v s s' :
  option_value al i next_ki t k s = (Ok v, s') ->
  match t with
  | Some t' => type_of v = t'
  | None => type_of v = TBool \/ type_of v = TStr
  end
  /\ (forall l, v = VList l ->
        lists s !! l = None
        /\ exists xs, lists s' !! l = Some xs /\ forallb is_str xs = true).
Proof.
  unfold option_value.
  destruct t as [[]|]; cbv beta iota; unfold negb.
  - destruct (no_argument al i next_ki); [intros [=]|].
    with_argument al i. intros [=].
  - destruct (no_argument al i next_ki); [scalar_value|].
    with_argument al i.
    destruct (String.eqb a "1"); [scalar_value|].
    destruct (String.eqb a "0"); [scalar_value|intros [=]].
  - destruct (no_argument al i next_ki); [intros [=]|].
    with_argument al i.
    destruct (int_of_str a); [scalar_value|intros [=]].
  - destruct (no_argument al i next_ki); [intros [=]|].
    with_argument al i.
    destruct (float_of_str a); [scalar_value|intros [=]].
  - unfold bind.
    destruct (new_list _ s) as [[l|e] s1] eqn:El; [|intros [=]].
    intros [= <- <-]. split; [reflexivity|].
    intros l' [= <-]. apply new_list_result in El as (Hn & Hl & _).
    split; [exact Hn|]. eexists. split; [exact Hl|].
    apply forallb_is_str_map.
  - destruct (no_argument al i next_ki); [intros [=]|].
    with_argument al i. scalar_value.
  - destruct (no_argument al i next_ki); [scalar_value|].
    with_argument al i. scalar_value.
Qed.

Ltac command_line_kind :=
  intros [= <- _]; eexists; split; reflexivity.

Lemma option_value_raise al i next_ki t k e s s' :
  option_value al i next_ki t k s = (Raise e, s') ->
  t <> Some TNone ->
  (no_argument al i next_ki = false -> is_Some (al !! (i + 1))) ->
  exists c, e = CommandLineError c /\ schema_error c = false.
Proof.
  unfold option_value. intros H Ht Harg. revert H.
  destruct t as [[]|]; cbv beta iota; unfold negb; [congruence| | | | | |].
  - destruct (no_argument al i next_ki); [intros [=]|].
    destruct (Harg eq_refl) as [a Ha].
    unfold bind, lift, index. rewrite Ha.
    destruct (String.eqb a "1"); [intros [=]|].
    destruct (String.eqb a "0"); [intros [=]|command_line_kind].
  - destruct (no_argument al i next_ki); [command_line_kind|].
    destruct (Harg eq_refl) as [a Ha].
    unfold bind, lift, index. rewrite Ha.
    destruct (int_of_str a); [intros [=]|command_line_kind].
  - destruct (no_argument al i next_ki); [command_line_kind|].
    destruct (Harg eq_refl) as [a Ha].
    unfold bind, lift, index. rewrite Ha.
    destruct (float_of_str a); [intros [=]|command_line_kind].
  - unfold bind, new_list. intros [=].
  - destruct (no_argument al i next_ki); [command_line_kind|].
    destruct (Harg eq_refl) as [a Ha].
    unfold bind, lift, index. rewrite Ha. intros [=].
  - destruct (no_argument al i next_ki); [intros [=]|].
    destruct (Harg eq_refl) as [a Ha].
    unfold bind, lift, index. rewrite Ha. intros [=].
Qed.

(** The key and the value of an option, for every run that gets
    them. *)
Lemma read_option_ok d syn tol regs we al i next_ki kv s s' :
  read_option d syn tol regs we al i next_ki s = (Ok kv, s') ->
  extends s s'
  /\ match dget (fst kv) d with
     | Some v0 => type_of (snd kv) = type_of v0
     | None => type_of (snd kv) = TBool \/ type_of (snd kv) = TStr
     end
  /\ (forall l, snd kv = VList l ->
        lists s !! l = None
        /\ exists xs, lists s' !! l = Some xs /\ forallb is_str xs = true).
Proof.
  intros H.
  pose proof (preserving_read_option d syn tol regs we al i next_ki s) as Hext.
  rewrite H in Hext. simpl in Hext. split; [exact Hext|].
  unfold read_option in H.
  apply bind_inv_ok in H as (bit & s0 & Hbit & H).
  unfold lift in Hbit. injection Hbit as Hbit <-.
  apply bind_inv_ok in H as (t & s1 & Ht & H).
  apply bind_inv_ok in H as (v & s2 & Hv & H).
  injection H as <- <-. simpl.
  pose proof (preserving_expected_type_of d tol regs we
                (resolve_key syn bit) s) as Hext1.
  rewrite Ht in Hext1. simpl in Hext1.
  apply option_value_ok in Hv as [Htype Hlist].
  assert (t = match dget (resolve_key syn bit) d with
              | Some v0 => Some (type_of v0)
              | None => None
              end) as Et.
  { unfold expected_type_of, dmem, getitem in Ht.
    destruct (dget (resolve_key syn bit) d) as [v0|]; simpl in Ht.
    - injection Ht as <- _. reflexivity.
    - destruct (tol || _); [|discriminate Ht].
      apply bind_inv_ok in Ht as (u & s3 & _ & Ht). injection Ht as <- _.
      reflexivity. }
  split.
  - destruct (dget (resolve_key syn bit) d) as [v0|]; subst t; exact Htype.
  - intros l Hl. destruct (Hlist l Hl) as [Hn Hx]. split; [|exact Hx].
    eapply extends_unused; eassumption.
Qed.

Lemma read_option_raise d syn tol regs we al i next_ki e s s' :
  read_option d syn tol regs we al i next_ki s = (Raise e, s') ->
  is_Some (al !! i) ->
  (no_argument al i next_ki = false -> is_Some (al !! (i + 1))) ->
  (forall k v, dget k d = Some v -> type_of v <> TNone) ->
  exists c, e = CommandLineError c /\ schema_error c = false.
Proof.
  intros H [bit Hbit] Harg Hd. unfold read_option in H.
  rewrite (index_ok _ _ _ Hbit), bind_lift_ok in H.
  unfold bind at 1 in H.
  destruct (expected_type_of d tol regs we (resolve_key syn bit) s)
    as [[t|e1] s1] eqn:Et.
  - unfold bind in H.
    destruct (option_value al i next_ki t (resolve_key syn bit) s1)
      as [[v|e2] s2] eqn:Ev; [discriminate H|].
    injection H as <- <-.
    eapply option_value_raise; [exact Ev| |exact Harg].
    unfold expected_type_of, dmem, getitem in Et.
    destruct (dget (resolve_key syn bit) d) as [v0|] eqn:Ek; simpl in Et.
    + injection Et as <- _. intros [= Hn]. exact (Hd _ _ Ek Hn).
    + destruct (tol || _); [|discriminate Et].
      apply bind_inv_ok in Et as (u & s3 & _ & Et). injection Et as <- _.
      discriminate.
  - injection H as <- <-.
    unfold expected_type_of in Et.
    destruct (negb _); [|discriminate Et].
    destruct (tol || _).
    + unfold bind in Et. destruct we; discriminate Et.
    + injection Et as <- _. eexists. split; reflexivity.
Qed.

(** ** The main pass (lines 241-302), for every run *)

Lemma typed_by_dset d opt k v :
  typed_by d opt ->
  match dget k d with
  | Some v0 => type_of v = type_of v0
  | None => type_of v = TBool \/ type_of v = TStr
  end ->
  typed_by d (dset k v opt).
Proof.
  intros H Hv k' v'. rewrite dget_dset.
  destruct (String.eqb k k') eqn:E; [|apply H].
  apply String.eqb_eq in E. subst k'. intros [= <-]. exact Hv.
Qed.

Lemma string_lists_extends s0 s s' opt :
  string_lists s0 s opt -> extends s s' -> string_lists s0 s' opt.
Proof.
  intros H Hext k l Hk. destruct (H k l Hk) as (Hn & xs & Hxs & Hstr).
  split; [exact Hn|]. exists xs. split; [|exact Hstr].
  apply Hext. exact Hxs.
Qed.

Lemma string_lists_dset s0 s s' opt k v :
  string_lists s0 s opt -> extends s0 s -> extends s s' ->
  (forall l, v = VList l ->
     lists s !! l = None
     /\ exists xs, lists s' !! l = Some xs /\ forallb is_str xs = true) ->
  string_lists s0 s' (dset k v opt).
Proof.
  intros H H0 Hext Hv k' l. rewrite dget_dset.
  destruct (String.eqb k k').
  - intros [= ->]. destruct (Hv l eq_refl) as [Hn Hx]. split; [|exact Hx].
    eapply extends_unused; eassumption.
  - intros Hk. eapply string_lists_extends; eauto.
Qed.

Lemma main_loop_ok d syn tol regs we al s0 indices :
  forall previous opt s opt' s',
    typed_by d opt -> string_lists s0 s opt -> extends s0 s ->
    main_loop d syn tol regs we al previous indices opt s = (Ok opt', s') ->
    typed_by d opt' /\ string_lists s0 s' opt' /\ extends s s'.
Proof.
  induction indices as [|i rest IH];
    intros previous opt s opt' s' Ht Hl H0 H; cbn [main_loop] in H.
  - injection H as <- <-. auto using extends_refl.
  - apply bind_inv_ok in H as (u & s1 & Hgap & H).
    apply bind_inv_ok in H as (kv & s2 & Hread & H).
    pose proof (preserving_check_gap d tol al previous i s) as E1.
    rewrite Hgap in E1. simpl in E1.
    apply read_option_ok in Hread as (E2 & Htype & Hlist).
    destruct (IH _ _ _ _ _
                (typed_by_dset _ _ _ _ Ht Htype)
                (string_lists_dset s0 s1 s2 opt (fst kv) (snd kv)
                   (string_lists_extends _ _ _ _ Hl E1)
                   (extends_trans _ _ _ H0 E1) E2 Hlist)
                (extends_trans _ _ _ H0 (extends_trans _ _ _ E1 E2)) H)
      as (Ht' & Hl' & E3).
    split; [exact Ht'|]. split; [exact Hl'|].
    eauto using extends_trans.
Qed.

Lemma check_gap_raise d tol al previous i e s s' :
  check_gap d tol al previous i s = (Raise e, s') ->
  exists c, e = CommandLineError c /\ schema_error c = false.
Proof.
  unfold check_gap. destruct previous as [[p pk]|]; [|intros [=]].
  destruct (_ && _); [|intros [=]].
  destruct tol; [intros [=]|command_line_kind].
Qed.

Lemma main_loop_raise d syn tol regs we al :
  (forall k v, dget k d = Some v -> type_of v <> TNone) ->
  forall indices lo previous opt s e s',
    chain (length al) lo indices ->
    main_loop d syn tol regs we al previous indices opt s = (Raise e, s') ->
    exists c, e = CommandLineError c /\ schema_error c = false.
Proof.
  intros Hd. induction indices as [|i rest IH];
    intros lo previous opt s e s' Hchain H; cbn [main_loop] in H.
  - discriminate H.
  - unfold bind at 1 in H.
    destruct (check_gap d tol al previous i s) as [[u|e1] s1] eqn:Eg.
    2:{ injection H as <- <-. eapply check_gap_raise. exact Eg. }
    unfold bind at 1 in H.
    destruct (read_option d syn tol regs we al i (head rest) s1)
      as [[kv|e2] s2] eqn:Er.
    + destruct Hchain as [_ Hchain]. eapply IH; eassumption.
    + injection H as <- <-.
      destruct (chain_head _ _ _ _ Hchain) as [Hi Hnext].
      eapply read_option_raise; [exact Er | | | exact Hd].
      * apply lookup_lt_is_Some. exact Hi.
      * intros Hno.
        destruct (argument_present al i (head rest) Hi Hnext Hno) as [a Ha].
        eauto.
Qed.

Lemma positional_loop_raise d tol pks al from_here up_to values :
  forall i acc s e s',
    positional_loop d tol pks al from_here up_to i values acc s
    = (Raise e, s') ->
    exists c, e = CommandLineError c /\ schema_error c = false.
Proof.
  induction values as [|v values IH]; intros i acc s e s' H; simpl in H.
  - discriminate H.
  - destruct (length pks <? i + 1) eqn:E.
    + destruct tol; [discriminate H|]. revert H. command_line_kind.
    + apply Nat.ltb_ge in E.
      destruct (lookup_lt_is_Some_2 pks i) as [key Hkey]; [lia|].
      rewrite (index_ok _ _ _ Hkey), bind_lift_ok in H.
      destruct (pytype_eqb _ TList); [discriminate H|].
      eapply IH. exact H.
Qed.

(** ** The defaults (lines 166-175 and 305-307), for every run *)

Lemma forallb_existsb_negb {A} (f : A -> bool) xs :
  existsb (fun x => negb (f x)) xs = false -> forallb f xs = true.
Proof.
  induction xs as [|x xs IH]; simpl; [reflexivity|].
  destruct (f x); simpl; [exact IH|discriminate].
Qed.

(** The checks of lines 166-175 pass on valid defaults only. *)
Lemma check_default_opt_passed items s u s' :
  check_default_opt items s = (Ok u, s') ->
  forallb (fun kv => valid_default (lists s) (snd kv)) items = true.
Proof.
  induction items as [|[k v] items IH]; simpl; [reflexivity|].
  destruct (negb (accepted_option_type (type_of v))) eqn:Ea;
    [intros [=]|].
  destruct v as [| b | z | f | x | l]; simpl in *; try discriminate Ea;
    try exact IH.
  unfold bind at 1. unfold bind at 1. unfold read_list.
  destruct (lists s !! l) as [xs|]; [|intros [=]].
  destruct (existsb (fun x => negb (is_str x)) xs) eqn:Ex; [intros [=]|].
  simpl. rewrite (forallb_existsb_negb _ _ Ex). exact IH.
Qed.

Lemma check_default_opt_raise items s e s' :
  check_default_opt items s = (Raise e, s') ->
  (forall k l, (k, VList l) ∈ items -> is_Some (lists s !! l)) ->
  exists c, e = CommandLineError c /\ schema_error c = true.
Proof.
  induction items as [|[k v] items IH]; simpl; [intros [=]|].
  intros H Hlive.
  assert (Hrest : forall k l, (k, VList l) ∈ items -> is_Some (lists s !! l)).
  { intros k' l' Hin. apply (Hlive k'). right. exact Hin. }
  destruct (negb (accepted_option_type (type_of v))).
  { injection H as <- _. eexists. split; reflexivity. }
  destruct v as [| b | z | f | x | l]; simpl in H; try (apply IH; assumption).
  destruct (Hlive k l) as [xs Hxs]; [left|].
  unfold bind at 1 in H. unfold bind at 1 in H. unfold read_list in H.
  rewrite Hxs in H.
  destruct (existsb (fun x => negb (is_str x)) xs).
  - injection H as <- _. eexists. split; reflexivity.
  - simpl in H. apply IH; assumption.
Qed.

Lemma copy_ok s0 v s :
  valid_default (lists s0) v = true -> extends s0 s ->
  exists v' s',
    copy v s = (Ok v', s') /\ extends s s' /\ type_of v' = type_of v
    /\ (forall l, v' = VList l ->
          lists s !! l = None
          /\ exists xs, lists s' !! l = Some xs /\ forallb is_str xs = true).
Proof.
  intros Hv Hext.
  destruct v as [| b | z | f | x | l]; simpl in *; try discriminate Hv;
    try (eexists _, s; split; [reflexivity|]; split; [apply extends_refl|];
         split; [reflexivity|discriminate]).
  destruct (lists s0 !! l) as [xs|] eqn:El; [|discriminate Hv].
  apply Hext in El.
  unfold bind, read_list. rewrite El.
  destruct (new_list xs s) as [[l'|e] s'] eqn:En; [|discriminate En].
  exists (VList l'), s'. split; [reflexivity|].
  pose proof (preserving_new_list xs s) as Hp. rewrite En in Hp.
  split; [exact Hp|]. split; [reflexivity|].
  intros l0 [= <-]. apply new_list_result in En as (Hn & Hl & _).
  split; [exact Hn|]. exists xs. auto.
Qed.

(** The defaults are filled in by every run that reaches line 305. *)
Lemma fill_defaults_run d s0 items :
  forallb (fun kv => valid_default (lists s0) (snd kv)) items = true ->
  (forall k v, (k, v) ∈ items -> dget k d = Some v) ->
  forall opt s,
    typed_by d opt -> string_lists s0 s opt -> extends s0 s ->
    exists opt' s',
      fill_defaults items opt s = (Ok opt', s')
      /\ typed_by d opt' /\ string_lists s0 s' opt' /\ extends s s'.
Proof.
  induction items as [|[k v] items IH]; intros Hvalid Hd opt s Ht Hl H0;
    simpl in *.
  - exists opt, s. auto using extends_refl.
  - apply andb_true_iff in Hvalid as [Hv Hvalid].
    assert (Hd' : forall k v, (k, v) ∈ items -> dget k d = Some v).
    { intros k' v' Hin. apply Hd. right. exact Hin. }
    destruct (negb (dmem k opt)).
    + destruct (copy_ok s0 v s Hv H0) as (v' & s1 & Hc & E1 & Hty & Hnew).
      erewrite bind_ok by exact Hc.
      destruct (IH Hvalid Hd' (dset k v' opt) s1) as (opt' & s' & Hf & R).
      * apply typed_by_dset; [exact Ht|].
        rewrite (Hd k v) by left. exact Hty.
      * eapply string_lists_dset; eauto using extends_refl.
      * eauto using extends_trans.
      * exists opt', s'. destruct R as (R1 & R2 & R3).
        eauto using extends_trans.
    + apply IH; assumption.
Qed.

(** ** Lines 166-307, for every run *)

Lemma live_schema s :
  live_defaults s = true ->
  forall k l, (k, VList l) ∈ schema_of s -> is_Some (lists s !! l).
Proof.
  intros Hlive k l Hin.
  assert (exists k', (k', VList l) ∈ default_opt_obj s) as [k' Hk'].
  { unfold schema_of, with_builtins, add_builtin in Hin.
    destruct (negb (dmem "print_opt" _));
      [apply elem_of_dset in Hin as [Hin|[=]]|];
      (destruct (negb (dmem "h" _));
       [apply elem_of_dset in Hin as [Hin|[=]]|]);
      apply elem_of_fold_dset in Hin as [Hin|Hin];
      solve [inversion Hin | exact Hin]. }
  pose proof (forallb_elem_of _ _ _ Hlive Hk') as H. simpl in H.
  destruct (lists s !! l); [eauto | discriminate H].
Qed.

Lemma schema_entries s k v :
  (k, v) ∈ schema_of s -> dget k (schema_of s) = Some v.
Proof. apply dget_NoDup. apply NoDup_dkeys_schema_of. Qed.

Lemma typed_by_nil d : typed_by d [].
Proof. intros k v [=]. Qed.

Lemma string_lists_nil s0 s : string_lists s0 s [].
Proof. intros k l [=]. Qed.

(** A run that reaches line 309: the schema is valid, the values of
    [opt] have the types of the schema, and the lists of [opt] are new
    lists of strings. *)
Lemma parse_blocks_ok tol we s opt s1 :
  parse_blocks tol we s (entered s) = (Ok opt, s1) ->
  forallb (fun kv => valid_default (lists s) (snd kv)) (schema_of s) = true
  /\ typed_by (schema_of s) opt
  /\ string_lists s s1 opt
  /\ extends (entered s) s1
  /\ (forall k, dmem k (schema_of s) = true -> dmem k opt = true).
Proof.
  unfold parse_blocks. intros H.
  apply bind_inv_ok in H as (u1 & sa & Hcheck & H).
  pose proof (check_default_opt_state (schema_of s) (entered s)) as Ea.
  rewrite Hcheck in Ea. simpl in Ea. subst sa.
  pose proof (check_default_opt_passed _ _ _ _ Hcheck) as Hvalid.
  apply bind_inv_ok in H as (u2 & sb & Hpk & H).
  pose proof (check_positional_keys_state (schema_of s)
                (positional_keys_obj s) (entered s)) as Eb.
  rewrite Hpk in Eb. simpl in Eb. subst sb.
  apply bind_inv_ok in H as (pos & sc & Hpos & H).
  assert (sc = entered s) as -> by (unfold lift in Hpos; congruence).
  apply bind_inv_ok in H as (al & sd & Hal & H).
  assert (Hsd : extends (entered s) sd).
  { assert (Hpre : preserving
              match pos with
              | Some (_, from_here, up_to) =>
                  insert_positionals (schema_of s) tol (positional_keys_obj s)
                    (tokens_of s) from_here up_to
              | None => ret (tokens_of s)
              end) by frame.
    specialize (Hpre (entered s)). rewrite Hal in Hpre. exact Hpre. }
  apply bind_inv_ok in H as (opt0 & se & Hmain & H).
  destruct (main_loop_ok _ _ _ _ _ _ (entered s) _ _ _ _ _ _
              (typed_by_nil _) (string_lists_nil _ _) Hsd Hmain)
    as (Ht0 & Hl0 & Hse).
  destruct (fill_defaults_run (schema_of s) (entered s) (schema_of s)
              Hvalid (schema_entries s) opt0 se Ht0 Hl0
              (extends_trans _ _ _ Hsd Hse))
    as (opt' & s' & Hfill & Ht & Hl & Hs').
  rewrite Hfill in H. injection H as <- <-.
  split; [exact Hvalid|]. split; [exact Ht|]. split; [exact Hl|].
  split; [eauto using extends_trans|].
  intros k Hk. eapply fill_defaults_covers; [exact Hfill|].
  apply dmem_keys. exact Hk.
Qed.

Lemma valid_default_typed h v :
  valid_default h v = true -> type_of v <> TNone.
Proof. destruct v; simpl; congruence. Qed.

(** A run that raises before line 309 raises a [CommandLineError], and
    an error of the schema only when the schema is not valid. *)
Lemma parse_blocks_raise tol we s e s1 :
  live_defaults s = true ->
  parse_blocks tol we s (entered s) = (Raise e, s1) ->
  exists c,
    e = CommandLineError c
    /\ (schema_error c = true -> valid_schema s = false).
Proof.
  intros Hlive. unfold parse_blocks. intros H.
  assert (Hno : forall c, schema_error c = false ->
            schema_error c = true -> valid_schema s = false)
    by (intros c -> [=]).
  unfold bind at 1 in H.
  destruct (check_default_opt (schema_of s) (entered s))
    as [[u1|e1] sa] eqn:Hcheck.
  2:{ injection H as <- <-.
      destruct (check_default_opt_raise _ _ _ _ Hcheck (live_schema s Hlive))
        as (c & -> & Hc).
      exists c. split; [reflexivity|]. intros _.
      destruct (valid_schema s) eqn:Hv; [|reflexivity].
      rewrite (check_default_opt_ok (schema_of s) (entered s)
                 (valid_schema_defaults _ Hv)) in Hcheck.
      discriminate Hcheck. }
  pose proof (check_default_opt_state (schema_of s) (entered s)) as Ea.
  rewrite Hcheck in Ea. simpl in Ea. subst sa.
  pose proof (check_default_opt_passed _ _ _ _ Hcheck) as Hvalid.
  unfold bind at 1 in H.
  destruct (check_positional_keys (schema_of s) (positional_keys_obj s)
              (entered s)) as [[u2|e2] sb] eqn:Hpk.
  2:{ injection H as <- <-. unfold check_positional_keys in Hpk.
      destruct (0 <? _) eqn:Habs; [|discriminate Hpk].
      injection Hpk as <- _. eexists. split; [reflexivity|]. intros _.
      destruct (valid_schema s) eqn:Hv; [|reflexivity].
      unfold valid_schema in Hv. apply andb_true_iff in Hv as [_ Hv].
      pose proof (check_positional_keys_ok _ _ (entered s) Hv) as Hok.
      unfold check_positional_keys in Hok. rewrite Habs in Hok.
      discriminate Hok. }
  pose proof (check_positional_keys_state (schema_of s)
                (positional_keys_obj s) (entered s)) as Eb.
  rewrite Hpk in Eb. simpl in Eb. subst sb.
  unfold bind at 1 in H. unfold lift at 1 in H.
  destruct (find_positionals (schema_of s) (tokens_of s)
              (opt_key_indices (tokens_of s))) as [pos|e3] eqn:Hpos.
  2:{ injection H as <- <-. rewrite find_positionals_spec in Hpos.
      destruct (after_start _ _); [|discriminate Hpos].
      destruct (positionals_before _ _); [|discriminate Hpos].
      injection Hpos as <-. eexists. split; [reflexivity|]. intros [=]. }
  unfold bind at 1 in H.
  match type of H with
  | match ?c with _ => _ end = _ => destruct c as [[al|e4] sd] eqn:Hal
  end.
  2:{ injection H as <- <-.
      destruct pos as [[[tag from_here] up_to]|]; [|discriminate Hal].
      unfold insert_positionals, bind in Hal.
      destruct (positional_loop _ _ _ _ _ _ _ _ _ (entered s))
        as [[ins|e5] s5] eqn:Hloop; [discriminate Hal|].
      injection Hal as <- _.
      destruct (positional_loop_raise _ _ _ _ _ _ _ _ _ _ _ _ Hloop)
        as (c & -> & Hc).
      exists c. split; [reflexivity|]. apply Hno. exact Hc. }
  assert (Hsd : extends (entered s) sd).
  { assert (Hpre : preserving
              match pos with
              | Some (_, from_here, up_to) =>
                  insert_positionals (schema_of s) tol (positional_keys_obj s)
                    (tokens_of s) from_here up_to
              | None => ret (tokens_of s)
              end) by frame.
    specialize (Hpre (entered s)). rewrite Hal in Hpre. exact Hpre. }
  unfold bind at 1 in H.
  destruct (main_loop (schema_of s) (synonyms_of s) tol
              (tolerated_regexp_obj s) we al None (opt_key_indices al) [] sd)
    as [[opt0|e6] se] eqn:Hmain.
  2:{ injection H as <- <-.
      destruct (main_loop_raise (schema_of s) (synonyms_of s) tol
                  (tolerated_regexp_obj s) we al) with
        (indices := opt_key_indices al) (lo := 0) (previous := @None (nat * string))
        (opt := @nil (string * value)) (s := sd) (e := e6) (s' := se)
        as (c & -> & Hc).
      - intros k v Hk. eapply valid_default_typed.
        apply (forallb_elem_of _ _ (k, v) Hvalid). apply dget_elem_of.
        exact Hk.
      - apply chain_opt_key_indices.
      - exact Hmain.
      - exists c. split; [reflexivity|]. apply Hno. exact Hc. }
  destruct (main_loop_ok _ _ _ _ _ _ (entered s) _ _ _ _ _ _
              (typed_by_nil _) (string_lists_nil _ _) Hsd Hmain)
    as (Ht0 & Hl0 & Hse).
  destruct (fill_defaults_run (schema_of s) (entered s) (schema_of s)
              Hvalid (schema_entries s) opt0 se Ht0 Hl0
              (extends_trans _ _ _ Hsd Hse))
    as (opt' & s' & Hfill & _).
  rewrite Hfill in H. discriminate H.
Qed.

(** ** Lines 309-321 when the lists of [opt] are list objects *)

Lemma truthy_live v s :
  (forall l, v = VList l -> is_Some (lists s !! l)) ->
  exists b, forall s', lists s' = lists s -> truthy v s' = (Ok b, s').
Proof.
  intros Hv. destruct (truthy_valid v s Hv) as [b Hb].
  destruct (truthy_eval v s) as (r & Hr & _).
  exists b. intros s' Hs'. rewrite (Hr s' Hs').
  rewrite (Hr s eq_refl) in Hb. congruence.
Qed.

(** The last block, evaluated: [h] and [p] are the truth values of
    [opt['h']] and [opt['print_opt']]. *)
Lemma help_and_print_cases help adv opt s :
  (forall k l, dget k opt = Some (VList l) -> is_Some (lists s !! l)) ->
  exists h p,
    truthy (getitem opt "h") s = (Ok h, s)
    /\ truthy (getitem opt "print_opt") s = (Ok p, s)
    /\ help_and_print help adv opt s
       = let s1 := if h then add_output (OutText help) s else s in
         let s2 := if p then add_output (OutOptions opt) s1 else s1 in
         if h
         then
           if 0 <? length adv
           then
             match in_string_dict (getitem opt "h") adv with
             | Raise e => (Raise e, s1)
             | Ok true => (Raise (NameError "advanced"), s1)
             | Ok false => (Raise SystemExit, s2)
             end
           else (Raise SystemExit, s2)
         else (Ok opt, s2).
Proof.
  intros Hlive.
  assert (Hv : forall k l, getitem opt k = VList l -> is_Some (lists s !! l)).
  { intros k l Hk. unfold getitem in Hk.
    destruct (dget k opt) as [v|] eqn:E; [|discriminate Hk].
    subst v. eapply Hlive. exact E. }
  destruct (truthy_live (getitem opt "h") s (Hv "h")) as [h Hh].
  destruct (truthy_live (getitem opt "print_opt") s (Hv "print_opt"))
    as [p Hp].
  exists h, p. split; [apply Hh; reflexivity|].
  split; [apply Hp; reflexivity|].
  assert (Hfinal : forall s',
            lists s' = lists s ->
            (if dmem "h" opt then truthy (getitem opt "h") else ret false) s'
            = (Ok h, s')).
  { intros s' Hs'. unfold dmem, getitem in *.
    destruct (dget "h" opt) as [vh|]; [apply Hh; exact Hs'|].
    specialize (Hh s eq_refl). simpl in Hh. unfold ret in *. congruence. }
  set (tail :=
         let* p := truthy (getitem opt "print_opt") in
         (if p then write (OutOptions opt) else ret tt) ;;;
         let* h := (if dmem "h" opt then truthy (getitem opt "h")
                    else ret false) in
         if h then raise SystemExit else ret opt).
  assert (Htail : forall s1,
            lists s1 = lists s ->
            tail s1
            = (if h then Raise SystemExit else Ok opt,
               if p then add_output (OutOptions opt) s1 else s1)).
  { intros s1 Hs1. unfold tail, bind. rewrite (Hp s1 Hs1).
    destruct p.
    - pose proof (Hfinal (add_output (OutOptions opt) s1) Hs1) as E.
      unfold write, modify, ret in E |- *. cbv beta iota. rewrite E.
      destruct h; reflexivity.
    - pose proof (Hfinal s1 Hs1) as E.
      unfold ret in E |- *. cbv beta iota. rewrite E.
      destruct h; reflexivity. }
  unfold help_and_print. fold tail. unfold bind.
  rewrite (Hh s eq_refl).
  destruct h; cbv zeta.
  - unfold write, modify, ret, lift. cbv beta iota.
    destruct (0 <? length adv);
      [|apply (Htail (add_output (OutText help) s)); reflexivity].
    destruct (in_string_dict (getitem opt "h") adv) as [[|]|e];
      [reflexivity | | reflexivity].
    apply (Htail (add_output (OutText help) s)). reflexivity.
  - unfold ret. cbv beta iota. apply (Htail s). reflexivity.
Qed.

Lemma main_loop_NoDup d syn tol regs we al indices :
  forall previous opt s opt' s',
    NoDup (dkeys opt) ->
    main_loop d syn tol regs we al previous indices opt s = (Ok opt', s') ->
    NoDup (dkeys opt').
Proof.
  induction indices as [|i rest IH]; intros previous opt s opt' s' Hnd H;
    cbn [main_loop] in H.
  - injection H as <- _. exact Hnd.
  - apply bind_inv_ok in H as (u & s1 & _ & H).
    apply bind_inv_ok in H as (kv & s2 & _ & H).
    eapply IH; [|exact H]. apply NoDup_dkeys_dset. exact Hnd.
Qed.

Lemma fill_defaults_NoDup items :
  forall opt s opt' s',
    NoDup (dkeys opt) ->
    fill_defaults items opt s = (Ok opt', s') ->
    NoDup (dkeys opt').
Proof.
  induction items as [|[k v] items IH]; intros opt s opt' s' Hnd H;
    simpl in H.
  - injection H as <- _. exact Hnd.
  - destruct (negb (dmem k opt)).
    + apply bind_inv_ok in H as (v' & s1 & _ & H).
      eapply IH; [|exact H]. apply NoDup_dkeys_dset. exact Hnd.
    + eapply IH; eassumption.
Qed.

Lemma parse_command_line_NoDup tol we s opt s1 :
  parse_command_line tol we s = (Ok opt, s1) -> NoDup (dkeys opt).
Proof.
  intros H.
  apply parse_command_line_inv in H
    as (al & regs & opt0 & s2 & s3 & Hmain & Hfill).
  eapply fill_defaults_NoDup; [|exact Hfill].
  eapply main_loop_NoDup; [|exact Hmain]. constructor.
Qed.

Lemma truthy_false_falsy v s s' :
  truthy v s = (Ok false, s') -> falsy (lists s) v = true.
Proof.
  destruct v as [| b | z | f | x | l]; simpl; unfold ret;
    try (intros [= H]; rewrite ?H; try reflexivity;
         apply negb_false_iff in H; exact H).
  unfold bind, read_list. destruct (lists s !! l) as [[|y ys]|];
    [reflexivity | intros [=] | intros [=]].
Qed.

Lemma string_lists_live s0 s opt :
  string_lists s0 s opt ->
  forall k l, dget k opt = Some (VList l) -> is_Some (lists s !! l).
Proof. intros H k l Hk. destruct (H k l Hk) as (_ & xs & Hxs & _). eauto. Qed.

(** A call that returns, taken apart. *)
Lemma call_returns help tol we adv s opt s1 :
  command_line_options help tol we adv s = (Ok opt, s1) ->
  exists s0,
    parse_command_line tol we s = (Ok opt, s0)
    /\ typed_by (schema_of s) opt
    /\ string_lists s s0 opt
    /\ (forall k, dmem k (schema_of s) = true -> dmem k opt = true)
    /\ lists s1 = lists s0
    /\ truthy (getitem opt "h") s0 = (Ok false, s0).
Proof.
  rewrite command_line_options_blocks. unfold bind.
  destruct (parse_blocks tol we s (entered s)) as [[opt0|e] s0] eqn:E;
    [|intros [=]].
  intros H. exists s0.
  destruct (parse_blocks_ok _ _ _ _ _ E) as (_ & Ht & Hl & _ & Hcov).
  destruct (help_and_print_cases help adv opt0 s0 (string_lists_live _ _ _ Hl))
    as (h & p & Hh & _ & Hcases).
  rewrite Hcases in H. cbv zeta in H.
  destruct h.
  - exfalso. destruct (0 <? length adv); [|discriminate H].
    destruct (in_string_dict _ adv) as [[|]|]; discriminate H.
  - injection H as <- <-. rewrite parse_command_line_blocks.
    split; [exact E|]. split; [exact Ht|]. split; [exact Hl|].
    split; [exact Hcov|]. split; [destruct p; reflexivity | exact Hh].
Qed.

(** X5. Every mapping that a call returns follows the schema: its keys
    are distinct; every key of the schema (with [h] and [print_opt]) is
    bound, to a value of the type of its default; any other key, the key
    of a tolerated option, is bound to a boolean or to a string; every
    list in it is a list object made by the call, and holds strings
    only; and [h] is false in it ([False] itself when the schema of the
    caller does not define [h]), a call with [h] set never returning. *)
Theorem result_follows_the_schema help (tol we : bool) adv (s : Store)
    opt s1 :
  command_line_options help tol we adv s = (Ok opt, s1) ->
  NoDup (dkeys opt)
  /\ (forall k v0, dget k (schema_of s) = Some v0 ->
        exists v, dget k opt = Some v /\ type_of v = type_of v0)
  /\ (forall k v, dget k opt = Some v -> dmem k (schema_of s) = false ->
        type_of v = TBool \/ type_of v = TStr)
  /\ (forall k l, dget k opt = Some (VList l) ->
        lists s !! l = None
        /\ exists xs, lists s1 !! l = Some xs /\ forallb is_str xs = true)
  /\ falsy (lists s1) (getitem opt "h") = true
  /\ (dmem "h" (default_opt_obj s) = false ->
      dget "h" opt = Some (VBool false)).
Proof.
  intros H.
  destruct (call_returns _ _ _ _ _ _ _ H)
    as (s0 & Hparse & Ht & Hl & Hcov & Hlists & Hh).
  assert (Hschema : forall k v0, dget k (schema_of s) = Some v0 ->
            exists v, dget k opt = Some v /\ type_of v = type_of v0).
  { intros k v0 Hk. pose proof (Hcov k (dget_dmem _ _ _ Hk)) as Hm.
    unfold dmem in Hm. destruct (dget k opt) as [v|] eqn:Ev;
      [|discriminate Hm].
    exists v. split; [reflexivity|]. specialize (Ht k v Ev).
    rewrite Hk in Ht. exact Ht. }
  assert (Hfalsy : falsy (lists s1) (getitem opt "h") = true).
  { rewrite Hlists. eapply truthy_false_falsy. exact Hh. }
  split; [eapply parse_command_line_NoDup; exact Hparse|].
  split; [exact Hschema|]. split.
  { intros k v Hk Hm. specialize (Ht k v Hk). unfold dmem in Hm.
    destruct (dget k (schema_of s)); [discriminate Hm | exact Ht]. }
  split.
  { intros k l Hk. rewrite Hlists. apply (Hl k l Hk). }
  split; [exact Hfalsy|].
  intros Hb. destruct (Hschema "h" _ (builtin_h_default _ Hb))
    as (v & Hv & Hty).
  rewrite (getitem_dget _ _ _ Hv) in Hfalsy.
  destruct v as [| b | z | f | x | l]; try discriminate Hty.
  simpl in Hfalsy. apply negb_true_iff in Hfalsy. subst b. exact Hv.
Qed.

(** The exceptions of [command_line_options] over patterns, when every
    list default of the schema is a list object. A call that does not
    return exits (line 319), or raises a [CommandLineError], which is an
    error of the schema (lines 169-177) only if the schema is not valid;
    or, when the caller's schema gives [h] a string default and some
    advanced help message is passed, the [NameError] of line 313; or,
    when it gives [h] a list default and some advanced help message is
    passed, the [TypeError] of the membership test of line 312. *)
Lemma exceptions_of_a_call help (tol we : bool) adv (s : Store) e s' :
  live_defaults s = true ->
  command_line_options help tol we adv s = (Raise e, s') ->
  e = SystemExit
  \/ (exists c, e = CommandLineError c
                /\ (schema_error c = true -> valid_schema s = false))
  \/ (e = NameError "advanced" /\ help_type s = TStr /\ adv <> [])
  \/ (e = TypeError /\ help_type s = TList /\ adv <> []).
Proof.
  intros Hlive. rewrite command_line_options_blocks. unfold bind.
  destruct (parse_blocks tol we s (entered s)) as [[opt|e0] s0] eqn:E.
  2:{ intros [= <- <-]. right. left. eapply parse_blocks_raise; eassumption. }
  destruct (parse_blocks_ok _ _ _ _ _ E) as (_ & Ht & Hl & _ & Hcov).
  destruct (help_and_print_cases help adv opt s0 (string_lists_live _ _ _ Hl))
    as (h & p & _ & _ & Hcases).
  rewrite Hcases. cbv zeta.
  assert (Hty : type_of (getitem opt "h") = help_type s).
  { pose proof (Hcov "h" (schema_has_h s)) as Hm. unfold dmem in Hm.
    destruct (dget "h" opt) as [v|] eqn:Ev; [|discriminate Hm].
    specialize (Ht "h" v Ev). unfold help_type.
    pose proof (schema_has_h s) as Hs. unfold dmem in Hs.
    destruct (dget "h" (schema_of s)) as [v0|] eqn:Ev0; [|discriminate Hs].
    rewrite (getitem_dget _ _ _ Ev), (getitem_dget _ _ _ Ev0). exact Ht. }
  destruct h; [|intros [=]].
  destruct (0 <? length adv) eqn:Eadv; [|intros [= <- _]; auto].
  assert (adv <> []) as Hadv by (intros ->; discriminate Eadv).
  rewrite <- Hty.
  destruct (getitem opt "h") as [| b | z | f | x | l]; simpl;
    try (intros [= <- _]; auto).
  - destruct (dmem x adv); intros [= <- _]; auto.
    right. right. left. auto.
  - right. right. right. auto.
Qed.

(** ** Positional arguments in excess (lines 219-227) *)

Lemma drop_nil_lookup {A} (l : list A) i : drop i l = [] -> l !! i = None.
Proof.
  intros H. rewrite <- (Nat.add_0_r i), <- lookup_drop, H. reflexivity.
Qed.

Lemma positional_loop_excess d (tol : bool) pks al from_here up_to values :
  forall i acc (s : Store),
    i <= length pks ->
    positional_excess d (drop i pks) values = true ->
    positional_loop d tol pks al from_here up_to i values acc s
    = if tol
      then (Ok (acc ++ planned_insertions d pks from_here i values),
            add_warning
              (IgnoringExtraArgument (slice al (from_here + 1) up_to)) s)
      else (Raise (CommandLineError
                     (ExtraArgument
                        (slice al (from_here + length pks) up_to))), s).
Proof.
  induction values as [|v values IH]; intros i acc s Hi Hex; simpl in *.
  - discriminate Hex.
  - destruct (drop i pks) as [|key keys] eqn:Ed.
    + pose proof (drop_nil_lookup _ _ Ed) as Hnone. rewrite Hnone.
      apply lookup_ge_None in Hnone.
      assert ((length pks <? i + 1) = true) as ->
        by (apply Nat.ltb_lt; lia).
      replace i with (length pks) by lia.
      destruct tol; [|reflexivity].
      rewrite app_nil_r. reflexivity.
    + apply drop_cons_inv in Ed as [Ek Ed]. subst keys.
      assert ((length pks <? i + 1) = false) as ->.
      { apply Nat.ltb_ge. apply lookup_lt_Some in Ek. lia. }
      rewrite Ek, (index_ok _ _ _ Ek), bind_lift_ok.
      destruct (pytype_eqb _ TList); [discriminate Hex|].
      rewrite IH; [| apply lookup_lt_Some in Ek; lia | exact Hex].
      rewrite <- app_assoc. reflexivity.
Qed.

Lemma insert_keys_planned_any d pks from_here post values :
  forall i pre,
    length pre = from_here + i ->
    insert_keys (planned_insertions d pks from_here i values)
                (pre ++ values ++ post)
    = pre ++ with_positional_keys d (drop i pks) values ++ post.
Proof.
  induction values as [|v values IH]; intros i pre Hpre; simpl in *.
  - destruct (drop i pks); reflexivity.
  - destruct (drop i pks) as [|key keys] eqn:Ed.
    + rewrite (drop_nil_lookup _ _ Ed). reflexivity.
    + apply drop_cons_inv in Ed as [Ek Ed]. subst keys.
      rewrite Ek, insert_keys_cons. simpl.
      destruct (pytype_eqb _ TList).
      * unfold insert_keys. simpl. rewrite <- Hpre.
        apply list_insert_at_app.
      * specialize (IH (S i) (pre ++ [v])).
        rewrite <- !app_assoc in IH. simpl in IH.
        rewrite IH; [| rewrite length_app; simpl; lia].
        rewrite <- Hpre. apply list_insert_at_app.
Qed.

Lemma region_split {A} (al : list A) from_here up_to :
  al = take from_here al ++ slice al from_here up_to
       ++ drop (length (slice al from_here up_to)) (drop from_here al).
Proof.
  rewrite <- (take_drop from_here al) at 1. f_equal.
  set (values := slice al from_here up_to).
  rewrite <- (take_drop (length values) (drop from_here al)) at 1.
  f_equal. subst values. unfold slice. destruct up_to as [u|].
  - rewrite length_take, <- take_take.
    rewrite (take_ge (drop from_here al)); [reflexivity | lia].
  - rewrite take_ge; [reflexivity | lia].
Qed.

Lemma slice_drop {A} (al : list A) from_here n up_to :
  slice al (from_here + n) up_to = drop n (slice al from_here up_to).
Proof.
  unfold slice. destruct up_to as [u|].
  - rewrite skipn_firstn_comm, drop_drop. f_equal. lia.
  - rewrite drop_drop. reflexivity.
Qed.

Lemma with_positional_keys_excess d pks tokens :
  positional_excess d pks tokens = true ->
  with_positional_keys d pks tokens
  = flat_map (fun kt => ["-" +:+ fst kt; snd kt]) (zip pks tokens)
    ++ drop (length pks) tokens
  /\ length pks < length tokens.
Proof.
  revert pks. induction tokens as [|t tokens IH]; intros pks H; simpl in H.
  - discriminate H.
  - destruct pks as [|key keys]; simpl.
    + split; [reflexivity | lia].
    + destruct (pytype_eqb _ TList); [discriminate H|].
      destruct (IH keys H) as [-> Hlen]. split; [reflexivity | lia].
Qed.

(** X7. Positional arguments in excess are fatal without
    [tolerate_extra]: with a valid schema and positional arguments on
    one side of the options only, when the positional keys run out
    before the positional arguments do (no key of type list having taken
    the rest), the call raises "extra argument not accepted" (line 225)
    for the arguments past the last positional key. *)
Theorem extra_positional_arguments_fatal help (we : bool) adv (s : Store) :
  valid_schema s = true ->
  negb (nonempty (before_region (tokens_of s))
        && nonempty (after_region (schema_of s) (tokens_of s))) = true ->
  positional_excess (schema_of s) (positional_keys_obj s)
    (positional_tokens (schema_of s) (tokens_of s)) = true ->
  command_line_options help false we adv s
  = (Raise (CommandLineError
              (ExtraArgument
                 (drop (length (positional_keys_obj s))
                    (positional_tokens (schema_of s) (tokens_of s))))),
     entered s).
Proof.
  intros Hvalid Hsides Hex. unfold command_line_options.
  apply bind_raise.
  rewrite (parse_command_line_validated _ _ _ Hvalid). cbv zeta.
  destruct (find_positionals_clean _ _ Hsides) as (pos & Hpos & Hregion).
  rewrite Hpos, bind_lift_ok. apply bind_raise.
  unfold positional_tokens in *. rewrite Hregion in *.
  destruct pos as [[[tag from_here] up_to]|]; [|discriminate Hex].
  unfold insert_positionals. apply bind_raise.
  rewrite positional_loop_excess; [| lia | rewrite drop_0; exact Hex].
  rewrite slice_drop. reflexivity.
Qed.

(** X8. Positional arguments in excess under [tolerate_extra] (lines
    219-232): when the positional keys run out before the arguments of
    the region do, the keys are written before the first arguments, one
    each, the arguments in excess stay where they are in [arglist], and
    one warning is given; it names the arguments of the region from the
    second on (line 223), not only those in excess. *)
Theorem extra_positional_arguments_tolerated d pks al from_here up_to
    (s : Store) :
  from_here <= length al ->
  positional_excess d pks (slice al from_here up_to) = true ->
  let tokens := slice al from_here up_to in
  insert_positionals d true pks al from_here up_to s
  = (Ok (take from_here al
         ++ (flat_map (fun kt => ["-" +:+ fst kt; snd kt]) (zip pks tokens)
             ++ drop (length pks) tokens)
         ++ drop (length tokens) (drop from_here al)),
     add_warning (IgnoringExtraArgument (drop 1 tokens)) s)
  /\ length pks < length tokens.
Proof.
  intros Hfrom Hex tokens. subst tokens.
  destruct (with_positional_keys_excess _ _ _ Hex) as [Hwith Hlen].
  split; [|exact Hlen].
  unfold insert_positionals, bind.
  rewrite positional_loop_excess; [| lia | rewrite drop_0; exact Hex].
  unfold ret. f_equal.
  - f_equal. rewrite app_nil_l, <- Hwith.
    transitivity
      (insert_keys
         (planned_insertions d pks from_here 0 (slice al from_here up_to))
         (take from_here al ++ slice al from_here up_to
          ++ drop (length (slice al from_here up_to)) (drop from_here al))).
    { f_equal. apply region_split. }
    rewrite (insert_keys_planned_any d pks from_here _
               (slice al from_here up_to) 0 (take from_here al)).
    + rewrite drop_0. reflexivity.
    + rewrite length_take. lia.
  - rewrite slice_drop. reflexivity.
Qed.

(** ** The last option and the region after it (lines 195-211) *)

(** X9. The region after the last option when the token of the last
    option, its dashes stripped, is not itself a key of the schema: a
    synonym, or an option that is not expected. The schema is looked up
    with the token as it is (line 196), not with the key that the
    synonyms give it (lines 254-255), so that the type is that of
    [None]: the region exists exactly when at least two tokens follow
    the option, and starts after the token next to it; also when the
    option is a synonym of a key of type list or of a boolean key. *)
Theorem last_option_not_a_schema_key d al last_ki last_bit :
  last (opt_key_indices al) = Some last_ki ->
  al !! last_ki = Some last_bit ->
  dmem (lstrip_dash last_bit) d = false ->
  after_start d al
  = (if last_ki + 2 <? length al then Some (last_ki + 2) else None)
  /\ after_region d al = drop (last_ki + 2) al
  /\ (before_region al = [] ->
      find_positionals d al (opt_key_indices al)
      = Ok (if last_ki + 2 <? length al
            then Some (PAfter, last_ki + 2, None)
            else None)).
Proof.
  intros Hlast Hbit Hd.
  assert (Hstart : after_start d al
            = if last_ki + 2 <? length al then Some (last_ki + 2) else None).
  { rewrite (after_start_unfold _ _ _ _ Hlast Hbit).
    unfold positionals_after, after_from_here, last_key_type, getitem.
    unfold dmem in Hd.
    destruct (dget (lstrip_dash last_bit) d); [discriminate Hd|]. simpl.
    rewrite andb_true_r.
    destruct (last_ki <? length al - 2) eqn:E1;
      destruct (last_ki + 2 <? length al) eqn:E2; try reflexivity;
      [apply Nat.ltb_lt in E1; apply Nat.ltb_ge in E2
      |apply Nat.ltb_ge in E1; apply Nat.ltb_lt in E2]; lia. }
  split; [exact Hstart|]. split.
  - unfold after_region. rewrite Hstart.
    destruct (last_ki + 2 <? length al) eqn:E; [reflexivity|].
    apply Nat.ltb_ge in E. rewrite drop_ge by lia. reflexivity.
  - intros Hbefore. rewrite find_positionals_spec, Hstart.
    rewrite (before_region_nil al); [| | exact Hbefore].
    + destruct (last_ki + 2 <? length al); reflexivity.
    + intros Hnil. rewrite Hnil in Hlast. discriminate Hlast.
Qed.

(** ** What is read as an option key (lines 182-184) *)

Lemma split_count_spaces s :
  split_count false s = 0 <-> string_forall is_whitespace s = true.
Proof.
  induction s as [|c s IH]; simpl; [tauto|].
  destruct (is_whitespace c); simpl; [exact IH|].
  split; discriminate.
Qed.

Lemma split_count_word s :
  split_count true s = 0 <->
  exists word spaces,
    s = (word ++ spaces)%string
    /\ string_forall (fun c => negb (is_whitespace c)) word = true
    /\ string_forall is_whitespace spaces = true.
Proof.
  induction s as [|c s IH]; simpl.
  - split; [|reflexivity]. intros _. exists "", "".
    split; [reflexivity|]. split; reflexivity.
  - destruct (is_whitespace c) eqn:Ec.
    + rewrite split_count_spaces. split.
      * intros Hs. exists "", (String c s).
        split; [reflexivity|]. split; [reflexivity|].
        simpl. rewrite Ec. exact Hs.
      * intros (word & spaces & Heq & Hw & Hsp).
        destruct word as [|w word].
        -- change ("" ++ spaces)%string with spaces in Heq.
           subst spaces. simpl in Hsp.
           apply andb_true_iff in Hsp as [_ Hsp]. exact Hsp.
        -- change (String w word ++ spaces)%string
             with (String w (word ++ spaces)%string) in Heq.
           injection Heq as <- _. simpl in Hw. rewrite Ec in Hw.
           discriminate Hw.
    + rewrite IH. split.
      * intros (word & spaces & -> & Hw & Hsp).
        exists (String c word), spaces.
        split; [reflexivity|]. split; [|exact Hsp].
        simpl. rewrite Ec. exact Hw.
      * intros (word & spaces & Heq & Hw & Hsp).
        destruct word as [|w word].
        -- change ("" ++ spaces)%string with spaces in Heq.
           subst spaces. simpl in Hsp. rewrite Ec in Hsp. discriminate Hsp.
        -- change (String w word ++ spaces)%string
             with (String w (word ++ spaces)%string) in Heq.
           injection Heq as <- ->. simpl in Hw.
           apply andb_true_iff in Hw as [_ Hw]. eauto.
Qed.

Lemma accepted_option_char_letter c :
  accepted_option_char c = true ->
  is_whitespace c = false /\ c <> "-"%char.
Proof.
  destruct c as [[] [] [] [] [] [] [] []]; try discriminate;
    intros _; split; try reflexivity; discriminate.
Qed.

(** X10. What is read as an option key: exactly the tokens made of one
    dash, an ASCII letter, any characters that are not whitespace, and
    possibly whitespace at the end. The key of such a token (line 253)
    is the token without its dash, trailing whitespace included; a token
    that starts with two dashes, or with a dash and a digit, is never an
    option key, and neither is a token with whitespace inside. *)
Theorem option_key_shape bit :
  (is_option_key bit = true <->
   exists c word spaces,
     bit = String "-" (String c (word ++ spaces))
     /\ accepted_option_char c = true
     /\ string_forall (fun x => negb (is_whitespace x)) word = true
     /\ string_forall is_whitespace spaces = true)
  /\ (is_option_key bit = true ->
      exists c rest,
        bit = String "-" (String c rest)
        /\ accepted_option_char c = true
        /\ lstrip_dash bit = String c rest)
  /\ (forall rest, is_option_key (String "-" (String "-" rest)) = false).
Proof.
  assert (Hshape : is_option_key bit = true <->
            exists c word spaces,
              bit = String "-" (String c (word ++ spaces))
              /\ accepted_option_char c = true
              /\ string_forall (fun x => negb (is_whitespace x)) word = true
              /\ string_forall is_whitespace spaces = true).
  { unfold is_option_key. split.
    - intros H. apply andb_true_iff in H as [H Hc].
      apply andb_true_iff in H as [H _].
      apply andb_true_iff in H as [Hdash Hcount].
      destruct bit as [|d bit]; [discriminate Hdash|].
      simpl in Hdash.
      assert (d = "-"%char) as ->.
      { destruct d as [[] [] [] [] [] [] [] []]; try discriminate Hdash.
        reflexivity. }
      destruct bit as [|c rest]; [discriminate Hc|]. simpl in Hc.
      destruct (accepted_option_char_letter c Hc) as [Hws _].
      simpl in Hcount. rewrite Hws in Hcount.
      apply Nat.eqb_eq in Hcount. injection Hcount as Hcount.
      apply split_count_word in Hcount as (word & spaces & -> & Hw & Hsp).
      exists c, word, spaces. auto.
    - intros (c & word & spaces & -> & Hc & Hw & Hsp).
      destruct (accepted_option_char_letter c Hc) as [Hws _].
      simpl. rewrite Hws, Hc.
      assert (split_count true (word ++ spaces) = 0) as ->.
      { apply split_count_word. eauto. }
      reflexivity. }
  split; [exact Hshape|]. split.
  - intros H. apply Hshape in H as (c & word & spaces & -> & Hc & _).
    exists c, (word ++ spaces)%string. split; [reflexivity|].
    split; [exact Hc|].
    destruct (accepted_option_char_letter c Hc) as [_ Hd].
    simpl. apply lstrip_dash_other. exact Hd.
  - intros rest. unfold is_option_key. simpl.
    rewrite andb_false_r. reflexivity.
Qed.

(** ** An option given more than once (line 302) *)

Lemma dget_parsed_options_last d syn al : forall indices previous acc pre o post,
  occurrences syn al previous indices = pre ++ o :: post ->
  (forall o', o' ∈ post -> occ_key o' <> occ_key o) ->
  dget (occ_key o) (parsed_options d syn al indices acc)
  = Some (parsed_value (type_of (getitem d (occ_key o))) al (occ_index o)
            (occ_next o)).
Proof.
  induction indices as [|i rest IH]; intros previous acc pre o post Hocc Hlast;
    simpl in Hocc.
  - destruct pre; discriminate Hocc.
  - destruct pre as [|o0 pre]; simpl in Hocc.
    + injection Hocc as <- <-. simpl.
      rewrite (dget_parsed_options _ _ _ _ _
                 (Some (i, resolve_key syn (al !!! i)))) by exact Hlast.
      apply dget_dset_eq.
    + injection Hocc as _ Hocc. simpl. eapply IH; eassumption.
Qed.

(** X11. An option given more than once: under the conditions of a
    clean command line, the mapping binds a key to the value of its last
    occurrence on the command line (after the positional keys are made
    explicit and the synonyms resolved), read as its type in the schema
    tells. *)
Theorem last_occurrence_wins help (tol we : bool) adv (s : Store)
    pre o post :
  valid_schema s = true ->
  no_unknown_keys s = true ->
  no_missing_argument s = true ->
  values_cast s = true ->
  no_extra_tokens s = true ->
  help_not_set s = true ->
  options_of s = pre ++ o :: post ->
  (forall o', o' ∈ post -> occ_key o' <> occ_key o) ->
  exists opt s1 v,
    command_line_options help tol we adv s = (Ok opt, s1)
    /\ dget (occ_key o) opt = Some v
    /\ content_of (lists s1) v
       = parsed_value (occ_type (schema_of s) o) (main_tokens s)
           (occ_index o) (occ_next o).
Proof.
  intros Hvalid Hknown Hgiven Hcasts Hextra Hhelp Hocc Hlast.
  destruct (call_clean help tol we adv s Hvalid Hknown Hgiven Hcasts Hextra
              Hhelp) as (opt & s1 & Hcall & _ & _ & Hview).
  assert (dget (occ_key o) (expected_result s)
          = Some (parsed_value (occ_type (schema_of s) o) (main_tokens s)
                    (occ_index o) (occ_next o))) as He.
  { unfold expected_result. apply dget_filled_kept.
    eapply dget_parsed_options_last; eassumption. }
  rewrite <- Hview in He. apply dget_of_view in He as (v & Hv & Hc).
  exists opt, s1, v. auto.
Qed.

(** ** Command lines whose main pass reads [-k1 v1 -k2 v2 ...] *)

Lemma parse_on_canonical tol we s asg pos :
  valid_schema s = true ->
  NoDup (dkeys asg) ->
  (forall k v, (k, v) ∈ asg -> carried (schema_of s) (synonyms_of s) k v) ->
  find_positionals (schema_of s) (tokens_of s)
    (opt_key_indices (tokens_of s)) = Ok pos ->
  (match pos with
   | Some (_, from_here, up_to) =>
       insert_positionals (schema_of s) tol (positional_keys_obj s)
         (tokens_of s) from_here up_to
   | None => ret (tokens_of s)
   end) (entered s) = (Ok (canonical_tokens asg), entered s) ->
  exists opt s1,
    parse_command_line tol we s = (Ok opt, s1)
    /\ (forall k v, dget k asg = Some v -> dget k opt = Some v)
    /\ (forall k v0,
          dget k (schema_of s) = Some v0 -> dget k asg = None ->
          exists v, dget k opt = Some v
                    /\ content_of (lists s1) v = content_of (lists s) v0)
    /\ new_lists s s1 opt
    /\ warned s1 = warned s /\ written s1 = written s.
Proof.
  intros Hvalid Hasg Hcarried Hpos Hal.
  assert (Hkeys : forall k v, (k, v) ∈ asg ->
            is_option_key ("-" +:+ k) = true
            /\ is_option_key (literal v) = false).
  { intros k v Hin.
    destruct (Hcarried k v Hin) as (_ & _ & Hk & _ & Hv & _). auto. }
  set (opt0 := fold_left (fun acc kv => dset (fst kv) (snd kv) acc) asg
                 ([] : dict value)).
  assert (Hopt0 : forall k v, (k, v) ∈ opt0 -> scalar_type (type_of v) = true).
  { intros k v Hin. apply elem_of_fold_dset in Hin as [Hin|(k' & Hin)];
      [inversion Hin|].
    destruct (Hcarried k' v Hin) as (_ & Hs & _). exact Hs. }
  destruct (fill_defaults_clean (entered s) (schema_of s)
              (valid_schema_defaults _ Hvalid) opt0 (entered s)
              (extends_refl _))
    as (opt & s1 & Hfill & Hext1 & Hnew1 & Hview1 & Hw1 & Hwr1).
  { intros k l Hin. apply Hopt0 in Hin. discriminate Hin. }
  exists opt, s1. split.
  { rewrite (parse_command_line_validated _ _ _ Hvalid). cbv zeta.
    rewrite Hpos, bind_lift_ok.
    erewrite bind_ok by exact Hal.
    rewrite bind_gets.
    pose proof (main_loop_canonical (schema_of s) (synonyms_of s) tol
                  (tolerated_regexp_obj (entered s)) we asg [] None []
                  (entered s) Hcarried I) as Hmain.
    simpl app in Hmain. simpl length in Hmain at 1.
    unfold opt_key_indices.
    rewrite (option_indices_canonical _ _ Hkeys).
    erewrite bind_ok by exact Hmain. exact Hfill. }
  split.
  { intros k v Hk. eapply fill_defaults_keeps_values; [exact Hfill|].
    unfold opt0. rewrite (dget_fold_dset_NoDup _ _ _ Hasg), Hk. reflexivity. }
  split.
  { intros k v0 Hk Hnone.
    assert (dget k (view (lists s1) opt)
            = Some (content_of (lists (entered s)) v0)) as Hc.
    { rewrite Hview1. apply dget_filled_default.
      - apply NoDup_dkeys_schema_of.
      - exact Hk.
      - rewrite dget_view. unfold opt0.
        rewrite (dget_fold_dset_NoDup _ _ _ Hasg), Hnone. reflexivity. }
    apply dget_of_view in Hc as (v & Hv & Hc). eauto. }
  split; [exact Hnew1|]. split; [exact Hw1 | exact Hwr1].
Qed.

(** X12. The advanced help (lines 312-313). When the schema of the
    caller gives [h] a string default and the command line is
    [-k1 v1 -k2 v2 ...] with [-h a] in it, [a] being a key of
    [advanced_help_msg], the call writes the help message and then
    raises [NameError] for the name [advanced], which line 313 reads
    and nothing binds: the advanced help message is not written. *)
Theorem advanced_help_raises_name_error help (tol we : bool) adv
    (s : Store) (asg : dict value) a :
  valid_schema s = true ->
  tokens_of s = canonical_tokens asg ->
  NoDup (dkeys asg) ->
  (forall k v, (k, v) ∈ asg -> carried (schema_of s) (synonyms_of s) k v) ->
  dget "h" asg = Some (VStr a) ->
  a <> "" ->
  dmem a adv = true ->
  exists s1,
    command_line_options help tol we adv s
    = (Raise (NameError "advanced"), s1)
    /\ written s1 = written s ++ [OutText help].
Proof.
  intros Hvalid Htokens Hasg Hcarried Hh Ha Hadv.
  assert (Hkeys : forall k v, (k, v) ∈ asg ->
            is_option_key ("-" +:+ k) = true
            /\ is_option_key (literal v) = false).
  { intros k v Hin.
    destruct (Hcarried k v Hin) as (_ & _ & Hk & _ & Hv & _). auto. }
  destruct (parse_on_canonical tol we s asg None Hvalid Hasg Hcarried)
    as (opt & s1 & Hparse & Hassigned & _ & Hnew & _ & Hwr).
  { rewrite Htokens. apply find_positionals_canonical. exact Hkeys. }
  { rewrite Htokens. reflexivity. }
  destruct (help_and_print_cases help adv opt s1) as (h & p & Hth & _ & Hc).
  { intros k l Hk. apply (new_lists_dget _ _ _ _ _ Hnew Hk). }
  rewrite (getitem_dget _ _ _ (Hassigned _ _ Hh)) in Hth, Hc.
  simpl in Hth. unfold ret in Hth. injection Hth as <-.
  apply String.eqb_neq in Ha. rewrite Ha in Hc. simpl in Hc.
  assert ((0 <? length adv) = true) as Hlen.
  { destruct adv; [discriminate Hadv | reflexivity]. }
  rewrite Hlen, Hadv in Hc.
  exists (add_output (OutText help) s1). split.
  - unfold command_line_options. erewrite bind_ok by exact Hparse. exact Hc.
  - simpl. rewrite Hwr. reflexivity.
Qed.

(** ** Positional arguments alone on the command line *)

Lemma option_indices_from_none al : forall n,
  forallb (fun t => negb (is_option_key t)) al = true ->
  option_indices_from n al = [].
Proof.
  induction al as [|t al IH]; intros n H; simpl in *; [reflexivity|].
  apply andb_true_iff in H as [Ht H]. apply negb_true_iff in Ht.
  rewrite Ht. apply IH. exact H.
Qed.

Lemma with_positional_keys_zip d : forall toks pks,
  length toks <= length pks ->
  (forall k, k ∈ take (length toks) pks -> type_of (getitem d k) <> TList) ->
  with_positional_keys d pks toks
  = canonical_tokens (zip (take (length toks) pks) (map VStr toks)).
Proof.
  induction toks as [|t toks IH]; intros pks Hlen Hk.
  - destruct pks; reflexivity.
  - destruct pks as [|k pks]; simpl in Hlen; [lia|].
    simpl. change (String "-" k) with ("-" +:+ k).
    assert (pytype_eqb (type_of (getitem d k)) TList = false) as ->.
    { apply pytype_eqb_neq. apply Hk. simpl. left. }
    rewrite IH; [reflexivity | lia |].
    intros k' Hk'. apply Hk. simpl. right. exact Hk'.
Qed.

(** X13. Positional arguments alone. With a valid schema, when the
    command line holds no option key and not more tokens than there are
    positional keys, and the positional keys that the tokens meet are
    distinct keys of type str, each written [-k] an option key and not a
    synonym, and not [h] (whose default is false): the call returns a
    mapping that binds the i-th positional key to the i-th token. *)
Theorem positional_arguments_bound help (tol we : bool) adv (s : Store) :
  let keys := take (length (tokens_of s)) (positional_keys_obj s) in
  valid_schema s = true ->
  tokens_of s <> [] ->
  forallb (fun t => negb (is_option_key t)) (tokens_of s) = true ->
  length (tokens_of s) <= length (positional_keys_obj s) ->
  NoDup keys ->
  (forall k, k ∈ keys ->
     type_of (getitem (schema_of s) k) = TStr
     /\ is_option_key ("-" +:+ k) = true
     /\ dget k (synonyms_of s) = None
     /\ k <> "h") ->
  falsy (lists s) (getitem (schema_of s) "h") = true ->
  exists opt s1,
    command_line_options help tol we adv s = (Ok opt, s1)
    /\ forall i k t,
         keys !! i = Some k -> tokens_of s !! i = Some t ->
         dget k opt = Some (VStr t).
Proof.
  intros keys Hvalid Hne Hplain Hlen Hnd Hkeys Hhelp.
  set (asg := zip keys (map VStr (tokens_of s))).
  assert (Hlk : length keys = length (tokens_of s)).
  { unfold keys. rewrite length_take. lia. }
  assert (Hdk : dkeys asg = keys).
  { unfold dkeys, asg. apply fst_zip. rewrite length_map. lia. }
  assert (Hcarried : forall k v, (k, v) ∈ asg ->
            carried (schema_of s) (synonyms_of s) k v).
  { intros k v Hin. unfold asg in Hin.
    pose proof (elem_of_zip_l _ _ _ _ Hin) as Hk.
    pose proof (elem_of_zip_r _ _ _ _ Hin) as Hv.
    apply list_elem_of_fmap in Hv as (t & -> & Ht).
    destruct (Hkeys k Hk) as (Hty & Hkey & Hsyn & _).
    split.
    { unfold getitem in Hty.
      destruct (dget k (schema_of s)) as [v0|]; [|discriminate Hty].
      exists v0. auto. }
    split; [reflexivity|]. split; [exact Hkey|]. split; [exact Hsyn|].
    split; [|exact I]. simpl.
    apply negb_true_iff.
    apply (forallb_elem_of _ _ _ Hplain Ht). }
  assert (Hidx : opt_key_indices (tokens_of s) = []).
  { apply option_indices_from_none. exact Hplain. }
  destruct (parse_on_canonical tol we s asg (Some (PBefore, 0, None))
              Hvalid) as (opt & s1 & Hparse & Hassigned & Hdef & Hnew & _).
  { rewrite Hdk. exact Hnd. }
  { exact Hcarried. }
  { rewrite find_positionals_spec. unfold after_start, positionals_before.
    rewrite Hidx. simpl.
    destruct (tokens_of s); [contradiction | reflexivity]. }
  { rewrite insert_positionals_enough.
    - simpl. rewrite drop_0, drop_all, app_nil_r.
      rewrite with_positional_keys_zip; [reflexivity | exact Hlen |].
      intros k Hk. destruct (Hkeys k Hk) as (Hty & _). rewrite Hty.
      discriminate.
    - lia.
    - apply positional_excess_length. simpl. rewrite drop_0. exact Hlen. }
  pose proof (schema_has_h s) as Hh. unfold dmem in Hh.
  destruct (dget "h" (schema_of s)) as [vh0|] eqn:Evh; [|discriminate Hh].
  destruct (Hdef "h" vh0 Evh) as (vh & Hoh & Hch).
  { apply dget_absent. rewrite Hdk. intros Hin.
    destruct (Hkeys "h" Hin) as (_ & _ & _ & Hn). apply Hn. reflexivity. }
  assert (falsy (lists s1) vh = true) as Hfalse.
  { rewrite (getitem_dget _ _ _ Evh) in Hhelp. rewrite <- Hhelp.
    apply falsy_content; [exact Hch | |].
    - intros l ->. apply (new_lists_dget _ _ _ _ _ Hnew Hoh).
    - intros l ->. destruct (valid_schema_list _ _ _ Hvalid Evh) as [xs Hxs].
      eauto. }
  destruct (help_and_print_clean help adv opt vh s1 Hoh Hfalse)
    as (s1' & Hprint & _).
  { intros k l Hk. apply (new_lists_dget _ _ _ _ _ Hnew Hk). }
  exists opt, s1'. split.
  { unfold command_line_options. erewrite bind_ok by exact Hparse.
    exact Hprint. }
  intros i k t Hk Ht. apply Hassigned. apply dget_NoDup.
  - rewrite Hdk. exact Hnd.
  - unfold asg. apply (list_elem_of_lookup_2 _ i).
    apply lookup_zip_with_Some. exists k, (VStr t).
    split; [reflexivity|]. split; [exact Hk|].
    rewrite list_lookup_fmap, Ht. reflexivity.
Qed.

(** ** A key of the schema that is also a synonym *)

Lemma resolve_key_never syn k :
  dmem k syn = true ->
  (forall a, dget a syn <> Some k) ->
  forall bit, resolve_key syn bit <> k.
Proof.
  intros Hk Hnone bit. unfold resolve_key.
  destruct (dget (lstrip_dash bit) syn) as [k'|] eqn:E.
  - intros ->. exact (Hnone _ E).
  - intros Heq. rewrite Heq in E. unfold dmem in Hk. rewrite E in Hk.
    discriminate Hk.
Qed.

Lemma main_loop_never_sets d syn tol regs we al k indices :
  (forall bit, resolve_key syn bit <> k) ->
  forall previous opt s opt' s',
    dget k opt = None ->
    main_loop d syn tol regs we al previous indices opt s = (Ok opt', s') ->
    dget k opt' = None.
Proof.
  intros Hk. induction indices as [|i rest IH];
    intros previous opt s opt' s' Hopt H; cbn [main_loop] in H.
  - injection H as <- _. exact Hopt.
  - apply bind_inv_ok in H as (u & s1 & _ & H).
    apply bind_inv_ok in H as (kv & s2 & Hread & H).
    eapply IH; [|exact H].
    destruct (read_option_index _ _ _ _ _ _ _ _ _ _ _ Hread) as [bit Hbit].
    rewrite (read_option_key _ _ _ _ _ _ _ _ _ _ _ _ Hbit Hread).
    rewrite dget_dset_ne; [exact Hopt | apply Hk].
Qed.

Lemma copy_content s0 v s v' s' :
  valid_default (lists s0) v = true -> extends s0 s ->
  copy v s = (Ok v', s') ->
  content_of (lists s') v' = content_of (lists s0) v.
Proof.
  intros Hv Hext.
  destruct v as [| b | z | f | x | l]; simpl in *; try discriminate Hv;
    try (intros [= <- <-]; reflexivity).
  destruct (lists s0 !! l) as [xs|] eqn:El; [|discriminate Hv].
  apply Hext in El. unfold bind, read_list. rewrite El.
  destruct (new_list xs s) as [[l'|e] s2] eqn:En; [|discriminate En].
  intros [= <- <-]. apply new_list_result in En as (_ & Hl & _).
  simpl. rewrite Hl. reflexivity.
Qed.

Lemma content_of_extends (h h' : gmap loc (list value)) v :
  (forall l, v = VList l -> is_Some (h !! l)) ->
  (forall l xs, h !! l = Some xs -> h' !! l = Some xs) ->
  content_of h' v = content_of h v.
Proof.
  intros Hlive Hsub. destruct v as [| b | z | f | x | l]; try reflexivity.
  destruct (Hlive l eq_refl) as [xs Hxs]. simpl.
  rewrite Hxs, (Hsub _ _ Hxs). reflexivity.
Qed.

(** The default of a key that the main pass has not set. *)
Lemma fill_defaults_default s0 k v0 items :
  NoDup (dkeys items) ->
  dget k items = Some v0 ->
  valid_default (lists s0) v0 = true ->
  forall opt s opt' s',
    extends s0 s ->
    dget k opt = None ->
    fill_defaults items opt s = (Ok opt', s') ->
    exists v, dget k opt' = Some v
              /\ content_of (lists s') v = content_of (lists s0) v0.
Proof.
  induction items as [|[k1 v1] items IH];
    intros Hnd Hk Hv opt s opt' s' Hext Hopt H; simpl in *; [discriminate Hk|].
  apply NoDup_cons in Hnd as [Hk1 Hnd].
  destruct (String.eqb k1 k) eqn:E.
  - apply String.eqb_eq in E. subst k1. injection Hk as ->.
    unfold dmem in H. rewrite Hopt in H. simpl in H.
    apply bind_inv_ok in H as (v' & s2 & Hcopy & H).
    exists v'. split.
    + eapply fill_defaults_keeps_values; [exact H|]. apply dget_dset_eq.
    + pose proof (copy_content _ _ _ _ _ Hv Hext Hcopy) as Hc.
      rewrite <- Hc.
      pose proof (preserving_fill_defaults items (dset k v' opt) s2) as Hp.
      rewrite H in Hp. simpl in Hp.
      apply content_of_extends; [|apply Hp].
      intros l ->.
      destruct (copy_ok s0 v0 s Hv Hext) as (v2 & s3 & Hc2 & _ & _ & Hl).
      rewrite Hcopy in Hc2. injection Hc2 as <- <-.
      destruct (Hl l eq_refl) as (_ & xs & Hxs & _). eauto.
  - apply String.eqb_neq in E.
    destruct (negb (dmem k1 opt)).
    + apply bind_inv_ok in H as (v' & s2 & Hcopy & H).
      eapply IH; [exact Hnd | exact Hk | exact Hv | | | exact H].
      * pose proof (preserving_copy v1 s) as Hp. rewrite Hcopy in Hp.
        eapply extends_trans; [exact Hext | exact Hp].
      * rewrite dget_dset_ne; [exact Hopt | exact E].
    + eapply IH; eassumption.
Qed.

(** A run that reaches line 309, block by block. *)
Lemma parse_blocks_inv tol we s opt s1 :
  parse_blocks tol we s (entered s) = (Ok opt, s1) ->
  exists al opt0 s2 s3,
    extends (entered s) s2
    /\ main_loop (schema_of s) (synonyms_of s) tol (tolerated_regexp_obj s)
         we al None (opt_key_indices al) [] s2 = (Ok opt0, s3)
    /\ extends s2 s3
    /\ fill_defaults (schema_of s) opt0 s3 = (Ok opt, s1).
Proof.
  unfold parse_blocks. intros H.
  apply bind_inv_ok in H as (u1 & sa & Hcheck & H).
  pose proof (check_default_opt_state (schema_of s) (entered s)) as Ea.
  rewrite Hcheck in Ea. simpl in Ea. subst sa.
  apply bind_inv_ok in H as (u2 & sb & Hpk & H).
  pose proof (check_positional_keys_state (schema_of s)
                (positional_keys_obj s) (entered s)) as Eb.
  rewrite Hpk in Eb. simpl in Eb. subst sb.
  apply bind_inv_ok in H as (pos & sc & Hpos & H).
  assert (sc = entered s) as -> by (unfold lift in Hpos; congruence).
  apply bind_inv_ok in H as (al & sd & Hal & H).
  assert (Hsd : extends (entered s) sd).
  { assert (Hpre : preserving
              match pos with
              | Some (_, from_here, up_to) =>
                  insert_positionals (schema_of s) tol (positional_keys_obj s)
                    (tokens_of s) from_here up_to
              | None => ret (tokens_of s)
              end) by frame.
    specialize (Hpre (entered s)). rewrite Hal in Hpre. exact Hpre. }
  apply bind_inv_ok in H as (opt0 & se & Hmain & H).
  exists al, opt0, sd, se. split; [exact Hsd|]. split; [exact Hmain|].
  split; [|exact H].
  pose proof (preserving_main_loop (schema_of s) (synonyms_of s) tol
                (tolerated_regexp_obj s) we al (opt_key_indices al) None []
                sd) as Hp.
  rewrite Hmain in Hp. exact Hp.
Qed.

(** X14. A key of the schema that is also a synonym, while no synonym
    stands for it, can not be given on the command line: the option
    written with its name sets the key it is a synonym of (lines
    254-255). Every mapping that the call returns binds it to its
    default. With the built-in synonym (line 163) this is the case of a
    key named [help] in the schema. *)
Theorem synonym_shadows_key help (tol we : bool) adv (s : Store) k v0
    opt s1 :
  dmem k (synonyms_of s) = true ->
  (forall a, dget a (synonyms_of s) <> Some k) ->
  dget k (schema_of s) = Some v0 ->
  command_line_options help tol we adv s = (Ok opt, s1) ->
  exists v,
    dget k opt = Some v
    /\ content_of (lists s1) v = content_of (lists s) v0.
Proof.
  intros Hsyn Hnone Hk H.
  destruct (call_returns _ _ _ _ _ _ _ H)
    as (s0 & Hparse & _ & _ & _ & Hlists & _).
  rewrite parse_command_line_blocks in Hparse.
  destruct (parse_blocks_ok _ _ _ _ _ Hparse) as (Hvalid & _).
  apply parse_blocks_inv in Hparse
    as (al & opt0 & s2 & s3 & E2 & Hmain & E3 & Hfill).
  assert (dget k opt0 = None) as H0.
  { eapply main_loop_never_sets; [ | | exact Hmain];
      [apply resolve_key_never; assumption | reflexivity]. }
  destruct (fill_defaults_default (entered s) k v0 (schema_of s)
              (NoDup_dkeys_schema_of s) Hk) with
    (opt := opt0) (s := s3) (opt' := opt) (s' := s0) as (v & Hv & Hc).
  - apply (forallb_elem_of _ _ (k, v0) Hvalid). apply dget_elem_of. exact Hk.
  - eauto using extends_trans.
  - exact H0.
  - exact Hfill.
  - exists v. split; [exact Hv|]. rewrite Hlists. exact Hc.
Qed.

(** ** No argument at all *)

Lemma filled_fresh h items : forall acc,
  NoDup (dkeys items) ->
  (forall k, k ∈ dkeys items -> dget k acc = None) ->
  filled h items acc = acc ++ view h items.
Proof.
  induction items as [|[k v] items IH]; intros acc Hnd Hacc; simpl.
  - rewrite app_nil_r. reflexivity.
  - simpl in Hnd. apply NoDup_cons in Hnd as [Hk Hnd].
    unfold dmem. rewrite (Hacc k) by left. simpl.
    rewrite dset_absent by (apply Hacc; left).
    rewrite IH; [rewrite <- app_assoc; reflexivity | exact Hnd |].
    intros k' Hk'.
    rewrite <- dset_absent by (apply Hacc; left).
    rewrite dget_dset_ne; [apply Hacc; right; exact Hk'|].
    intros ->. exact (Hk Hk').
Qed.

(** X15. No argument at all. With a valid schema whose [h] is false,
    a call on an empty command line ([sys.argv] holding the name of the
    script only, or nothing) returns the defaults: the keys of the
    schema in their order, [h] and [print_opt] after them when the
    schema does not define them, each bound to a copy of its default,
    a list default to a new list with the same elements. *)
Theorem empty_command_line_gives_defaults help (tol we : bool) adv
    (s : Store) :
  tokens_of s = [] ->
  valid_schema s = true ->
  falsy (lists s) (getitem (schema_of s) "h") = true ->
  exists opt s1,
    command_line_options help tol we adv s = (Ok opt, s1)
    /\ view (lists s1) opt = view (lists s) (schema_of s)
    /\ new_lists s s1 opt.
Proof.
  intros Htok Hvalid Hhelp.
  assert (Hmain : main_tokens s = []).
  { unfold main_tokens. rewrite Htok. reflexivity. }
  assert (Hopts : options_of s = []).
  { unfold options_of. rewrite Hmain. reflexivity. }
  destruct (call_clean help tol we adv s Hvalid)
    as (opt & s1 & Hcall & _ & Hnew & Hview).
  - unfold no_unknown_keys. rewrite Hopts. reflexivity.
  - unfold no_missing_argument. rewrite Hopts. reflexivity.
  - unfold values_cast. rewrite Hopts. reflexivity.
  - unfold no_extra_tokens. rewrite Hopts, Htok. reflexivity.
  - unfold help_not_set. rewrite Hopts, Hhelp. reflexivity.
  - exists opt, s1. split; [exact Hcall|]. split; [|exact Hnew].
    rewrite Hview. unfold expected_result. rewrite Hmain. simpl.
    apply (filled_fresh (lists s) (schema_of s) []).
    + apply NoDup_dkeys_schema_of.
    + reflexivity.
Qed.

(** * The options of the call, one at a time *)

(** ** The call up to the main pass *)

Lemma positionals_fit_main_tokens (tol : bool) s :
  positionals_fit s = true ->
  exists pos,
    find_positionals (schema_of s) (tokens_of s)
      (opt_key_indices (tokens_of s)) = Ok pos
    /\ (match pos with
        | Some (_, from_here, up_to) =>
            insert_positionals (schema_of s) tol (positional_keys_obj s)
              (tokens_of s) from_here up_to
        | None => ret (tokens_of s)
        end) (entered s) = (Ok (main_tokens s), entered s).
Proof.
  unfold positionals_fit. intros H.
  apply andb_true_iff in H as [Hsides Hcount].
  apply negb_true_iff in Hcount.
  destruct (find_positionals_clean _ _ Hsides) as (pos & Hpos & Hregion).
  exists pos. split; [exact Hpos|].
  unfold main_tokens, explicit_arglist.
  unfold positional_tokens in Hcount. rewrite Hregion in *.
  destruct pos as [[[tag from_here] up_to]|].
  - apply insert_positionals_enough; [|exact Hcount].
    eapply positional_region_le. exact Hregion.
  - reflexivity.
Qed.

Lemma parse_main_pass (tol we : bool) s :
  valid_schema s = true ->
  positionals_fit s = true ->
  parse_command_line tol we s
  = (let* opt :=
       main_loop (schema_of s) (synonyms_of s) tol (tolerated_regexp_obj s)
         we (main_tokens s) None (opt_key_indices (main_tokens s)) [] in
     fill_defaults (schema_of s) opt) (entered s).
Proof.
  intros Hvalid Hfit.
  rewrite (parse_command_line_validated _ _ _ Hvalid). cbv zeta.
  destruct (positionals_fit_main_tokens tol s Hfit) as (pos & Hpos & Hal).
  rewrite Hpos, bind_lift_ok. erewrite bind_ok by exact Hal.
  rewrite bind_gets. reflexivity.
Qed.

(** ** The main pass up to an option *)

Lemma occurrences_cons_inv syn al previous indices o Q :
  occurrences syn al previous indices = o :: Q ->
  exists i rest,
    indices = i :: rest
    /\ o = mkOccurrence previous i (resolve_key syn (al !!! i)) (head rest)
    /\ occurrences syn al (Some (i, resolve_key syn (al !!! i))) rest = Q.
Proof.
  destruct indices as [|i rest]; simpl; [discriminate|].
  intros [= <- <-]. eauto.
Qed.

Lemma occurrences_nil_inv syn al previous indices :
  occurrences syn al previous indices = [] -> indices = [].
Proof. destruct indices; simpl; [reflexivity | discriminate]. Qed.

Lemma check_gap_tolerated d al previous i k next_ki s :
  let o := mkOccurrence previous i k next_ki in
  gap_before d al o = true ->
  check_gap d true al previous i s
  = (Ok tt, add_warning (IgnoringExtraArgument (gap_tokens al o)) s).
Proof.
  intros o H. unfold gap_before in H. unfold gap_tokens. subst o.
  cbn [occ_previous occ_index] in *.
  destruct previous as [[previous_ki previous_key]|]; [|discriminate H].
  apply andb_true_iff in H as [Hlt Ht].
  apply Nat.ltb_lt, consumed_end_lt in Hlt.
  apply negb_true_iff, pytype_eqb_neq in Ht.
  rewrite (check_gap_extra _ _ _ _ _ _ _ Ht Hlt). reflexivity.
Qed.

Lemma check_gap_passes d (tol : bool) al previous i k next_ki s :
  let o := mkOccurrence previous i k next_ki in
  tol = true \/ gap_before d al o = false ->
  exists s',
    check_gap d tol al previous i s = (Ok tt, s')
    /\ extends s s' /\ lists s' = lists s
    /\ warned s' = warned s ++ gap_warnings d al [o]
    /\ written s' = written s.
Proof.
  intros o H. unfold gap_warnings. cbn [flat_map].
  destruct (gap_before d al o) eqn:E.
  - destruct H as [-> | H]; [|discriminate H].
    eexists. split; [apply check_gap_tolerated; exact E|].
    split; [apply preserving_warn|].
    split; [reflexivity|]. split; [|reflexivity].
    rewrite app_nil_r. reflexivity.
  - exists s. split; [eapply check_gap_none; exact E|].
    split; [apply extends_refl|]. split; [reflexivity|].
    split; [|reflexivity]. simpl. rewrite app_nil_r. reflexivity.
Qed.

Lemma gap_warnings_cons d al o occs :
  gap_warnings d al (o :: occs)
  = gap_warnings d al [o] ++ gap_warnings d al occs.
Proof.
  unfold gap_warnings. cbn [flat_map]. rewrite app_nil_r. reflexivity.
Qed.

Lemma gap_warnings_none d al occs :
  forallb (fun o => negb (gap_before d al o)) occs = true ->
  gap_warnings d al occs = [].
Proof.
  induction occs as [|o occs IH]; [reflexivity|]. cbn [forallb].
  intros H. apply andb_true_iff in H as [Ho H].
  apply negb_true_iff in Ho.
  unfold gap_warnings in *. cbn [flat_map]. rewrite Ho, (IH H). reflexivity.
Qed.

Lemma main_loop_prefix d syn (tol : bool) regs (we : bool) al s0 :
  (forall k v, dget k d = Some v -> accepted_option_type (type_of v) = true) ->
  forall P indices lo previous opt s Q,
    chain (length al) lo indices ->
    occurrences syn al previous indices = P ++ Q ->
    forallb (readable d al) P = true ->
    tol = true \/ forallb (fun o => negb (gap_before d al o)) P = true ->
    extends s0 s ->
    new_lists s0 s opt ->
    exists previous' indices' lo' opt' s',
      main_loop d syn tol regs we al previous indices opt s
      = main_loop d syn tol regs we al previous' indices' opt' s'
      /\ occurrences syn al previous' indices' = Q
      /\ chain (length al) lo' indices'
      /\ indices = take (length P) indices ++ indices'
      /\ extends s s'
      /\ new_lists s0 s' opt'
      /\ (Q = [] ->
          view (lists s') opt'
          = parsed_options d syn al indices (view (lists s) opt))
      /\ warned s' = warned s ++ gap_warnings d al P
      /\ written s' = written s.
Proof.
  intros Hd. induction P as [|o P IH];
    intros indices lo previous opt s Q Hchain Hocc Hread Hgap Hext Hnew.
  - exists previous, indices, lo, opt, s.
    split; [reflexivity|]. split; [exact Hocc|]. split; [exact Hchain|].
    split; [reflexivity|]. split; [apply extends_refl|].
    split; [exact Hnew|].
    split.
    { intros ->. simpl in Hocc. apply occurrences_nil_inv in Hocc.
      subst indices. reflexivity. }
    split; [|reflexivity]. simpl. rewrite app_nil_r. reflexivity.
  - change ((o :: P) ++ Q) with (o :: (P ++ Q)) in Hocc.
    apply occurrences_cons_inv in Hocc as (i & rest & -> & Ho & Hocc).
    cbn [forallb] in Hread.
    apply andb_true_iff in Hread as [Hr1 Hread].
    unfold readable in Hr1.
    apply andb_true_iff in Hr1 as [Hr1 Hc1].
    apply andb_true_iff in Hr1 as [Hk1 Hg1].
    pose proof (chain_head _ _ _ _ Hchain) as [Hi Hnext].
    destruct (lookup_lt_is_Some_2 al i Hi) as [bit Hbit].
    rewrite (list_lookup_total_correct _ _ _ Hbit) in *.
    set (k := resolve_key syn bit) in *.
    assert (accepted_option_type (type_of (getitem d k)) = true) as Hacc.
    { rewrite Ho in Hk1. unfold known_key, dmem in Hk1. simpl in Hk1.
      destruct (dget k d) as [v0|] eqn:E; [|discriminate Hk1].
      rewrite (getitem_dget _ _ _ E). eapply Hd. exact E. }
    assert (tol = true \/ gap_before d al o = false) as Hgo.
    { destruct Hgap as [Hgap|Hgap]; [left; exact Hgap|]. right.
      cbn [forallb] in Hgap. apply andb_true_iff in Hgap as [Hgap _].
      apply negb_true_iff in Hgap. exact Hgap. }
    assert (tol = true
            \/ forallb (fun o => negb (gap_before d al o)) P = true) as Hgap'.
    { destruct Hgap as [Hgap|Hgap]; [left; exact Hgap|]. right.
      cbn [forallb] in Hgap. apply andb_true_iff in Hgap as [_ Hgap].
      exact Hgap. }
    rewrite Ho in Hgo, Hk1, Hg1, Hc1.
    destruct (check_gap_passes d tol al previous i k (head rest) s Hgo)
      as (sg & Hcheck & Hextg & Hlg & Hwg & Hwrg).
    destruct (read_option_clean d syn tol regs we al previous i (head rest)
                bit sg Hbit Hnext Hacc Hk1 Hg1 Hc1)
      as (v & s1 & Hstep & Hext1 & Hcontent & Hfresh & Hw1 & Hwr1).
    assert (extends s s1) as Hext01
      by (eapply extends_trans; eassumption).
    destruct Hchain as [_ Hchain].
    destruct (IH rest (S i) (Some (i, k)) (dset k v opt) s1 Q Hchain Hocc
                Hread Hgap')
      as (previous' & indices' & lo' & opt' & s' & Hmain & Hocc' & Hchain'
          & Hsplit & Hext' & Hnew' & Hview & Hw & Hwr).
    + eapply extends_trans; eassumption.
    + apply new_lists_dset.
      * eapply new_lists_extends; eassumption.
      * intros l Hl. destruct (Hfresh l Hl) as [Hnone Hsome].
        split; [|exact Hsome]. rewrite Hlg in Hnone.
        eapply extends_unused; eassumption.
    + exists previous', indices', lo', opt', s'. split.
      { cbn [main_loop]. unfold bind at 1. rewrite Hcheck.
        unfold bind at 1. rewrite Hstep. cbn [fst snd]. exact Hmain. }
      split; [exact Hocc'|]. split; [exact Hchain'|].
      split; [cbn [length take app]; f_equal; exact Hsplit|].
      split; [eapply extends_trans; eassumption|].
      split; [exact Hnew'|].
      split.
      { intros HQ. rewrite (Hview HQ), view_dset, Hcontent.
        rewrite (view_new_lists _ _ _ _ Hnew Hext01).
        cbn [parsed_options].
        rewrite (list_lookup_total_correct _ _ _ Hbit). reflexivity. }
      split.
      { rewrite Hw, Hw1, Hwg, Ho, (gap_warnings_cons d al _ P).
        rewrite app_assoc. reflexivity. }
      congruence.
Qed.

Lemma occurrences_split syn al : forall P indices previous o Q,
  occurrences syn al previous indices = P ++ o :: Q ->
  exists ipre rest,
    indices = ipre ++ occ_index o :: rest
    /\ length ipre = length P
    /\ occ_next o = head rest
    /\ occ_key o = resolve_key syn (al !!! occ_index o)
    /\ occ_previous o
       = match last P with
         | Some p => Some (occ_index p, occ_key p)
         | None => previous
         end
    /\ (forall p, last P = Some p -> occ_next p = Some (occ_index o)).
Proof.
  induction P as [|p P IH]; intros indices previous o Q Hocc.
  - apply occurrences_cons_inv in Hocc as (i & rest & -> & -> & _).
    exists [], rest. simpl. repeat split; try reflexivity. discriminate.
  - change ((p :: P) ++ o :: Q) with (p :: (P ++ o :: Q)) in Hocc.
    apply occurrences_cons_inv in Hocc as (i & rest' & -> & Hp & Hocc).
    destruct (IH _ _ _ _ Hocc)
      as (ipre & rest & -> & Hlen & Hnext & Hkey & Hprev & Hlast).
    exists (i :: ipre), rest.
    split; [reflexivity|]. split; [simpl; f_equal; exact Hlen|].
    split; [exact Hnext|]. split; [exact Hkey|].
    destruct P as [|p' P].
    + destruct ipre; [|discriminate Hlen]. simpl in *.
      split; [rewrite Hprev, Hp; reflexivity|].
      intros p0 [= <-]. rewrite Hp. reflexivity.
    + change (last (p :: p' :: P)) with (last (p' :: P)).
      split; [|exact Hlast].
      rewrite Hprev. destruct (last (p' :: P)) eqn:E; [reflexivity|].
      apply last_None in E. discriminate E.
Qed.

(** ** From the main pass to the result of the call *)

Lemma call_main_pass help (tol we : bool) adv s :
  valid_schema s = true ->
  positionals_fit s = true ->
  command_line_options help tol we adv s
  = (let* opt :=
       (let* opt :=
          main_loop (schema_of s) (synonyms_of s) tol (tolerated_regexp_obj s)
            we (main_tokens s) None (opt_key_indices (main_tokens s)) [] in
        fill_defaults (schema_of s) opt) in
     help_and_print help adv opt) (entered s).
Proof.
  intros Hvalid Hfit. unfold command_line_options.
  unfold bind at 1. rewrite (parse_main_pass _ _ _ Hvalid Hfit). reflexivity.
Qed.

Lemma call_up_to help (tol we : bool) adv s P Q :
  valid_schema s = true ->
  positionals_fit s = true ->
  options_of s = P ++ Q ->
  forallb (readable (schema_of s) (main_tokens s)) P = true ->
  tol = true
  \/ forallb (fun o => negb (gap_before (schema_of s) (main_tokens s) o)) P
     = true ->
  exists previous indices lo opt1 s1,
    command_line_options help tol we adv s
    = (let* opt :=
         (let* opt :=
            main_loop (schema_of s) (synonyms_of s) tol
              (tolerated_regexp_obj s) we (main_tokens s) previous indices
              opt1 in
          fill_defaults (schema_of s) opt) in
       help_and_print help adv opt) s1
    /\ occurrences (synonyms_of s) (main_tokens s) previous indices = Q
    /\ chain (length (main_tokens s)) lo indices
    /\ extends (entered s) s1
    /\ new_lists s s1 opt1
    /\ (Q = [] ->
        view (lists s1) opt1
        = parsed_options (schema_of s) (synonyms_of s) (main_tokens s)
            (opt_key_indices (main_tokens s)) [])
    /\ warned s1 = warned s ++ gap_warnings (schema_of s) (main_tokens s) P
    /\ written s1 = written s.
Proof.
  intros Hvalid Hfit Hocc Hread Hgap.
  destruct (main_loop_prefix (schema_of s) (synonyms_of s) tol
              (tolerated_regexp_obj s) we (main_tokens s) (entered s)
              (fun k v => valid_schema_accepted s k v Hvalid)
              P (opt_key_indices (main_tokens s)) 0 None [] (entered s) Q
              (chain_opt_key_indices _) Hocc Hread Hgap (extends_refl _)
              (new_lists_nil _ _))
    as (previous & indices & lo & opt1 & s1 & Hmain & HQ & Hchain & _
        & Hext & Hnew & Hview & Hw & Hwr).
  exists previous, indices, lo, opt1, s1.
  split.
  { rewrite (call_main_pass _ _ _ _ _ Hvalid Hfit). unfold bind.
    rewrite Hmain. reflexivity. }
  split; [exact HQ|]. split; [exact Hchain|]. split; [exact Hext|].
  split; [exact Hnew|]. split; [exact Hview|].
  split; [exact Hw | exact Hwr].
Qed.

Lemma main_loop_raises_at d syn (tol : bool) regs (we : bool) al previous i
    rest opt s sg e s' :
  check_gap d tol al previous i s = (Ok tt, sg) ->
  read_option d syn tol regs we al i (head rest) sg = (Raise e, s') ->
  main_loop d syn tol regs we al previous (i :: rest) opt s = (Raise e, s').
Proof.
  intros Hcheck Hread. cbn [main_loop]. unfold bind at 1. rewrite Hcheck.
  unfold bind at 1. rewrite Hread. reflexivity.
Qed.

Lemma call_raises_in_main_pass help (adv : dict string) d
    (c : M Store (dict value)) s e s' :
  c s = (Raise e, s') ->
  (let* opt := (let* opt := c in fill_defaults d opt) in
   help_and_print help adv opt) s = (Raise e, s').
Proof.
  intros H. apply bind_raise. apply bind_raise. exact H.
Qed.

(** The last block of the call (lines 309-321) when [h] is false: no
    warning is given. *)
Lemma help_and_print_quiet help adv opt vh s :
  dget "h" opt = Some vh ->
  falsy (lists s) vh = true ->
  (forall k l, dget k opt = Some (VList l) -> is_Some (lists s !! l)) ->
  exists s',
    help_and_print help adv opt s = (Ok opt, s')
    /\ extends s s' /\ lists s' = lists s /\ warned s' = warned s.
Proof.
  intros Hoh Hfalse Hvalid.
  assert (exists p, truthy (getitem opt "print_opt") s = (Ok p, s)) as [p Hp].
  { apply truthy_valid. intros l Hl. unfold getitem in Hl.
    destruct (dget "print_opt" opt) as [vp|] eqn:Evp; [|discriminate Hl].
    subst vp. eapply Hvalid. exact Evp. }
  exists (if p then add_output (OutOptions opt) s else s). split.
  - unfold help_and_print.
    rewrite (getitem_dget _ _ _ Hoh).
    erewrite bind_ok by (apply truthy_falsy; exact Hfalse).
    cbv beta iota. rewrite bind_ret.
    erewrite bind_ok by exact Hp.
    rewrite (dget_dmem _ _ _ Hoh).
    destruct p; cbv beta iota.
    + unfold write. rewrite bind_modify.
      erewrite bind_ok
        by (apply (truthy_falsy vh (add_output (OutOptions opt) s));
            exact Hfalse).
      reflexivity.
    + rewrite bind_ret.
      erewrite bind_ok by (apply truthy_falsy; exact Hfalse).
      reflexivity.
  - destruct p; repeat split; try reflexivity;
      try apply preserving_write; apply extends_refl.
Qed.

(** A call whose options are all read, the tokens between an argument
    and the next option being tolerated or absent. *)
Lemma call_tolerant help (tol we : bool) adv s :
  valid_schema s = true ->
  positionals_fit s = true ->
  forallb (readable (schema_of s) (main_tokens s)) (options_of s) = true ->
  tol = true
  \/ forallb (fun o => negb (gap_before (schema_of s) (main_tokens s) o))
       (options_of s) = true ->
  help_not_set s = true ->
  exists opt s1,
    command_line_options help tol we adv s = (Ok opt, s1)
    /\ extends (entered s) s1
    /\ new_lists s s1 opt
    /\ view (lists s1) opt = expected_result s
    /\ warned s1
       = warned s
         ++ gap_warnings (schema_of s) (main_tokens s) (options_of s).
Proof.
  intros Hvalid Hfit Hread Hgap Hhelp.
  destruct (call_up_to help tol we adv s (options_of s) [] Hvalid Hfit
              (eq_sym (app_nil_r _)) Hread Hgap)
    as (previous & indices & lo & opt0 & s0 & Hcall & HQ & _ & Hext0 & Hnew0
        & Hview0 & Hw0 & _).
  apply occurrences_nil_inv in HQ. subst indices.
  specialize (Hview0 eq_refl).
  destruct (fill_defaults_clean (entered s) (schema_of s)
              (valid_schema_defaults _ Hvalid) opt0 s0 Hext0 Hnew0)
    as (opt & s1 & Hfill & Hext1 & Hnew & Hview1 & Hw1 & _).
  assert (Hview : view (lists s1) opt = expected_result s).
  { rewrite Hview1, Hview0. reflexivity. }
  assert (Hext : extends (entered s) s1)
    by (eapply extends_trans; eassumption).
  pose proof (schema_has_h s) as Hh. unfold dmem in Hh.
  destruct (dget "h" (schema_of s)) as [vh|] eqn:Evh; [|discriminate Hh].
  pose proof (dget_expected_default s "h" vh Evh
                (help_not_set_not_given _ Hhelp)) as Heh.
  rewrite <- Hview in Heh.
  apply dget_of_view in Heh as (vh' & Hoh & Hch).
  assert (falsy (lists s1) vh' = true) as Hfalse.
  { unfold help_not_set in Hhelp. apply andb_true_iff in Hhelp as [_ Hf].
    rewrite (getitem_dget _ _ _ Evh) in Hf. rewrite <- Hf.
    apply falsy_content; [exact Hch | |].
    - intros l ->. apply (new_lists_dget _ _ _ _ _ Hnew Hoh).
    - intros l ->. destruct (valid_schema_list _ _ _ Hvalid Evh) as [xs Hxs].
      eauto. }
  destruct (help_and_print_quiet help adv opt vh' s1 Hoh Hfalse)
    as (s1' & Hprint & Hext' & Hlists & Hw').
  { intros k l Hk. apply (new_lists_dget _ _ _ _ _ Hnew Hk). }
  exists opt, s1'. split.
  - rewrite Hcall. erewrite bind_ok; [exact Hprint|].
    erewrite bind_ok; [exact Hfill | reflexivity].
  - split; [eapply extends_trans; eassumption|]. split.
    + eapply new_lists_extends; eassumption.
    + split; [rewrite Hlists; exact Hview|]. congruence.
Qed.

Lemma dget_expected_last s pre o post :
  options_of s = pre ++ o :: post ->
  (forall o', o' ∈ post -> occ_key o' <> occ_key o) ->
  dget (occ_key o) (expected_result s)
  = Some (parsed_value (occ_type (schema_of s) o) (main_tokens s)
            (occ_index o) (occ_next o)).
Proof.
  intros Hocc Hlast. unfold expected_result. apply dget_filled_kept.
  eapply dget_parsed_options_last; eassumption.
Qed.

(** ** An option of the call *)

Lemma option_located s pre o post :
  options_of s = pre ++ o :: post ->
  exists ipre rest bit,
    opt_key_indices (main_tokens s) = ipre ++ occ_index o :: rest
    /\ occ_next o = head rest
    /\ main_tokens s !! occ_index o = Some bit
    /\ is_option_key bit = true
    /\ occ_key o = resolve_key (synonyms_of s) bit
    /\ occ_previous o
       = match last pre with
         | Some p => Some (occ_index p, occ_key p)
         | None => None
         end
    /\ (forall p, last pre = Some p -> occ_next p = Some (occ_index o)).
Proof.
  unfold options_of. intros Hocc.
  destruct (occurrences_split _ _ _ _ _ _ _ Hocc)
    as (ipre & rest & Hidx & _ & Hnext & Hkey & Hprev & Hlast).
  assert (occ_index o ∈ opt_key_indices (main_tokens s)) as Hin.
  { rewrite Hidx. apply elem_of_app. right. left. }
  apply opt_key_indices_spec in Hin as (bit & Hbit & Hk).
  exists ipre, rest, bit. split; [exact Hidx|]. split; [exact Hnext|].
  split; [exact Hbit|]. split; [exact Hk|].
  split; [|split; [exact Hprev | exact Hlast]].
  rewrite Hkey, (list_lookup_total_correct _ _ _ Hbit). reflexivity.
Qed.

Lemma forallb_around {A} (f : A -> bool) pre x post :
  forallb f pre = true -> f x = true -> forallb f post = true ->
  forallb f (pre ++ x :: post) = true.
Proof.
  intros Hpre Hx Hpost. rewrite forallb_app. cbn [forallb].
  rewrite Hpre, Hx, Hpost. reflexivity.
Qed.

(** The value that the call binds to the key of an option, when every
    option is read and no option after it has the same key. *)
Lemma value_of_last_occurrence help (tol we : bool) adv s pre o post :
  valid_schema s = true ->
  positionals_fit s = true ->
  options_of s = pre ++ o :: post ->
  forallb (readable (schema_of s) (main_tokens s)) (options_of s) = true ->
  tol = true
  \/ forallb (fun o => negb (gap_before (schema_of s) (main_tokens s) o))
       (options_of s) = true ->
  help_not_set s = true ->
  (forall o', o' ∈ post -> occ_key o' <> occ_key o) ->
  exists opt s1 v,
    command_line_options help tol we adv s = (Ok opt, s1)
    /\ view (lists s1) opt = expected_result s
    /\ new_lists s s1 opt
    /\ dget (occ_key o) opt = Some v
    /\ content_of (lists s1) v
       = parsed_value (occ_type (schema_of s) o) (main_tokens s)
           (occ_index o) (occ_next o)
    /\ warned s1
       = warned s
         ++ gap_warnings (schema_of s) (main_tokens s) (options_of s).
Proof.
  intros Hvalid Hfit Hocc Hread Hgap Hhelp Hlast.
  destruct (call_tolerant help tol we adv s Hvalid Hfit Hread Hgap Hhelp)
    as (opt & s1 & Hcall & _ & Hnew & Hview & Hw).
  pose proof (dget_expected_last s pre o post Hocc Hlast) as He.
  rewrite <- Hview in He. apply dget_of_view in He as (v & Hv & Hc).
  exists opt, s1, v. auto 10.
Qed.

(** Without positional arguments the main pass reads the command line
    as it is typed. *)
Lemma main_tokens_without_positionals s :
  positional_tokens (schema_of s) (tokens_of s) = [] ->
  main_tokens s = tokens_of s.
Proof.
  unfold positional_tokens, main_tokens, explicit_arglist.
  destruct (positional_region (schema_of s) (tokens_of s))
    as [[from_here up_to]|]; [|reflexivity].
  intros ->. destruct (positional_keys_obj s); simpl;
    rewrite drop_0; apply take_drop.
Qed.

(** C4 (amended). The token sequence is the one that the main pass
    reads, [main_tokens]: the command line with the positional keys made
    explicit (lines 216-236). For an option of that sequence whose key
    resolves to a boolean key [k] of the schema, the options before it
    being read without error and no token lying between two of them:
    when it is followed by another option key or by the end of the
    sequence, or by the token "1", the call binds [k] to True, and when
    it is followed by "0" to False (the options after it being read as
    well, none of them resolving to [k], and the help flag not being
    set); when it is followed by any other token, the call raises the
    type error of line 293. For a key of type int, float or str, an
    option with no argument after it makes the call raise the error of
    line 282. Nothing is warned or written before these errors. On a
    command line without positional arguments the sequence is the
    command line as it is typed. *)
Theorem boolean_and_missing_arguments help (tol we : bool) adv (s : Store)
    pre o post :
  valid_schema s = true ->
  positionals_fit s = true ->
  options_of s = pre ++ o :: post ->
  forallb (readable (schema_of s) (main_tokens s)) pre = true ->
  forallb (fun o' => negb (gap_before (schema_of s) (main_tokens s) o'))
          (pre ++ [o]) = true ->
  let al := main_tokens s in
  let next := al !! (occ_index o + 1) in
  let alone :=
    next = None \/ exists b, next = Some b /\ is_option_key b = true in
  let rest_is_read :=
    forallb (readable (schema_of s) al) post = true
    /\ forallb (fun o' => negb (gap_before (schema_of s) al o')) post = true
    /\ (forall o', o' ∈ post -> occ_key o' <> occ_key o)
    /\ help_not_set s = true in
  (forall b0, dget (occ_key o) (schema_of s) = Some (VBool b0) ->
     (alone \/ next = Some "1" -> rest_is_read ->
      exists opt s1,
        command_line_options help tol we adv s = (Ok opt, s1)
        /\ dget (occ_key o) opt = Some (VBool true))
     /\ (next = Some "0" -> rest_is_read ->
         exists opt s1,
           command_line_options help tol we adv s = (Ok opt, s1)
           /\ dget (occ_key o) opt = Some (VBool false))
     /\ (forall a, next = Some a -> is_option_key a = false ->
                   a <> "1" -> a <> "0" ->
         exists s1,
           command_line_options help tol we adv s
           = (Raise (CommandLineError (BadBoolean (occ_key o) a)), s1)
           /\ warned s1 = warned s /\ written s1 = written s))
  /\ (forall v, dget (occ_key o) (schema_of s) = Some v ->
        type_of v = TInt \/ type_of v = TFloat \/ type_of v = TStr ->
        alone ->
        exists s1,
          command_line_options help tol we adv s
          = (Raise (CommandLineError (NoArgument (type_of v) (occ_key o))),
             s1)
          /\ warned s1 = warned s /\ written s1 = written s)
  /\ (positional_tokens (schema_of s) (tokens_of s) = [] ->
      al = tokens_of s).
Proof.
  intros Hvalid Hfit Hocc Hread Hgap al next alone rest_is_read.
  destruct (option_located s pre o post Hocc)
    as (ipre & rest & bit & Hidx & Hnext & Hbit & _ & Hkey & _ & _).
  fold al in Hidx, Hbit.
  pose proof (no_argument_spec _ _ _ _ Hidx) as Hno.
  rewrite <- Hnext in Hno. fold next in Hno.
  rewrite forallb_app in Hgap. cbn [forallb] in Hgap.
  apply andb_true_iff in Hgap as [Hgap_pre Hgap_o].
  rewrite andb_true_r in Hgap_o.
  (* what the call does when reading the option raises *)
  assert (Hraise : forall e,
            (forall s1, read_option (schema_of s) (synonyms_of s) tol
                          (tolerated_regexp_obj s) we al (occ_index o)
                          (occ_next o) s1
                        = (Raise e, s1)) ->
            exists s1,
              command_line_options help tol we adv s = (Raise e, s1)
              /\ warned s1 = warned s /\ written s1 = written s).
  { intros e He.
    destruct (call_up_to help tol we adv s pre (o :: post) Hvalid Hfit Hocc
                Hread (or_intror Hgap_pre))
      as (previous & indices & lo & opt1 & s1 & Hcall & HQ & _ & _ & _ & _
          & Hw & Hwr).
    apply occurrences_cons_inv in HQ as (i & rest' & -> & Ho & _).
    exists s1. split; [|split; [|exact Hwr]].
    - rewrite Hcall. apply call_raises_in_main_pass.
      apply negb_true_iff in Hgap_o. rewrite Ho in Hgap_o.
      eapply main_loop_raises_at.
      + eapply check_gap_none. exact Hgap_o.
      + specialize (He s1). rewrite Ho in He. exact He.
    - rewrite Hw, (gap_warnings_none _ _ _ Hgap_pre), app_nil_r.
      reflexivity. }
  (* the value of the option when the call returns *)
  assert (Hvalue : forall b0,
            dget (occ_key o) (schema_of s) = Some (VBool b0) ->
            rest_is_read ->
            argument_casts (schema_of s) al o = true ->
            exists opt s1 v,
              command_line_options help tol we adv s = (Ok opt, s1)
              /\ dget (occ_key o) opt = Some v
              /\ content_of (lists s1) v
                 = parsed_value TBool al (occ_index o) (occ_next o)).
  { intros b0 Hk (Hread_post & Hgap_post & Hlast & Hhelp) Hcasts.
    assert (readable (schema_of s) al o = true) as Hro.
    { unfold readable, known_key, argument_given, occ_type.
      rewrite (dget_dmem _ _ _ Hk), (getitem_dget _ _ _ Hk), Hcasts.
      reflexivity. }
    destruct (value_of_last_occurrence help tol we adv s pre o post Hvalid
                Hfit Hocc)
      as (opt & s1 & v & Hcall & _ & _ & Hv & Hc & _).
    - rewrite Hocc. apply forallb_around; assumption.
    - right. rewrite Hocc. apply forallb_around; assumption.
    - exact Hhelp.
    - exact Hlast.
    - exists opt, s1, v. split; [exact Hcall|]. split; [exact Hv|].
      rewrite Hc. unfold occ_type. rewrite (getitem_dget _ _ _ Hk).
      reflexivity. }
  split.
  - intros b0 Hk. split; [|split].
    + intros Hcase Hrest.
      destruct (Hvalue b0 Hk Hrest) as (opt & s1 & v & Hcall & Hv & Hc).
      { unfold argument_casts, occ_type. rewrite (getitem_dget _ _ _ Hk).
        destruct (no_argument al (occ_index o) (occ_next o)); [reflexivity|].
        fold next. destruct Hcase as [[Hn|(b & Hb & Hkb)]|H1].
        - rewrite Hn. reflexivity.
        - rewrite Hno, Hb in *. congruence.
        - rewrite H1. reflexivity. }
      exists opt, s1. split; [exact Hcall|]. rewrite Hv. f_equal.
      apply (content_of_scalar (lists s1) (VBool true)); [reflexivity|].
      rewrite Hc. unfold parsed_value. rewrite Hno. fold next.
      destruct Hcase as [[Hn|(b & Hb & Hkb)]|H1].
      * rewrite Hn. reflexivity.
      * rewrite Hb, Hkb. reflexivity.
      * rewrite H1. reflexivity.
    + intros H0 Hrest.
      destruct (Hvalue b0 Hk Hrest) as (opt & s1 & v & Hcall & Hv & Hc).
      { unfold argument_casts, occ_type. rewrite (getitem_dget _ _ _ Hk).
        destruct (no_argument al (occ_index o) (occ_next o)); [reflexivity|].
        fold next. rewrite H0. reflexivity. }
      exists opt, s1. split; [exact Hcall|]. rewrite Hv. f_equal.
      apply (content_of_scalar (lists s1) (VBool false)); [reflexivity|].
      rewrite Hc. unfold parsed_value. rewrite Hno. fold next.
      rewrite H0. reflexivity.
    + intros a Ha Hka H1 H0. apply Hraise. intros s1.
      rewrite Hnext.
      destruct (boolean_option_read (schema_of s) (synonyms_of s) tol
                  (tolerated_regexp_obj s) we al ipre (occ_index o) rest bit
                  (occ_key o) s1 Hidx Hbit (eq_sym Hkey)) as [Hb _].
      destruct (Hb b0 Hk) as (_ & _ & _ & Hbad).
      apply Hbad; assumption.
  - split; [|apply main_tokens_without_positionals].
    intros v Hk Ht Halone. apply Hraise. intros s1. rewrite Hnext.
    destruct (boolean_option_read (schema_of s) (synonyms_of s) tol
                (tolerated_regexp_obj s) we al ipre (occ_index o) rest bit
                (occ_key o) s1 Hidx Hbit (eq_sym Hkey)) as [_ Hmissing].
    apply (Hmissing v Hk Ht). exact Halone.
Qed.



Lemma elem_of_slice {A} (l : list A) a b x :
  b <= length l ->
  x ∈ slice l a (Some b) -> exists j, a <= j < b /\ l !! j = Some x.
Proof.
  intros Hb Hx. apply list_elem_of_lookup in Hx as [n Hn].
  pose proof (lookup_lt_Some _ _ _ Hn) as Hlt.
  rewrite slice_length in Hlt by exact Hb.
  exists (a + n). split; [lia|].
  rewrite <- (slice_lookup l a b (a + n)) by lia.
  replace (a + n - a) with n by lia. exact Hn.
Qed.

(** C8 (amended). The token sequence is the one that the main pass
    reads, [main_tokens]. The tokens that an option whose type is not
    list consumes are its key and, unless the next option key or the end
    follows it immediately, the token after it, which is read as its
    argument. When the options before the option [o] are read without
    error and tokens lie between what the previous option consumes and
    [o]: the previous option has its argument, which for a boolean key is
    "0" or "1" (any other token has raised the error of line 293 when
    the previous option was read, tolerated or not); the tokens in
    between, from the second token after the previous option key on, are
    not option keys; without [tolerate_extra] the call raises "extra
    argument not accepted" for them; with it the call gives a warning
    that names them and goes on: when [o] and the options after it are
    read without error and the help flag is not set, the call returns
    what it returns when no such token is there to read. A boolean whose
    argument is omitted is followed by an option key, and no token lies
    after it. *)
Theorem tokens_between_options help (tol we : bool) adv (s : Store)
    pre o post :
  valid_schema s = true ->
  positionals_fit s = true ->
  options_of s = pre ++ o :: post ->
  forallb (readable (schema_of s) (main_tokens s)) pre = true ->
  tol = true
  \/ forallb (fun o' => negb (gap_before (schema_of s) (main_tokens s) o'))
       pre = true ->
  gap_before (schema_of s) (main_tokens s) o = true ->
  let al := main_tokens s in
  let gap := gap_tokens al o in
  (exists previous_ki previous_key a,
     occ_previous o = Some (previous_ki, previous_key)
     /\ type_of (getitem (schema_of s) previous_key) <> TList
     /\ previous_ki + 2 < occ_index o
     /\ al !! (previous_ki + 1) = Some a
     /\ is_option_key a = false
     /\ (type_of (getitem (schema_of s) previous_key) = TBool ->
         a = "0" \/ a = "1")
     /\ gap = slice al (previous_ki + 2) (Some (occ_index o))
     /\ length gap = occ_index o - (previous_ki + 2)
     /\ 0 < length gap
     /\ (forall t, t ∈ gap -> is_option_key t = false))
  /\ (tol = false ->
      exists s1,
        command_line_options help tol we adv s
        = (Raise (CommandLineError (ExtraArgument gap)), s1)
        /\ warned s1 = warned s /\ written s1 = written s)
  /\ (tol = true ->
      forallb (readable (schema_of s) al) (o :: post) = true ->
      help_not_set s = true ->
      exists opt s1,
        command_line_options help tol we adv s = (Ok opt, s1)
        /\ view (lists s1) opt = expected_result s
        /\ warned s1
           = warned s ++ gap_warnings (schema_of s) al (options_of s)
        /\ IgnoringExtraArgument gap
           ∈ gap_warnings (schema_of s) al (options_of s)).
Proof.
  intros Hvalid Hfit Hocc Hread Hgap Ho al gap.
  destruct (option_located s pre o post Hocc)
    as (ipre & rest & bit & Hidx & Hnext & Hbit & _ & Hkey & Hprev & Hlastp).
  fold al in Hidx, Hbit.
  pose proof (lookup_lt_Some _ _ _ Hbit) as Hi.
  pose proof Ho as Ho'. unfold gap_before in Ho'.
  destruct (occ_previous o) as [[previous_ki previous_key]|] eqn:Eprev;
    [|discriminate Ho'].
  apply andb_true_iff in Ho' as [Hlt Ht].
  apply Nat.ltb_lt, consumed_end_lt in Hlt.
  apply negb_true_iff, pytype_eqb_neq in Ht.
  assert (Hgap_eq : gap = slice al (previous_ki + 2) (Some (occ_index o))).
  { unfold gap, gap_tokens. rewrite Eprev. reflexivity. }
  split; [|split].
  - (* the previous option and the tokens in between *)
    destruct (last pre) as [p|] eqn:Elast; [|discriminate Hprev].
    injection Hprev as -> ->.
    specialize (Hlastp p eq_refl).
    apply last_Some in Elast as [pre' ->].
    rewrite <- app_assoc in Hocc. cbn [app] in Hocc.
    destruct (option_located s pre' p (o :: post) Hocc)
      as (ipre_p & rest_p & bit_p & Hidx_p & Hnext_p & _).
    fold al in Hidx_p.
    pose proof (next_option_key _ _ _ _ Hidx_p) as Hbetween.
    rewrite <- Hnext_p, Hlastp in Hbetween.
    destruct Hbetween as (_ & _ & Hbetween).
    destruct (lookup_lt_is_Some_2 al (occ_index p + 1)) as [a Ha]; [lia|].
    exists (occ_index p), (occ_key p), a.
    split; [reflexivity|]. split; [exact Ht|]. split; [exact Hlt|].
    split; [exact Ha|].
    split; [apply (Hbetween (occ_index p + 1)); [lia | exact Ha]|].
    split.
    { intros Hbool. rewrite forallb_app in Hread. cbn [forallb] in Hread.
      apply andb_true_iff in Hread as [_ Hp].
      rewrite andb_true_r in Hp. unfold readable in Hp.
      apply andb_true_iff in Hp as [_ Hp].
      unfold argument_casts, occ_type in Hp. fold al in Hp.
      rewrite Hlastp, Hbool, Ha in Hp. unfold no_argument in Hp.
      assert ((occ_index o =? occ_index p + 1) = false) as E
        by (apply Nat.eqb_neq; lia).
      rewrite E in Hp. apply orb_true_iff in Hp as [Hp|Hp];
        apply String.eqb_eq in Hp; auto. }
    split; [exact Hgap_eq|].
    assert (length gap = occ_index o - (occ_index p + 2)) as Hlen.
    { rewrite Hgap_eq. apply slice_length. lia. }
    split; [exact Hlen|]. split; [lia|].
    intros t Hin. rewrite Hgap_eq in Hin.
    apply elem_of_slice in Hin as (j & Hj & Hjt); [|lia].
    apply (Hbetween j); [lia | exact Hjt].
  - (* without tolerance *)
    intros ->. destruct Hgap as [Hgap|Hgap]; [discriminate Hgap|].
    destruct (call_up_to help false we adv s pre (o :: post) Hvalid Hfit
                Hocc Hread (or_intror Hgap))
      as (previous & indices & lo & opt1 & s1 & Hcall & HQ & _ & _ & _ & _
          & Hw & Hwr).
    apply occurrences_cons_inv in HQ as (i & rest' & -> & Hoeq & _).
    exists s1. split; [|split; [|exact Hwr]].
    + rewrite Hcall. apply call_raises_in_main_pass.
      rewrite Hoeq in Eprev. cbn [occ_previous] in Eprev. subst previous.
      cbn [main_loop]. unfold bind at 1.
      assert (i = occ_index o) as -> by (rewrite Hoeq; reflexivity).
      rewrite (check_gap_extra _ _ _ _ _ _ _ Ht Hlt), Hgap_eq.
      reflexivity.
    + rewrite Hw, (gap_warnings_none _ _ _ Hgap), app_nil_r. reflexivity.
  - (* with tolerance *)
    intros -> Hrest Hhelp.
    destruct (call_tolerant help true we adv s Hvalid Hfit)
      as (opt & s1 & Hcall & _ & _ & Hview & Hw).
    + rewrite Hocc, forallb_app, Hread. exact Hrest.
    + left. reflexivity.
    + exact Hhelp.
    + exists opt, s1. split; [exact Hcall|]. split; [exact Hview|].
      split; [exact Hw|].
      rewrite Hocc. unfold gap_warnings. rewrite flat_map_app.
      apply elem_of_app. right. cbn [flat_map]. subst gap al. rewrite Ho.
      apply elem_of_app. left. left.
Qed.
End Theory.

(** * Properties of the other functions *)

Section OtherTheory.
Context `{rt : PyRuntime} `{txt : !PyText}.

(** ** [match_any_word] *)

Lemma append_cons a (s t : string) : String a s +:+ t = String a (s +:+ t).
Proof. reflexivity. Qed.

Lemma append_nil_l (s : string) : "" +:+ s = s.
Proof. reflexivity. Qed.

Lemma startswith_spec w : forall s,
  startswith w s = true <-> exists c, s = w +:+ c.
Proof.
  induction w as [|a w IH]; intros s; simpl.
  - split; [|reflexivity]. intros _. exists s. reflexivity.
  - destruct s as [|b s].
    + split; [discriminate|]. intros [c Hc]. rewrite append_cons in Hc.
      discriminate Hc.
    + rewrite andb_true_iff, IH, Ascii.eqb_eq. split.
      * intros [-> [c ->]]. exists c. reflexivity.
      * intros [c Hc]. rewrite append_cons in Hc. injection Hc as -> ->.
        eauto.
Qed.

Lemma contains_spec w : forall s,
  contains w s = true <-> exists a c, s = a +:+ w +:+ c.
Proof.
  induction s as [|b s IH]; simpl.
  - rewrite orb_false_r, startswith_spec. split.
    + intros [c Hc]. exists "", c. exact Hc.
    + intros (a & c & Hc). destruct a as [|x a];
        [eauto | rewrite append_cons in Hc; discriminate Hc].
  - rewrite orb_true_iff, startswith_spec, IH. split.
    + intros [[c Hc]|(a & c & ->)].
      * exists "", c. exact Hc.
      * exists (String b a), c. reflexivity.
    + intros (a & c & Hc). destruct a as [|x a].
      * left. eauto.
      * right. rewrite append_cons in Hc. injection Hc as _ ->. eauto.
Qed.

(** X16. [match_any_word] on words that are not patterns
    ([is_pattern=False]) returns, and returns [True] exactly when some
    word of the list occurs in [main_string], both taken in lower case
    under [ignore_case]. An empty list gives [False]; an empty word
    occurs in every string. *)
Theorem match_any_word_substrings (main_string : string)
    (word_list : list string) (ignore_case : bool) :
  let fold := if ignore_case then str_lower else (fun s : string => s) in
  exists b,
    match_any_word_full main_string word_list false ignore_case = Returned b
    /\ (b = true <->
        exists w a c,
          w ∈ word_list /\ fold main_string = a +:+ fold w +:+ c).
Proof.
  intros fold.
  assert (Hstep : forall w rest,
            match_any_word_full main_string (w :: rest) false ignore_case
            = if contains (fold w) (fold main_string)
              then Returned true
              else match_any_word_full main_string rest false ignore_case).
  { intros w rest. unfold fold. simpl. destruct ignore_case; reflexivity. }
  induction word_list as [|w rest IH].
  - exists false. split; [reflexivity|]. split; [discriminate|].
    intros (w & a & c & Hin & _). inversion Hin.
  - rewrite Hstep. destruct (contains (fold w) (fold main_string)) eqn:E.
    + exists true. split; [reflexivity|]. split; [|reflexivity]. intros _.
      apply contains_spec in E as (a & c & E). exists w, a, c.
      split; [left | exact E].
    + destruct IH as (b & Hb & Hiff). exists b. split; [exact Hb|].
      rewrite Hiff. split.
      * intros (w' & a & c & Hin & Heq). exists w', a, c.
        split; [right; exact Hin | exact Heq].
      * intros (w' & a & c & Hin & Heq).
        apply elem_of_cons in Hin as [->|Hin]; [|eauto 6].
        assert (contains (fold w) (fold main_string) = true) as Ht
          by (apply contains_spec; eauto).
        rewrite Ht in E. discriminate E.
Qed.

(** X17. [match_any_word] on patterns ([is_pattern=True]). When every
    word compiles, it returns what the search over the compiled patterns
    gives, as [command_line_options] relies on. It returns [True] at the
    first pattern that matches, without compiling the words after it;
    and the first word that does not compile, if no pattern before it
    matches, ends the call with its error. *)
Theorem match_any_word_patterns (main_string : string)
    (word_list : list string) (ignore_case : bool) :
  (forall patterns,
     mapM (re_compile ignore_case) word_list = Some patterns ->
     match_any_word_full main_string word_list true ignore_case
     = Returned (match_any_word main_string patterns ignore_case))
  /\ (forall pre w rest,
        word_list = pre ++ w :: rest ->
        (forall x, x ∈ pre ->
           exists q, re_compile ignore_case x = Some q
                     /\ re_search ignore_case q main_string = false) ->
        match_any_word_full main_string word_list true ignore_case
        = match re_compile ignore_case w with
          | None => PatternError w
          | Some p =>
              if re_search ignore_case p main_string
              then Returned true
              else match_any_word_full main_string rest true ignore_case
          end).
Proof.
  split.
  - induction word_list as [|w rest IH]; intros patterns H; simpl in *.
    + injection H as <-. reflexivity.
    + destruct (re_compile ignore_case w) as [p|]; [|discriminate H].
      simpl in H.
      destruct (mapM (re_compile ignore_case) rest) as [ps|];
        [|discriminate H].
      injection H as <-. unfold match_any_word. simpl.
      destruct (re_search ignore_case p main_string); [reflexivity|].
      apply IH. reflexivity.
  - intros pre w rest -> Hpre.
    induction pre as [|x pre IH]; simpl; [reflexivity|].
    destruct (Hpre x) as (q & -> & ->); [left|].
    apply IH. intros y Hy. apply Hpre. right. exact Hy.
Qed.

(** ** [CommandLineOptions.__repr__] *)

Lemma ascii_compare_eq_l x y z :
  Ascii.compare x y = Eq -> Ascii.compare x z = Ascii.compare y z.
Proof. intros H. apply Ascii.compare_eq_iff in H. subst. reflexivity. Qed.

Lemma ascii_compare_eq_r x y z :
  Ascii.compare y z = Eq -> Ascii.compare x z = Ascii.compare x y.
Proof. intros H. apply Ascii.compare_eq_iff in H. subst. reflexivity. Qed.

Lemma ascii_compare_lt_trans x y z :
  Ascii.compare x y = Lt -> Ascii.compare y z = Lt ->
  Ascii.compare x z = Lt.
Proof.
  unfold Ascii.compare. rewrite !N.compare_lt_iff. apply N.lt_trans.
Qed.

Lemma string_leb_trans a : forall b c,
  String.leb a b = true -> String.leb b c = true -> String.leb a c = true.
Proof.
  unfold String.leb.
  induction a as [|x a IH]; intros [|y b] [|z c]; simpl;
    try reflexivity; try discriminate.
  destruct (Ascii.compare x y) eqn:E1; try discriminate;
    destruct (Ascii.compare y z) eqn:E2; try discriminate.
  - rewrite (ascii_compare_eq_l _ _ _ E1), E2. apply IH.
  - rewrite (ascii_compare_eq_l _ _ _ E1), E2. reflexivity.
  - rewrite (ascii_compare_eq_r _ _ _ E2), E1. reflexivity.
  - rewrite (ascii_compare_lt_trans _ _ _ E1 E2). reflexivity.
Qed.

#[local] Instance key_le_total : Total key_le.
Proof. intros a b. apply String.leb_total. Qed.

#[local] Instance key_le_transitive : Transitive key_le.
Proof. intros a b c. apply string_leb_trans. Qed.

#[local] Instance key_le_antisym : AntiSymm (=) key_le.
Proof. intros a b. apply String.leb_antisym. Qed.

Lemma sorted_keys_sorted keys :
  Sorted key_le (sorted_keys keys) /\ sorted_keys keys ≡ₚ keys.
Proof.
  split; [apply Sorted_merge_sort; apply _ | apply merge_sort_Permutation].
Qed.

Lemma sorted_keys_order keys keys' :
  keys ≡ₚ keys' -> sorted_keys keys' = sorted_keys keys.
Proof.
  intros Hp. apply (Sorted_unique key_le).
  - apply sorted_keys_sorted.
  - apply sorted_keys_sorted.
  - rewrite !(proj2 (sorted_keys_sorted _)). symmetry. exact Hp.
Qed.

Lemma max_charlen_order keys keys' :
  keys ≡ₚ keys' -> max_charlen keys' = max_charlen keys.
Proof.
  intros Hp. unfold max_charlen.
  destruct keys as [|k keys]; destruct keys' as [|k' keys'].
  - reflexivity.
  - apply Permutation_nil_l in Hp. discriminate Hp.
  - symmetry in Hp. apply Permutation_nil_l in Hp. discriminate Hp.
  - f_equal. apply max_list_with_Permutation_proper.
    apply Permutation_map. symmetry. exact Hp.
Qed.

Lemma getitem_order (d d' : dict value) k :
  NoDup (dkeys d) -> d ≡ₚ d' -> getitem d' k = getitem d k.
Proof.
  intros Hnd Hp.
  assert (NoDup (dkeys d')) as Hnd'.
  { unfold dkeys in *. rewrite <- Hp. exact Hnd. }
  unfold getitem. destruct (dget k d) as [v|] eqn:E.
  - apply dget_elem_of in E. rewrite Hp in E.
    rewrite (dget_NoDup _ _ _ Hnd' E). reflexivity.
  - destruct (dget k d') as [v'|] eqn:E'; [|reflexivity].
    apply dget_elem_of in E'. rewrite <- Hp in E'.
    rewrite (dget_NoDup _ _ _ Hnd E') in E. discriminate E.
Qed.

(** X18. [CommandLineOptions.__repr__] raises the [ValueError] of [max]
    exactly on the empty mapping; and on a mapping with distinct keys it
    does not depend on the order in which the keys were inserted. *)
Theorem repr_does_not_depend_on_order (h : gmap loc (list value))
    (d : dict value) :
  (CommandLineOptions_repr h d = None <-> d = [])
  /\ (forall d',
        NoDup (dkeys d) -> d ≡ₚ d' ->
        CommandLineOptions_repr h d' = CommandLineOptions_repr h d).
Proof.
  split.
  - unfold CommandLineOptions_repr. destruct d as [|[k v] d]; simpl.
    + tauto.
    + split; discriminate.
  - intros d' Hnd Hp. unfold CommandLineOptions_repr.
    assert (dkeys d ≡ₚ dkeys d') as Hk
      by (unfold dkeys; apply Permutation_map; exact Hp).
    rewrite (max_charlen_order _ _ Hk), (sorted_keys_order _ _ Hk).
    destruct (max_charlen (dkeys d)) as [w|]; [|reflexivity].
    f_equal. f_equal. apply map_ext. intros k. unfold repr_line.
    rewrite (getitem_order d d' k Hnd Hp). reflexivity.
Qed.

Lemma length_append_strings (a b : string) :
  String.length (a +:+ b) = String.length a + String.length b.
Proof.
  induction a as [|x a IH].
  - rewrite append_nil_l. reflexivity.
  - rewrite append_cons. simpl. rewrite IH. reflexivity.
Qed.

Lemma length_spaces n : String.length (spaces n) = n.
Proof. induction n as [|n IH]; simpl; [reflexivity | rewrite IH; reflexivity]. Qed.

Lemma length_ljust width s :
  String.length (ljust width s) = Nat.max width (String.length s).
Proof.
  unfold ljust. rewrite length_append_strings, length_spaces. lia.
Qed.

(** X19. The representation of a non-empty mapping has one line per key,
    the keys in the order of [sorted]; the key of every line is padded to
    the length of the longest key of the mapping (a length that some key
    has), so that the [" : "] of all the lines are at the same column; and
    the type name is padded to at least five characters. *)
Theorem repr_layout (h : gmap loc (list value))
    (k0 : string) (v0 : value) (d0 : dict value) :
  let d := (k0, v0) :: d0 in
  exists w keys,
    CommandLineOptions_repr h d
    = Some (String.concat newline (map (repr_line h d w) keys))
    /\ Sorted key_le keys /\ keys ≡ₚ dkeys d
    /\ (exists k, k ∈ dkeys d /\ String.length k = w)
    /\ forall k, k ∈ keys ->
         exists key_column type_column,
           repr_line h d w k
           = key_column +:+ " : " +:+ type_column +:+ " = "
             +:+ str_value h (getitem d k)
           /\ String.length key_column = w
           /\ key_column = k +:+ spaces (w - String.length k)
           /\ 5 <= String.length type_column
           /\ type_column
              = type_name (type_of (getitem d k))
                +:+ spaces (5 - String.length
                                  (type_name (type_of (getitem d k)))).
Proof.
  intros d.
  assert (dkeys d <> []) as Hne by discriminate.
  set (w := max_list (map String.length (dkeys d))).
  assert (max_charlen (dkeys d) = Some w) as Hw.
  { unfold max_charlen. destruct (dkeys d); [congruence | reflexivity]. }
  exists w, (sorted_keys (dkeys d)).
  split; [unfold CommandLineOptions_repr; rewrite Hw; reflexivity|].
  split; [apply sorted_keys_sorted|].
  split; [apply sorted_keys_sorted|].
  split.
  - assert (w ∈ map String.length (dkeys d)) as Hin.
    { apply max_list_elem_of. destruct (dkeys d); [congruence | discriminate]. }
    apply list_elem_of_In, in_map_iff in Hin as (k & Hk & Hin).
    exists k. split; [apply list_elem_of_In; exact Hin | exact Hk].
  - intros k Hk.
    rewrite (proj2 (sorted_keys_sorted _)) in Hk.
    assert (String.length k <= w) as Hle.
    { apply max_list_elem_of_le, list_elem_of_In, in_map,
        list_elem_of_In, Hk. }
    exists (ljust w k), (ljust 5 (type_name (type_of (getitem d k)))).
    split; [reflexivity|].
    split; [rewrite length_ljust; lia|].
    split; [reflexivity|].
    split; [rewrite length_ljust; lia | reflexivity].
Qed.

End OtherTheory.

(** * The call with the words of [tolerated_regexp] *)

Section WordsTheory.
Context `{rt0 : PyRuntime} `{txt : !PyText}.

Abbreviation WStore := (Store (rt := word_runtime)).

(** [match_any_word] on words returns what the search over the words
    gives, or ends with the error of a word that does not compile. *)
Lemma match_any_word_full_words (k : string) (ws : list string)
    (ignore_case : bool) :
  match_any_word_full (rt := rt0) k ws true ignore_case
  = Returned (match_any_word (rt := word_runtime) k ws ignore_case)
  \/ exists w,
       w ∈ ws /\ re_compile (rt := rt0) ignore_case w = None
       /\ match_any_word_full (rt := rt0) k ws true ignore_case
          = PatternError w.
Proof.
  induction ws as [|w ws IH]; [left; reflexivity|].
  cbn [match_any_word_full]. unfold match_any_word. cbn [existsb re_search].
  unfold word_runtime at 1. cbn [re_search].
  destruct (re_compile ignore_case w) as [p|] eqn:E.
  - destruct (re_search ignore_case p k) eqn:Es.
    + left. reflexivity.
    + destruct IH as [IH|(w' & Hin & Hc & IH)].
      * left. rewrite IH. reflexivity.
      * right. exists w'. split; [apply elem_of_cons; right; exact Hin|].
        split; assumption.
  - right. exists w. split; [apply elem_of_cons; left; reflexivity|].
    split; [exact E | reflexivity].
Qed.

Lemma agrees_of_block bad {A} (c : M WStore A) : agrees bad (of_block c) c.
Proof. intros s. left. reflexivity. Qed.

Lemma agrees_ret bad {A} (a : A) : agrees bad (ret_w a) (ret a).
Proof. intros s. left. reflexivity. Qed.

Lemma agrees_bind bad {A B} (cw : MW WStore A) (c : M WStore A)
    (kw : A -> MW WStore B) (k : A -> M WStore B) :
  agrees bad cw c ->
  (forall a, agrees bad (kw a) (k a)) ->
  agrees bad (bind_w cw kw) (bind c k).
Proof.
  intros Hc Hk s. unfold bind_w.
  destruct (Hc s) as [E|(w & s' & Hw & E)]; rewrite E.
  - unfold of_block, bind.
    destruct (c s) as [[a|e] s1]; [|left; reflexivity].
    destruct (Hk a s1) as [E1|(w & s' & Hw & E1)]; rewrite E1.
    + left. reflexivity.
    + right. eauto.
  - right. eauto.
Qed.

Lemma expected_type_of_words_agrees d (tol : bool) ws (we : bool) k :
  agrees (raising_word tol ws)
    (expected_type_of_words d tol ws we k)
    (expected_type_of (rt := word_runtime) d tol ws we k).
Proof.
  intros s. unfold expected_type_of_words, expected_type_of, tolerated.
  destruct (negb (dmem k d)); [|left; reflexivity].
  destruct tol; [left; reflexivity|]. cbn [orb].
  change (@length (@regexp (@word_runtime rt0 txt)) ws)
    with (@length string ws).
  destruct (0 <? length ws); [|left; reflexivity]. cbn [andb].
  destruct (match_any_word_full_words k ws false)
    as [E|(w & Hin & Hc & E)]; rewrite E.
  - destruct (match_any_word (rt := word_runtime) k ws false);
      left; reflexivity.
  - right. exists w, s. split; [|reflexivity].
    split; [exact Hin|]. split; [exact Hc | reflexivity].
Qed.

Lemma read_option_words_agrees d syn (tol : bool) ws (we : bool) al i
    next_ki :
  agrees (raising_word tol ws)
    (read_option_words d syn tol ws we al i next_ki)
    (read_option (rt := word_runtime) d syn tol ws we al i next_ki).
Proof.
  unfold read_option_words, read_option.
  apply agrees_bind; [apply agrees_of_block|]. intros bit.
  apply agrees_bind; [apply expected_type_of_words_agrees|]. intros t.
  apply agrees_bind; [apply agrees_of_block|]. intros v.
  apply agrees_ret.
Qed.

Lemma main_loop_words_agrees d syn (tol : bool) ws (we : bool) al :
  forall indices previous opt,
    agrees (raising_word tol ws)
      (main_loop_words d syn tol ws we al previous indices opt)
      (main_loop (rt := word_runtime) d syn tol ws we al previous indices
         opt).
Proof.
  induction indices as [|i rest IH]; intros previous opt;
    cbn [main_loop_words main_loop].
  - apply agrees_ret.
  - apply agrees_bind; [apply agrees_of_block|]. intros _.
    apply agrees_bind; [apply read_option_words_agrees|]. intros kv.
    apply IH.
Qed.

(** A block that leaves the words where they are. *)
Lemma step_agrees {A B} (tol : bool) (c : M WStore A)
    (kw : A -> MW WStore B) (k : A -> M WStore B) (s : WStore) :
  (forall s0, tolerated_regexp_obj (snd (c s0)) = tolerated_regexp_obj s0) ->
  (forall a s',
     kw a s' = of_block (k a) s'
     \/ exists w s'',
          raising_word tol (tolerated_regexp_obj s') w
          /\ kw a s' = (Raises (ReError w), s'')) ->
  bind_w (of_block c) kw s = of_block (bind c k) s
  \/ exists w s'',
       raising_word tol (tolerated_regexp_obj s) w
       /\ bind_w (of_block c) kw s = (Raises (ReError w), s'').
Proof.
  intros Hkeep Hk. specialize (Hkeep s). unfold bind_w, of_block, bind.
  destruct (c s) as [[a|e] s1]; [|left; reflexivity].
  simpl in Hkeep. rewrite <- Hkeep.
  destruct (Hk a s1) as [E|(w & s' & Hw & E)]; rewrite E.
  - left. reflexivity.
  - right. eauto.
Qed.

Lemma step_gets {A B} (tol : bool) (f : WStore -> A)
    (kw : A -> MW WStore B) (k : A -> M WStore B) (s : WStore) :
  (kw (f s) s = of_block (k (f s)) s
   \/ exists w s'',
        raising_word tol (tolerated_regexp_obj s) w
        /\ kw (f s) s = (Raises (ReError w), s'')) ->
  bind_w (of_block (gets f)) kw s = of_block (bind (gets f) k) s
  \/ exists w s'',
       raising_word tol (tolerated_regexp_obj s) w
       /\ bind_w (of_block (gets f)) kw s = (Raises (ReError w), s'').
Proof. intros H. exact H. Qed.

Lemma keeps_words {A} (c : M WStore A) :
  preserving c ->
  forall s0, tolerated_regexp_obj (snd (c s0)) = tolerated_regexp_obj s0.
Proof. intros H s0. destruct (H s0) as (_ & _ & _ & Hw & _). exact Hw. Qed.

Lemma parse_command_line_words_agrees (tol we : bool) (s : WStore) :
  parse_command_line_words tol we s
  = of_block (parse_command_line tol we) s
  \/ exists w s',
       raising_word tol (tolerated_regexp_obj s) w
       /\ parse_command_line_words tol we s = (Raises (ReError w), s').
Proof.
  unfold parse_command_line_words, parse_command_line.
  apply step_agrees; [reflexivity|]. intros caller_default_opt s1.
  cbv zeta.
  apply step_agrees; [reflexivity|]. intros argv s2.
  apply step_agrees; [reflexivity|]. intros _ s3.
  apply step_agrees; [reflexivity|]. intros synonyms s4.
  apply step_agrees;
    [apply keeps_words, preserving_check_default_opt|]. intros _ s5.
  apply step_agrees; [reflexivity|]. intros positional_keys s6.
  apply step_agrees;
    [apply keeps_words, preserving_check_positional_keys|]. intros _ s7.
  apply step_agrees; [reflexivity|]. intros positionals s8.
  apply step_agrees.
  { apply keeps_words. destruct positionals as [[[tag from_here] up_to]|].
    - apply preserving_insert_positionals.
    - apply preserving_ret. }
  intros arglist s9.
  apply step_gets.
  refine (agrees_bind (raising_word tol (tolerated_regexp_obj s9)) _ _ _ _
            _ _ s9).
  - apply main_loop_words_agrees.
  - intros opt. apply agrees_of_block.
Qed.

Lemma command_line_options_words_agrees help (tol we : bool) adv
    (s : WStore) :
  command_line_options_words help tol we adv s
  = of_block (command_line_options help tol we adv) s
  \/ exists w s',
       raising_word tol (tolerated_regexp_obj s) w
       /\ command_line_options_words help tol we adv s
          = (Raises (ReError w), s').
Proof.
  unfold command_line_options_words, command_line_options.
  unfold bind_w.
  destruct (parse_command_line_words_agrees tol we s)
    as [E|(w & s' & Hw & E)]; rewrite E.
  - left. unfold of_block, bind.
    destruct (parse_command_line tol we s) as [[opt|e] s1]; reflexivity.
  - right. eauto.
Qed.

(** X6. The call on the words of [tolerated_regexp]. When every word is
    a valid pattern, the call does what [command_line_options] does with
    the compiled patterns. In general, when every list default of the
    schema is a list object, a call that does not return exits (line
    319), or raises a [CommandLineError], which is an error of the
    schema (lines 169-177) only if the schema is not valid; or the
    [NameError] of line 313, when the caller's schema gives [h] a string
    default and some advanced help message is passed; or the [TypeError]
    of the membership test of line 312, when it gives [h] a list default
    and some advanced help message is passed; or [re.error], for a word
    of [tolerated_regexp] that is not a valid pattern, and only without
    [tolerate_extra]. It raises nothing else: no index of the function
    is out of range. *)
Theorem exceptions_of_a_call_on_words help (tol we : bool) adv
    (s : WStore) :
  (Forall (fun w => is_Some (re_compile (rt := rt0) false w))
          (tolerated_regexp_obj s) ->
   command_line_options_words help tol we adv s
   = of_block (command_line_options help tol we adv) s)
  /\ (forall e s',
        live_defaults s = true ->
        command_line_options_words help tol we adv s = (Raises e, s') ->
        e = Exn SystemExit
        \/ (exists c, e = Exn (CommandLineError c)
                      /\ (schema_error c = true -> valid_schema s = false))
        \/ (e = Exn (NameError "advanced")
            /\ help_type s = TStr /\ adv <> [])
        \/ (e = Exn TypeError /\ help_type s = TList /\ adv <> [])
        \/ (exists w,
              e = ReError w
              /\ w ∈ tolerated_regexp_obj s
              /\ re_compile (rt := rt0) false w = None
              /\ tol = false)).
Proof.
  split.
  - intros Hall.
    destruct (command_line_options_words_agrees help tol we adv s)
      as [E|(w & s' & (Hin & Hc & _) & _)]; [exact E|].
    rewrite Forall_forall in Hall. destruct (Hall w Hin) as [p Hp].
    congruence.
  - intros e s' Hlive Hcall.
    destruct (command_line_options_words_agrees help tol we adv s)
      as [E|(w & s1 & (Hin & Hc & Htol) & E)]; rewrite E in Hcall.
    + unfold of_block in Hcall.
      destruct (command_line_options help tol we adv s) as [[opt|e0] s1]
        eqn:Hmodel; [discriminate Hcall|].
      injection Hcall as <- <-.
      destruct (exceptions_of_a_call help tol we adv s e0 s1 Hlive Hmodel)
        as [->|[(c & -> & Hc)|[(-> & Hh)|(-> & Hh)]]].
      * left. reflexivity.
      * right. left. eauto.
      * right. right. left. split; [reflexivity | exact Hh].
      * right. right. right. left. split; [reflexivity | exact Hh].
    + injection Hcall as <- <-. right. right. right. right.
      exists w. auto.
Qed.

End WordsTheory.

(** * Closed instances *)

Section Instances.
#[local] Existing Instance basic_runtime.

(** [script.py in out -k 10], with a list default in the schema. *)
Lemma clean_command_line_parses_witness :
  let s := caller_state (io_schema ++ [("files", VList 1%positive)]) []
             ["i"; "o"] ["in"; "out"; "-k"; "10"] flag_lists in
  exists opt s1,
    command_line_options "usage" false true [] s = (Ok opt, s1)
    /\ NoDup (dkeys opt)
    /\ (forall k, k ∈ dkeys opt <-> k ∈ dkeys (schema_of s))
    /\ "h" ∈ dkeys opt /\ "print_opt" ∈ dkeys opt
    /\ (forall k v,
          dget k (schema_of s) = Some v -> not_given s k ->
          match v with
          | VList l =>
              exists l' xs,
                dget k opt = Some (VList l') /\ l' <> l
                /\ lists s !! l = Some xs /\ lists s1 !! l' = Some xs
          | _ => dget k opt = Some v
          end)
    /\ (forall k l',
          dget k opt = Some (VList l') ->
          lists s !! l' = None /\ is_Some (lists s1 !! l')
          /\ forall ys l xs,
               lists s !! l = Some xs ->
               (<[l' := ys]> (lists s1)) !! l = Some xs)
    /\ exists opt2 s2,
         command_line_options "usage" false true [] s1 = (Ok opt2, s2)
         /\ equal_mappings (lists s2) opt opt2
         /\ forall k1 l1 k2 l2,
              dget k1 opt = Some (VList l1) ->
              dget k2 opt2 = Some (VList l2) -> l1 <> l2.
Proof.
  intros s. apply clean_command_line_parses; vm_compute; reflexivity.
Defined.

(** [script.py -k 4 in]: one token is left after the argument of the
    last option, and it is taken as a positional argument. *)
Lemma after_region_with_one_token_left :
  let al := ["-k"; "4"; "in"] in
  after_start (with_builtins io_schema) al = Some 2
  /\ after_region (with_builtins io_schema) al = ["in"]
  /\ fst (command_line_options "usage" false true []
            (caller_state io_schema [] ["i"; "o"] al ∅))
     = Ok [("k", VInt 4); ("i", VStr "in"); ("o", VStr ""); ("s", VStr "");
           ("h", VBool false); ("print_opt", VBool false)].
Proof. intros al. split; [|split]; reflexivity. Qed.

(** [script.py -k 4 in out]. *)
Lemma after_region_rule_witness :
  let d := with_builtins io_schema in
  let al := ["-k"; "4"; "in"; "out"] in
  (exists from_here, after_start d al = Some from_here)
  <-> 0 + 2 < length al /\ last_key_type d "-k" <> TList.
Proof.
  intros d al.
  refine (proj1 (after_region_rule d al 0 "-k" _ _ _)); reflexivity.
Defined.

(** [script.py in -k 1 out]. *)
Lemma positionals_before_and_after_fatal_witness :
  let s := caller_state io_schema [] ["i"; "o"] ["in"; "-k"; "1"; "out"] ∅ in
  command_line_options "usage" false true [] s
  = (Raise (CommandLineError BeforeOrAfter), entered s).
Proof.
  intros s. apply positionals_before_and_after_fatal.
  - vm_compute. reflexivity.
  - vm_compute. discriminate.
  - vm_compute. discriminate.
Defined.

(** [script.py -s -a] for the assignment [s = "-a"]: the literal is read
    as an option key, and [-s] is left without argument. *)
Lemma marker_like_string_not_read_back :
  let asg := [("s", VStr "-a")] in
  let s := caller_state [("s", VStr "")] [] [] (canonical_tokens asg) ∅ in
  tokens_of s = ["-s"; "-a"]
  /\ command_line_options "usage" false true [] s
     = (Raise (CommandLineError (NoArgument TStr "s")), entered s).
Proof. intros asg s. split; reflexivity. Qed.

Ltac carried_entry :=
  split; [eexists; split; reflexivity|];
  split; [reflexivity|]; split; [reflexivity|]; split; [reflexivity|];
  split; [reflexivity|]; first [exact I | reflexivity].

(** [script.py -i in -o out -k 10 -flag 1]. *)
Lemma canonical_command_line_round_trip_witness :
  let asg := [("i", VStr "in"); ("o", VStr "out"); ("k", VInt 10);
              ("flag", VBool true)] in
  let s := caller_state (io_schema ++ [("flag", VBool false)]) []
             ["i"; "o"] (canonical_tokens asg) ∅ in
  exists opt s1,
    command_line_options "usage" false true [] s = (Ok opt, s1)
    /\ forall k v, dget k asg = Some v -> dget k opt = Some v.
Proof.
  intros asg s. apply canonical_command_line_round_trip.
  - apply NoDup_ListNoDup. vm_compute. repeat constructor; simpl; intuition discriminate.
  - vm_compute. reflexivity.
  - vm_compute. reflexivity.
  - vm_compute. reflexivity.
  - apply NoDup_ListNoDup. vm_compute. repeat constructor; simpl; intuition discriminate.
  - intros k v Hin.
    repeat (apply elem_of_cons in Hin as [Hin|Hin];
            [injection Hin as -> ->; carried_entry|]).
    inversion Hin.
  - vm_compute. reflexivity.
Defined.

(** [script.py -n 8] with [tolerate_extra]: [n] is not in the schema. *)
Lemma unknown_option_policy_witness :
  let s := caller_state io_schema [] ["i"; "o"] ["-n"; "8"] ∅ in
  read_option (schema_of s) (synonyms_of s) true [] true ["-n"; "8"] 0 None s
  = (Ok ("n", VStr "8"), add_warning (AcceptingUnexpectedOption "n") s).
Proof.
  intros s.
  destruct (unknown_option_policy (schema_of s) (synonyms_of s) true []
              true ["-n"; "8"] [] 0 [] "-n" "n" s
              eq_refl eq_refl eq_refl eq_refl) as [H _].
  destruct (H (or_introl eq_refl)) as (_ & H2 & _).
  apply H2; reflexivity.
Defined.

(** After a call with no synonyms, the caller's synonym dict holds
    [help -> h]. *)
Lemma synonyms_object_updated :
  let s := caller_state io_schema [] ["i"; "o"] ["-k"; "1"] ∅ in
  synonyms_obj s = []
  /\ synonyms_obj (snd (command_line_options "usage" false true [] s))
     = [("help", "h")].
Proof. intros s. split; reflexivity. Qed.

(** [script.py -h map], the schema not defining [h]. *)
Lemma builtin_help_is_boolean_witness :
  let s := caller_state io_schema [] ["i"; "o"] ["-h"; "map"] ∅ in
  read_option (schema_of s) (synonyms_of s) false [] true ["-h"; "map"] 0
    None s
  = (Raise (CommandLineError (BadBoolean "h" "map")), s).
Proof.
  intros s.
  destruct (builtin_help_is_boolean "usage" false true
              [("map", "map message")] s eq_refl) as (_ & _ & H).
  apply (H [] ["-h"; "map"] 0 None "-h" "map" s); try reflexivity;
    discriminate.
Defined.

End Instances.

(** * Closed instances of the further properties *)

Section MoreInstances.
#[local] Existing Instance basic_runtime.

(** A schema whose list default [files] holds the integer 3, after a
    valid default: the error names [files], whatever the command line
    (here a request for help). *)
Lemma invalid_default_rejected_witness :
  let s := caller_state [("i", VStr ""); ("files", VList 1%positive)] []
             [] ["-h"] mixed_lists in
  command_line_options "usage" false true [] s
  = (Raise (CommandLineError (BadListDefault "files")), entered s).
Proof.
  intros s.
  apply (invalid_default_rejected "usage" false true [] s
           [("i", VStr "")] "files" (VList 1%positive)
           [("h", VBool false); ("print_opt", VBool false)]).
  - reflexivity.
  - reflexivity.
  - reflexivity.
  - intros l [= <-]. eexists. reflexivity.
Defined.

(** The schema of the first example of the docstring holds [i] and [o];
    a schema without them, called with the default positional keys. *)
Lemma absent_positional_keys_rejected_witness :
  let s := caller_state [("param", VInt 3); ("files", VList 1%positive)] []
             default_positional_keys ["-param"; "1"] flag_lists in
  command_line_options "usage" false true [] s
  = (Raise (CommandLineError (AbsentPositionalKeys ["i"; "o"])), entered s).
Proof.
  intros s.
  apply (absent_positional_keys_rejected "usage" false true [] s).
  - reflexivity.
  - discriminate.
Defined.

(** [script.py -files a b -n 8] under [tolerate_extra]: [n] is not in
    the schema. *)
Lemma result_follows_the_schema_witness :
  let s := caller_state flag_schema [] [] ["-files"; "a"; "b"; "-n"; "8"]
             flag_lists in
  let r := command_line_options "usage" true true [] s in
  let opt := match fst r with Ok opt => opt | Raise _ => [] end in
  dkeys opt = ["files"; "n"; "flag"; "k"; "h"; "print_opt"]
  /\ (forall k l, dget k opt = Some (VList l) ->
        lists s !! l = None
        /\ exists xs, lists (snd r) !! l = Some xs
                      /\ forallb is_str xs = true)
  /\ dget "h" opt = Some (VBool false).
Proof.
  intros s r opt.
  destruct (result_follows_the_schema "usage" true true [] s opt (snd r)
              eq_refl) as (_ & _ & _ & Hlists & _ & Hh).
  split; [reflexivity|]. split; [exact Hlists|]. apply Hh. reflexivity.
Defined.

(** [script.py a b c] with the positional keys [i] and [o]. *)
Lemma extra_positional_arguments_fatal_witness :
  let s := caller_state io_schema [] ["i"; "o"] ["a"; "b"; "c"] ∅ in
  command_line_options "usage" false true [] s
  = (Raise (CommandLineError (ExtraArgument ["c"])), entered s).
Proof.
  intros s.
  exact (extra_positional_arguments_fatal "usage" true [] s
           eq_refl eq_refl eq_refl).
Defined.

(** [script.py a b c -k 1] with the positional keys [i] and [o], under
    [tolerate_extra]. *)
Lemma extra_positional_arguments_tolerated_witness :
  let s := caller_state io_schema [] ["i"; "o"] ["a"; "b"; "c"; "-k"; "1"] ∅ in
  insert_positionals (schema_of s) true ["i"; "o"]
    ["a"; "b"; "c"; "-k"; "1"] 0 (Some 3) s
  = (Ok ["-i"; "a"; "-o"; "b"; "c"; "-k"; "1"],
     add_warning (IgnoringExtraArgument ["b"; "c"]) s).
Proof.
  intros s.
  refine (proj1 (extra_positional_arguments_tolerated (schema_of s)
                   ["i"; "o"] ["a"; "b"; "c"; "-k"; "1"] 0 (Some 3) s _ _)).
  - simpl. lia.
  - reflexivity.
Defined.

(** [script.py -f a b c] where [f] is a synonym of the key [files], of
    type list: [b] and [c] are taken as positional arguments. *)
Lemma last_option_not_a_schema_key_witness :
  let d := with_builtins flag_schema in
  let al := ["-f"; "a"; "b"; "c"] in
  resolve_key [("f", "files")] "-f" = "files"
  /\ after_start d al = Some 2
  /\ after_region d al = ["b"; "c"].
Proof.
  intros d al. split; [reflexivity|].
  destruct (last_option_not_a_schema_key d al 0 "-f" eq_refl eq_refl eq_refl)
    as (H1 & H2 & _).
  split; [exact H1 | exact H2].
Defined.

(** [script.py -k 1 -k 2]. *)
Lemma last_occurrence_wins_witness :
  let s := caller_state io_schema [] ["i"; "o"] ["-k"; "1"; "-k"; "2"] ∅ in
  exists opt s1 v,
    command_line_options "usage" false true [] s = (Ok opt, s1)
    /\ dget "k" opt = Some v
    /\ content_of (lists s1) v = CVal (VInt 2).
Proof.
  intros s.
  apply (last_occurrence_wins "usage" false true [] s
           [mkOccurrence None 0 "k" (Some 2)]
           (mkOccurrence (Some (0, "k")) 2 "k" None) []);
    try (vm_compute; reflexivity).
  intros o' Ho'. inversion Ho'.
Defined.

(** [script.py -h map], the schema giving [h] a string default. *)
Lemma advanced_help_raises_name_error_witness :
  let asg := [("h", VStr "map")] in
  let s := caller_state [("h", VStr "")] [] [] (canonical_tokens asg) ∅ in
  exists s1,
    command_line_options "usage" false true [("map", "map message")] s
    = (Raise (NameError "advanced"), s1)
    /\ written s1 = written s ++ [OutText "usage"].
Proof.
  intros asg s.
  apply (advanced_help_raises_name_error "usage" false true
           [("map", "map message")] s asg "map").
  - vm_compute. reflexivity.
  - reflexivity.
  - apply NoDup_ListNoDup. vm_compute. repeat constructor; simpl; tauto.
  - intros k v Hin. apply elem_of_cons in Hin as [Hin|Hin]; [|inversion Hin].
    injection Hin as -> ->.
    split; [eexists; split; reflexivity|].
    split; [reflexivity|]. split; [reflexivity|]. split; [reflexivity|].
    split; [reflexivity | exact I].
  - reflexivity.
  - discriminate.
  - reflexivity.
Defined.

(** [script.py in out] with the positional keys [i] and [o]. *)
Lemma positional_arguments_bound_witness :
  let s := caller_state io_schema [] ["i"; "o"] ["in"; "out"] ∅ in
  exists opt s1,
    command_line_options "usage" false true [] s = (Ok opt, s1)
    /\ forall i k t,
         ["i"; "o"] !! i = Some k -> ["in"; "out"] !! i = Some t ->
         dget k opt = Some (VStr t).
Proof.
  intros s.
  apply (positional_arguments_bound "usage" false true [] s).
  - vm_compute. reflexivity.
  - discriminate.
  - vm_compute. reflexivity.
  - simpl. lia.
  - apply NoDup_ListNoDup. vm_compute.
    repeat constructor; simpl; intuition discriminate.
  - intros k Hk.
    repeat (apply elem_of_cons in Hk as [Hk|Hk];
            [subst k; repeat split; try reflexivity; discriminate|]).
    inversion Hk.
  - reflexivity.
Defined.

(** [script.py -help 0], the schema defining a key [help]: the option
    sets [h], and [help] keeps its default. *)
Lemma synonym_shadows_key_witness :
  let s := caller_state [("help", VStr "manual")] [] [] ["-help"; "0"] ∅ in
  let r := command_line_options "usage" false true [] s in
  let opt := match fst r with Ok opt => opt | Raise _ => [] end in
  dget "h" opt = Some (VBool false)
  /\ exists v, dget "help" opt = Some v
               /\ content_of (lists (snd r)) v = CVal (VStr "manual").
Proof.
  intros s r opt. split; [reflexivity|].
  apply (synonym_shadows_key "usage" false true [] s "help"
           (VStr "manual") opt (snd r)).
  - reflexivity.
  - intros a. change (dget a [("help", "h")] <> Some "help").
    unfold dget. destruct (String.eqb "help" a); discriminate.
  - reflexivity.
  - reflexivity.
Defined.

(** [script.py], with a list default in the schema. *)
Lemma empty_command_line_gives_defaults_witness :
  let s := caller_state flag_schema [] [] [] flag_lists in
  exists opt s1,
    command_line_options "usage" false true [] s = (Ok opt, s1)
    /\ view (lists s1) opt
       = [("flag", CVal (VBool false)); ("files", CList [VStr "default.txt"]);
          ("k", CVal (VInt 0)); ("h", CVal (VBool false));
          ("print_opt", CVal (VBool false))]
    /\ new_lists s s1 opt.
Proof.
  intros s.
  exact (empty_command_line_gives_defaults "usage" false true [] s
           eq_refl eq_refl eq_refl).
Defined.

End MoreInstances.

(** * Closed instances: the options of the call *)

Section OptionInstances.
#[local] Existing Instance basic_runtime.

(** [script.py -flag a b] with the positional keys [i] and [o]: the
    boolean option is followed by a token that is neither "0" nor "1",
    and the call returns; [a] and [b] are the positional arguments and
    [flag] is True. *)
Lemma boolean_followed_by_positionals :
  let s := caller_state io_flag_schema [] ["i"; "o"] ["-flag"; "a"; "b"] ∅ in
  tokens_of s = ["-flag"; "a"; "b"]
  /\ main_tokens s = ["-flag"; "-i"; "a"; "-o"; "b"]
  /\ fst (command_line_options "usage" false true [] s)
     = Ok [("flag", VBool true); ("i", VStr "a"); ("o", VStr "b");
           ("s", VStr ""); ("k", VInt 5); ("h", VBool false);
           ("print_opt", VBool false)].
Proof. intros s. split; [|split]; reflexivity. Qed.

(** [script.py -flag -s x] and [script.py -flag maybe], the default of
    [flag] being False; [script.py -flag 0 -s x], its default being
    True; [script.py -flag -k]. *)
Lemma boolean_and_missing_arguments_witness :
  let given := caller_state io_flag_schema [] ["i"; "o"] in
  let given_true :=
    caller_state (io_schema ++ [("flag", VBool true)]) [] ["i"; "o"] in
  (exists opt s1,
     command_line_options "usage" false true []
       (given ["-flag"; "-s"; "x"] ∅) = (Ok opt, s1)
     /\ dget "flag" opt = Some (VBool true))
  /\ (exists opt s1,
        command_line_options "usage" false true []
          (given_true ["-flag"; "0"; "-s"; "x"] ∅) = (Ok opt, s1)
        /\ dget "flag" opt = Some (VBool false))
  /\ (exists s1,
        command_line_options "usage" false true []
          (given ["-flag"; "maybe"] ∅)
        = (Raise (CommandLineError (BadBoolean "flag" "maybe")), s1)
        /\ warned s1 = [] /\ written s1 = [])
  /\ (exists s1,
        command_line_options "usage" false true [] (given ["-flag"; "-k"] ∅)
        = (Raise (CommandLineError (NoArgument TInt "k")), s1)
        /\ warned s1 = [] /\ written s1 = []).
Proof.
  intros given given_true. split; [|split; [|split]].
  - destruct (boolean_and_missing_arguments "usage" false true []
                (given ["-flag"; "-s"; "x"] ∅) []
                (mkOccurrence None 0 "flag" (Some 1))
                [mkOccurrence (Some (0, "flag")) 1 "s" None]
                eq_refl eq_refl eq_refl eq_refl eq_refl) as [H _].
    destruct (H false eq_refl) as (H1 & _).
    apply H1.
    + left. right. exists "-s". split; reflexivity.
    + split; [reflexivity|]. split; [reflexivity|]. split; [|reflexivity].
      intros o' Ho'. apply list_elem_of_singleton in Ho' as ->. discriminate.
  - destruct (boolean_and_missing_arguments "usage" false true []
                (given_true ["-flag"; "0"; "-s"; "x"] ∅) []
                (mkOccurrence None 0 "flag" (Some 2))
                [mkOccurrence (Some (0, "flag")) 2 "s" None]
                eq_refl eq_refl eq_refl eq_refl eq_refl) as [H _].
    destruct (H true eq_refl) as (_ & H0 & _).
    apply H0; [reflexivity|].
    split; [reflexivity|]. split; [reflexivity|]. split; [|reflexivity].
    intros o' Ho'. apply list_elem_of_singleton in Ho' as ->. discriminate.
  - destruct (boolean_and_missing_arguments "usage" false true []
                (given ["-flag"; "maybe"] ∅) []
                (mkOccurrence None 0 "flag" None) []
                eq_refl eq_refl eq_refl eq_refl eq_refl) as [H _].
    destruct (H false eq_refl) as (_ & _ & Hbad).
    apply (Hbad "maybe"); [reflexivity | reflexivity | discriminate
                           | discriminate].
  - destruct (boolean_and_missing_arguments "usage" false true []
                (given ["-flag"; "-k"] ∅)
                [mkOccurrence None 0 "flag" (Some 1)]
                (mkOccurrence (Some (0, "flag")) 1 "k" None) []
                eq_refl eq_refl eq_refl eq_refl eq_refl) as (_ & H & _).
    apply (H (VInt 5)); [reflexivity | left; reflexivity
                         | left; reflexivity].
Defined.

(** [script.py -flag x y -k 7] under [tolerate_extra]: the tokens [x y]
    lie between the boolean option and the next one; the call raises
    the error of line 293 for the first, no warning is given and nothing
    is skipped. *)
Lemma tokens_after_boolean_not_tolerated :
  let s := caller_state flag_schema [] [] ["-flag"; "x"; "y"; "-k"; "7"]
             flag_lists in
  command_line_options "usage" true true [] s
  = (Raise (CommandLineError (BadBoolean "flag" "x")), entered s).
Proof. intros s. reflexivity. Qed.

(** [script.py -s 8 x y -k 7], without and with [tolerate_extra]. *)
Lemma tokens_between_options_witness :
  let s := caller_state io_schema [] ["i"; "o"]
             ["-s"; "8"; "x"; "y"; "-k"; "7"] ∅ in
  (exists s1,
     command_line_options "usage" false true [] s
     = (Raise (CommandLineError (ExtraArgument ["x"; "y"])), s1)
     /\ warned s1 = [] /\ written s1 = [])
  /\ (exists opt s1,
        command_line_options "usage" true true [] s = (Ok opt, s1)
        /\ view (lists s1) opt
           = [("s", CVal (VStr "8")); ("k", CVal (VInt 7));
              ("i", CVal (VStr "")); ("o", CVal (VStr ""));
              ("h", CVal (VBool false)); ("print_opt", CVal (VBool false))]
        /\ warned s1 = [IgnoringExtraArgument ["x"; "y"]]).
Proof.
  intros s. split.
  - destruct (tokens_between_options "usage" false true [] s
                [mkOccurrence None 0 "s" (Some 4)]
                (mkOccurrence (Some (0, "s")) 4 "k" None) []
                eq_refl eq_refl eq_refl eq_refl (or_intror eq_refl) eq_refl)
      as (_ & H & _).
    apply H. reflexivity.
  - destruct (tokens_between_options "usage" true true [] s
                [mkOccurrence None 0 "s" (Some 4)]
                (mkOccurrence (Some (0, "s")) 4 "k" None) []
                eq_refl eq_refl eq_refl eq_refl (or_introl eq_refl) eq_refl)
      as (_ & _ & H).
    destruct (H eq_refl eq_refl eq_refl) as (opt & s1 & Hcall & Hview & Hw & _).
    exists opt, s1. split; [exact Hcall|]. split; [exact Hview | exact Hw].
Defined.

(** C5. [script.py -f a b c] where [f] is a synonym of the list key
    [files], with the positional keys [i] and [o]: no option key follows
    [-f] on the command line, and the call binds [files] to a list that
    holds [a] alone, not [a], [b] and [c]; [b] and [c] are taken as the
    positional arguments [i] and [o]. *)
Lemma list_option_through_synonym :
  let s := caller_state (io_schema ++ [("files", VList 1%positive)])
             [("f", "files")] ["i"; "o"] ["-f"; "a"; "b"; "c"] flag_lists in
  tokens_of s = ["-f"; "a"; "b"; "c"]
  /\ opt_key_indices (tokens_of s) = [0]
  /\ resolve_key (synonyms_of s) "-f" = "files"
  /\ exists opt s1 v,
       command_line_options "usage" false true [] s = (Ok opt, s1)
       /\ dget "files" opt = Some v
       /\ content_of (lists s1) v = CList [VStr "a"]
       /\ dget "i" opt = Some (VStr "b")
       /\ dget "o" opt = Some (VStr "c").
Proof.
  intros s. split; [reflexivity|]. split; [reflexivity|].
  split; [reflexivity|].
  destruct (call_tolerant "usage" false true [] s eq_refl eq_refl eq_refl
              (or_intror eq_refl) eq_refl)
    as (opt & s1 & Hcall & _ & _ & Hview & _).
  assert (forall k c, dget k (expected_result s) = Some c ->
            exists v, dget k opt = Some v /\ content_of (lists s1) v = c)
    as Hget.
  { intros k c Hk. rewrite <- Hview in Hk. apply dget_of_view. exact Hk. }
  destruct (Hget "files" (CList [VStr "a"]) eq_refl) as (v & Hv & Hc).
  destruct (Hget "i" (CVal (VStr "b")) eq_refl) as (vi & Hi & Hci).
  destruct (Hget "o" (CVal (VStr "c")) eq_refl) as (vo & Ho & Hco).
  exists opt, s1, v. split; [exact Hcall|]. split; [exact Hv|].
  split; [exact Hc|].
  apply (content_of_scalar _ (VStr "b")) in Hci; [|reflexivity].
  apply (content_of_scalar _ (VStr "c")) in Hco; [|reflexivity].
  subst vi vo. split; assumption.
Qed.


End OptionInstances.

(** ** The call with the words of [tolerated_regexp] *)

Section WordInstances.
#[local] Existing Instance basic_word_runtime.

(** [script.py -x] with [tolerated_regexp=['(']]: [x] is not in the
    schema, and the word is not a valid pattern. *)
Lemma exceptions_of_a_call_on_words_witness :
  let s := caller_state_words [("k", VInt 5)] [] [] ["("] ["-x"] ∅ in
  let e := ReError "(" in
  command_line_options_words (rt0 := basic_runtime) (txt := basic_text)
    "usage" false true [] s = (Raises e, entered s)
  /\ (e = Exn SystemExit
      \/ (exists c, e = Exn (CommandLineError c)
                    /\ (schema_error c = true -> valid_schema s = false))
      \/ (e = Exn (NameError "advanced")
          /\ help_type s = TStr /\ ([] : dict string) <> [])
      \/ (e = Exn TypeError /\ help_type s = TList /\ ([] : dict string) <> [])
      \/ (exists w,
            e = ReError w
            /\ w ∈ tolerated_regexp_obj s
            /\ re_compile (rt := basic_runtime) (PyText := basic_text)
                 false w = None
            /\ false = false)).
Proof.
  intros s e. split; [reflexivity|].
  apply (proj2 (exceptions_of_a_call_on_words
                  (rt0 := basic_runtime) (txt := basic_text)
                  "usage" false true [] s) e (entered s));
    reflexivity.
Defined.

End WordInstances.
